(** * Poisson surface reconstruction: a shallow embedding of the solver core

    The development follows the four source files
    [Src/Array.inl], [Src/Vector.inl], [Src/SparseMatrix.inl] and
    [Src/MultiGridOctreeData.inl].

    Conventions of the embedding.
    - [Real] and [double] values are idealised as exact rationals ([Qc], the
      canonical rationals, so that equality of values is Leibniz equality).
      Rounding is therefore absent.  Where the source may divide by zero and
      the result matters the quotient is taken with [fdiv], which yields
      [None] for the IEEE non-finite results (infinity, NaN).
    - [int] and [long long] values are integers in [Z]; positions in arrays
      are natural numbers.  Node counts are assumed to stay below [2^31].
    - A [TreeOctNode*] is the path of child indices leading from the root to
      the node; the octree itself is an inductive value.
    - OpenMP loops are run in index order: every parallel loop of the source
      writes disjoint data or accumulates with an atomic addition. *)

From Stdlib Require Import ZArith QArith Qcanon Lia Lqa List Bool.
From stdpp Require Import base list functions.

Local Open Scope Z_scope.


(* ===================================================================== *)
(** * Src/Array.inl *)
(* ===================================================================== *)

Module ArrayInl.

(** The range of [long long]. *)
Definition LLONG_MIN : Z := - 2 ^ 63.
Definition LLONG_MAX : Z := 2 ^ 63 - 1.

Definition fits_long_long (z : Z) : bool :=
  (LLONG_MIN <=? z) && (z <=? LLONG_MAX).

(** [(long long) size] for a [size_t] value. *)
Definition to_long_long (size : Z) : Z :=
  if size <=? LLONG_MAX then size else size - 2 ^ 64.

(** [class Array]: the pointer [data] is an address counted in elements
    of type [C]; [min] and [max] delimit the indices that may be used
    relative to [data]. *)
Record Array : Type := mkArray { data : Z; min : Z; max : Z }.

(** What [_assertBounds] prints on [std::cerr] before [ASSERT(0); exit(0)]. *)
Inductive diagnostic : Type :=
| IndexOutOfBounds (lo idx hi : Z).

(** A call either returns or terminates the process after a diagnostic. *)
Inductive outcome (A : Type) : Type :=
| Returns (a : A)
| Exits (d : diagnostic).
Arguments Returns {A} a.
Arguments Exits {A} d.

(** [Array()] *)
Definition Array_ : Array := mkArray 0 0 0.

(** [Array::New(size)] and [Array::Alloc(size, clear)]: [base] is the
    address returned by the allocator. *)
Definition New (base size : Z) : Array := mkArray base 0 (to_long_long size).
Definition Alloc (base size : Z) : Array := mkArray base 0 (to_long_long size).

Definition minimum (a : Array) : Z := min a.
Definition maximum (a : Array) : Z := max a.

(** [_assertBounds(idx)] *)
Definition _assertBounds (a : Array) (idx : Z) : outcome unit :=
  if (idx <? min a) || (idx >=? max a)
  then Exits (IndexOutOfBounds (min a) idx (max a))
  else Returns tt.

(** [operator[](idx)]: the address of the element handed out. *)
Definition index (a : Array) (idx : Z) : outcome Z :=
  match _assertBounds a idx with
  | Exits d => Exits d
  | Returns _ => Returns (data a + idx)
  end.

(** [operator->()] *)
Definition arrow (a : Array) : outcome Z :=
  match _assertBounds a 0 with
  | Exits d => Exits d
  | Returns _ => Returns (data a)
  end.

(** [operator+(idx)] and [operator+=(idx)].  Signed overflow of
    [min - idx] or [max - idx] is undefined behaviour in the source:
    [None]. *)
Definition plus (a : Array) (idx : Z) : option Array :=
  if fits_long_long (min a - idx) && fits_long_long (max a - idx)
  then Some (mkArray (data a + idx) (min a - idx) (max a - idx))
  else None.

Definition plus_assign (a : Array) (idx : Z) : option Array := plus a idx.

(** [operator-(idx)], [operator-=(idx)], [operator++()], [operator--()] *)
Definition minus (a : Array) (idx : Z) : option Array :=
  if fits_long_long (- idx) then plus a (- idx) else None.
Definition minus_assign (a : Array) (idx : Z) : option Array :=
  if fits_long_long (- idx) then plus_assign a (- idx) else None.
Definition incr (a : Array) : option Array := plus_assign a 1.
Definition decr (a : Array) : option Array := minus_assign a 1.

(** The pointer-arithmetic operators that move the window. *)
Inductive shift : Type :=
| OpPlus (idx : Z) | OpPlusAssign (idx : Z)
| OpMinus (idx : Z) | OpMinusAssign (idx : Z)
| OpIncr | OpDecr.

Definition apply_shift (a : Array) (s : shift) : option Array :=
  match s with
  | OpPlus i => plus a i
  | OpPlusAssign i => plus_assign a i
  | OpMinus i => minus a i
  | OpMinusAssign i => minus_assign a i
  | OpIncr => incr a
  | OpDecr => decr a
  end.

Fixpoint apply_shifts (a : Array) (ss : list shift) : option Array :=
  match ss with
  | [] => Some a
  | s :: ss' =>
      match apply_shift a s with
      | Some a' => apply_shifts a' ss'
      | None => None
      end
  end.

(** The recorded bounds as absolute addresses. *)
Definition first_address (a : Array) : Z := data a + min a.
Definition end_address (a : Array) : Z := data a + max a.

End ArrayInl.

(* ===================================================================== *)
(** * Src/Array.inl: release, pointer difference and the guarded
      memory functions *)
(* ===================================================================== *)

Module ArrayMemInl.
Import ArrayInl.

(** [size_t] is the 64-bit unsigned type.  In a product or comparison of a
    [long long] with a [size_t] the signed operand is converted to the
    unsigned type, that is reduced modulo [2^64]. *)
Definition SIZE_MAX : Z := 2 ^ 64 - 1.
Definition is_size_t (z : Z) : bool := (0 <=? z) && (z <=? SIZE_MAX).
Definition to_size_t (z : Z) : Z := z mod 2 ^ 64.
Definition size_mul (a b : Z) : Z := (a * b) mod 2 ^ 64.

(** [Free()] and [Delete()]: the storage is released and [*this = Array()]. *)
Definition Free (a : Array) : Array := Array_.
Definition Delete (a : Array) : Array := Array_.

(** [operator-(Array const& a)]: [data - a.data] *)
Definition difference (a b : Array) : Z := data a - data b.

(** [pointer()], [operator!()], [operator bool()], [operator==] *)
Definition pointer (a : Array) : Z := data a.
Definition is_null (a : Array) : bool := (data a =? 0).
Definition to_bool (a : Array) : bool := negb (data a =? 0).
Definition equal (a b : Array) : bool := (data a =? data b).

(** What the functions below print before [ASSERT(0); exit(0)]. *)
Inductive mem_diagnostic : Type :=
| CopyExceedsDestination (size limit : Z)
| CopyExceedsSource (size limit : Z)
| SetExceedsDestination (size limit : Z)
| ReadExceedsDestination (size limit : Z)
| WriteExceedsSource (size limit : Z)
| ElementSizesDiffer (sizeofC elementSize : Z)
| AccessOutOfBounds (lo hi numElements : Z)
| Index (d : diagnostic).

Inductive result (A : Type) : Type :=
| Done (a : A)
| Terminated (d : mem_diagnostic).
Arguments Done {A} a.
Arguments Terminated {A} d.

(** A call of the C library on raw memory: [bytes] bytes, starting at the
    element with address [start] (counted in elements, as [data] is). *)
Record transfer : Type := mkTransfer { t_start : Z; t_bytes : Z }.

(** [&a[0]] *)
Definition address_of_first (a : Array) : result Z :=
  match index a 0 with
  | Exits d => Terminated (Index d)
  | Returns addr => Done addr
  end.

(** [memcpy(Array<C> destination, void const* source, size_t size)]: the
    transfer handed to [::memcpy]. *)
Definition memcpy_from_raw (destination : Array) (sizeofC size : Z) : result transfer :=
  let limit := size_mul (to_size_t (maximum destination)) sizeofC in
  if size >? limit then Terminated (CopyExceedsDestination size limit)
  else match address_of_first destination with
       | Terminated d => Terminated d
       | Done addr => Done (mkTransfer addr size)
       end.

(** [memcpy(Array<C> destination, Array<D> source, size_t size)]: the
    address read from and the transfer written. *)
Definition memcpy_arrays (destination source : Array) (sizeofC sizeofD size : Z)
    : result (Z * transfer) :=
  let limit := size_mul (to_size_t (maximum source)) sizeofD in
  if size >? limit then Terminated (CopyExceedsSource size limit)
  else match address_of_first source with
       | Terminated d => Terminated d
       | Done from =>
           match memcpy_from_raw destination sizeofC size with
           | Terminated d => Terminated d
           | Done t => Done (from, t)
           end
       end.

(** [memcpy(void* destination, Array<D> source, size_t size)]: the transfer
    read. *)
Definition memcpy_to_raw (source : Array) (sizeofD size : Z) : result transfer :=
  let limit := size_mul (to_size_t (maximum source)) sizeofD in
  if size >? limit then Terminated (CopyExceedsSource size limit)
  else match address_of_first source with
       | Terminated d => Terminated d
       | Done addr => Done (mkTransfer addr size)
       end.

(** [memset(Array<C> destination, int value, size_t size)] *)
Definition memset (destination : Array) (sizeofC size : Z) : result transfer :=
  let limit := size_mul (to_size_t (maximum destination)) sizeofC in
  if size >? limit then Terminated (SetExceedsDestination size limit)
  else match address_of_first destination with
       | Terminated d => Terminated d
       | Done addr => Done (mkTransfer addr size)
       end.

(** [fread(Array<C> destination, size_t eSize, size_t count, FILE* fp)]:
    the library may write [count] elements of [eSize] bytes. *)
Definition fread (destination : Array) (sizeofC eSize count : Z) : result transfer :=
  let limit := size_mul (to_size_t (maximum destination)) sizeofC in
  if size_mul count eSize >? limit
  then Terminated (ReadExceedsDestination (size_mul count eSize) limit)
  else match address_of_first destination with
       | Terminated d => Terminated d
       | Done addr => Done (mkTransfer addr (count * eSize))
       end.

(** [fwrite(Array<C> source, size_t eSize, size_t count, FILE* fp)] *)
Definition fwrite (source : Array) (sizeofC eSize count : Z) : result transfer :=
  let limit := size_mul (to_size_t (maximum source)) sizeofC in
  if size_mul count eSize >? limit
  then Terminated (WriteExceedsSource (size_mul count eSize) limit)
  else match address_of_first source with
       | Terminated d => Terminated d
       | Done addr => Done (mkTransfer addr (count * eSize))
       end.

(** [qsort(Array<C> base, size_t numElements, size_t elementSize, compare)]:
    the transfer handed to [::qsort], which starts at [base.pointer()]
    without an index check.  In [base.maximum() < numElements] the
    [long long] is converted to [size_t]. *)
Definition qsort (base : Array) (sizeofC numElements elementSize : Z) : result transfer :=
  if negb (sizeofC =? elementSize) then Terminated (ElementSizesDiffer sizeofC elementSize)
  else if (minimum base >? 0) || (to_size_t (maximum base) <? numElements)
  then Terminated (AccessOutOfBounds (minimum base) (maximum base) numElements)
  else Done (mkTransfer (pointer base) (numElements * elementSize)).

End ArrayMemInl.

(* ===================================================================== *)
(** * Src/Vector.inl and Src/SparseMatrix.inl *)
(* ===================================================================== *)

Module SparseMatrixInl.

Local Open Scope Qc_scope.

(** [Vector<T2>]: the coefficients, with [Dimensions() = length].
    Reading or writing past the end is undefined in the source; the
    embedding reads zero and leaves the vector unchanged there, and the
    theorems require the indices to be in range. *)
Abbreviation Vector := (list Qc).

Definition Dimensions (v : Vector) : nat := length v.

(** [Vector<T2>(dim)] *)
Definition zeros (dim : nat) : Vector := repeat 0 dim.

(** [v[i]] *)
Definition at_ (v : Vector) (i : Z) : Qc :=
  if (i <? 0)%Z then 0 else nth (Z.to_nat i) v 0.

(** [v[i] += q] *)
Definition add_at (v : Vector) (i : Z) (q : Qc) : Vector :=
  if (i <? 0)%Z then v else alter (fun c => c + q) (Z.to_nat i) v.

(** The indices [0, 1, ..., n-1] of a loop [for(int i = 0; i < n; ++i)]. *)
Definition indices (n : nat) : list Z := map Z.of_nat (seq 0 n).

(** [struct MatrixEntry { int N; T Value; }] *)
Record MatrixEntry : Type := mkEntry { N : Z; Value : Qc }.

(** [m_ppElements] together with [rowSizes_]: row [i] is the list of its
    [rowSizes_[i]] entries. *)
Abbreviation SparseSymmetricMatrix := (list (list MatrixEntry)).

Definition Rows (A : SparseSymmetricMatrix) : nat := length A.

(** ** [operator*] *)

(** The body of the inner loop:
    [R[i] += e.Value * V[e.N]; R[e.N] += e.Value * V[i]]. *)
Definition times_entry (V : Vector) (i : Z) (R : Vector) (e : MatrixEntry) : Vector :=
  add_at (add_at R i (Value e * at_ V (N e))) (N e) (Value e * at_ V i).

Fixpoint times_rows (V : Vector) (i : Z) (rows : list (list MatrixEntry))
    (R : Vector) : Vector :=
  match rows with
  | [] => R
  | row :: rest => times_rows V (i + 1) rest (fold_left (times_entry V i) row R)
  end.

Definition times (A : SparseSymmetricMatrix) (V : Vector) : Vector :=
  times_rows V 0 A (zeros (Rows A)).

(** ** [Multiply] *)

(** One iteration of the row loop on the scratch vector [outs] of the
    thread that runs it. *)
Definition scratch_entry (inv : Vector) (i : Z) (st : Qc * Vector) (e : MatrixEntry)
    : Qc * Vector :=
  (fst st + Value e * at_ inv (N e), add_at (snd st) (N e) (Value e * at_ inv i)).

Definition scratch_row (addDCTerm : bool) (inv : Vector) (i : Z)
    (row : list MatrixEntry) (outs : Vector) : Vector :=
  if addDCTerm then fold_left (times_entry inv i) row outs
  else
    let st := fold_left (scratch_entry inv i) row (0, outs) in
    add_at (snd st) i (fst st).

(** The row loop.  [thread_num i] is the value of [omp_get_thread_num()]
    in iteration [i]; every thread touches its own scratch vector only. *)
Fixpoint scratch_rows (addDCTerm : bool) (inv : Vector) (thread_num : Z -> nat)
    (i : Z) (rows : list (list MatrixEntry)) (OutScratch : list Vector) : list Vector :=
  match rows with
  | [] => OutScratch
  | row :: rest =>
      scratch_rows addDCTerm inv thread_num (i + 1) rest
        (alter (scratch_row addDCTerm inv i row) (thread_num i) OutScratch)
  end.

(** [out[i] = dcTerm; for(t) out[i] += OutScratch[t][i]] *)
Definition combine (dcTerm : Qc) (OutScratch : list Vector) (i : Z) : Qc :=
  fold_left (fun o s => o + at_ s i) OutScratch dcTerm.

Definition Multiply (A : SparseSymmetricMatrix) (inv out : Vector) (addDCTerm : bool)
    (threads : Z) (thread_num : Z -> nat) : Vector :=
  let OutScratch :=
    scratch_rows addDCTerm inv thread_num 0 A
      (repeat (zeros (Dimensions inv)) (Z.to_nat threads)) in
  let dcTerm :=
    if addDCTerm
    then fold_left (fun s i => s + at_ inv i) (indices (Rows A)) 0
         / Q2Qc (inject_Z (Z.of_nat (Dimensions out)))
    else 0 in
  map (combine dcTerm OutScratch) (indices (Dimensions out)).

(** [schedule(static)] with [threads] threads over [n] iterations: blocks
    of [ceil(n / threads)] consecutive iterations. *)
Definition static_schedule (n : nat) (threads : Z) (i : Z) : nat :=
  let chunk := ((Z.of_nat n + threads - 1) / threads)%Z in
  Z.to_nat (i / chunk).

(** ** [Solve] *)

Inductive warning : Type :=
| InitialResidualTooLow (delta_new eps : Qc).

Record SolveResult : Type := mkSolveResult {
  iterations : Z;        (* the value returned *)
  x_final : Vector;      (* the iterate [x] on return *)
  cerr : list warning    (* what was written to [std::cerr] *)
}.

(** The loop variables [x], [r], [d] and [delta_new]. *)
Record cg_state : Type := mkCG {
  cg_x : Vector; cg_r : Vector; cg_d : Vector; cg_delta_new : Qc
}.

Definition dot (dim : nat) (u v : Vector) : Qc :=
  fold_left (fun s i => s + at_ u i * at_ v i) (indices dim) 0.

Definition pointwise (dim : nat) (f : Z -> Qc) : Vector := map f (indices dim).

Section Solve.
Variable A : SparseSymmetricMatrix.
Variable b : Vector.
Variable threads : Z.
Variable addDCTerm : bool.
Variable thread_num : Z -> nat.

Let dim : nat := Dimensions b.

(** [b - A x], computed as in the lines before the loop. *)
Definition residual (x : Vector) : Vector :=
  let Ax := Multiply A x (zeros dim) addDCTerm threads thread_num in
  pointwise dim (fun i => at_ b i - at_ Ax i).

(** The state in which the loop is entered:
    [r = b - A x], [d = r], [delta_new = r . r]. *)
Definition cg_init (x : Vector) : cg_state :=
  let r := residual x in
  mkCG x r r (dot dim r r).

(** One pass through the loop body, in iteration [ii].  [alpha] and [beta]
    are the exact quotients.  Where a divisor ([d . q] or [delta_old]) is
    zero the program gets an infinity or [NaN], which the quotient of [Qc]
    (zero) does not model: what is said of the passes is said where the
    divisors are not zero. *)
Definition cg_body (ii : Z) (s : cg_state) : cg_state :=
  let q := Multiply A (cg_d s) (zeros dim) addDCTerm threads thread_num in
  let dDotQ := dot dim (cg_d s) q in
  let alpha := cg_delta_new s / dDotQ in
  let delta_old := cg_delta_new s in
  let d := cg_d s in
  let xr :=
    if (ii mod 50 =? 49)%Z then
      let x1 := pointwise dim (fun i => at_ (cg_x s) i + at_ d i * alpha) in
      let Ax := Multiply A x1 (cg_r s) addDCTerm threads thread_num in
      let r := pointwise dim (fun i => at_ b i - at_ Ax i) in
      (pointwise dim (fun i => at_ x1 i + at_ d i * alpha), r)
    else
      (pointwise dim (fun i => at_ (cg_x s) i + at_ d i * alpha),
       pointwise dim (fun i => at_ (cg_r s) i - at_ q i * alpha)) in
  let delta_new := dot dim (snd xr) (snd xr) in
  let beta := delta_new / delta_old in
  mkCG (fst xr) (snd xr)
       (pointwise dim (fun i => at_ (snd xr) i + at_ d i * beta)) delta_new.

(** The loop variables after [k] passes through the body. *)
Fixpoint cg_after (x : Vector) (k : nat) : cg_state :=
  match k with
  | O => cg_init x
  | S k' => cg_body (Z.of_nat k') (cg_after x k')
  end.

(** [for(ii = 0; ii != iters && delta_new > eps * delta_0; ++ii) body].
    [eps] is the squared tolerance.  The recursion is bounded by [fuel];
    [None] stands for a loop that has not left within [fuel] passes. *)
Fixpoint cg_loop (fuel : nat) (iters : Z) (eps delta_0 : Qc) (ii : Z) (s : cg_state)
    : option (Z * cg_state) :=
  if (ii =? iters)%Z || negb (bool_decide (eps * delta_0 < cg_delta_new s))
  then Some (ii, s)
  else match fuel with
       | O => None
       | S fuel' => cg_loop fuel' iters eps delta_0 (ii + 1) (cg_body ii s)
       end.

Definition Solve (fuel : nat) (iters : Z) (x : Vector) (eps : Qc) (reset : bool)
    : option SolveResult :=
  let eps := eps * eps in
  let x := if reset then zeros dim else x in
  let s := cg_init x in
  let delta_new := cg_delta_new s in
  if bool_decide (delta_new < eps)
  then Some (mkSolveResult 0 x [InitialResidualTooLow delta_new eps])
  else
    let delta_0 := delta_new in
    match cg_loop fuel iters eps delta_0 0 s with
    | Some (ii, s') => Some (mkSolveResult ii (cg_x s') [])
    | None => None
    end.
End Solve.

(** [if(threads < 1) threads = 1], done by [Solve] before anything else. *)
Definition Solve_ (A : SparseSymmetricMatrix) (b : Vector) (iters : Z) (x : Vector)
    (eps : Qc) (reset : bool) (threads : Z) (addDCTerm : bool)
    (thread_num : Z -> nat) (fuel : nat) : option SolveResult :=
  let threads := if (threads <? 1)%Z then 1%Z else threads in
  Solve A b threads addDCTerm thread_num fuel iters x eps reset.

End SparseMatrixInl.

(* ===================================================================== *)
(** * Src/Vector.inl: the in-place operators *)
(* ===================================================================== *)

Module VectorInl.
Import SparseMatrixInl.
Local Open Scope Qc_scope.

(** [operator*=(A)]: [data_[i] *= A] for every [i] *)
Definition times_assign (v : Vector) (A : Qc) : Vector := map (fun x => x * A) v.

(** [operator/=(A)]: [data_[i] /= A] for every [i]; a zero divisor leaves
    no finite value in a vector that has an entry. *)
Definition divide_assign (v : Vector) (A : Qc) : option Vector :=
  match v with
  | [] => Some []
  | _ :: _ => if bool_decide (A = 0) then None else Some (map (fun x => x / A) v)
  end.

(** [operator+=(V)]: [data_[i] += V.data_[i]] for [i] below the size of
    the left operand; a shorter [V] is read past its end, which is
    undefined ([None]). *)
Definition plus_assign (v V : Vector) : option Vector :=
  if (length V <? length v)%nat then None
  else Some (imap (fun i x => x + nth i V 0) v).

End VectorInl.

(* ===================================================================== *)
(** * Src/MultiGridOctreeData.inl *)
(* ===================================================================== *)

Module MultiGridOctreeDataInl.

Import SparseMatrixInl.
Local Open Scope Qc_scope.

(** [enum BoundaryType] *)
Inductive BoundaryType : Type :=
| BoundaryTypeNone | BoundaryTypeDirichlet | BoundaryTypeNeumann.

Definition is_BoundaryTypeNone (bt : BoundaryType) : bool :=
  match bt with BoundaryTypeNone => true | _ => false end.

(** Division of two finite values in IEEE arithmetic: a zero divisor gives
    an infinity or NaN, for which [None] stands. *)
Definition fdiv (a b : Qc) : option Qc :=
  if bool_decide (b = 0) then None else Some (a / b).

(** ** [TreeNodeData] *)

Record TreeNodeData : Type := mkTreeNodeData {
  nodeIndex : Z;
  normalIndex : Z;
  constraint : Qc;
  solution : Qc;
  pointIndex : Z;
  centerWeightContribution : Qc * Qc
}.

(** [TreeNodeData::TreeNodeData()] *)
Definition TreeNodeData_ : TreeNodeData := mkTreeNodeData (-1) (-1) 0 0 (-1) (0, 0).

Definition with_nodeIndex (i : Z) (nd : TreeNodeData) : TreeNodeData :=
  mkTreeNodeData i (normalIndex nd) (constraint nd) (solution nd) (pointIndex nd)
    (centerWeightContribution nd).

Definition with_constraint (c : Qc) (nd : TreeNodeData) : TreeNodeData :=
  mkTreeNodeData (nodeIndex nd) (normalIndex nd) c (solution nd) (pointIndex nd)
    (centerWeightContribution nd).

Definition with_solution (s : Qc) (nd : TreeNodeData) : TreeNodeData :=
  mkTreeNodeData (nodeIndex nd) (normalIndex nd) (constraint nd) s (pointIndex nd)
    (centerWeightContribution nd).

Definition with_centerWeight0 (w : Qc) (nd : TreeNodeData) : TreeNodeData :=
  mkTreeNodeData (nodeIndex nd) (normalIndex nd) (constraint nd) (solution nd)
    (pointIndex nd) (w, snd (centerWeightContribution nd)).

(** [centerWeightContribution[OutputDensity ? 1 : 0]] *)
Definition centerWeight (OutputDensity : bool) (nd : TreeNodeData) : Qc :=
  if OutputDensity then snd (centerWeightContribution nd)
  else fst (centerWeightContribution nd).

(** ** The octree *)

(** Modelled from the spec: class [OctNode] of Octree.h, which is not among
    the sources.  "Each node carries: depth, integer offset, child link
    (either eight children or none), parent back-reference, and a payload";
    "a node's position is fully determined by (d, ox, oy, oz) with node
    width 1/2^d and center (o+1/2)/2^d".  The shape of the tree is the
    inductive value; the payloads live in a store addressed by node
    pointer. *)
Inductive OctNode : Type :=
| Leaf
| Branch (c0 c1 c2 c3 c4 c5 c6 c7 : OctNode).

(** A [TreeOctNode*]: the child indices on the way from the root. *)
Abbreviation NodePtr := (list nat).

(** The payload [nodeData] of every node. *)
Abbreviation NodeStore := (NodePtr -> TreeNodeData).

Definition children (n : OctNode) : list OctNode :=
  match n with
  | Leaf => []
  | Branch c0 c1 c2 c3 c4 c5 c6 c7 => [c0; c1; c2; c3; c4; c5; c6; c7]
  end.

(** [n.hasChildren()] and [n.child(c)] on a node value *)
Definition hasChildren_node (n : OctNode) : bool :=
  match n with Leaf => false | Branch _ _ _ _ _ _ _ _ => true end.

Definition child_node (n : OctNode) (c : nat) : option OctNode := children n !! c.

(** [n.maxDepth()] *)
Fixpoint maxDepth (n : OctNode) : nat :=
  match n with
  | Leaf => 0
  | Branch c0 c1 c2 c3 c4 c5 c6 c7 =>
      S (Nat.max (maxDepth c0) (Nat.max (maxDepth c1) (Nat.max (maxDepth c2)
        (Nat.max (maxDepth c3) (Nat.max (maxDepth c4) (Nat.max (maxDepth c5)
        (Nat.max (maxDepth c6) (maxDepth c7))))))))
  end.

(** [n.nodes()] *)
Fixpoint nodes (n : OctNode) : nat :=
  match n with
  | Leaf => 1
  | Branch c0 c1 c2 c3 c4 c5 c6 c7 =>
      S (nodes c0 + nodes c1 + nodes c2 + nodes c3 + nodes c4 + nodes c5
         + nodes c6 + nodes c7)
  end.

(** The node a pointer designates, if it designates one. *)
Fixpoint subtree (root : OctNode) (p : NodePtr) : option OctNode :=
  match p with
  | [] => Some root
  | c :: p' =>
      match child_node root c with
      | Some n => subtree n p'
      | None => None
      end
  end.

Definition is_node (root : OctNode) (p : NodePtr) : bool :=
  match subtree root p with Some _ => true | None => false end.

(** [p->hasChildren()], [p->child(c)], [p->parent()], [p->depth()] *)
Definition hasChildren (root : OctNode) (p : NodePtr) : bool :=
  match subtree root p with Some n => hasChildren_node n | None => false end.

Definition child (p : NodePtr) (c : nat) : NodePtr := p ++ [c].

Definition parent (p : NodePtr) : option NodePtr :=
  match p with [] => None | _ :: _ => Some (removelast p) end.

Definition depth (p : NodePtr) : nat := length p.

(** [Cube::FactorCornerIndex(c)] *)
Definition FactorCornerIndex (c : nat) : Z * Z * Z :=
  (Z.of_nat c mod 2, (Z.of_nat c / 2) mod 2, (Z.of_nat c / 4) mod 2)%Z.

(** [p->depthAndOffset(d, off)]: a child doubles the offset of its parent
    and adds its corner bits. *)
Definition child_offset (off : Z * Z * Z) (c : nat) : Z * Z * Z :=
  let '(ox, oy, oz) := off in
  let '(x, y, z) := FactorCornerIndex c in
  (2 * ox + x, 2 * oy + y, 2 * oz + z)%Z.

Definition offset (p : NodePtr) : Z * Z * Z := fold_left child_offset p (0, 0, 0)%Z.

Definition depthAndOffset (p : NodePtr) : nat * (Z * Z * Z) := (depth p, offset p).

(** [p->centerAndWidth(center, width)] *)
Definition width (p : NodePtr) : Qc := 1 / Q2Qc (inject_Z (2 ^ Z.of_nat (depth p))).

Definition center_coordinate (p : NodePtr) (o : Z) : Qc :=
  (Q2Qc (inject_Z o) + Q2Qc (1 # 2)) * width p.

Definition center (p : NodePtr) : Qc * Qc * Qc :=
  let '(ox, oy, oz) := offset p in
  (center_coordinate p ox, center_coordinate p oy, center_coordinate p oz).

(** The pointer of the node of depth [d] at offset [(ox, oy, oz)]. *)
Fixpoint path_of (d : nat) (ox oy oz : Z) : NodePtr :=
  match d with
  | O => []
  | S d' =>
      path_of d' (ox / 2) (oy / 2) (oz / 2)
        ++ [Z.to_nat (ox mod 2 + 2 * (oy mod 2) + 4 * (oz mod 2))]
  end.

Definition in_grid (d : nat) (o : Z) : bool := ((0 <=? o) && (o <? 2 ^ Z.of_nat d))%Z.

Definition node_at (root : OctNode) (d : nat) (ox oy oz : Z) : option NodePtr :=
  if in_grid d ox && in_grid d oy && in_grid d oz
  then let p := path_of d ox oy oz in if is_node root p then Some p else None
  else None.

(** Modelled from the spec: [NeighborKey3::getNeighbors3(p)] of Octree.h,
    which is not among the sources: the table [neighbors[i][j][k]] of the
    nodes of the depth of [p] at offsets [offset p + (i-1, j-1, k-1)], null
    where the tree has no such node. *)
Definition getNeighbors3 (root : OctNode) (p : NodePtr) (i j k : nat) : option NodePtr :=
  let '(ox, oy, oz) := offset p in
  node_at root (depth p) (ox + Z.of_nat i - 1) (oy + Z.of_nat j - 1) (oz + Z.of_nat k - 1).

(** ** [SortedTreeNodes] *)

Record SortedTreeNodes : Type := mkSortedTreeNodes {
  sMaxDepth : nat;           (* [maxDepth] *)
  nodeCount : list nat;
  treeNodes : list NodePtr
}.

Definition nodeCount_at (s : SortedTreeNodes) (d : nat) : nat := nth d (nodeCount s) 0%nat.

(** The eight [temp->child(c)] appended for the nodes [temp] of one level
    that have children. *)
Definition level_children (root : OctNode) (level : list NodePtr) : list NodePtr :=
  flat_map (fun temp =>
              if hasChildren root temp then map (child temp) (seq 0 8) else []) level.

(** [treeNodes[lo], ..., treeNodes[hi - 1]] *)
Definition span {A} (l : list A) (lo hi : nat) : list A := take (hi - lo) (drop lo l).

(** The loop [for(int d = startDepth + 1; d != maxDepth; ++d)] of [set],
    with [n] passes left.  A store [treeNodes[nodeCount[d + 1]++] = ...]
    writes the first free slot of the array and is an append to the filled
    part [tn]. *)
Fixpoint set_levels (root : OctNode) (n d : nat) (nc : list nat) (tn : list NodePtr)
    : list nat * list NodePtr :=
  match n with
  | O => (nc, tn)
  | S n' =>
      let level := span tn (nth (d - 1) nc 0%nat) (nth d nc 0%nat) in
      let added := level_children root level in
      set_levels root n' (S d) (nc ++ [(nth d nc 0 + length added)%nat]) (tn ++ added)
  end.

(** [for(node = root.nextNode(); node; node = root.nextNode(node))
       node->nodeData.nodeIndex = -1]: every node but the root. *)
Definition clear_indices (root : OctNode) (store : NodeStore) : NodeStore :=
  fun p =>
    match p with
    | [] => store p
    | _ :: _ => if is_node root p then with_nodeIndex (-1) (store p) else store p
    end.

(** [for(i = 0; i != n; ++i) treeNodes[i]->nodeData.nodeIndex = i], from
    position [i] on. *)
Fixpoint assign_indices (i : nat) (tn : list NodePtr) (store : NodeStore) : NodeStore :=
  match tn with
  | [] => store
  | p :: tn' =>
      assign_indices (S i) tn' (<[p := with_nodeIndex (Z.of_nat i) (store p)]> store)
  end.

(** [SortedTreeNodes::set(root)] *)
Definition set (root : OctNode) (store : NodeStore) : SortedTreeNodes * NodeStore :=
  let maxDepth := S (maxDepth root) in
  let store1 := clear_indices root store in
  let '(nc, tn) := set_levels root (maxDepth - 1) 1 [0; 1]%nat [[]] in
  let store2 := assign_indices 0 (take (nth maxDepth nc 0%nat) tn) store1 in
  (mkSortedTreeNodes maxDepth nc tn, store2).


(** ** [GetFixedDepthLaplacianGeneric] and [GetRestrictedFixedDepthLaplacian] *)

(** [treeNodes[e]] for an [int] index *)
Definition treeNode (s : SortedTreeNodes) (e : Z) : option NodePtr :=
  if (e <? 0)%Z then None else treeNodes s !! Z.to_nat e.

Section Laplacian.
(** The integrator, the stencils and the neighbour keys are not among the
    sources; what they contribute is taken as given:
    - [insetSupported node] is
      [boundaryType_ != BoundaryTypeNone || IsInsetSupported(node)],
    - [setRow store node] is the row written by the [setRow] closure (it
      reads the [nodeIndex] of the neighbours),
    - [constraintFromCoarser store node] is the amount that
      [UpdateConstraintsFromCoarser] subtracts from [node]'s constraint. *)
Variable insetSupported : NodePtr -> bool.
Variable setRow : NodeStore -> NodePtr -> list MatrixEntry.
Variable constraintFromCoarser : NodeStore -> NodePtr -> Qc.

Definition laplacian_row (getNode : nat -> option NodePtr)
    (acc : SparseSymmetricMatrix * NodeStore) (i : nat) : SparseSymmetricMatrix * NodeStore :=
  let '(matrix, store) := acc in
  match getNode i with
  | None => (matrix ++ [[]], store)
  | Some node =>
      if insetSupported node
      then (matrix ++ [setRow store node],
            <[node := with_constraint
                        (constraint (store node) - constraintFromCoarser store node)
                        (store node)]> store)
      else (matrix ++ [[mkEntry (Z.of_nat i) 1]], store)
  end.

Definition GetFixedDepthLaplacianGeneric (range : nat) (getNode : nat -> option NodePtr)
    (store : NodeStore) : SparseSymmetricMatrix * NodeStore :=
  fold_left (laplacian_row getNode) (seq 0 range) ([], store).

(** [for(i) sNodes.treeNodes[entries[i]]->nodeData.nodeIndex = value i] *)
Fixpoint remap_indices (s : SortedTreeNodes) (value : nat -> Z -> Z) (i : nat)
    (entries : list Z) (store : NodeStore) : NodeStore :=
  match entries with
  | [] => store
  | e :: rest =>
      remap_indices s value (S i) rest
        match treeNode s e with
        | Some node => <[node := with_nodeIndex (value i e) (store node)]> store
        | None => store
        end
  end.

Definition GetRestrictedFixedDepthLaplacian (s : SortedTreeNodes) (entries : list Z)
    (store : NodeStore) : SparseSymmetricMatrix * NodeStore :=
  let store1 := remap_indices s (fun i _ => Z.of_nat i) 0 entries store in
  let getNode := fun i => match entries !! i with Some e => treeNode s e | None => None end in
  let '(matrix, store2) := GetFixedDepthLaplacianGeneric (length entries) getNode store1 in
  (matrix, remap_indices s (fun _ e => e) 0 entries store2).
End Laplacian.

(** ** The conjugate-gradient call of [SolveFixedDepthMatrix] *)

Section SolveDepth.
(** [(int)std::pow(rows, ITERATION_POWER)] with [ITERATION_POWER = 1.0 / 3]:
    the value that [std::pow] returns for the number of rows, truncated.
    The C++ library is not among the sources, and the value is not always
    the truncated cube root: the double [1.0 / 3] is below one third, so
    that for 64 rows a correctly rounded [pow] returns a value just below
    4, which is truncated to 3. *)
Variable pow_ITERATION_POWER : Z -> Z.

(** [int iters = fixedIters >= 0 ? fixedIters :
       std::max((int)std::pow(M.Rows(), ITERATION_POWER), minIters)] *)
Definition solve_iters (fixedIters minIters rows : Z) : Z :=
  if (fixedIters >=? 0)%Z then fixedIters
  else Z.max (pow_ITERATION_POWER rows) minIters.

(** [Real _accuracy = (Real)(accuracy / 100000) * M.Rows();
     Real accuracy = fixedIters >= 0 ? 1e-10 : _accuracy] *)
Definition solve_accuracy (fixedIters : Z) (accuracy : Qc) (rows : Z) : Qc :=
  if (fixedIters >=? 0)%Z then Q2Qc (1 # 10000000000)
  else accuracy / Q2Qc (100000 # 1) * Q2Qc (inject_Z rows).

(** The lines of the whole-depth [SolveFixedDepthMatrix] from
    [int iter = 0] to the end of [if(!noSolve)], for the assembled system
    [M], [B] and the start vector [X]: the value of [iter] and [X]. *)
Definition SolveFixedDepthMatrix_solve (M : SparseSymmetricMatrix) (B X : Vector)
    (minIters : Z) (accuracy : Qc) (noSolve : bool) (fixedIters : Z)
    (threads : Z) (addDCTerm : bool) (thread_num : Z -> nat) (fuel : nat)
    : option (Z * Vector) :=
  if noSolve then Some (0%Z, X)
  else
    let rows := Z.of_nat (Rows M) in
    match Solve_ M B (solve_iters fixedIters minIters rows) X
            (solve_accuracy fixedIters accuracy rows) false threads addDCTerm
            thread_num fuel with
    | Some res => Some (iterations res, x_final res)
    | None => None
    end.
End SolveDepth.

(** ** The write-back of the sub-domain [SolveFixedDepthMatrix] *)

(** [n] times [temp = temp->parent()] *)
Fixpoint climb (n : nat) (temp : NodePtr) : NodePtr :=
  match n with
  | O => temp
  | S n' => match parent temp with Some q => climb n' q | None => temp end
  end.

(** [while(temp->depth() > d) temp = temp->parent()] *)
Definition ancestor_at (temp : NodePtr) (d : nat) : NodePtr :=
  climb (depth temp - d) temp.

(** One pass of the loop "Update the solution for all nodes in the
    sub-tree", for the coarse node [treeNodes[i]]. *)
Definition write_back_entry (s : SortedTreeNodes) (i : nat) (_X : Vector)
    (store : NodeStore) (ja : nat * Z) : NodeStore :=
  let '(j, a) := ja in
  match treeNode s a, treeNodes s !! i with
  | Some node, Some coarse =>
      let temp := ancestor_at node (depth coarse) in
      if (nodeIndex (store temp) >=? nodeIndex (store coarse))%Z
      then <[node := with_solution (at_ _X (Z.of_nat j)) (store node)]> store
      else store
  | _, _ => store
  end.

Definition write_back (s : SortedTreeNodes) (i : nat) (adjacencies : list Z)
    (_X : Vector) (store : NodeStore) : NodeStore :=
  fold_left (write_back_entry s i _X) (imap pair adjacencies) store.

(** ** [UpSampleGeneric], [DownSample], [UpSample] *)

(** [struct UpSampleData { int start; double v[2]; }] *)
Record UpSampleData : Type := mkUpSampleData { start : nat; v0 : Qc; v1 : Qc }.

(** [us.v[k]] *)
Definition v (us : UpSampleData) (k : nat) : Qc :=
  match k with O => v0 us | _ => v1 us end.

Definition cornerValue (boundaryType : BoundaryType) : Qc :=
  match boundaryType with
  | BoundaryTypeDirichlet => Q2Qc (1 # 2)
  | BoundaryTypeNeumann => 1
  | BoundaryTypeNone => Q2Qc (3 # 4)
  end.

(** [usData[dd]] for the offset [off] along one axis *)
Definition usData_of (boundaryType : BoundaryType) (depth : nat) (off : Z) : UpSampleData :=
  if (off =? 0)%Z then mkUpSampleData 1 (cornerValue boundaryType) 0
  else if (off + 1 =? 2 ^ Z.of_nat depth)%Z then mkUpSampleData 0 0 (cornerValue boundaryType)
  else if negb (off mod 2 =? 0)%Z then mkUpSampleData 1 (Q2Qc (3 # 4)) (Q2Qc (1 # 4))
  else mkUpSampleData 0 (Q2Qc (1 # 4)) (Q2Qc (3 # 4)).

(** The arguments of one call [func(i, node, usData, idx)]. *)
Record UpSampleCall : Type := mkUpSampleCall {
  us_i : nat;
  us_node : NodePtr;
  us_data : UpSampleData * UpSampleData * UpSampleData;
  us_idx : nat * nat * nat
}.

(** [usData[0].v[idx[0]]], [usData[1].v[idx[1]]], [usData[2].v[idx[2]]] *)
Definition us_vx (c : UpSampleCall) : Qc := v (fst (fst (us_data c))) (fst (fst (us_idx c))).
Definition us_vy (c : UpSampleCall) : Qc := v (snd (fst (us_data c))) (snd (fst (us_idx c))).
Definition us_vz (c : UpSampleCall) : Qc := v (snd (us_data c)) (snd (us_idx c)).

Section UpSample.
Variable root : OctNode.
Variable store : NodeStore.
Variable sNodes : SortedTreeNodes.
Variable boundaryType_ : BoundaryType.

(** The calls of [func] made for the node [treeNodes[i]], in order. *)
Definition UpSampleGeneric_node (depth i : nat) : list UpSampleCall :=
  match treeNodes sNodes !! i with
  | None => []
  | Some p =>
      let '(ox, oy, oz) := snd (depthAndOffset p) in
      let usx := usData_of boundaryType_ depth ox in
      let usy := usData_of boundaryType_ depth oy in
      let usz := usData_of boundaryType_ depth oz in
      match parent p with
      | None => []
      | Some pp =>
          flat_map (fun ii => flat_map (fun jj => flat_map (fun kk =>
            match getNeighbors3 root pp (ii + start usx) (jj + start usy) (kk + start usz) with
            | Some node =>
                if (nodeIndex (store node) =? -1)%Z then []
                else [mkUpSampleCall i node (usx, usy, usz) (ii, jj, kk)]
            | None => []
            end) [0; 1]%nat) [0; 1]%nat) [0; 1]%nat
      end
  end.

(** The indices of [for(int i = nodeCount[depth]; i < nodeCount[depth + 1]; ++i)] *)
Definition depth_range (depth : nat) : list nat :=
  seq (nodeCount_at sNodes depth)
      (nodeCount_at sNodes (S depth) - nodeCount_at sNodes depth).

Definition UpSampleGeneric_calls (depth : nat) : list UpSampleCall :=
  flat_map (UpSampleGeneric_node depth) (depth_range depth).

(** [UpSampleGeneric(depth, sNodes, boundaryType, threads, func)], for a
    [func] that acts on a state of type [S]. *)
Definition UpSampleGeneric {S : Type} (depth : nat) (func : S -> UpSampleCall -> S)
    (s : S) : S :=
  fold_left func (UpSampleGeneric_calls depth) s.

(** [Octree::DownSample(depth, sNodes, constraints)] *)
Definition DownSample_func (constraints : Vector) (c : UpSampleCall) : Vector :=
  let cx := at_ constraints (Z.of_nat (us_i c)) * us_vx c in
  let cxy := cx * us_vy c in
  let cxyz := cxy * us_vz c in
  add_at constraints (nodeIndex (store (us_node c))) cxyz.

Definition DownSample (depth : nat) (constraints : Vector) : Vector :=
  if (depth =? 0)%nat then constraints
  else UpSampleGeneric depth DownSample_func constraints.

(** [Octree::UpSample(depth, sNodes, coefficients)] *)
Definition UpSample_func (coefficients : Vector) (c : UpSampleCall) : Vector :=
  let dx := us_vx c in
  let dxy := dx * us_vy c in
  let dxyz := dxy * us_vz c in
  add_at coefficients (Z.of_nat (us_i c))
    (at_ coefficients (nodeIndex (store (us_node c))) * dxyz).

Definition UpSample_skips (depth : nat) : bool :=
  (negb (is_BoundaryTypeNone boundaryType_) && (depth =? 0)%nat)
  || (is_BoundaryTypeNone boundaryType_ && (depth <=? 2)%nat).

Definition UpSample (depth : nat) (coefficients : Vector) : Vector :=
  if UpSample_skips depth then coefficients
  else UpSampleGeneric depth UpSample_func coefficients.
End UpSample.

(** ** [UpdateWeightContribution] *)

Definition SAMPLE_SCALE : Qc :=
  1 / (Q2Qc (1 # 8) * Q2Qc (1 # 8) + Q2Qc (3 # 4) * Q2Qc (3 # 4)
       + Q2Qc (1 # 8) * Q2Qc (1 # 8)).

(** The three values [dx[i][0]], [dx[i][1]], [dx[i][2]] of one axis before
    the scaling line. *)
Definition splat_kernel (center_i position_i width : Qc) : Qc * Qc * Qc :=
  let x := (center_i - position_i - width) / width in
  let dx0 := Q2Qc (9 # 8) + Q2Qc (3 # 2) * x + Q2Qc (1 # 2) * x * x in
  let x := (center_i - position_i) / width in
  let dx1 := Q2Qc (3 # 4) - x * x in
  let dx2 := 1 - dx1 - dx0 in
  (dx0, dx1, dx2).

(** The row [dx[i]] after one pass of the loop over [i]:
    [dx[i][0] *= SAMPLE_SCALE] is its last statement. *)
Definition splat_dx (center_i position_i width : Qc) : Qc * Qc * Qc :=
  let '(dx0, dx1, dx2) := splat_kernel center_i position_i width in
  (dx0 * SAMPLE_SCALE, dx1, dx2).

Definition triple_at (t : Qc * Qc * Qc) (k : nat) : Qc :=
  match k with
  | 0%nat => fst (fst t)
  | 1%nat => snd (fst t)
  | _ => snd t
  end.

(** What is added to [neighbors.neighbors[i][j][k]]:
    [dx[0][i] * dx[1][j] * weight * dx[2][k]] *)
Definition weight_increment (center position : Qc * Qc * Qc) (width weight : Qc)
    (i j k : nat) : Qc :=
  let '(cx, cy, cz) := center in
  let '(px, py, pz) := position in
  triple_at (splat_dx cx px width) i * triple_at (splat_dx cy py width) j
  * weight * triple_at (splat_dx cz pz width) k.

Definition cube3 : list (nat * nat * nat) :=
  flat_map (fun i => flat_map (fun j => map (fun k => (i, j, k)) [0; 1; 2]%nat)
                       [0; 1; 2]%nat) [0; 1; 2]%nat.

(** [Octree::UpdateWeightContribution(node, position, neighborKey, weight)].
    [neighbors] is the table returned by [neighborKey.setNeighbors(node)]
    (Octree.h is not among the sources). *)
Definition UpdateWeightContribution (node : NodePtr) (position : Qc * Qc * Qc)
    (neighbors : nat -> nat -> nat -> option NodePtr) (weight : Qc)
    (store : NodeStore) : NodeStore :=
  fold_left (fun store ijk =>
               let '(i, j, k) := ijk in
               match neighbors i j k with
               | Some n =>
                   <[n := with_centerWeight0
                            (fst (centerWeightContribution (store n))
                             + weight_increment (center node) position (width node)
                                 weight i j k)
                            (store n)]> store
               | None => store
               end) cube3 store.

(** ** [GetIsoValue] *)

(** [v[i] = q] *)
Definition assign_at (v : Vector) (i : nat) (q : Qc) : Vector := <[i := q]> v.

Section GetIsoValue.
Variable root : OctNode.
Variable store : NodeStore.
Variable sNodes : SortedTreeNodes.
Variable boundaryType_ : BoundaryType.
Variable OutputDensity : bool.
Variable minDepth_ : nat.
(** The value [getCenterValue(nKey, node, metSolution, ...)] of a leaf: the
    evaluator tables are not among the sources. *)
Variable getCenterValue : NodePtr -> Qc.

(** The loop variables [centerValues], [isoValue], [weightSum]. *)
Record iso_state : Type := mkIso {
  centerValues : Vector; isoValue : Qc; weightSum : Qc
}.

(** The body of the loop over [i]. *)
Definition iso_node (st : iso_state) (i : nat) : iso_state :=
  match treeNodes sNodes !! i with
  | None => st
  | Some node =>
      let value :=
        if hasChildren root node
        then fold_left (fun value c =>
                          value + at_ (centerValues st) (nodeIndex (store (child node c))))
               (seq 0 8) 0 / Q2Qc (8 # 1)
        else getCenterValue node in
      let cv := assign_at (centerValues st) i value in
      let w := centerWeight OutputDensity (store node) in
      if bool_decide (w = 0) then mkIso cv (isoValue st) (weightSum st)
      else mkIso cv (isoValue st + value * w) (weightSum st + w)
  end.

(** [for(int d = maxDepth; d >= minDepth_; --d)] *)
Definition iso_depths : list nat :=
  rev (seq minDepth_ (S (maxDepth root) - minDepth_)).

Definition iso_sums : iso_state :=
  fold_left (fun st d => fold_left iso_node (depth_range sNodes d) st) iso_depths
    (mkIso (zeros (nodeCount_at sNodes (S (maxDepth root)))) 0 0).

(** [Octree::GetIsoValue()]: [return isoValue / weightSum - r] *)
Definition GetIsoValue : option Qc :=
  let r := match boundaryType_ with BoundaryTypeDirichlet => Q2Qc (1 # 2) | _ => 0 end in
  match fdiv (isoValue iso_sums) (weightSum iso_sums) with
  | Some q => Some (q - r)
  | None => None
  end.
End GetIsoValue.

(** ** [GetRoot] *)

(** A [Real] or [double] that a division may have made non-finite. *)
Inductive ieee : Type :=
| Finite (q : Qc)
| Infinity (negative : bool)
| NaN.

(** [a / b] for two numbers.  A zero divisor is [+0] (the difference of two
    equal numbers): [0 / 0] is [NaN] and any other [a / 0] the infinity of
    the sign of [a]. *)
Definition ieee_div (a b : Qc) : ieee :=
  if bool_decide (b = 0)
  then if bool_decide (a = 0) then NaN else Infinity (bool_decide (a < 0))
  else Finite (a / b).

(** [x < y] and [x > y] for a number [y]: both false of [NaN]. *)
Definition ieee_lt (x : ieee) (y : Qc) : bool :=
  match x with
  | Finite q => bool_decide (q < y)
  | Infinity negative => negative
  | NaN => false
  end.

Definition ieee_gt (x : ieee) (y : Qc) : bool :=
  match x with
  | Finite q => bool_decide (y < q)
  | Infinity negative => negb negative
  | NaN => false
  end.

(** [c + w * a] for two numbers [c] and [w] *)
Definition ieee_along (c w : Qc) (a : ieee) : ieee :=
  match a with
  | Finite q => Finite (c + w * q)
  | Infinity negative =>
      if bool_decide (w = 0) then NaN
      else Infinity (xorb negative (bool_decide (w < 0)))
  | NaN => NaN
  end.

(** [clamp(x, minVal, maxVal)]:
    [x < minVal ? minVal : x > maxVal ? maxVal : x] *)
Definition clamp (x : ieee) (minVal maxVal : Qc) : ieee :=
  if ieee_lt x minVal then Finite minVal
  else if ieee_gt x maxVal then Finite maxVal else x.

Inductive root_warning : Type :=
| BadAverageRoot (averageRoot : ieee).

(** What [GetRoot] leaves behind: the parameter used in [position[o]],
    [vertex.point], and what was written to [std::cerr]. *)
Record RootVertex : Type := mkRootVertex {
  vertex_averageRoot : ieee;
  vertex_point : ieee * ieee * ieee;
  vertex_cerr : list root_warning
}.

(** The same where the parameter and the coordinates are numbers. *)
Record RootPosition : Type := mkRootPosition {
  averageRoot : Qc;               (* the parameter used in [position[o]] *)
  position : Qc * Qc * Qc;        (* [vertex.point] *)
  root_cerr : list root_warning
}.

(** The loop [for(i) if(roots[i] >= 0 && roots[i] <= 1) ...]:
    [(averageRoot, rCount)] *)
Definition roots_in_unit (roots : list Qc) : Qc * nat :=
  fold_left (fun acc r =>
               if bool_decide (0 <= r) && bool_decide (r <= 1)
               then (fst acc + r, S (snd acc)) else acc) roots (0, 0%nat).

(** [averageRoot] as it is used in [position[o]], with the warning written:
    [if(rCount && nonLinearFit) averageRoot /= rCount;
     else averageRoot = (Real)((x0 - isoValue) / (x0 - x1));
     if(averageRoot < 0 || averageRoot > 1) { ...; averageRoot = clamp(averageRoot, 0, 1); }] *)
Definition GetRoot_averageRoot (roots : list Qc) (nonLinearFit : bool)
    (x0 x1 isoValue : Qc) : ieee * list root_warning :=
  let '(sum, rCount) := roots_in_unit roots in
  let a :=
    if negb (rCount =? 0)%nat && nonLinearFit
    then Finite (sum / Q2Qc (inject_Z (Z.of_nat rCount)))
    else ieee_div (x0 - isoValue) (x0 - x1) in
  if ieee_lt a 0 || ieee_gt a 1
  then (clamp a 0 1, [BadAverageRoot a])
  else (a, []).

(** The part of [Octree::GetRoot] from the Hermite roots to
    [vertex.point = position].  [roots] is [P.getSolutions(isoValue,
    EPSILON)] (Polynomial.h is not among the sources), [x0], [x1] the two
    corner values, [c] and [w] the center and width of [ri.node], and
    [(o, i1, i2)] the factors of the edge index.  The corner values, the
    iso-value, the center and the width are numbers. *)
Definition GetRoot_vertex (roots : list Qc) (nonLinearFit : bool)
    (x0 x1 isoValue : Qc) (c : Qc * Qc * Qc) (w : Qc) (o : nat) (i1 i2 : Z)
    : RootVertex :=
  let '(cx, cy, cz) := c in
  let center := triple_at c o in
  let corner (ci : Qc) (i : Z) := Finite (ci - w / Q2Qc (2 # 1) + w * Q2Qc (inject_Z i)) in
  let '(a, cerr) := GetRoot_averageRoot roots nonLinearFit x0 x1 isoValue in
  let along := ieee_along (center - w / Q2Qc (2 # 1)) w a in
  let position :=
    match o with
    | 0%nat => (along, corner cy i1, corner cz i2)
    | 1%nat => (corner cx i1, along, corner cz i2)
    | _ => (corner cx i1, corner cy i2, along)
    end in
  mkRootVertex a position cerr.

(** The vertex of [GetRoot] where its parameter and its coordinates are
    numbers; [None] where one of them is not. *)
Definition GetRoot_position (roots : list Qc) (nonLinearFit : bool)
    (x0 x1 isoValue : Qc) (c : Qc * Qc * Qc) (w : Qc) (o : nat) (i1 i2 : Z)
    : option RootPosition :=
  let v := GetRoot_vertex roots nonLinearFit x0 x1 isoValue c w o i1 i2 in
  match vertex_averageRoot v, vertex_point v with
  | Finite a, (Finite x, Finite y, Finite z) =>
      Some (mkRootPosition a (x, y, z) (vertex_cerr v))
  | _, _ => None
  end.

(** ** [IsInset], [IsInsetSupported] *)

(** [Octree::IsInset(node)].  For a depth below 2 the shift count of
    [1 << (d - 2)] is negative, which is undefined in the source: [None]. *)
Definition IsInset (node : NodePtr) : option bool :=
  let '(d, (ox, oy, oz)) := depthAndOffset node in
  if (d <? 2)%nat then None
  else
    let res := (2 ^ Z.of_nat d)%Z in
    let o := (2 ^ (Z.of_nat d - 2))%Z in
    Some ((ox >=? o) && (ox <? res - o) && (oy >=? o) && (oy <? res - o)
          && (oz >=? o) && (oz <? res - o))%Z.

(** [IsInsetSupported(node)] *)
Definition IsInsetSupported (node : NodePtr) : option bool :=
  let '(d, (ox, oy, oz)) := depthAndOffset node in
  if (d <? 2)%nat then None
  else
    let res := (2 ^ Z.of_nat d)%Z in
    let o := (2 ^ (Z.of_nat d - 2))%Z in
    Some ((ox >=? o) && (ox <=? res - o) && (oy >=? o) && (oy <=? res - o)
          && (oz >=? o) && (oz <=? res - o))%Z.

(** ** Points *)

(** [Point3D<Real>]; [Point3D<Real>()] is the zero point (the source
    compares a normal with it to recognise the zero normal). *)
Abbreviation Point3D := (Qc * Qc * Qc)%type.

Definition Point3D_ : Point3D := (0, 0, 0).

Definition point_plus (p q : Point3D) : Point3D :=
  let '(p0, p1, p2) := p in
  let '(q0, q1, q2) := q in
  (p0 + q0, p1 + q1, p2 + q2).

Definition point_minus (p q : Point3D) : Point3D :=
  let '(p0, p1, p2) := p in
  let '(q0, q1, q2) := q in
  (p0 - q0, p1 - q1, p2 - q2).

Definition point_times (p : Point3D) (s : Qc) : Point3D :=
  let '(p0, p1, p2) := p in (p0 * s, p1 * s, p2 * s).

(** [p / s]: no finite value for a zero [s]. *)
Definition point_div (p : Point3D) (s : Qc) : option Point3D :=
  let '(p0, p1, p2) := p in
  match fdiv p0 s, fdiv p1 s, fdiv p2 s with
  | Some q0, Some q1, Some q2 => Some (q0, q1, q2)
  | _, _, _ => None
  end.

(** ** [inBounds] and the first pass of [setTree] *)

(** [Octree::inBounds(p)] *)
Definition inBounds (boundaryType_ : BoundaryType) (p : Point3D) : bool :=
  let e := if is_BoundaryTypeNone boundaryType_ then Q2Qc (1 # 4) else 0 in
  let '(p0, p1, p2) := p in
  bool_decide (e <= p0) && bool_decide (p0 <= 1 - e)
  && bool_decide (e <= p1) && bool_decide (p1 <= 1 - e)
  && bool_decide (e <= p2) && bool_decide (p2 <= 1 - e).

(** [std::max(a, b)] *)
Definition std_max (a b : Qc) : Qc := if bool_decide (a < b) then b else a.

(** The loop variables [min], [max], [unassigned] of the block "Read
    through once to get the center and scale". *)
Record Extent : Type := mkExtent { e_min : Point3D; e_max : Point3D; unassigned : bool }.

(** [if(unassigned || p[i] < min[i]) min[i] = p[i]] and
    [if(unassigned || p[i] > max[i]) max[i] = p[i]] *)
Definition lower (unassigned : bool) (pi mini : Qc) : Qc :=
  if unassigned || bool_decide (pi < mini) then pi else mini.
Definition upper (unassigned : bool) (pi maxi : Qc) : Qc :=
  if unassigned || bool_decide (maxi < pi) then pi else maxi.

Section SetTree.
(** [xForm * p]: the transformation is given on the command line (XForm
    is not among the sources). *)
Variable xForm : Point3D -> Point3D.
Variable boundaryType_ : BoundaryType.
Variable scaleFactor : Qc.

(** One pass of [while(pointStream->nextPoint(p, n))] *)
Definition extent_point (e : Extent) (p : Point3D) : Extent :=
  let '(p0, p1, p2) := xForm p in
  let '(m0, m1, m2) := e_min e in
  let '(M0, M1, M2) := e_max e in
  let u := unassigned e in
  mkExtent (lower u p0 m0, lower u p1 m1, lower u p2 m2)
           (upper u p0 M0, upper u p1 M1, upper u p2 M2) false.

Definition extent (points : list Point3D) : Extent :=
  fold_left extent_point points (mkExtent Point3D_ Point3D_ true).

(** [scale_] *)
Definition setTree_scale (points : list Point3D) : Qc :=
  let '(m0, m1, m2) := e_min (extent points) in
  let '(M0, M1, M2) := e_max (extent points) in
  std_max (M0 - m0) (std_max (M1 - m1) (M2 - m2))
  * (if is_BoundaryTypeNone boundaryType_ then Q2Qc (2 # 1) * scaleFactor else scaleFactor).

(** [center_ = (max + min) / 2 - Point3D<Real>::ones() * (scale_ / 2)] *)
Definition setTree_center (points : list Point3D) : Point3D :=
  let '(s0, s1, s2) := point_plus (e_max (extent points)) (e_min (extent points)) in
  let h := setTree_scale points / Q2Qc (2 # 1) in
  (s0 / Q2Qc (2 # 1) - h, s1 / Q2Qc (2 # 1) - h, s2 / Q2Qc (2 # 1) - h).

(** [p = (xForm * p - center_) / scale_] in the later passes, as the exact
    quotient: the rounding of [scale_], [center_] and of the quotient is
    not modelled, so that a sample which the exact value puts on a face of
    the cube of [inBounds] may fall on either side of it in the program.
    [None] for [scale_ = 0], where the program gets [NaN] or an infinity. *)
Definition setTree_normalize (points : list Point3D) (p : Point3D) : option Point3D :=
  point_div (point_minus (xForm p) (setTree_center points)) (setTree_scale points).

(** [if(!inBounds(p)) continue]: whether the sample is used.  A point
    without finite coordinates fails every comparison of [inBounds]. *)
Definition setTree_keeps (points : list Point3D) (p : Point3D) : bool :=
  match setTree_normalize points p with
  | Some q => inBounds boundaryType_ q
  | None => false
  end.
End SetTree.

(** ** [SplatOrientedPoint] (on a node) and [GetSampleWeight] *)

Definition with_normalIndex (i : Z) (nd : TreeNodeData) : TreeNodeData :=
  mkTreeNodeData (nodeIndex nd) i (constraint nd) (solution nd) (pointIndex nd)
    (centerWeightContribution nd).

(** [dx[0][i] * dx[1][j] * dx[2][k]] for the quadratic kernel, which both
    functions compute as [UpdateWeightContribution] does before its
    scaling line. *)
Definition kernel_weight (center position : Point3D) (width : Qc) (i j k : nat) : Qc :=
  let '(cx, cy, cz) := center in
  let '(px, py, pz) := position in
  triple_at (splat_kernel cx px width) i * triple_at (splat_kernel cy py width) j
  * triple_at (splat_kernel cz pz width) k.

(** The tree payloads together with the vector [normals_]. *)
Record Normals : Type := mkNormals { n_store : NodeStore; normals_ : list Point3D }.

(** The body of the innermost loop of
    [SplatOrientedPoint(node, position, normal, neighborKey)], in the
    branch [SPLAT_ORDER == 2] (every [off[i]] is 0 and the loops run over
    the whole table). *)
Definition splat_neighbor (node : NodePtr) (position normal : Point3D)
    (neighbors : nat -> nat -> nat -> option NodePtr) (st : Normals)
    (ijk : nat * nat * nat) : Normals :=
  let '(i, j, k) := ijk in
  match neighbors i j k with
  | None => st
  | Some nnode =>
      let idx := normalIndex (n_store st nnode) in
      let st1 :=
        if (idx <? 0)%Z
        then mkNormals
               (<[nnode := with_normalIndex (Z.of_nat (length (normals_ st)))
                             (with_nodeIndex 0 (n_store st nnode))]> (n_store st))
               (normals_ st ++ [Point3D_])
        else st in
      let idx := normalIndex (n_store st1 nnode) in
      mkNormals (n_store st1)
        (alter (fun n => point_plus n
                           (point_times normal
                              (kernel_weight (center node) position (width node) i j k)))
               (Z.to_nat idx) (normals_ st1))
  end.

Definition SplatOrientedPoint (node : NodePtr) (position normal : Point3D)
    (neighbors : nat -> nat -> nat -> option NodePtr) (st : Normals) : Normals :=
  fold_left (splat_neighbor node position normal neighbors) cube3 st.

(** [Octree::GetSampleWeight(node, position, neighbors)]: the sum
    [weight] and the value returned, [1.0 / weight]. *)
Definition sample_sum (node : NodePtr) (position : Point3D)
    (neighbors : nat -> nat -> nat -> option NodePtr) (store : NodeStore) : Qc :=
  fold_left (fun weight ijk =>
               let '(i, j, k) := ijk in
               match neighbors i j k with
               | Some n =>
                   weight + kernel_weight (center node) position (width node) i j k
                            * fst (centerWeightContribution (store n))
               | None => weight
               end) cube3 0.

Definition GetSampleWeight (node : NodePtr) (position : Point3D)
    (neighbors : nat -> nat -> nat -> option NodePtr) (store : NodeStore) : option Qc :=
  fdiv 1 (sample_sum node position neighbors store).

(** ** [SetMatrixRowBounds], [GetMatrixRowSize], [SetMatrixRow] *)

(** [struct Range3D] *)
Record Range3D : Type := mkRange3D {
  xStart : Z; xEnd : Z; yStart : Z; yEnd : Z; zStart : Z; zEnd : Z
}.

(** Modelled from the spec: [Range3D::FullRange()] of Octree.h, which is
    not among the sources: the whole "5x5x5 neighborhood", the indices 0
    to 4 on every axis. *)
Definition FullRange : Range3D := mkRange3D 0 5 0 5 0 5.

(** One pass of the loop over [i] of [SetMatrixRowBounds], for the offset
    [off[i]] already taken relative to the coarse node: the values
    stored through [starts[i]] and [ends[i]]. *)
Definition row_bounds (off_i width : Z) : Z * Z :=
  ((if off_i <? 0 then - off_i else 0),
   (if off_i >=? width then 4 - (off_i - width) else 5))%Z.

(** [off[i] -= rOff[i] << (depth - rDepth)] *)
Definition relative_offset (depth rDepth : nat) (off_i rOff_i : Z) : Z :=
  (off_i - Z.shiftl rOff_i (Z.of_nat (depth - rDepth)))%Z.

(** [Octree::SetMatrixRowBounds(node, rDepth, rOff, range)].  A node above
    the coarse node makes the shift count negative: [None]. *)
Definition SetMatrixRowBounds (node : NodePtr) (rDepth : nat) (rOff : Z * Z * Z)
    : option Range3D :=
  let '(depth, (o0, o1, o2)) := depthAndOffset node in
  let '(r0, r1, r2) := rOff in
  if (depth <? rDepth)%nat then None
  else
    let width := Z.shiftl 1 (Z.of_nat (depth - rDepth)) in
    let bx := row_bounds (relative_offset depth rDepth o0 r0) width in
    let by' := row_bounds (relative_offset depth rDepth o1 r1) width in
    let bz := row_bounds (relative_offset depth rDepth o2 r2) width in
    Some (mkRange3D (fst bx) (snd bx) (fst by') (snd by') (fst bz) (snd bz)).

(** The values of the loop variable of [for(int x = a; x < b; ++x)]. *)
Definition loop_lt (a b : Z) : list Z := seqZ a (b - a).

(** The values of the loop variable of [for(int x = a; x != b; ++x)]: for
    [a > b] the loop does not stop at [b] and indexes the table out of its
    bounds, which is undefined: [None]. *)
Definition loop_ne (a b : Z) : option (list Z) :=
  if (a <=? b)%Z then Some (seqZ a (b - a)) else None.

(** The passes of a loop up to the first one that executes [break]. *)
Fixpoint until_break {T : Type} (stop : T -> bool) (l : list T) : list T :=
  match l with
  | [] => []
  | a :: l' => if stop a then [] else a :: until_break stop l'
  end.

Section MatrixRow.
(** [neighbors5.neighbors[x][y][z]] (the neighbour keys are not among the
    sources) and the payloads. *)
Variable neighbors5 : Z -> Z -> Z -> option NodePtr.
Variable store : NodeStore.

(** [neighbors5.neighbors[x][y][z] &&
     neighbors5.neighbors[x][y][z]->nodeData.nodeIndex >= 0] *)
Definition counted (x y z : Z) : bool :=
  match neighbors5 x y z with
  | Some n => (0 <=? nodeIndex (store n))%Z
  | None => false
  end.

(** The cells for which [GetMatrixRowSize(neighbors5, range, symmetric)]
    executes [++count], in order. *)
Definition GetMatrixRowSize_cells (range : Range3D) (symmetric : bool)
    : option (list (Z * Z * Z)) :=
  if symmetric then
    match loop_ne (xStart range) 3 with
    | None => None
    | Some [] => Some []
    | Some xs =>
        match loop_ne (yStart range) (yEnd range) with
        | None => None
        | Some ys =>
            Some (flat_map (fun x => flat_map (fun y =>
              if (x =? 2)%Z && (2 <? y)%Z then []
              else flat_map (fun z =>
                     if (x =? 2)%Z && (y =? 2)%Z && (2 <? z)%Z then []
                     else if counted x y z then [(x, y, z)] else [])
                     (loop_lt (zStart range) (zEnd range))) ys) xs)
        end
    end
  else
    match loop_ne (xStart range) (xEnd range) with
    | None => None
    | Some [] => Some []
    | Some xs =>
        match loop_ne (yStart range) (yEnd range) with
        | None => None
        | Some [] => Some []
        | Some ys =>
            match loop_ne (zStart range) (zEnd range) with
            | None => None
            | Some zs =>
                Some (flat_map (fun x => flat_map (fun y => flat_map (fun z =>
                  if counted x y z then [(x, y, z)] else []) zs) ys) xs)
            end
        end
    end.

(** [Octree::GetMatrixRowSize(neighbors5, range, symmetric)] *)
Definition GetMatrixRowSize (range : Range3D) (symmetric : bool) : option nat :=
  option_map (@length _) (GetMatrixRowSize_cells range symmetric).

(** [temp] before the halving of the diagonal: the stencil value or
    [GetLaplacian(...)], plus [pointValues[x][y][z]] when values are
    constrained (the integrator and the B-spline tables are not among the
    sources). *)
Variable value : Z -> Z -> Z -> Qc.

(** The body of the innermost loop of [SetMatrixRow] after the [break]
    test: the entries written to [row[count]]. *)
Definition SetMatrixRow_cell (offset : Z) (symmetric : bool) (xyz : Z * Z * Z)
    : list MatrixEntry :=
  let '(x, y, z) := xyz in
  match neighbors5 x y z with
  | Some _node =>
      if (0 <=? nodeIndex (store _node))%Z then
        let temp := value x y z in
        let temp :=
          if (x =? 2)%Z && (y =? 2)%Z && (z =? 2)%Z && symmetric
          then temp / Q2Qc (2 # 1) else temp in
        if bool_decide (temp = 0) then []
        else [mkEntry (nodeIndex (store _node) - offset) temp]
      else []
  | None => []
  end.

(** The cells that the three loops of [SetMatrixRow] reach. *)
Definition SetMatrixRow_cells (range : Range3D) (symmetric : bool) : list (Z * Z * Z) :=
  flat_map (fun x =>
    flat_map (fun y =>
      map (fun z => (x, y, z))
        (until_break (fun z => (x =? 2)%Z && (y =? 2)%Z && (2 <? z)%Z && symmetric)
           (loop_lt (zStart range) (zEnd range))))
      (until_break (fun y => (x =? 2)%Z && (2 <? y)%Z && symmetric)
         (loop_lt (yStart range) (yEnd range))))
    (loop_lt (xStart range) (if symmetric then 3 else xEnd range)).

(** [Octree::SetMatrixRow(neighbors5, row, offset, integrator, stencil,
    range, symmetric)]: the entries [row[0 .. count-1]]; the value
    returned is their number. *)
Definition SetMatrixRow (offset : Z) (range : Range3D) (symmetric : bool)
    : list MatrixEntry :=
  flat_map (SetMatrixRow_cell offset symmetric) (SetMatrixRow_cells range symmetric).
End MatrixRow.

(** [Octree::UpdateCoarserSupportBounds(node, range)]: [corner] is
    [node->parent()->childIndex(node)], absent for the root. *)
Definition UpdateCoarserSupportBounds (corner : option nat) (range : Range3D) : Range3D :=
  match corner with
  | None => range
  | Some c =>
      let '(x, y, z) := FactorCornerIndex c in
      let r := if (x =? 0)%Z
               then mkRange3D (xStart range) 4 (yStart range) (yEnd range)
                      (zStart range) (zEnd range)
               else mkRange3D 1 (xEnd range) (yStart range) (yEnd range)
                      (zStart range) (zEnd range) in
      let r := if (y =? 0)%Z
               then mkRange3D (xStart r) (xEnd r) (yStart r) 4 (zStart r) (zEnd r)
               else mkRange3D (xStart r) (xEnd r) 1 (yEnd r) (zStart r) (zEnd r) in
      if (z =? 0)%Z
      then mkRange3D (xStart r) (xEnd r) (yStart r) (yEnd r) (zStart r) 4
      else mkRange3D (xStart r) (xEnd r) (yStart r) (yEnd r) 1 (zEnd r)
  end.

(** ** [HasNormals], [ClipTree] *)

Section HasNormals.
Variable store : NodeStore.
(** [normals_] *)
Variable normals : list Point3D.

(** An index beyond [normals_] reads as the zero vector.
    [node->nodeData.normalIndex >= 0 && (normals_[idx][0] != 0 ||
     normals_[idx][1] != 0 || normals_[idx][2] != 0)] *)
Definition has_own_normal (node : NodePtr) : bool :=
  let idx := normalIndex (store node) in
  let '(n0, n1, n2) := nth (Z.to_nat idx) normals Point3D_ in
  (0 <=? idx)%Z
  && (negb (bool_decide (n0 = 0)) || negb (bool_decide (n1 = 0))
      || negb (bool_decide (n2 = 0))).

(** [Octree::HasNormals(node, epsilon)], for the node [n] reached by the
    pointer [node]; [epsilon] is not used by the source. *)
Fixpoint HasNormals_node (n : OctNode) (node : NodePtr) : bool :=
  has_own_normal node
  || match n with
     | Leaf => false
     | Branch c0 c1 c2 c3 c4 c5 c6 c7 =>
         HasNormals_node c0 (child node 0) || HasNormals_node c1 (child node 1)
         || HasNormals_node c2 (child node 2) || HasNormals_node c3 (child node 3)
         || HasNormals_node c4 (child node 4) || HasNormals_node c5 (child node 5)
         || HasNormals_node c6 (child node 6) || HasNormals_node c7 (child node 7)
     end.

Definition HasNormals (root : OctNode) (node : NodePtr) : bool :=
  match subtree root node with
  | Some n => HasNormals_node n node
  | None => false
  end.

(** The node [n] with its child [c] replaced by [m]. *)
Definition set_child (n : OctNode) (c : nat) (m : OctNode) : OctNode :=
  match n with
  | Leaf => Leaf
  | Branch c0 c1 c2 c3 c4 c5 c6 c7 =>
      match c with
      | 0%nat => Branch m c1 c2 c3 c4 c5 c6 c7
      | 1%nat => Branch c0 m c2 c3 c4 c5 c6 c7
      | 2%nat => Branch c0 c1 m c3 c4 c5 c6 c7
      | 3%nat => Branch c0 c1 c2 m c4 c5 c6 c7
      | 4%nat => Branch c0 c1 c2 c3 m c5 c6 c7
      | 5%nat => Branch c0 c1 c2 c3 c4 m c6 c7
      | 6%nat => Branch c0 c1 c2 c3 c4 c5 m c7
      | 7%nat => Branch c0 c1 c2 c3 c4 c5 c6 m
      | _ => n
      end
  end.

(** [temp->nullChildren()]: the tree without the descendants of [temp]. *)
Fixpoint nullChildren (root : OctNode) (temp : NodePtr) : OctNode :=
  match temp with
  | [] => Leaf
  | c :: temp' =>
      match child_node root c with
      | Some m => set_child root c (nullChildren m temp')
      | None => root
      end
  end.

Variable minDepth_ : nat.

(** The body of the loop of [ClipTree] for the node [temp]. *)
Definition ClipTree_visit (root : OctNode) (temp : NodePtr) : OctNode :=
  if negb (hasChildren root temp) || (depth temp <? minDepth_)%nat then root
  else if existsb (fun i => HasNormals root (child temp i)) (seq 0 8) then root
  else nullChildren root temp.

(** [Octree::ClipTree()].  [order] lists the nodes in the order in which
    [tree_.nextNode] yields them (Octree.h is not among the sources); a
    pointer that no longer designates a node is passed over. *)
Definition ClipTree (order : list NodePtr) (root : OctNode) : OctNode :=
  fold_left ClipTree_visit order root.
End HasNormals.

(** ** [GetRoot]: the Hermite spline *)

(** [scl = (x1 - x0) / ((dx1 + dx0) / 2); dx0 *= scl; dx1 *= scl;
     coefficients[] = { x0, dx0, 3 * (x1 - x0) - dx1 - 2 * dx0 }]:
    the scaled slopes [dx0], [dx1] and the coefficients handed to
    [Polynomial<2>], in ascending order of the power. *)
Definition GetRoot_coefficients (x0 x1 dx0 dx1 : Qc) : option (Qc * Qc * (Qc * Qc * Qc)) :=
  match fdiv (x1 - x0) ((dx1 + dx0) / Q2Qc (2 # 1)) with
  | None => None
  | Some scl =>
      let dx0 := dx0 * scl in
      let dx1 := dx1 * scl in
      Some (dx0, dx1,
            (x0, dx0, Q2Qc (3 # 1) * (x1 - x0) - dx1 - Q2Qc (2 # 1) * dx0))
  end.

(** ** [GetEdgeLoops] *)

Section EdgeLoops.
(** [RootInfo] with its [key]; an edge is a [std::pair<RootInfo, RootInfo>]
    and [edges_t] a vector of edges. *)
Variable RootInfo : Type.
Variable key : RootInfo -> Z.

Local Abbreviation edges_t := (list (RootInfo * RootInfo)).

(** [edges[j] = edges.back(); edges.pop_back()], where [edges.back()] is
    [edges[edges.size() - 1]]. *)
Definition swap_remove (j : nat) (edges : edges_t) : edges_t :=
  match edges !! (length edges - 1)%nat with
  | Some b => removelast (<[j := b]> edges)
  | None => edges
  end.

Inductive loop_end : Type := Front | Back.

(** The scan [for(j = ...; j >= 0; --j)] from the index [n - 1] downwards:
    the first edge met that has an end at [frontIdx] or, failing that, at
    [backIdx]. *)
Fixpoint first_match (edges : edges_t) (frontIdx backIdx : Z) (n : nat)
    : option (nat * loop_end * (RootInfo * RootInfo)) :=
  match n with
  | O => None
  | S j =>
      match edges !! j with
      | Some ej =>
          if (key (fst ej) =? frontIdx)%Z || (key (snd ej) =? frontIdx)%Z
          then Some (j, Front, ej)
          else if (key (fst ej) =? backIdx)%Z || (key (snd ej) =? backIdx)%Z
          then Some (j, Back, ej)
          else first_match edges frontIdx backIdx j
      | None => first_match edges frontIdx backIdx j
      end
  end.

(** The variables of the loop over [j]. *)
Record loop_state : Type := mkLoopState {
  ls_edges : edges_t; frontIdx : Z; backIdx : Z; front : edges_t; back : edges_t
}.

(** The loop over [j].  After a match the edge is removed and the scan
    starts again from the end ([j = edges.size()]); without a match the
    loop ends.  Every pass of [grow] removes an edge, so [fuel] of the
    number of edges is never used up. *)
Fixpoint grow (fuel : nat) (st : loop_state) : loop_state :=
  match fuel with
  | O => st
  | S fuel' =>
      match first_match (ls_edges st) (frontIdx st) (backIdx st) (length (ls_edges st)) with
      | None => st
      | Some (j, Front, ej) =>
          let temp := if (key (fst ej) =? frontIdx st)%Z then ej else (snd ej, fst ej) in
          grow fuel' (mkLoopState (swap_remove j (ls_edges st)) (key (snd temp))
                        (backIdx st) (front st ++ [temp]) (back st))
      | Some (j, Back, ej) =>
          let temp := if (key (snd ej) =? backIdx st)%Z then ej else (snd ej, fst ej) in
          grow fuel' (mkLoopState (swap_remove j (ls_edges st)) (frontIdx st)
                        (key (fst temp)) (front st) (back st ++ [temp]))
      end
  end.

(** One pass of [while(edges.size())]: the loop built and the edges left. *)
Definition next_loop (edges : edges_t) : option (edges_t * edges_t) :=
  match edges with
  | [] => None
  | e :: _ =>
      let edges' := swap_remove 0 edges in
      let st := grow (length edges')
                  (mkLoopState edges' (key (snd e)) (key (fst e)) [] []) in
      Some (rev (back st) ++ [e] ++ front st, ls_edges st)
  end.

Fixpoint GetEdgeLoops_from (fuel : nat) (edges : edges_t) : list edges_t :=
  match fuel with
  | O => []
  | S fuel' =>
      match next_loop edges with
      | None => []
      | Some (loop, edges') => loop :: GetEdgeLoops_from fuel' edges'
      end
  end.

(** [Octree::GetEdgeLoops(edges)]: every pass takes at least one edge. *)
Definition GetEdgeLoops (edges : edges_t) : list edges_t :=
  GetEdgeLoops_from (length edges) edges.
End EdgeLoops.

Arguments swap_remove {RootInfo} j edges.
Arguments mkLoopState {RootInfo} ls_edges frontIdx backIdx front back.
Arguments ls_edges {RootInfo} l.
Arguments frontIdx {RootInfo} l.
Arguments backIdx {RootInfo} l.
Arguments front {RootInfo} l.
Arguments back {RootInfo} l.

(** ** [IsBoundaryFace], [IsBoundaryEdge], [refineBoundary] *)

(** [o[dir]], for [dir] 0, 1 or 2 *)
Definition coordinate (o : Z * Z * Z) (dir : nat) : Z :=
  match dir with
  | 0%nat => fst (fst o)
  | 1%nat => snd (fst o)
  | _ => snd o
  end.

(** [Octree::IsBoundaryFace(node, faceIndex, sDepth)]; the value is 0 or
    1.  [FactorFaceIndex] is [Cube::FactorFaceIndex], which is not among
    the sources. *)
Definition IsBoundaryFace (FactorFaceIndex : Z -> nat * Z) (node : NodePtr)
    (faceIndex sDepth : Z) : bool :=
  if (sDepth <? 0)%Z then false
  else if (Z.of_nat (depth node) <=? sDepth)%Z then true
  else
    let '(dir, offset_) := FactorFaceIndex faceIndex in
    let '(d, o) := depthAndOffset node in
    let idx := (Z.shiftl (coordinate o dir) 1 + Z.shiftl offset_ 1)%Z in
    (Z.rem idx (Z.shiftl 2 (Z.of_nat d - sDepth)) =? 0)%Z.

(** [Octree::IsBoundaryEdge(node, dir, x, y, sDepth)]; for a [dir] that
    is not 0, 1 or 2 the two indices are not set. *)
Definition IsBoundaryEdge (node : NodePtr) (dir : nat) (x y sDepth : Z) : option bool :=
  if (sDepth <? 0)%Z then Some false
  else if (Z.of_nat (depth node) <=? sDepth)%Z then Some true
  else
    let '(d, o) := depthAndOffset node in
    let idx :=
      match dir with
      | 0%nat => Some (coordinate o 1 + x, coordinate o 2 + y)%Z
      | 1%nat => Some (coordinate o 0 + x, coordinate o 2 + y)%Z
      | 2%nat => Some (coordinate o 0 + x, coordinate o 1 + y)%Z
      | _ => None
      end in
    match idx with
    | Some (idx1, idx2) =>
        let mask := Z.shiftl 1 (Z.of_nat d - sDepth) in
        Some ((Z.rem idx1 mask =? 0)%Z || (Z.rem idx2 mask =? 0)%Z)
    | None => None
    end.

(** [refineBoundary(subdivideDepth)]: the value [sDepth], which is
    returned. *)
Definition refineBoundary_sDepth (boundaryType_ : BoundaryType)
    (maxDepth subdivideDepth : Z) : Z :=
  let subdivideDepth := Z.max subdivideDepth 0 in
  let subdivideDepth :=
    if is_BoundaryTypeNone boundaryType_ then (subdivideDepth + 2)%Z else subdivideDepth in
  let subdivideDepth := Z.min subdivideDepth maxDepth in
  let sDepth := (maxDepth - subdivideDepth)%Z in
  if is_BoundaryTypeNone boundaryType_ then Z.max 2 sDepth else sDepth.

(** [(boundary[i][0], boundary[i][1])] for a leaf of depth [d] with the
    offset [off_i] on the axis [i]. *)
Definition refine_boundary (d : nat) (sDepth off_i : Z) : bool * bool :=
  let res := (Z.shiftl 1 (Z.of_nat d) - 1)%Z in
  let _res := (Z.shiftl 1 (Z.of_nat d - sDepth) - 1)%Z in
  let _off := Z.land off_i _res in
  (negb (off_i =? 0)%Z && (_off =? 0)%Z, negb (off_i =? res)%Z && (_off =? _res)%Z).

(** [boundary[i][0] && !lo ? -1 : boundary[i][1] && !hi ? 1 : 0], where
    [lo] and [hi] tell whether the two face neighbours on the axis exist. *)
Definition refine_direction (boundary : bool * bool) (lo hi : bool) : Z :=
  if fst boundary && negb lo then (-1)%Z
  else if snd boundary && negb hi then 1%Z else 0%Z.

(** [flags[i][j][k]] after the seven conditional assignments to the table,
    which starts all [false]. *)
Definition refine_flags (x y z i j k : Z) : bool :=
  let nz (v : Z) := negb (v =? 0)%Z in
  let at_cell (a b c : Z) := ((i =? a) && (j =? b) && (k =? c))%Z in
  (nz x && nz y && nz z && at_cell (1 + x) (1 + y) (1 + z))%Z
  || (nz x && nz y && at_cell (1 + x) (1 + y) 1)%Z
  || (nz x && nz z && at_cell (1 + x) 1 (1 + z))%Z
  || (nz y && nz z && at_cell 1 (1 + y) (1 + 1))%Z
  || (nz x && at_cell (1 + x) 1 1)%Z
  || (nz y && at_cell 1 (1 + y) 1)%Z
  || (nz z && at_cell 1 1 (1 + z))%Z.

End MultiGridOctreeDataInl.

(* ===================================================================== *)
(** * Sample data *)
(* ===================================================================== *)

Module Samples.
Import SparseMatrixInl.
Local Open Scope Qc_scope.

(** The matrix [[1 0] [0 2]]: a diagonal entry [(i, i, V)] is applied twice
    by the products, so the stored values are halved. *)
Definition diag12 : SparseSymmetricMatrix :=
  [[mkEntry 0 (Q2Qc (1 # 2))]; [mkEntry 1 1]].

Definition ones2 : Vector := [1; 1].
Definition zeros2 : Vector := [0; 0].

(** The matrix [[2 1 0] [1 2 1] [0 1 2]], upper triangle stored. *)
Definition tridiag3 : SparseSymmetricMatrix :=
  [[mkEntry 0 1; mkEntry 1 1]; [mkEntry 1 1; mkEntry 2 1]; [mkEntry 2 1]].

Definition v123 : Vector := [1; Q2Qc (2 # 1); Q2Qc (3 # 1)].

(** Everything on thread 0. *)
Definition one_thread (i : Z) : nat := 0%nat.

(** [(int)std::pow(rows, 1.0 / 3)] for the systems of the samples, which
    have fewer than 8 rows: 0 for no row, else 1. *)
Definition pow_third (rows : Z) : Z := if (rows <=? 0)%Z then 0%Z else 1%Z.

Import MultiGridOctreeDataInl.

(** A store in which every node has the payload of [TreeNodeData()]. *)
Definition fresh_store : NodeStore := fun _ => TreeNodeData_.

(** The root with its eight children. *)
Definition tree1 : OctNode := Branch Leaf Leaf Leaf Leaf Leaf Leaf Leaf Leaf.

(** As [tree1], with child 3 split once more: 17 nodes on three levels. *)
Definition tree2 : OctNode :=
  Branch Leaf Leaf Leaf (Branch Leaf Leaf Leaf Leaf Leaf Leaf Leaf Leaf)
         Leaf Leaf Leaf Leaf.

Definition sorted1 : SortedTreeNodes := fst (set tree1 fresh_store).
Definition store1 : NodeStore := snd (set tree1 fresh_store).
Definition sorted2 : SortedTreeNodes := fst (set tree2 fresh_store).
Definition store2 : NodeStore := snd (set tree2 fresh_store).

(** The table of a root that stands alone. *)
Definition only_center (i j k : nat) : option NodePtr :=
  match i, j, k with
  | 1%nat, 1%nat, 1%nat => Some []
  | _, _, _ => None
  end.

End Samples.

(* ===================================================================== *)
(** * Sentences of the specification, as they are written *)
(* ===================================================================== *)

Module SpecMd.
Import SparseMatrixInl MultiGridOctreeDataInl.
Local Open Scope Qc_scope.

(** The ceiling of the cube root: the least [c >= 0] with [n <= c^3]. *)
Fixpoint ceil_cube_root_from (fuel : nat) (c n : Z) : Z :=
  match fuel with
  | O => c
  | S fuel' => if (n <=? c ^ 3)%Z then c else ceil_cube_root_from fuel' (c + 1)%Z n
  end.

Definition ceil_cube_root (n : Z) : Z := ceil_cube_root_from (Z.to_nat n) 0 n.

(** Section 4.6, strategy 1: "run conjugate gradient with termination at
    |r|^2 <= eps |r0|^2 or iteration budget max(ceil(n^(1/3)), minIters)",
    with [eps] the configured [accuracy], for a solve with [fixedIters]
    unset (negative): the count returned is within the budget, and it is at
    most [k] as soon as the squared residual after [k] passes is at most
    [accuracy] times the initial one.  [pow_ITERATION_POWER] is the
    truncated power that the C++ library gives. *)
Definition whole_depth_cg_as_written (pow_ITERATION_POWER : Z -> Z)
    (M : SparseSymmetricMatrix) (B X : Vector)
    (minIters : Z) (accuracy : Qc) (threads : Z) (addDCTerm : bool)
    (thread_num : Z -> nat) (fuel : nat) : Prop :=
  let threads' := if (threads <? 1)%Z then 1%Z else threads in
  let delta k := cg_delta_new (cg_after M B threads' addDCTerm thread_num X k) in
  forall (fixedIters iter : Z) (X' : Vector),
    (fixedIters < 0)%Z ->
    SolveFixedDepthMatrix_solve pow_ITERATION_POWER M B X minIters accuracy false
      fixedIters threads addDCTerm thread_num fuel = Some (iter, X') ->
    (iter <= Z.max (ceil_cube_root (Z.of_nat (Rows M))) minIters)%Z /\
    forall k : nat, delta k <= accuracy * delta 0%nat -> (iter <= Z.of_nat k)%Z.

(** Section 9, "Iso-value determination: guard the average by a non-zero
    weight sum; if zero, fall back to 0", with the offset 0.5 subtracted
    under Dirichlet: in a state in which every sorted node has a zero
    center weight, [GetIsoValue] returns that finite fallback. *)
Definition iso_value_guard_as_written (root : OctNode) (store : NodeStore)
    (sNodes : SortedTreeNodes) (boundaryType_ : BoundaryType) (OutputDensity : bool)
    (minDepth_ : nat) (getCenterValue : NodePtr -> Qc) : Prop :=
  (forall i node, treeNodes sNodes !! i = Some node ->
                  centerWeight OutputDensity (store node) = 0) ->
  GetIsoValue root store sNodes boundaryType_ OutputDensity minDepth_ getCenterValue
  = Some (0 - match boundaryType_ with
              | BoundaryTypeDirichlet => Q2Qc (1 # 2)
              | _ => 0
              end).

(** The two ends of the edge [(o, i1, i2)] of the cell with center [c] and
    width [w]: [s = 0] for the lower end, [s = 1] for the upper end. *)
Definition edge_end (c : Qc * Qc * Qc) (w : Qc) (o : nat) (i1 i2 : Z) (s : Qc)
    : Qc * Qc * Qc :=
  let '(cx, cy, cz) := c in
  let lo (ci : Qc) := ci - w / Q2Qc (2 # 1) in
  match o with
  | 0%nat => (lo cx + w * s, lo cy + w * Q2Qc (inject_Z i1), lo cz + w * Q2Qc (inject_Z i2))
  | 1%nat => (lo cx + w * Q2Qc (inject_Z i1), lo cy + w * s, lo cz + w * Q2Qc (inject_Z i2))
  | _ => (lo cx + w * Q2Qc (inject_Z i1), lo cy + w * Q2Qc (inject_Z i2), lo cz + w * s)
  end.

(** [p = (1 - t) a + t b] *)
Definition between (a b : Qc * Qc * Qc) (t : Qc) (p : Qc * Qc * Qc) : Prop :=
  let '(ax, ay, az) := a in
  let '(bx, by', bz) := b in
  p = ((1 - t) * ax + t * bx, (1 - t) * ay + t * by', (1 - t) * az + t * bz).

(** "Every extracted edge root lies on the geometric edge and
    parametrically within [0,1]." *)
Definition on_edge (c : Qc * Qc * Qc) (w : Qc) (o : nat) (i1 i2 : Z)
    (p : Qc * Qc * Qc) : Prop :=
  exists t, 0 <= t /\ t <= 1 /\
            between (edge_end c w o i1 i2 0) (edge_end c w o i1 i2 1) t p.

(** A vector over all nodes that lives on the positions [lo .. hi-1]: zero
    elsewhere. *)
Definition on_range (lo hi : nat) (u : Vector) : Vector :=
  imap (fun i q => if (lo <=? i)%nat && (i <? hi)%nat then q else 0) u.

(** The inner product over the positions [lo .. hi-1]. *)
Definition inner (lo hi : nat) (u w : Vector) : Qc :=
  fold_left (fun s i => s + at_ u i * at_ w i) (map Z.of_nat (seq lo (hi - lo))) 0.

(** Section 8, property 4, "Up/down-sample adjointness", for the step from
    depth [depth - 1] to [depth]: for a constraint vector [c] on the nodes
    of depth [depth] and a coefficient vector [x] on the nodes of depth
    [depth - 1], [<DownSample(c), x> = <c, UpSample(x)>]. *)
Definition updown_adjoint_as_written (root : OctNode) (store : NodeStore)
    (sNodes : SortedTreeNodes) (boundaryType_ : BoundaryType) (depth : nat)
    (C X : Vector) : Prop :=
  let coarse_lo := nodeCount_at sNodes (depth - 1) in
  let fine_lo := nodeCount_at sNodes depth in
  let fine_hi := nodeCount_at sNodes (S depth) in
  let c := on_range fine_lo fine_hi C in
  let x := on_range coarse_lo fine_lo X in
  inner coarse_lo fine_lo (DownSample root store sNodes boundaryType_ depth c) x
  = inner fine_lo fine_hi c (UpSample root store sNodes boundaryType_ depth x).

End SpecMd.

(* ===================================================================== *)
(** * Further sample data *)
(* ===================================================================== *)

Module MoreSamples.
Import SparseMatrixInl MultiGridOctreeDataInl Samples.
Local Open Scope Qc_scope.

(** The complete tree of depth 2: 73 nodes. *)
Definition full2 : OctNode := Branch tree1 tree1 tree1 tree1 tree1 tree1 tree1 tree1.

(** The node of depth 2 at offset (1, 1, 1), all of whose 26 neighbours
    exist in [full2]. *)
Definition inner_node : NodePtr := [0; 7]%nat.

(** No normal has been splatted yet. *)
Definition no_normals : Normals := mkNormals fresh_store [].

(** Every node carries the density [2]. *)
Definition dense_store : NodeStore := fun _ => with_centerWeight0 (Q2Qc (2 # 1)) TreeNodeData_.

(** The complete tree, sorted. *)
Definition sorted_full2 : SortedTreeNodes := fst (set full2 fresh_store).
Definition store_full2 : NodeStore := snd (set full2 fresh_store).

(** The 5x5x5 table of [inner_node]: the nodes of depth 2 at the offsets
    [(1, 1, 1) + (x - 2, y - 2, z - 2)]. *)
Definition inner_table5 (x y z : Z) : option NodePtr :=
  node_at full2 2 (x - 1) (y - 1) (z - 1).

(** One splatted normal, held by [inner_node]. *)
Definition one_normal : list Point3D := [(1, 0, 0)].
Definition one_normal_store : NodeStore :=
  <[inner_node := with_normalIndex 0 TreeNodeData_]> fresh_store.

(** Five edges between the keys 0 to 6, the roots being their keys. *)
Definition five_edges : list (Z * Z) := [(1, 2); (4, 3); (2, 3); (5, 6); (0, 1)]%Z.

End MoreSamples.

(* ===================================================================== *)
(** * Notions used in the statements and proofs *)
(* ===================================================================== *)

Module Notions.
Import SparseMatrixInl MultiGridOctreeDataInl.
Local Open Scope Qc_scope.

(** ** The conjugate-gradient loop *)

(** The loop test fails after [k] passes: [ii == iters] or
    [delta_new <= eps * delta_0]. *)
Definition leaves_at (A : SparseSymmetricMatrix) (b : Vector) (threads : Z)
    (addDCTerm : bool) (thread_num : Z -> nat) (x : Vector) (eps delta_0 : Qc)
    (iters : Z) (k : nat) : Prop :=
  Z.of_nat k = iters \/
  cg_delta_new (cg_after A b threads addDCTerm thread_num x k) <= eps * delta_0.

(** ** What one stored entry contributes to component [k] *)

Definition entry_term (V : Vector) (i : Z) (e : MatrixEntry) (k : Z) : Qc :=
  (if (k =? i)%Z then Value e * at_ V (N e) else 0)
  + (if (k =? N e)%Z then Value e * at_ V i else 0).

Definition row_term (V : Vector) (i : Z) (row : list MatrixEntry) (k : Z) : Qc :=
  fold_right (fun e acc => entry_term V i e k + acc) 0 row.

Fixpoint rows_term (V : Vector) (i : Z) (rows : list (list MatrixEntry)) (k : Z) : Qc :=
  match rows with
  | [] => 0
  | row :: rest => row_term V i row k + rows_term V (i + 1) rest k
  end.

(** Every column index lies in [0, dim). *)
Definition columns_below (dim : nat) (row : list MatrixEntry) : Prop :=
  Forall (fun e => (0 <= N e < Z.of_nat dim)%Z) row.

Definition well_formed (dim : nat) (A : SparseSymmetricMatrix) : Prop :=
  Forall (columns_below dim) A.

(** The sum over the threads of component [k] of their scratch vectors. *)
Definition scratch_total (OutScratch : list Vector) (k : Z) : Qc :=
  fold_right (fun s acc => at_ s k + acc) 0 OutScratch.

(** ** The density splat *)

(** The factor by which the kernel value of stencil index [i] is scaled. *)
Definition axis_scale (i : nat) : Qc :=
  match i with 0%nat => SAMPLE_SCALE | _ => 1 end.

(** ** The levels of the tree *)

(** The nodes of depth [d], in the order in which [set] stores them. *)
Fixpoint level (root : OctNode) (d : nat) : list NodePtr :=
  match d with
  | O => [[]]
  | S d' => level_children root (level root d')
  end.

(** The nodes of depth below [d]. *)
Fixpoint levels_upto (root : OctNode) (d : nat) : list NodePtr :=
  match d with
  | O => []
  | S d' => levels_upto root d' ++ level root d'
  end.

Definition count_upto (root : OctNode) (d : nat) : nat := length (levels_upto root d).

(** Some entry designates [p]. *)
Definition designated (s : SortedTreeNodes) (entries : list Z) (p : NodePtr) : Prop :=
  Exists (fun e => treeNode s e = Some p) entries.

(** ** The write-back *)

(** The test of the loop body, for the node [p] and the coarse node. *)
Definition passes (store : NodeStore) (coarse p : NodePtr) : Prop :=
  (nodeIndex (store coarse) <= nodeIndex (store (ancestor_at p (depth coarse))))%Z.

(** ** Finite sums and the calls of [UpSampleGeneric] *)

Definition total {T : Type} (l : list T) (f : T -> Qc) : Qc :=
  fold_right (fun a acc => f a + acc) 0 l.

(** The positions [lo .. hi-1] as [int] indices. *)
Definition range (lo hi : nat) : list Z := map Z.of_nat (seq lo (hi - lo)).

(** The [i], the index of the [node] and the weight of a call. *)
Definition call_i (c : UpSampleCall) : Z := Z.of_nat (us_i c).
Definition call_j (store : NodeStore) (c : UpSampleCall) : Z :=
  nodeIndex (store (us_node c)).
Definition call_w (c : UpSampleCall) : Qc := us_vx c * us_vy c * us_vz c.

(** The fine range [flo, fhi) holds the [i] of the call, the coarse range
    [clo, chi) the index of its [node]. *)
Definition transfers (store : NodeStore) (flo fhi clo chi : Z) (c : UpSampleCall) : Prop :=
  (flo <= call_i c < fhi)%Z /\ (clo <= call_j store c < chi)%Z.

End Notions.

(* ===================================================================== *)
(** * Further notions used in the statements and proofs *)
(* ===================================================================== *)

Module MoreNotions.
Import SparseMatrixInl MultiGridOctreeDataInl Notions.
Local Open Scope Qc_scope.

(** ** The bilinear form of a stored matrix *)

(** What one stored entry [(i, N, V)] contributes to [<A u, w>]. *)
Definition entry_form (u w : Vector) (i : Z) (e : MatrixEntry) : Qc :=
  Value e * (at_ u (N e) * at_ w i + at_ u i * at_ w (N e)).

Fixpoint rows_form (u w : Vector) (i : Z) (rows : list (list MatrixEntry)) : Qc :=
  match rows with
  | [] => 0
  | row :: rest => total row (entry_form u w i) + rows_form u w (i + 1) rest
  end.

(** The sum of the first [n] components. *)
Definition sum_of (n : nat) (v : Vector) : Qc := total (indices n) (at_ v).

(** ** The conjugate-gradient loop *)

(** [d . (A d)] in the pass that follows [k] passes. *)
Definition cg_dDotQ (A : SparseSymmetricMatrix) (b : Vector) (threads : Z)
    (addDCTerm : bool) (thread_num : Z -> nat) (x : Vector) (k : nat) : Qc :=
  let s := cg_after A b threads addDCTerm thread_num x k in
  dot (Dimensions b) (cg_d s)
    (Multiply A (cg_d s) (zeros (Dimensions b)) addDCTerm threads thread_num).

(** The two divisions of each of the first [k] passes have a non-zero
    divisor: the step lengths are finite numbers. *)
Definition cg_finite (A : SparseSymmetricMatrix) (b : Vector) (threads : Z)
    (addDCTerm : bool) (thread_num : Z -> nat) (x : Vector) (k : nat) : Prop :=
  forall j, (j < k)%nat ->
    cg_dDotQ A b threads addDCTerm thread_num x j <> 0 /\
    cg_delta_new (cg_after A b threads addDCTerm thread_num x j) <> 0.

(** ** Splatting *)

(** The sum of the vectors of [normals_]. *)
Definition sum_normals (l : list Point3D) : Point3D := fold_right point_plus Point3D_ l.

(** The kernel weight that goes to the neighbour [(i, j, k)], if the table
    holds one. *)
Definition present_weight (node : NodePtr) (position : Point3D)
    (neighbors : nat -> nat -> nat -> option NodePtr) (ijk : nat * nat * nat) : Qc :=
  let '(i, j, k) := ijk in
  match neighbors i j k with
  | Some _ => kernel_weight (center node) position (width node) i j k
  | None => 0
  end.

(** Every [normalIndex] is below the size of [normals_], and no two nodes
    share one that is not negative. *)
Definition normals_indexed (st : Normals) : Prop :=
  (forall n, (normalIndex (n_store st n) < Z.of_nat (length (normals_ st)))%Z) /\
  (forall n m, (0 <= normalIndex (n_store st n))%Z ->
               normalIndex (n_store st n) = normalIndex (n_store st m) -> n = m).

(** The table holds a node at every one of its 27 places. *)
Definition table_full (neighbors : nat -> nat -> nat -> option NodePtr) : Prop :=
  forall i j k, (i < 3)%nat -> (j < 3)%nat -> (k < 3)%nat -> neighbors i j k <> None.

(** ** The extent of the samples *)

(** The point [q] lies between the corners [e_min] and [e_max]. *)
Definition covers (e : Extent) (q : Point3D) : Prop :=
  let '(q0, q1, q2) := q in
  let '(m0, m1, m2) := e_min e in
  let '(M0, M1, M2) := e_max e in
  (m0 <= q0 /\ q0 <= M0) /\ (m1 <= q1 /\ q1 <= M1) /\ (m2 <= q2 /\ q2 <= M2).

(** The pointers of all nodes of a tree, the root first. *)
Fixpoint all_paths (n : OctNode) : list NodePtr :=
  [] :: match n with
        | Leaf => []
        | Branch c0 c1 c2 c3 c4 c5 c6 c7 =>
            map (cons 0%nat) (all_paths c0) ++ map (cons 1%nat) (all_paths c1)
            ++ map (cons 2%nat) (all_paths c2) ++ map (cons 3%nat) (all_paths c3)
            ++ map (cons 4%nat) (all_paths c4) ++ map (cons 5%nat) (all_paths c5)
            ++ map (cons 6%nat) (all_paths c6) ++ map (cons 7%nat) (all_paths c7)
        end.

(** ** Polynomials of degree two *)

(** The value and the slope at [t] of the polynomial with the coefficients
    [(c0, c1, c2)], in ascending order of the power. *)
Definition poly2_at (c : Qc * Qc * Qc) (t : Qc) : Qc :=
  let '(c0, c1, c2) := c in c0 + c1 * t + c2 * t * t.
Definition poly2_slope_at (c : Qc * Qc * Qc) (t : Qc) : Qc :=
  let '(_, c1, c2) := c in c1 + Q2Qc (2 # 1) * c2 * t.


(** ** The passes of [GetIsoValue] *)

(** The state in the pass over depth [d], before position [k]: the center
    values of the deeper nodes and of the nodes of depth [d] before [k]
    are in [V], and the two sums are related by [S_]. *)
Definition iso_during (sNodes : SortedTreeNodes) (total : nat) (V : Qc -> Prop)
    (S_ : Qc -> Qc -> Prop) (d k : nat) (st : iso_state) : Prop :=
  length (centerValues st) = total /\
  (forall j, (nodeCount_at sNodes (S d) <= j < total)%nat
             \/ (nodeCount_at sNodes d <= j < k)%nat ->
             V (at_ (centerValues st) (Z.of_nat j))) /\
  S_ (isoValue st) (weightSum st).

(** The state before the pass over depth [d - 1]. *)
Definition iso_before (sNodes : SortedTreeNodes) (total : nat) (V : Qc -> Prop)
    (S_ : Qc -> Qc -> Prop) (d : nat) (st : iso_state) : Prop :=
  length (centerValues st) = total /\
  (forall j, (nodeCount_at sNodes d <= j < total)%nat ->
             V (at_ (centerValues st) (Z.of_nat j))) /\
  S_ (isoValue st) (weightSum st).

(** ** Edges and loops *)

(** The edge [e'] is the edge [e], possibly with its ends exchanged. *)
Definition flipped {A} (e e' : A * A) : Prop := e' = e \/ e' = (snd e, fst e).

(** The same edges, up to their order and their orientation. *)
Definition same_edges {A} (l l' : list (A * A)) : Prop :=
  exists m, Permutation l m /\ Forall2 flipped m l'.

(** Each edge ends at the key at which the next one starts. *)
Fixpoint chain {A} (key : A -> Z) (l : list (A * A)) : Prop :=
  match l with
  | a :: (b :: _) as t => key (snd a) = key (fst b) /\ chain key t
  | _ => True
  end.

(** The edge has an end at the key [k]. *)
Definition touches {A} (key : A -> Z) (k : Z) (e : A * A) : Prop :=
  key (fst e) = k \/ key (snd e) = k.

(** What the loop over [j] of [GetEdgeLoops] keeps, for the edges [E] it
    started with and the first edge [e0] of the loop: no edge is lost, the
    loop built so far is a chain, and [frontIdx], [backIdx] are the keys at
    its two ends. *)
Definition loop_kept {A} (key : A -> Z) (E : list (A * A)) (e0 : A * A)
    (st : loop_state A) : Prop :=
  same_edges E (ls_edges st ++ back st ++ front st) /\
  chain key (rev (back st) ++ e0 :: front st) /\
  frontIdx st = key (snd (List.last (front st) e0)) /\
  backIdx st = key (fst (List.last (back st) e0)).

(** ** Faces and edges of a cell *)

(** The two axes across an edge that runs along [dir], in the order in
    which [IsBoundaryEdge] uses them. *)
Definition other_axes (dir : nat) : nat * nat :=
  match dir with
  | 0%nat => (1, 2)
  | 1%nat => (0, 2)
  | _ => (0, 1)
  end%nat.

End MoreNotions.

(* ===================================================================== *)
(** * Properties of Src/Array.inl *)
(* ===================================================================== *)

Module ArrayProperties.
Import ArrayInl.

Lemma plus_keeps_addresses a idx a' :
  plus a idx = Some a' ->
  first_address a' = first_address a /\ end_address a' = end_address a.
Proof.
  unfold plus, first_address, end_address.
  destruct (_ && _); [|discriminate].
  intros [= <-]; simpl; lia.
Qed.

Lemma apply_shift_keeps_addresses a s a' :
  apply_shift a s = Some a' ->
  first_address a' = first_address a /\ end_address a' = end_address a.
Proof.
  destruct s; simpl;
    unfold minus, minus_assign, incr, decr, minus_assign, plus_assign;
    repeat match goal with |- context [if ?b then _ else _] =>
             destruct b; [|discriminate] end;
    apply plus_keeps_addresses.
Qed.

Lemma apply_shifts_keep_addresses ss : forall a a',
  apply_shifts a ss = Some a' ->
  first_address a' = first_address a /\ end_address a' = end_address a.
Proof.
  induction ss as [|s ss IH]; simpl; intros a a' H.
  - injection H as <-. split; reflexivity.
  - destruct (apply_shift a s) as [a1|] eqn:E; [|discriminate].
    apply apply_shift_keeps_addresses in E. apply IH in H. lia.
Qed.

Lemma index_inside a idx :
  min a <= idx < max a -> index a idx = Returns (data a + idx).
Proof.
  intros H. unfold index, _assertBounds.
  destruct (idx <? min a) eqn:E1; [apply Z.ltb_lt in E1; lia|].
  destruct (idx >=? max a) eqn:E2; [apply Z.geb_le in E2; lia|].
  reflexivity.
Qed.

Lemma index_outside a idx :
  ~ (min a <= idx < max a) ->
  index a idx = Exits (IndexOutOfBounds (min a) idx (max a)).
Proof.
  intros H. unfold index, _assertBounds.
  destruct (idx <? min a) eqn:E1; [reflexivity|].
  destruct (idx >=? max a) eqn:E2; [reflexivity|].
  apply Z.ltb_ge in E1. rewrite Z.geb_leb in E2. apply Z.leb_gt in E2. lia.
Qed.

(** ** C10 *)

(** C10.  An access [a[idx]] hands out an element exactly when
    [minimum() <= idx < maximum()]; outside that window it reports the
    out-of-bounds diagnostic and terminates the process.  This stays so
    after the window has been moved by any sequence of the pointer
    operators: the element handed out by the moved array lies between the
    first and the end address recorded by the array the sequence started
    from. *)
Theorem index_respects_recorded_bounds (a0 a : Array) (ss : list shift) (idx : Z) :
  apply_shifts a0 ss = Some a ->
  (minimum a <= idx < maximum a ->
     index a idx = Returns (data a + idx) /\
     first_address a0 <= data a + idx < end_address a0) /\
  (~ (minimum a <= idx < maximum a) ->
     index a idx = Exits (IndexOutOfBounds (minimum a) idx (maximum a))) /\
  (forall addr, index a idx = Returns addr ->
     minimum a <= idx < maximum a /\ first_address a0 <= addr < end_address a0).
Proof.
  intros Hs. apply apply_shifts_keep_addresses in Hs as [Hf He].
  unfold minimum, maximum, first_address, end_address in *.
  split; [|split].
  - intros Hin. split; [now apply index_inside|lia].
  - apply index_outside.
  - intros addr Hr.
    destruct (Z_lt_dec idx (min a)) as [Hlt|Hge].
    { rewrite index_outside in Hr by lia. discriminate. }
    destruct (Z_lt_dec idx (max a)) as [Hlt|Hge'].
    2:{ rewrite index_outside in Hr by lia. discriminate. }
    rewrite index_inside in Hr by lia. injection Hr as <-. lia.
Qed.

(** An array of ten elements at address 1000, advanced by three and
    stepped back by one: index 7 is the last element, index 8 is refused. *)
Lemma index_respects_recorded_bounds_witness :
  let a0 := New 1000 10 in
  let a := mkArray 1002 (-2) 8 in
  apply_shifts a0 [OpPlusAssign 3; OpDecr] = Some a /\
  index a 7 = Returns 1009 /\
  index a 8 = Exits (IndexOutOfBounds (-2) 8 8) /\
  index a (-3) = Exits (IndexOutOfBounds (-2) (-3) 8).
Proof.
  intros a0 a.
  assert (Hs : apply_shifts a0 [OpPlusAssign 3; OpDecr] = Some a) by reflexivity.
  split; [exact Hs|].
  split; [|split].
  - apply (index_respects_recorded_bounds a0 a _ 7 Hs). simpl. lia.
  - apply (index_respects_recorded_bounds a0 a _ 8 Hs). simpl. lia.
  - apply (index_respects_recorded_bounds a0 a _ (-3) Hs). simpl. lia.
Defined.

End ArrayProperties.

(* ===================================================================== *)
(** * Properties of Src/SparseMatrix.inl: the conjugate-gradient solver *)
(* ===================================================================== *)

Module SolveProperties.
Import SparseMatrixInl.
Local Open Scope Qc_scope.

Section Loop.
Variable A : SparseSymmetricMatrix.
Variable b : Vector.
Variable threads : Z.
Variable addDCTerm : bool.
Variable thread_num : Z -> nat.
Variable x : Vector.
Variables eps delta_0 : Qc.
Variable iters : Z.

Local Abbreviation after := (cg_after A b threads addDCTerm thread_num x).
Local Abbreviation loop := (cg_loop A b threads addDCTerm thread_num).
Local Abbreviation leaves_at :=
  (Notions.leaves_at A b threads addDCTerm thread_num x eps delta_0 iters).


Lemma loop_test_spec (k : nat) :
  (Z.of_nat k =? iters)%Z || negb (bool_decide (eps * delta_0 < cg_delta_new (after k))) = true
  <-> leaves_at k.
Proof.
  unfold Notions.leaves_at. rewrite orb_true_iff, negb_true_iff, bool_decide_eq_false, Z.eqb_eq.
  split; (intros [H|H]; [left; exact H|right]).
  - now apply Qcnot_lt_le.
  - now apply Qcle_not_lt.
Qed.

(** Entered after [k] passes with enough fuel for the passes that remain,
    the loop leaves at the first [k'] at which its test fails. *)
Lemma cg_loop_leaves_first (fuel : nat) : forall k : nat,
  (Z.of_nat k <= iters)%Z ->
  (iters - Z.of_nat k <= Z.of_nat fuel)%Z ->
  exists k' : nat,
    loop fuel iters eps delta_0 (Z.of_nat k) (after k) = Some (Z.of_nat k', after k') /\
    (k <= k')%nat /\ (Z.of_nat k' <= iters)%Z /\ leaves_at k' /\
    (forall j, (k <= j < k')%nat -> ~ leaves_at j).
Proof.
  induction fuel as [|fuel IH]; intros k Hk Hfuel.
  - exists k. assert (Hit : Z.of_nat k = iters) by lia.
    simpl. rewrite (proj2 (Z.eqb_eq _ _) Hit). simpl.
    repeat split; [lia|lia|now left|intros j Hj; lia].
  - cbn [cg_loop].
    destruct ((Z.of_nat k =? iters)%Z
              || negb (bool_decide (eps * delta_0 < cg_delta_new (after k)))) eqn:Et.
    + exists k. apply loop_test_spec in Et.
      repeat split; [lia|lia|exact Et|intros j Hj; lia].
    + assert (Hnl : ~ leaves_at k).
      { intros Hl. apply loop_test_spec in Hl. congruence. }
      assert (Hne : Z.of_nat k <> iters) by (intros E; apply Hnl; now left).
      destruct (IH (S k)) as (k' & Hrun & Hle & Hit & Hl & Hfirst); [lia|lia|].
      exists k'. replace (Z.of_nat k + 1)%Z with (Z.of_nat (S k)) by lia.
      cbn [cg_after] in Hrun. rewrite Hrun.
      repeat split; [lia|exact Hit|exact Hl|].
      intros j Hj. destruct (Nat.eq_dec j k) as [->|Hjk]; [exact Hnl|].
      apply Hfirst. lia.
Qed.

End Loop.

(** ** C8 *)

(** C8.  If the initial squared residual [|b - A x|^2] is below the solve
    tolerance (the squared [eps], against which [Solve] compares), [Solve]
    writes the warning and returns 0: no pass of the loop is made (the fuel
    is not looked at) and the iterate is [x] as it was after the optional
    reset. *)
Theorem Solve_initial_residual_too_low
    (A : SparseSymmetricMatrix) (b x : Vector) (iters : Z) (eps : Qc) (reset : bool)
    (threads : Z) (addDCTerm : bool) (thread_num : Z -> nat) (fuel : nat) :
  let threads' := if (threads <? 1)%Z then 1%Z else threads in
  let x0 := if reset then zeros (Dimensions b) else x in
  let r0 := residual A b threads' addDCTerm thread_num x0 in
  let delta_new := dot (Dimensions b) r0 r0 in
  delta_new < eps * eps ->
  Solve_ A b iters x eps reset threads addDCTerm thread_num fuel
  = Some (mkSolveResult 0 x0 [InitialResidualTooLow delta_new (eps * eps)]).
Proof.
  intros threads' x0 r0 delta_new Hlow.
  unfold Solve_, Solve. fold threads'. fold x0.
  change (cg_delta_new (cg_init A b threads' addDCTerm thread_num x0)) with delta_new.
  rewrite bool_decide_eq_true_2 by exact Hlow. reflexivity.
Qed.

(** [b = (1, 1)], [x = 0], [eps = 2]: the squared residual 2 is below 4. *)
Lemma Solve_initial_residual_too_low_witness :
  let r0 := residual Samples.diag12 Samples.ones2 1 false Samples.one_thread Samples.zeros2 in
  let delta_new := dot 2 r0 r0 in
  let eps := Q2Qc (2 # 1) in
  delta_new < eps * eps /\
  Solve_ Samples.diag12 Samples.ones2 8 Samples.zeros2 eps false 1 false
    Samples.one_thread 0
  = Some (mkSolveResult 0 Samples.zeros2 [InitialResidualTooLow delta_new (eps * eps)]).
Proof.
  intros r0 delta_new eps.
  assert (Hlow : delta_new < eps * eps) by (vm_compute; reflexivity).
  split; [exact Hlow|].
  exact (Solve_initial_residual_too_low Samples.diag12 Samples.ones2 Samples.zeros2
           8 eps false 1 false Samples.one_thread 0 Hlow).
Defined.

End SolveProperties.

(* ===================================================================== *)
(** * Properties of Src/SparseMatrix.inl: the two matrix-vector products *)
(* ===================================================================== *)

Module MultiplyProperties.
Import SparseMatrixInl Notions.
Local Open Scope Qc_scope.

(** ** Reading a vector after an addition *)

Lemma at_zeros n k : at_ (zeros n) k = 0.
Proof.
  unfold at_, zeros. destruct (k <? 0)%Z; [reflexivity|].
  rewrite nth_lookup. destruct (repeat 0 n !! Z.to_nat k) eqn:E; [|reflexivity].
  apply list_elem_of_lookup_2, list_elem_of_In, repeat_spec in E. now subst.
Qed.

Lemma length_add_at w i q : length (add_at w i q) = length w.
Proof. unfold add_at. destruct (i <? 0)%Z; [reflexivity|apply length_alter]. Qed.

Lemma at_add_at w i q k :
  (0 <= i < Z.of_nat (length w))%Z ->
  at_ (add_at w i q) k = at_ w k + (if (k =? i)%Z then q else 0).
Proof.
  intros Hi. unfold at_, add_at.
  destruct (i <? 0)%Z eqn:Ei; [apply Z.ltb_lt in Ei; lia|].
  destruct (k <? 0)%Z eqn:Ek.
  { apply Z.ltb_lt in Ek. destruct (k =? i)%Z eqn:E; [apply Z.eqb_eq in E; lia|ring]. }
  apply Z.ltb_ge in Ek. rewrite !nth_lookup.
  destruct (k =? i)%Z eqn:E.
  - apply Z.eqb_eq in E. subst k. rewrite list_lookup_alter_eq.
    destruct (w !! Z.to_nat i) eqn:El; simpl; [reflexivity|].
    apply lookup_ge_None in El. lia.
  - apply Z.eqb_neq in E. rewrite list_lookup_alter_ne by lia. ring.
Qed.


(** ** The sequential product *)

Lemma times_row_spec V i row : forall R,
  (0 <= i < Z.of_nat (length R))%Z -> columns_below (length R) row ->
  length (fold_left (times_entry V i) row R) = length R /\
  forall k, at_ (fold_left (times_entry V i) row R) k = at_ R k + row_term V i row k.
Proof.
  induction row as [|e row IH]; intros R Hi Hrow; simpl.
  - split; [reflexivity|intros k; ring].
  - inversion Hrow as [|? ? He Hrest]; subst.
    assert (Hlen : length (times_entry V i R e) = length R).
    { unfold times_entry. now rewrite !length_add_at. }
    destruct (IH (times_entry V i R e)) as [IHl IHa]; rewrite ?Hlen; auto.
    split; [congruence|]. intros k. rewrite IHa. unfold times_entry.
    rewrite at_add_at by (rewrite length_add_at; exact He).
    rewrite at_add_at by exact Hi. unfold entry_term. ring.
Qed.

Lemma times_rows_spec V rows : forall i R,
  (0 <= i)%Z -> (i + Z.of_nat (length rows) <= Z.of_nat (length R))%Z ->
  well_formed (length R) rows ->
  length (times_rows V i rows R) = length R /\
  forall k, at_ (times_rows V i rows R) k = at_ R k + rows_term V i rows k.
Proof.
  induction rows as [|row rows IH]; intros i R Hi Hlen Hwf; simpl.
  - split; [reflexivity|intros k; ring].
  - inversion Hwf as [|? ? Hrow Hrest]; subst.
    cbn [length] in Hlen. rewrite Nat2Z.inj_succ in Hlen.
    destruct (times_row_spec V i row R) as [Hl Ha]; [lia|exact Hrow|].
    destruct (IH (i + 1)%Z (fold_left (times_entry V i) row R)) as [IHl IHa];
      rewrite ?Hl; [lia|lia|exact Hrest|].
    split; [congruence|]. intros k. rewrite IHa, Ha. ring.
Qed.

Lemma times_spec A V :
  well_formed (Rows A) A ->
  length (times A V) = Rows A /\
  forall k, at_ (times A V) k = rows_term V 0 A k.
Proof.
  intros Hwf. unfold times.
  destruct (times_rows_spec V A 0%Z (zeros (Rows A))) as [Hl Ha].
  - lia.
  - unfold zeros, Rows. rewrite repeat_length. lia.
  - unfold zeros. now rewrite repeat_length.
  - unfold zeros in *. rewrite repeat_length in Hl. split; [exact Hl|].
    intros k. rewrite Ha. fold (zeros (Rows A)). rewrite at_zeros. ring.
Qed.

(** ** The product with one scratch vector per thread *)

Lemma scratch_fold_spec inv i row : forall acc outs,
  columns_below (length outs) row ->
  let st := fold_left (scratch_entry inv i) row (acc, outs) in
  length (snd st) = length outs /\
  fst st = acc + fold_right (fun e s => Value e * at_ inv (N e) + s) 0 row /\
  forall k, at_ (snd st) k
            = at_ outs k
              + fold_right (fun e s => (if (k =? N e)%Z then Value e * at_ inv i else 0) + s)
                  0 row.
Proof.
  induction row as [|e row IH]; intros acc outs Hrow; simpl.
  - repeat split; try ring. intros k. ring.
  - inversion Hrow as [|? ? He Hrest]; subst.
    specialize (IH (acc + Value e * at_ inv (N e))
                   (add_at outs (N e) (Value e * at_ inv i))).
    rewrite length_add_at in IH. destruct (IH Hrest) as (Hl & Hf & Ha).
    change (scratch_entry inv i (acc, outs) e)
      with (acc + Value e * at_ inv (N e), add_at outs (N e) (Value e * at_ inv i)).
    split; [exact Hl|]. split; [rewrite Hf; ring|].
    intros k. rewrite Ha, at_add_at by exact He. ring.
Qed.

Lemma row_term_split inv i row k :
  row_term inv i row k
  = (if (k =? i)%Z then fold_right (fun e s => Value e * at_ inv (N e) + s) 0 row else 0)
    + fold_right (fun e s => (if (k =? N e)%Z then Value e * at_ inv i else 0) + s) 0 row.
Proof.
  induction row as [|e row IH]; simpl.
  - destruct (k =? i)%Z; ring.
  - rewrite IH. unfold entry_term. destruct (k =? i)%Z; ring.
Qed.

Lemma scratch_row_spec addDCTerm inv i row outs :
  (0 <= i < Z.of_nat (length outs))%Z -> columns_below (length outs) row ->
  length (scratch_row addDCTerm inv i row outs) = length outs /\
  forall k, at_ (scratch_row addDCTerm inv i row outs) k = at_ outs k + row_term inv i row k.
Proof.
  intros Hi Hrow. unfold scratch_row. destruct addDCTerm.
  - now apply times_row_spec.
  - destruct (scratch_fold_spec inv i row 0 outs Hrow) as (Hl & Hf & Ha).
    rewrite length_add_at. split; [exact Hl|].
    intros k. rewrite at_add_at by (rewrite Hl; exact Hi).
    rewrite Ha, Hf, row_term_split. destruct (k =? i)%Z; ring.
Qed.


Lemma combine_spec OutScratch : forall dcTerm k,
  combine dcTerm OutScratch k = dcTerm + scratch_total OutScratch k.
Proof.
  unfold combine. induction OutScratch as [|s rest IH]; intros dcTerm k; simpl.
  - ring.
  - rewrite IH. ring.
Qed.

Lemma scratch_total_alter (f : Vector -> Vector) k : forall OutScratch t s,
  OutScratch !! t = Some s ->
  scratch_total (alter f t OutScratch) k
  = scratch_total OutScratch k + (at_ (f s) k - at_ s k).
Proof.
  induction OutScratch as [|s0 rest IH]; intros t s Ht; [discriminate|].
  destruct t as [|t]; simpl in *.
  - injection Ht as ->. ring.
  - specialize (IH t s Ht). unfold alter in IH. rewrite IH. ring.
Qed.

Lemma scratch_rows_spec addDCTerm inv thread_num dim rows : forall i OutScratch,
  (0 <= i)%Z -> (i + Z.of_nat (length rows) <= Z.of_nat dim)%Z ->
  well_formed dim rows ->
  Forall (fun s => length s = dim) OutScratch ->
  (forall j, (i <= j < i + Z.of_nat (length rows))%Z ->
             (thread_num j < length OutScratch)%nat) ->
  forall k,
    scratch_total (scratch_rows addDCTerm inv thread_num i rows OutScratch) k
    = scratch_total OutScratch k + rows_term inv i rows k.
Proof.
  induction rows as [|row rows IH]; intros i Sc Hi Hlen Hwf Hdim Hthr k; simpl.
  - ring.
  - inversion Hwf as [|? ? Hrow Hrest]; subst.
    cbn [length] in Hlen, Hthr. rewrite Nat2Z.inj_succ in Hlen, Hthr.
    destruct (lookup_lt_is_Some_2 Sc (thread_num i)) as [s Hs]; [apply Hthr; lia|].
    assert (Hsl : length s = dim).
    { exact (Forall_lookup_1 _ _ _ _ Hdim Hs). }
    destruct (scratch_row_spec addDCTerm inv i row s) as [Hl Ha];
      [lia|now rewrite Hsl|].
    rewrite IH.
    + rewrite (scratch_total_alter _ k Sc _ s Hs), Ha. ring.
    + lia.
    + lia.
    + exact Hrest.
    + apply Forall_alter; [exact Hdim|]. intros s' Hs'.
      rewrite Hs in Hs'. injection Hs' as <-. congruence.
    + intros j Hj. rewrite length_alter. apply Hthr. lia.
Qed.

Lemma scratch_total_zeros dim n k : scratch_total (repeat (zeros dim) n) k = 0.
Proof.
  induction n as [|n IH]; simpl; [reflexivity|]. rewrite IH, at_zeros. ring.
Qed.

Lemma Forall_repeat {T : Type} (P : T -> Prop) (x : T) (n : nat) :
  P x -> Forall P (repeat x n).
Proof. intros Hx. induction n as [|n IH]; simpl; constructor; assumption. Qed.

Lemma at_map_indices (f : Z -> Qc) n k :
  (0 <= k < Z.of_nat n)%Z -> at_ (map f (indices n)) k = f k.
Proof.
  intros Hk. unfold at_, indices.
  destruct (k <? 0)%Z eqn:E; [apply Z.ltb_lt in E; lia|].
  rewrite nth_lookup, list_lookup_fmap, list_lookup_fmap, lookup_seq_lt by lia.
  simpl. f_equal. lia.
Qed.

Lemma vector_ext (u w : Vector) :
  length u = length w ->
  (forall k, (0 <= k < Z.of_nat (length u))%Z -> at_ u k = at_ w k) ->
  u = w.
Proof.
  intros Hl Hk. apply (nth_ext u w 0 0 Hl). intros n Hn.
  specialize (Hk (Z.of_nat n)). unfold at_ in Hk.
  destruct (Z.of_nat n <? 0)%Z eqn:E; [apply Z.ltb_lt in E; lia|].
  rewrite Nat2Z.id in Hk. apply Hk. lia.
Qed.

(** ** C9 *)

(** C9.  For a matrix whose column indices are in range and a vector [v]
    of matching dimension, [Multiply(v, out, false, threads)] yields the
    vector that [operator*(v)] yields, for every number [threads >= 1] of
    threads and every assignment [thread_num] of the rows to the threads
    [0 .. threads-1]. *)
Theorem Multiply_computes_operator_times
    (A : SparseSymmetricMatrix) (v out : Vector) (threads : Z) (thread_num : Z -> nat) :
  well_formed (Rows A) A ->
  Dimensions v = Rows A ->
  Dimensions out = Rows A ->
  (1 <= threads)%Z ->
  (forall i, (0 <= i < Z.of_nat (Rows A))%Z -> (thread_num i < Z.to_nat threads)%nat) ->
  Multiply A v out false threads thread_num = times A v.
Proof.
  intros Hwf Hv Hout Hthreads Hsched.
  destruct (times_spec A v Hwf) as [Htl Hta].
  unfold Dimensions in *.
  apply vector_ext.
  - unfold Multiply, Dimensions, indices. rewrite !length_map, length_seq. congruence.
  - intros k Hk. rewrite Hta.
    assert (Hlen : length (Multiply A v out false threads thread_num) = Rows A).
    { unfold Multiply, Dimensions, indices. rewrite !length_map, length_seq. congruence. }
    rewrite Hlen in Hk. unfold Multiply, Dimensions. rewrite Hout.
    rewrite at_map_indices by exact Hk. rewrite combine_spec.
    rewrite (scratch_rows_spec false v thread_num (Rows A)).
    + rewrite scratch_total_zeros. ring.
    + lia.
    + unfold Rows. lia.
    + exact Hwf.
    + assert (Hz : length (zeros (length v)) = Rows A)
        by (unfold zeros; rewrite repeat_length; exact Hv).
      apply Forall_repeat, Hz.
    + intros j Hj. rewrite repeat_length. apply Hsched. unfold Rows. lia.
Qed.

Lemma static_schedule_below (n : nat) (threads i : Z) :
  (1 <= threads)%Z -> (0 <= i < Z.of_nat n)%Z ->
  (static_schedule n threads i < Z.to_nat threads)%nat.
Proof.
  intros Ht Hi. unfold static_schedule.
  set (chunk := ((Z.of_nat n + threads - 1) / threads)%Z).
  assert (Hchunk : (Z.of_nat n <= threads * chunk)%Z).
  { unfold chunk.
    pose proof (Z.mul_div_le (Z.of_nat n + threads - 1) threads ltac:(lia)).
    pose proof (Z.mod_pos_bound (Z.of_nat n + threads - 1) threads ltac:(lia)).
    pose proof (Z.div_mod (Z.of_nat n + threads - 1) threads ltac:(lia)). lia. }
  assert (Hpos : (0 < chunk)%Z) by nia.
  apply Nat2Z.inj_lt. rewrite !Z2Nat.id; [|lia|apply Z.div_pos; lia].
  apply Z.div_lt_upper_bound; lia.
Qed.

(** Three rows on two threads under the static schedule. *)
Lemma Multiply_computes_operator_times_witness :
  Multiply Samples.tridiag3 Samples.v123 (zeros 3) false 2 (static_schedule 3 2)
  = times Samples.tridiag3 Samples.v123.
Proof.
  apply Multiply_computes_operator_times.
  - unfold well_formed, columns_below, Samples.tridiag3.
    repeat first [apply Forall_nil_2 | apply Forall_cons_2]; simpl; lia.
  - reflexivity.
  - reflexivity.
  - lia.
  - intros i Hi. apply static_schedule_below; [lia|exact Hi].
Defined.

End MultiplyProperties.

(* ===================================================================== *)
(** * Properties of the conjugate-gradient call of SolveFixedDepthMatrix *)
(* ===================================================================== *)

Module SolveDepthProperties.
Import SparseMatrixInl MultiGridOctreeDataInl SpecMd MoreNotions.
Local Open Scope Qc_scope.

Lemma ceil_cube_root_from_spec (fuel : nat) : forall c n : Z,
  (0 <= c)%Z -> (c = 0 \/ (c - 1) ^ 3 < n)%Z -> (n <= (c + Z.of_nat fuel) ^ 3)%Z ->
  let r := ceil_cube_root_from fuel c n in
  (c <= r)%Z /\ (n <= r ^ 3)%Z /\ (r = 0 \/ (r - 1) ^ 3 < n)%Z.
Proof.
  induction fuel as [|fuel IH]; intros c n Hc Hlo Hhi; simpl.
  - replace (c + 0)%Z with c in Hhi by lia. lia.
  - destruct (n <=? c ^ 3)%Z eqn:E.
    + apply Z.leb_le in E. lia.
    + apply Z.leb_gt in E.
      destruct (IH (c + 1)%Z n) as (H1 & H2 & H3); [lia| | |].
      * right. replace (c + 1 - 1)%Z with c by lia. exact E.
      * replace (c + 1 + Z.of_nat fuel)%Z with (c + Z.of_nat (S fuel))%Z by lia.
        exact Hhi.
      * repeat split; [lia|exact H2|exact H3].
Qed.

Lemma ceil_cube_root_spec (n : Z) :
  (0 <= n)%Z ->
  let c := ceil_cube_root n in
  (0 <= c)%Z /\ (n <= c ^ 3)%Z /\ (c = 0 \/ (c - 1) ^ 3 < n)%Z.
Proof.
  intros Hn. unfold ceil_cube_root.
  apply ceil_cube_root_from_spec; [lia|left; reflexivity|].
  rewrite Z2Nat.id by lia. replace ((0 + n) ^ 3)%Z with (n * n * n)%Z by ring. nia.
Qed.

(** A truncated power that is not above the cube root is not above its
    ceiling. *)
Lemma truncated_below_ceil (p rows : Z) :
  (0 <= rows)%Z -> (p ^ 3 <= rows)%Z -> (p <= ceil_cube_root rows)%Z.
Proof.
  intros Hn Hp.
  destruct (ceil_cube_root_spec rows Hn) as (Hc0 & Hc & _).
  set (c := ceil_cube_root rows) in *.
  replace (p ^ 3)%Z with (p * p * p)%Z in Hp by ring.
  replace (c ^ 3)%Z with (c * c * c)%Z in Hc by ring.
  destruct (Z_le_gt_dec p c) as [H|H]; [exact H|]. exfalso.
  assert (c + 1 <= p)%Z by lia.
  assert ((c + 1) * (c + 1) * (c + 1) <= p * p * p)%Z.
  { apply Z.mul_le_mono_nonneg; try nia. }
  nia.
Qed.

(** ** C2 *)

(** The sentence as written fails: for the matrix [[1 0] [0 2]], right-hand
    side [(1, 1)], [accuracy = 1/2] and [minIters = 8] the squared residual
    after one pass is [2/9 <= 1/2 * 2], and the solve goes on to a second
    pass. *)
Lemma whole_depth_cg_as_written_fails :
  ~ whole_depth_cg_as_written Samples.pow_third Samples.diag12 Samples.ones2
      Samples.zeros2 8 (Q2Qc (1 # 2)) 1 false Samples.one_thread 10.
Proof.
  unfold whole_depth_cg_as_written. intros H.
  assert (Hit : option_map fst
                  (SolveFixedDepthMatrix_solve Samples.pow_third Samples.diag12
                     Samples.ones2 Samples.zeros2 8 (Q2Qc (1 # 2)) false (-1) 1 false
                     Samples.one_thread 10) = Some 2%Z)
    by (vm_compute; reflexivity).
  destruct (SolveFixedDepthMatrix_solve Samples.pow_third Samples.diag12 Samples.ones2
              Samples.zeros2 8 (Q2Qc (1 # 2)) false (-1) 1 false Samples.one_thread 10)
    as [[iter X']|] eqn:E; [|discriminate].
  simpl in Hit. injection Hit as ->.
  destruct (H (-1)%Z 2%Z X' ltac:(lia) E) as [_ Hstop].
  specialize (Hstop 1%nat). cbv zeta in Hstop.
  assert (Hle : cg_delta_new (cg_after Samples.diag12 Samples.ones2 1 false
                                Samples.one_thread Samples.zeros2 1)
                <= Q2Qc (1 # 2) * cg_delta_new (cg_after Samples.diag12 Samples.ones2 1
                                                 false Samples.one_thread Samples.zeros2 0))
    by (vm_compute; discriminate).
  specialize (Hstop Hle). lia.
Qed.

(** C2, amended.  For a whole-depth solve with [fixedIters] unset, fuel
    for the whole budget, and step lengths that are finite numbers in
    every pass that is made (the divisors [d . A d] and [delta_old] are
    not zero): the solve returns; the count returned is at most the budget
    [max((int)pow(n, 1.0/3), minIters)], which is at most
    [max(ceil(n^(1/3)), minIters)] where the truncated power is not above
    the cube root; it is [0] when the initial squared residual is below
    [eps^2], where [eps = accuracy / 100000 * n] is the tolerance handed
    to [Solve]; otherwise it is the first pass count at which the budget is
    used up or the squared residual is at most [eps^2] times the initial
    one. *)
Theorem whole_depth_cg_stop_rule (pow_ITERATION_POWER : Z -> Z)
    (M : SparseSymmetricMatrix) (B X : Vector)
    (minIters : Z) (accuracy : Qc) (fixedIters threads : Z) (addDCTerm : bool)
    (thread_num : Z -> nat) (fuel : nat) :
  let rows := Z.of_nat (Rows M) in
  let budget := Z.max (pow_ITERATION_POWER rows) minIters in
  let threads' := if (threads <? 1)%Z then 1%Z else threads in
  let eps := accuracy / Q2Qc (100000 # 1) * Q2Qc (inject_Z rows) in
  let after := cg_after M B threads' addDCTerm thread_num X in
  let delta k := cg_delta_new (after k) in
  (fixedIters < 0)%Z ->
  (0 <= pow_ITERATION_POWER rows)%Z ->
  (budget <= Z.of_nat fuel)%Z ->
  (forall j : nat,
     ~ delta 0%nat < eps * eps -> (Z.of_nat j < budget)%Z ->
     (forall i, (i <= j)%nat -> eps * eps * delta 0%nat < delta i) ->
     cg_dDotQ M B threads' addDCTerm thread_num X j <> 0 /\ delta j <> 0) ->
  exists iter : nat,
    SolveFixedDepthMatrix_solve pow_ITERATION_POWER M B X minIters accuracy false
      fixedIters threads addDCTerm thread_num fuel
    = Some (Z.of_nat iter, cg_x (after iter)) /\
    (Z.of_nat iter <= budget)%Z /\
    ((pow_ITERATION_POWER rows ^ 3 <= rows)%Z ->
     (budget <= Z.max (ceil_cube_root rows) minIters)%Z) /\
    (delta 0%nat < eps * eps -> iter = 0%nat) /\
    (~ delta 0%nat < eps * eps ->
       (Z.of_nat iter = budget \/ delta iter <= eps * eps * delta 0%nat) /\
       forall k, (k < iter)%nat -> eps * eps * delta 0%nat < delta k).
Proof.
  intros rows budget threads' eps after delta Hfixed Hpow Hfuel _.
  assert (Hrows : (0 <= rows)%Z) by (unfold rows; lia).
  assert (Hbudget0 : (0 <= budget)%Z) by (unfold budget; lia).
  assert (Hceil : (pow_ITERATION_POWER rows ^ 3 <= rows)%Z ->
                  (budget <= Z.max (ceil_cube_root rows) minIters)%Z).
  { intros Hp. unfold budget.
    pose proof (truncated_below_ceil _ rows Hrows Hp). lia. }
  unfold SolveFixedDepthMatrix_solve, Solve_, Solve. fold rows. fold threads'.
  assert (Hiters : solve_iters pow_ITERATION_POWER fixedIters minIters rows = budget).
  { unfold solve_iters. destruct (fixedIters >=? 0)%Z eqn:E; [|reflexivity].
    rewrite Z.geb_leb in E. apply Z.leb_le in E. lia. }
  assert (Hacc : solve_accuracy fixedIters accuracy rows = eps).
  { unfold solve_accuracy. destruct (fixedIters >=? 0)%Z eqn:E; [|reflexivity].
    rewrite Z.geb_leb in E. apply Z.leb_le in E. exfalso. lia. }
  rewrite Hiters, Hacc.
  change (cg_init M B threads' addDCTerm thread_num X) with (after 0%nat).
  change (cg_delta_new (after 0%nat)) with (delta 0%nat).
  destruct (bool_decide (delta 0%nat < eps * eps)) eqn:Elow.
  - apply bool_decide_eq_true in Elow. exists 0%nat.
    split; [reflexivity|]. split; [exact Hbudget0|]. split; [exact Hceil|].
    split; [reflexivity|]. intros Hn. contradiction.
  - apply bool_decide_eq_false in Elow.
    destruct (SolveProperties.cg_loop_leaves_first M B threads' addDCTerm thread_num X
                (eps * eps) (delta 0%nat) budget fuel 0%nat)
      as (iter & Hrun & _ & Hle & Hleave & Hfirst); [exact Hbudget0|lia|].
    change (Z.of_nat 0) with 0%Z in Hrun. fold after in Hrun. rewrite Hrun.
    exists iter. split; [reflexivity|]. split; [exact Hle|]. split; [exact Hceil|].
    split; [intros Hl; contradiction|]. intros _. split.
    + exact Hleave.
    + intros k Hk. apply Qcnot_le_lt. intros Hc.
      apply (Hfirst k); [lia|]. right. exact Hc.
Qed.

(** The sample system with [accuracy = 1/2], threshold
    [(1/2 / 100000 * 2)^2]: two passes, both with non-zero divisors, within
    the budget [max(1, 8)]; after them the residual is zero. *)
Lemma whole_depth_cg_stop_rule_witness :
  exists iter : nat,
    option_map fst
      (SolveFixedDepthMatrix_solve Samples.pow_third Samples.diag12 Samples.ones2
         Samples.zeros2 8 (Q2Qc (1 # 2)) false (-1) 1 false Samples.one_thread 8)
    = Some (Z.of_nat iter) /\
    (Z.of_nat iter <= Z.max (ceil_cube_root 2) 8)%Z.
Proof.
  destruct (whole_depth_cg_stop_rule Samples.pow_third Samples.diag12 Samples.ones2
              Samples.zeros2 8 (Q2Qc (1 # 2)) (-1) 1 false Samples.one_thread 8)
    as (iter & Hrun & Hle & Hceil & _).
  - lia.
  - vm_compute. discriminate.
  - vm_compute. discriminate.
  - intros j _ Hj Hmade.
    destruct j as [|[|j]].
    + split; intros H; apply (f_equal this) in H; vm_compute in H; discriminate H.
    + split; intros H; apply (f_equal this) in H; vm_compute in H; discriminate H.
    + exfalso. specialize (Hmade 2%nat ltac:(lia)). vm_compute in Hmade. discriminate Hmade.
  - exists iter. rewrite Hrun. split; [reflexivity|].
    change (Z.of_nat (Rows Samples.diag12)) with 2%Z in Hle, Hceil.
    specialize (Hceil ltac:(vm_compute; discriminate)). lia.
Defined.

End SolveDepthProperties.

(* ===================================================================== *)
(** * Properties of the density splat, the iso-value and the edge roots *)
(* ===================================================================== *)

Module SplatProperties.
Import SparseMatrixInl MultiGridOctreeDataInl SpecMd Notions.
Local Open Scope Qc_scope.


(** What the code adds at [(i, j, k)]: the point's weight times the three
    kernel values, scaled once for every index among [i], [j], [k] that
    is 0. *)
Lemma weight_increment_scaling (c p : Qc * Qc * Qc) (w weight : Qc) (i j k : nat) :
  weight_increment c p w weight i j k
  = axis_scale i * axis_scale j * axis_scale k
    * (weight * (triple_at (splat_kernel (fst (fst c)) (fst (fst p)) w) i
                 * triple_at (splat_kernel (snd (fst c)) (snd (fst p)) w) j
                 * triple_at (splat_kernel (snd c) (snd p) w) k)).
Proof.
  destruct c as [[cx cy] cz], p as [[px py] pz]. unfold weight_increment, splat_dx.
  simpl fst; simpl snd.
  destruct (splat_kernel cx px w) as [[a0 a1] a2].
  destruct (splat_kernel cy py w) as [[b0 b1] b2].
  destruct (splat_kernel cz pz w) as [[c0 c1] c2].
  destruct i as [|[|i]], j as [|[|j]], k as [|[|k]]; simpl; ring.
Qed.

(** ** C6 *)

(** C6 does not hold of the code.  A point of weight 1 at the center of
    child 7 of the root: the code adds [27/64] to the node itself (stencil
    index (1,1,1), no scale), [9/76] to child 6 (index (0,1,1), one scale)
    and [64/6859] to child 0 (index (0,0,0), the scale cubed).  With the
    whole stencil scaled by [32/19] the three increments would be [27/38],
    [9/76] and [1/304]. *)
Theorem UpdateWeightContribution_scales_index_0_only :
  let node := [7%nat] in
  let store := UpdateWeightContribution node (center node)
                 (getNeighbors3 Samples.tree1 node) 1 Samples.fresh_store in
  let added p := fst (centerWeightContribution (store p)) in
  let kernels i j k :=
    triple_at (splat_kernel (Q2Qc (3 # 4)) (Q2Qc (3 # 4)) (width node)) i
    * triple_at (splat_kernel (Q2Qc (3 # 4)) (Q2Qc (3 # 4)) (width node)) j
    * triple_at (splat_kernel (Q2Qc (3 # 4)) (Q2Qc (3 # 4)) (width node)) k in
  SAMPLE_SCALE = Q2Qc (32 # 19) /\
  (added [7%nat] = Q2Qc (27 # 64) /\ SAMPLE_SCALE * (1 * kernels 1%nat 1%nat 1%nat) = Q2Qc (27 # 38)) /\
  (added [6%nat] = Q2Qc (9 # 76) /\ SAMPLE_SCALE * (1 * kernels 0%nat 1%nat 1%nat) = Q2Qc (9 # 76)) /\
  (added [0%nat] = Q2Qc (64 # 6859) /\ SAMPLE_SCALE * (1 * kernels 0%nat 0%nat 0%nat) = Q2Qc (1 # 304)).
Proof.
  cbv zeta. repeat split; apply Qc_is_canon; vm_compute; reflexivity.
Qed.

End SplatProperties.

Module RootProperties.
Import SparseMatrixInl MultiGridOctreeDataInl SpecMd.
Local Open Scope Qc_scope.

Lemma Qc_0_le_1 : (0 : Qc) <= 1.
Proof. discriminate. Qed.


Lemma difference_zero (a b : Qc) : a - b = 0 <-> a = b.
Proof.
  split; [|intros ->; ring].
  intros H. apply (f_equal (fun q => q + b)) in H. ring_simplify in H. exact H.
Qed.

(** A number is used as it is when it is in [0, 1] and clamped otherwise. *)
Lemma clamp_finite (q : Qc) :
  exists q' cerr,
    (if ieee_lt (Finite q) 0 || ieee_gt (Finite q) 1
     then (clamp (Finite q) 0 1, [BadAverageRoot (Finite q)])
     else (Finite q, [])) = (Finite q', cerr) /\ 0 <= q' /\ q' <= 1.
Proof.
  unfold clamp. cbn [ieee_lt ieee_gt].
  destruct (bool_decide (q < 0)) eqn:E0; cbn [orb].
  - eexists _, _. split; [reflexivity|]. split; [apply Qcle_refl|apply Qc_0_le_1].
  - destruct (bool_decide (1 < q)) eqn:E1.
    + eexists _, _. split; [reflexivity|]. split; [apply Qc_0_le_1|apply Qcle_refl].
    + apply bool_decide_eq_false in E0, E1.
      eexists _, _. split; [reflexivity|]. split; now apply Qcnot_lt_le.
Qed.

(** The parameter that [GetRoot] uses is a number of [0, 1], but for the
    linear fallback with both corner values equal to the iso-value, where
    it is [NaN] and no warning is written. *)
Lemma GetRoot_averageRoot_cases (roots : list Qc) (nonLinearFit : bool)
    (x0 x1 isoValue : Qc) :
  ((nonLinearFit = false \/ snd (roots_in_unit roots) = 0%nat) /\
   x0 = x1 /\ x0 = isoValue /\
   GetRoot_averageRoot roots nonLinearFit x0 x1 isoValue = (NaN, [])) \/
  (~ ((nonLinearFit = false \/ snd (roots_in_unit roots) = 0%nat) /\
      x0 = x1 /\ x0 = isoValue) /\
   exists q cerr,
     GetRoot_averageRoot roots nonLinearFit x0 x1 isoValue = (Finite q, cerr) /\
     0 <= q /\ q <= 1).
Proof.
  unfold GetRoot_averageRoot.
  destruct (roots_in_unit roots) as [sum rCount]. cbn [snd].
  destruct (negb (rCount =? 0)%nat && nonLinearFit) eqn:Hc.
  - right. apply andb_true_iff in Hc as [Hn ->].
    apply negb_true_iff, Nat.eqb_neq in Hn.
    split; [intros ([H|H] & _); [discriminate|contradiction]|].
    apply clamp_finite.
  - assert (Hfall : nonLinearFit = false \/ rCount = 0%nat).
    { apply andb_false_iff in Hc as [H|H]; [right|now left].
      now apply negb_false_iff, Nat.eqb_eq in H. }
    unfold ieee_div.
    destruct (bool_decide (x0 - x1 = 0)) eqn:Ed.
    + apply bool_decide_eq_true in Ed. apply (proj1 (difference_zero _ _)) in Ed.
      destruct (bool_decide (x0 - isoValue = 0)) eqn:En.
      * apply bool_decide_eq_true in En. apply (proj1 (difference_zero _ _)) in En.
        left. split; [exact Hfall|]. split; [exact Ed|]. split; [exact En|reflexivity].
      * apply bool_decide_eq_false in En. right.
        split; [intros (_ & _ & H); apply En; apply (proj2 (difference_zero _ _)); exact H|].
        unfold clamp. cbn [ieee_lt ieee_gt].
        destruct (bool_decide (x0 - isoValue < 0)); cbn [negb orb].
        -- eexists _, _. split; [reflexivity|].
           split; [apply Qcle_refl|apply Qc_0_le_1].
        -- eexists _, _. split; [reflexivity|].
           split; [apply Qc_0_le_1|apply Qcle_refl].
    + apply bool_decide_eq_false in Ed. right.
      split; [intros (_ & H & _); apply Ed; apply (proj2 (difference_zero _ _)); exact H|].
      apply clamp_finite.
Qed.

(** Where the parameter is a number, so is the vertex. *)
Lemma GetRoot_position_finite (roots : list Qc) (nonLinearFit : bool)
    (x0 x1 isoValue : Qc) (c : Qc * Qc * Qc) (w : Qc) (o : nat) (i1 i2 : Z)
    (a : Qc) (cerr : list root_warning) :
  GetRoot_averageRoot roots nonLinearFit x0 x1 isoValue = (Finite a, cerr) ->
  exists p,
    GetRoot_position roots nonLinearFit x0 x1 isoValue c w o i1 i2
    = Some (mkRootPosition a p cerr) /\
    vertex_averageRoot (GetRoot_vertex roots nonLinearFit x0 x1 isoValue c w o i1 i2)
    = Finite a /\
    between (edge_end c w o i1 i2 0) (edge_end c w o i1 i2 1) a p.
Proof.
  intros Ha. unfold GetRoot_position, GetRoot_vertex. destruct c as [[cx cy] cz].
  rewrite Ha. cbn [ieee_along].
  destruct o as [|[|o]]; cbn [vertex_averageRoot vertex_point vertex_cerr];
    (eexists; split; [reflexivity|]; split; [reflexivity|]);
    unfold between, edge_end; simpl;
    (f_equal; [f_equal|]); ring.
Qed.

(** ** C7 *)

(** C7, at the input on which the code fails.  An edge along [y] of the
    cell centered at [(1/2, 1/2, 1/2)], both corner values equal to the
    iso-value [0], the Hermite roots not used: the linear fallback is
    [0 / 0], which is neither below 0 nor above 1, so that no warning is
    written and nothing is clamped.  The parameter that [GetRoot] uses and
    the vertex's coordinate along the edge are [NaN]: the vertex is
    [(0, NaN, 1)], which is no point of the edge. *)
Theorem GetRoot_equal_corner_values_unclamped :
  let v := GetRoot_vertex [] false 0 0 0
             (Q2Qc (1 # 2), Q2Qc (1 # 2), Q2Qc (1 # 2)) 1 1 0 1 in
  vertex_averageRoot v = NaN /\
  vertex_point v = (Finite 0, NaN, Finite 1) /\
  vertex_cerr v = [] /\
  GetRoot_position [] false 0 0 0
    (Q2Qc (1 # 2), Q2Qc (1 # 2), Q2Qc (1 # 2)) 1 1 0 1 = None.
Proof.
  cbv zeta. split; [reflexivity|]. split; [|split; reflexivity].
  unfold GetRoot_vertex.
  replace (GetRoot_averageRoot [] false 0 0 0) with (NaN, @nil root_warning)
    by reflexivity.
  cbn [vertex_point ieee_along]. repeat f_equal; apply Qc_is_canon; reflexivity.
Qed.

End RootProperties.

Module IsoValueProperties.
Import SparseMatrixInl MultiGridOctreeDataInl SpecMd.
Local Open Scope Qc_scope.

Section ZeroWeights.
Variable root : OctNode.
Variable store : NodeStore.
Variable sNodes : SortedTreeNodes.
Variable OutputDensity : bool.
Variable minDepth_ : nat.
Variable getCenterValue : NodePtr -> Qc.

Hypothesis no_weight : forall i node,
  treeNodes sNodes !! i = Some node -> centerWeight OutputDensity (store node) = 0.

Local Abbreviation step := (iso_node root store sNodes OutputDensity getCenterValue).

Lemma iso_node_keeps_sums (st : iso_state) (i : nat) :
  isoValue (step st i) = isoValue st /\ weightSum (step st i) = weightSum st.
Proof.
  unfold iso_node. destruct (treeNodes sNodes !! i) as [node|] eqn:E; [|split; reflexivity].
  rewrite (no_weight i node E). rewrite bool_decide_eq_true_2 by reflexivity.
  split; reflexivity.
Qed.

Lemma iso_level_keeps_sums (l : list nat) : forall st,
  isoValue (fold_left step l st) = isoValue st /\
  weightSum (fold_left step l st) = weightSum st.
Proof.
  induction l as [|i l IH]; intros st; simpl; [split; reflexivity|].
  destruct (IH (step st i)) as [H1 H2]. destruct (iso_node_keeps_sums st i) as [H3 H4].
  split; congruence.
Qed.

Lemma iso_sums_zero :
  isoValue (iso_sums root store sNodes OutputDensity minDepth_ getCenterValue) = 0 /\
  weightSum (iso_sums root store sNodes OutputDensity minDepth_ getCenterValue) = 0.
Proof.
  unfold iso_sums.
  assert (H : forall ds st,
             isoValue (fold_left (fun st d => fold_left step (depth_range sNodes d) st) ds st)
             = isoValue st /\
             weightSum (fold_left (fun st d => fold_left step (depth_range sNodes d) st) ds st)
             = weightSum st).
  { induction ds as [|d ds IH]; intros st; simpl; [split; reflexivity|].
    destruct (IH (fold_left step (depth_range sNodes d) st)) as [H1 H2].
    destruct (iso_level_keeps_sums (depth_range sNodes d) st) as [H3 H4].
    split; congruence. }
  destruct (H (iso_depths root minDepth_)
              (mkIso (zeros (nodeCount_at sNodes (S (maxDepth root)))) 0 0)) as [H1 H2].
  rewrite H1, H2. split; reflexivity.
Qed.
End ZeroWeights.

(** ** C3 *)

(** The sentence as written fails: for the root with its eight children,
    no center weight anywhere and center value 1 at every leaf,
    [GetIsoValue] has no finite value to return. *)
Lemma iso_value_guard_as_written_fails :
  ~ iso_value_guard_as_written Samples.tree1 Samples.store1 Samples.sorted1
      BoundaryTypeNeumann false 0 (fun _ => 1).
Proof.
  unfold iso_value_guard_as_written. intros H.
  assert (Hnone : GetIsoValue Samples.tree1 Samples.store1 Samples.sorted1
                    BoundaryTypeNeumann false 0 (fun _ => 1) = None)
    by (vm_compute; reflexivity).
  rewrite Hnone in H. discriminate H.
  intros i node Hi.
  assert (Hall : Forall (fun node => centerWeight false (Samples.store1 node) = 0)
                   (treeNodes Samples.sorted1)).
  { vm_compute. repeat constructor. }
  exact (Forall_lookup_1 _ _ _ _ Hall Hi).
Qed.

(** C3, amended.  [GetIsoValue] has no guard: it returns
    [isoValue / weightSum - r] with [r = 0.5] under Dirichlet and [0]
    otherwise.  When every sorted node has a zero center weight both sums
    are zero, the division by the zero weight sum is carried out and no
    finite value comes back, whatever the boundary type; when the weight
    sum is not zero the quotient less [r] is returned. *)
Theorem GetIsoValue_divides_by_weight_sum (root : OctNode) (store : NodeStore)
    (sNodes : SortedTreeNodes) (boundaryType_ : BoundaryType) (OutputDensity : bool)
    (minDepth_ : nat) (getCenterValue : NodePtr -> Qc) :
  let sums := iso_sums root store sNodes OutputDensity minDepth_ getCenterValue in
  let r := match boundaryType_ with
           | BoundaryTypeDirichlet => Q2Qc (1 # 2)
           | _ => 0
           end in
  let result := GetIsoValue root store sNodes boundaryType_ OutputDensity minDepth_
                  getCenterValue in
  ((forall i node, treeNodes sNodes !! i = Some node ->
                   centerWeight OutputDensity (store node) = 0) ->
   isoValue sums = 0 /\ weightSum sums = 0 /\ result = None) /\
  (weightSum sums <> 0 -> result = Some (isoValue sums / weightSum sums - r)).
Proof.
  intros sums r result. subst sums result. split.
  - intros Hzero.
    destruct (iso_sums_zero root store sNodes OutputDensity minDepth_ getCenterValue Hzero)
      as [Hi Hw].
    split; [exact Hi|]. split; [exact Hw|].
    unfold GetIsoValue, fdiv. rewrite Hw.
    rewrite bool_decide_eq_true_2 by reflexivity. reflexivity.
  - intros Hw. unfold GetIsoValue, fdiv.
    rewrite bool_decide_eq_false_2 by exact Hw. reflexivity.
Qed.

(** The root with its eight children and no center weight, under
    Dirichlet. *)
Lemma GetIsoValue_divides_by_weight_sum_witness :
  (forall i node, treeNodes Samples.sorted1 !! i = Some node ->
                  centerWeight false (Samples.store1 node) = 0) /\
  GetIsoValue Samples.tree1 Samples.store1 Samples.sorted1 BoundaryTypeDirichlet
    false 0 (fun _ => 1) = None.
Proof.
  assert (Hzero : forall i node, treeNodes Samples.sorted1 !! i = Some node ->
                                 centerWeight false (Samples.store1 node) = 0).
  { intros i node Hi.
    assert (Hall : Forall (fun node => centerWeight false (Samples.store1 node) = 0)
                     (treeNodes Samples.sorted1)).
    { vm_compute. repeat constructor. }
    exact (Forall_lookup_1 _ _ _ _ Hall Hi). }
  split; [exact Hzero|].
  apply (GetIsoValue_divides_by_weight_sum Samples.tree1 Samples.store1 Samples.sorted1
           BoundaryTypeDirichlet false 0 (fun _ => 1)).
  exact Hzero.
Defined.

End IsoValueProperties.

(* ===================================================================== *)
(** * Properties of SortedTreeNodes::set *)
(* ===================================================================== *)

Module SortedTreeNodesProperties.
Import SparseMatrixInl MultiGridOctreeDataInl Notions.

(** ** Pointers into the tree *)

Lemma child_node_Some (n : OctNode) (c : nat) :
  is_Some (child_node n c) <-> hasChildren_node n = true /\ (c < 8)%nat.
Proof.
  unfold child_node. rewrite lookup_lt_is_Some.
  destruct n; simpl; split; intros H; try lia; try (split; [reflexivity|lia]);
    try (destruct H; discriminate).
Qed.

Lemma child_node_maxDepth (n m : OctNode) (c : nat) :
  child_node n c = Some m -> (S (maxDepth m) <= maxDepth n)%nat.
Proof.
  unfold child_node. destruct n; simpl; [discriminate|].
  do 8 (destruct c as [|c]; [intros [= <-]; lia|]). discriminate.
Qed.

Lemma subtree_snoc (p : NodePtr) (c : nat) : forall root,
  subtree root (p ++ [c])
  = match subtree root p with Some n => child_node n c | None => None end.
Proof.
  induction p as [|a p IH]; intros root; simpl.
  - destruct (child_node root c); reflexivity.
  - destruct (child_node root a); [apply IH|reflexivity].
Qed.

Lemma is_node_child (root : OctNode) (p : NodePtr) (c : nat) :
  is_node root (child p c) = true <-> hasChildren root p = true /\ (c < 8)%nat.
Proof.
  unfold is_node, hasChildren, child. rewrite subtree_snoc.
  destruct (subtree root p) as [n|].
  - rewrite <- child_node_Some. destruct (child_node n c); split; intros H;
      try reflexivity; try discriminate; try (eexists; reflexivity).
    destruct H as [? H]. discriminate.
  - split; [discriminate|intros [H _]; discriminate].
Qed.

Lemma is_node_parent (root : OctNode) (p : NodePtr) (c : nat) :
  is_node root (child p c) = true -> is_node root p = true.
Proof.
  intros H. apply is_node_child in H as [H _]. unfold hasChildren in H.
  unfold is_node. destruct (subtree root p); [reflexivity|discriminate].
Qed.

Lemma is_node_depth (p : NodePtr) : forall root,
  is_node root p = true -> (length p <= maxDepth root)%nat.
Proof.
  unfold is_node. induction p as [|c p IH]; intros root H; simpl in *; [lia|].
  destruct (child_node root c) as [n|] eqn:E; [|discriminate].
  apply child_node_maxDepth in E. specialize (IH n H). lia.
Qed.

Lemma hasChildren_depth (root : OctNode) (p : NodePtr) :
  hasChildren root p = true -> (S (length p) <= maxDepth root)%nat.
Proof.
  intros H.
  assert (Hc : is_node root (child p 0) = true) by (apply is_node_child; split; [exact H|lia]).
  apply is_node_depth in Hc. unfold child in Hc. rewrite length_app in Hc. simpl in Hc. lia.
Qed.

Lemma child_inj (p q : NodePtr) (c d : nat) : child p c = child q d -> p = q /\ c = d.
Proof. unfold child. intros H. apply app_inj_tail in H. exact H. Qed.

(** ** The levels of the tree *)


Lemma level_children_app root l1 l2 :
  level_children root (l1 ++ l2) = level_children root l1 ++ level_children root l2.
Proof. unfold level_children. apply flat_map_app. Qed.

Lemma elem_of_level_children root l p :
  p ∈ level_children root l <->
  exists q c, q ∈ l /\ hasChildren root q = true /\ (c < 8)%nat /\ p = child q c.
Proof.
  unfold level_children. rewrite list_elem_of_In, in_flat_map. split.
  - intros (q & Hq & Hp). apply list_elem_of_In in Hq.
    destruct (hasChildren root q) eqn:E; [|destruct Hp].
    apply in_map_iff in Hp as (c & <- & Hc). apply in_seq in Hc.
    exists q, c. repeat split; [exact Hq|exact E|lia].
  - intros (q & c & Hq & Hh & Hc & ->). exists q. split; [now apply list_elem_of_In|].
    rewrite Hh. apply in_map. apply in_seq. lia.
Qed.

Lemma elem_of_level root d p :
  p ∈ level root d <-> is_node root p = true /\ length p = d.
Proof.
  revert p. induction d as [|d IH]; intros p; simpl.
  - rewrite list_elem_of_singleton. split.
    + intros ->. split; reflexivity.
    + intros [_ H]. destruct p; [reflexivity|discriminate].
  - rewrite elem_of_level_children. split.
    + intros (q & c & Hq & Hh & Hc & ->). apply IH in Hq as [Hq Hl].
      split; [apply is_node_child; split; assumption|].
      unfold child. rewrite length_app. simpl. lia.
    + intros [Hn Hl]. destruct (exists_last (l := p)) as (q & c & ->);
        [intros ->; discriminate|].
      rewrite length_app in Hl. simpl in Hl.
      change (q ++ [c]) with (child q c) in Hn.
      pose proof (is_node_parent root q c Hn) as Hq.
      apply is_node_child in Hn as [Hh Hc].
      exists q, c. repeat split; try assumption. apply IH. split; [exact Hq|lia].
Qed.

Lemma elem_of_levels_upto root d p :
  p ∈ levels_upto root d <-> is_node root p = true /\ (length p < d)%nat.
Proof.
  induction d as [|d IH]; simpl.
  - split; [intros H; inversion H|intros [_ H]; lia].
  - rewrite elem_of_app, IH, elem_of_level. split.
    + intros [[H1 H2]|[H1 H2]]; split; try assumption; lia.
    + intros [H1 H2]. destruct (Nat.eq_dec (length p) d); [right|left]; split;
        try assumption; lia.
Qed.

Lemma NoDup_level_children root l :
  NoDup l -> NoDup (level_children root l).
Proof.
  induction l as [|q l IH]; intros Hnd; [constructor|].
  apply list.NoDup_cons in Hnd as [Hq Hl].
  change (level_children root (q :: l))
    with ((if hasChildren root q then map (child q) (seq 0 8) else [])
          ++ level_children root l).
  apply list.NoDup_app. split; [|split; [|exact (IH Hl)]].
  - destruct (hasChildren root q); [|constructor].
    apply (NoDup_fmap_2_strong (child q)); [|apply NoDup_seq].
    intros c d _ _ H. apply child_inj in H. tauto.
  - intros p Hp Hp'. apply elem_of_level_children in Hp'
      as (q' & c' & Hq' & _ & _ & ->).
    destruct (hasChildren root q); [|inversion Hp].
    apply list_elem_of_fmap in Hp as (c & Hc & _). apply child_inj in Hc as [<- _].
    contradiction.
Qed.

Lemma NoDup_level root d : NoDup (level root d).
Proof.
  induction d as [|d IH]; simpl; [apply NoDup_singleton|].
  now apply NoDup_level_children.
Qed.

Lemma NoDup_levels_upto root d : NoDup (levels_upto root d).
Proof.
  induction d as [|d IH]; simpl; [constructor|].
  apply list.NoDup_app. split; [exact IH|]. split; [|apply NoDup_level].
  intros p Hp Hp'. apply elem_of_levels_upto in Hp as [_ Hp].
  apply elem_of_level in Hp' as [_ Hp']. lia.
Qed.

Lemma count_upto_S root d :
  count_upto root (S d) = (count_upto root d + length (level root d))%nat.
Proof. unfold count_upto. simpl. apply length_app. Qed.

Lemma count_upto_mono root d e : (d <= e)%nat -> (count_upto root d <= count_upto root e)%nat.
Proof.
  induction 1 as [|e _ IH]; [lia|]. rewrite count_upto_S. lia.
Qed.

Lemma levels_upto_prefix root d e :
  (d <= e)%nat -> exists rest, levels_upto root e = levels_upto root d ++ rest.
Proof.
  induction 1 as [|e _ [rest IH]]; [exists []; now rewrite app_nil_r|].
  exists (rest ++ level root e). simpl. rewrite IH. now rewrite <- app_assoc.
Qed.

(** A node stored at position [k] has its depth's range around [k]. *)
Lemma levels_upto_lookup root D : forall k p,
  levels_upto root D !! k = Some p ->
  (length p < D)%nat /\
  (count_upto root (length p) <= k < count_upto root (S (length p)))%nat /\
  level root (length p) !! (k - count_upto root (length p))%nat = Some p.
Proof.
  induction D as [|D IH]; intros k p Hk; simpl in Hk; [discriminate|].
  apply lookup_app_Some in Hk as [Hk|[Hge Hk]].
  - destruct (IH k p Hk) as (H1 & H2 & H3). repeat split; try lia. exact H3.
  - pose proof (list_elem_of_lookup_2 _ _ _ Hk) as Hin.
    apply elem_of_level in Hin as [_ Hlen]. subst D.
    apply lookup_lt_Some in Hk as Hlt. fold (count_upto root (length p)) in *.
    rewrite count_upto_S. repeat split; try lia. exact Hk.
Qed.

Lemma levels_upto_complete root D p :
  is_node root p = true -> (length p < D)%nat ->
  exists k, levels_upto root D !! k = Some p.
Proof.
  intros Hn Hl. apply list_elem_of_lookup_1. apply elem_of_levels_upto. now split.
Qed.

(** ** The loop of [set] builds the levels *)

Lemma nth_counts root n k :
  (k < n)%nat -> nth k (map (count_upto root) (seq 0 n)) 0%nat = count_upto root k.
Proof.
  intros Hk. rewrite nth_lookup, list_lookup_fmap, lookup_seq_lt by exact Hk. reflexivity.
Qed.

Lemma span_last_level root d :
  span (levels_upto root (S d)) (count_upto root d) (count_upto root (S d)) = level root d.
Proof.
  unfold span. rewrite count_upto_S. simpl levels_upto.
  unfold count_upto. rewrite drop_app_length.
  replace (length (levels_upto root d) + length (level root d)
           - length (levels_upto root d))%nat with (length (level root d)) by lia.
  apply firstn_all.
Qed.

Lemma set_levels_spec root n : forall d,
  set_levels root n (S d) (map (count_upto root) (seq 0 (S (S d)))) (levels_upto root (S d))
  = (map (count_upto root) (seq 0 (S (S (d + n)))), levels_upto root (S (d + n))).
Proof.
  induction n as [|n IH]; intros d.
  - simpl set_levels. now rewrite Nat.add_0_r.
  - cbn [set_levels]. replace (S d - 1)%nat with d by lia.
    rewrite !nth_counts by lia. rewrite span_last_level.
    change (level_children root (level root d)) with (level root (S d)).
    rewrite <- count_upto_S.
    replace (map (count_upto root) (seq 0 (S (S d))) ++ [count_upto root (S (S d))])
      with (map (count_upto root) (seq 0 (S (S (S d))))).
    2:{ rewrite (seq_S (S (S d)) 0), map_app. reflexivity. }
    change (levels_upto root (S d) ++ level root (S d)) with (levels_upto root (S (S d))).
    rewrite IH. replace (S d + n)%nat with (d + S n)%nat by lia. reflexivity.
Qed.

Lemma set_sorted root store :
  fst (set root store)
  = mkSortedTreeNodes (S (maxDepth root))
      (map (count_upto root) (seq 0 (S (S (maxDepth root)))))
      (levels_upto root (S (maxDepth root))).
Proof.
  unfold set. replace (S (maxDepth root) - 1)%nat with (maxDepth root) by lia.
  change [0; 1]%nat with (map (count_upto root) (seq 0 2)).
  change [[]] with (levels_upto root 1).
  rewrite (set_levels_spec root (maxDepth root) 0). reflexivity.
Qed.

Lemma set_store root store :
  snd (set root store)
  = assign_indices 0 (levels_upto root (S (maxDepth root))) (clear_indices root store).
Proof.
  unfold set. replace (S (maxDepth root) - 1)%nat with (maxDepth root) by lia.
  change [0; 1]%nat with (map (count_upto root) (seq 0 2)).
  change [[]] with (levels_upto root 1).
  rewrite (set_levels_spec root (maxDepth root) 0). cbn [snd Nat.add].
  rewrite nth_counts by lia. unfold count_upto. now rewrite firstn_all.
Qed.

Lemma nodeCount_at_set root store d :
  (d <= S (maxDepth root))%nat ->
  nodeCount_at (fst (set root store)) d = count_upto root d.
Proof.
  intros Hd. rewrite set_sorted. unfold nodeCount_at. cbn [nodeCount].
  apply nth_counts. lia.
Qed.

(** ** The final loop of [set] numbers the nodes *)

Lemma assign_indices_other tn : forall i store p,
  p ∉ tn -> assign_indices i tn store p = store p.
Proof.
  induction tn as [|q tn IH]; intros i store p Hp; simpl; [reflexivity|].
  apply not_elem_of_cons in Hp as [Hne Hp].
  rewrite IH by exact Hp. apply fn_lookup_insert_ne. congruence.
Qed.

Lemma assign_indices_lookup tn : forall i store k p,
  NoDup tn -> tn !! k = Some p ->
  assign_indices i tn store p = with_nodeIndex (Z.of_nat (i + k)) (store p).
Proof.
  induction tn as [|q tn IH]; intros i store k p Hnd Hk; [discriminate|].
  apply list.NoDup_cons in Hnd as [Hq Hnd]. destruct k as [|k]; simpl in *.
  - injection Hk as ->. rewrite assign_indices_other by exact Hq.
    rewrite fn_lookup_insert. now rewrite Nat.add_0_r.
  - rewrite (IH (S i) _ k p Hnd Hk).
    rewrite fn_lookup_insert_ne.
    + f_equal. lia.
    + intros ->. apply Hq. eapply list_elem_of_lookup_2, Hk.
Qed.

(** ** The sorted index after [set] *)

Section AfterSet.
Variable root : OctNode.
Variable store : NodeStore.

Local Abbreviation sNodes := (fst (set root store)).
Local Abbreviation store' := (snd (set root store)).

(** The node at position [k] is a node of the tree, carries the index [k],
    and lies in the range of its depth. *)
Lemma sorted_lookup (k : nat) (p : NodePtr) :
  treeNodes sNodes !! k = Some p ->
  is_node root p = true /\
  store' p = with_nodeIndex (Z.of_nat k) (clear_indices root store p) /\
  (nodeCount_at sNodes (depth p) <= k < nodeCount_at sNodes (S (depth p)))%nat.
Proof.
  intros Hk. pose proof Hk as Hk'. rewrite set_sorted in Hk'. cbn [treeNodes] in Hk'.
  destruct (levels_upto_lookup root _ k p Hk') as (Hlen & Hrange & _).
  split.
  - apply list_elem_of_lookup_2 in Hk'. apply elem_of_levels_upto in Hk'. tauto.
  - split.
    + rewrite set_store.
      now rewrite (assign_indices_lookup _ 0 _ k p (NoDup_levels_upto root _) Hk').
    + unfold depth. rewrite !nodeCount_at_set by lia. exact Hrange.
Qed.

(** Every node of the tree is stored. *)
Lemma sorted_complete (p : NodePtr) :
  is_node root p = true -> exists k, treeNodes sNodes !! k = Some p.
Proof.
  intros Hn. rewrite set_sorted. cbn [treeNodes].
  apply levels_upto_complete; [exact Hn|]. apply is_node_depth in Hn. lia.
Qed.

Lemma sorted_length :
  length (treeNodes sNodes) = nodeCount_at sNodes (sMaxDepth sNodes).
Proof.
  rewrite nodeCount_at_set by (rewrite set_sorted; cbn [sMaxDepth]; lia).
  rewrite set_sorted. reflexivity.
Qed.

Lemma nodeCount_at_mono (d e : nat) :
  (d <= e <= S (maxDepth root))%nat ->
  (nodeCount_at sNodes d <= nodeCount_at sNodes e)%nat.
Proof.
  intros H. rewrite !nodeCount_at_set by lia. apply count_upto_mono. lia.
Qed.

(** The eight children of a stored node that has children. *)
Lemma sorted_children (k : nat) (p : NodePtr) :
  treeNodes sNodes !! k = Some p -> hasChildren root p = true ->
  exists first,
    (nodeCount_at sNodes (S (depth p)) <= first)%nat /\
    (first + 8 <= nodeCount_at sNodes (S (S (depth p))))%nat /\
    forall c, (c < 8)%nat -> treeNodes sNodes !! (first + c)%nat = Some (child p c).
Proof.
  intros Hk Hh. pose proof (hasChildren_depth root p Hh) as Hd.
  rewrite set_sorted in Hk. cbn [treeNodes] in Hk.
  destruct (levels_upto_lookup root _ k p Hk) as (_ & _ & Hj).
  set (d := length p) in *. set (j := (k - count_upto root d)%nat) in *.
  pose proof (take_drop_middle _ _ _ Hj) as Hsplit.
  set (l1 := take j (level root d)) in *. set (l2 := drop (S j) (level root d)) in *.
  assert (Hnext : level root (S d)
                  = level_children root l1
                    ++ map (child p) (seq 0 8) ++ level_children root l2).
  { simpl level. rewrite <- Hsplit, level_children_app.
    change (level_children root (p :: l2))
      with ((if hasChildren root p then map (child p) (seq 0 8) else [])
            ++ level_children root l2).
    now rewrite Hh. }
  exists (count_upto root (S d) + length (level_children root l1))%nat.
  unfold depth. fold d. rewrite !nodeCount_at_set by lia.
  split; [lia|]. split.
  - rewrite (count_upto_S root (S d)), Hnext, !length_app, length_map, length_seq. lia.
  - intros c Hc. rewrite set_sorted. cbn [treeNodes].
    destruct (levels_upto_prefix root (S (S d)) (S (maxDepth root))) as [rest ->]; [lia|].
    apply lookup_app_l_Some. simpl levels_upto. fold (levels_upto root (S d)).
    change (levels_upto root d ++ level root d) with (levels_upto root (S d)).
    rewrite lookup_app_r by (unfold count_upto; lia).
    replace (count_upto root (S d) + length (level_children root l1) + c
             - length (levels_upto root (S d)))%nat
      with (length (level_children root l1) + c)%nat by (unfold count_upto; lia).
    change (level_children root (level root d)) with (level root (S d)).
    rewrite Hnext, lookup_app_r by lia.
    replace (length (level_children root l1) + c - length (level_children root l1))%nat
      with c by lia.
    apply lookup_app_l_Some. rewrite list_lookup_fmap, lookup_seq_lt by exact Hc.
    reflexivity.
Qed.

End AfterSet.

(** ** [GetRestrictedFixedDepthLaplacian] puts the indices back *)

Section Restore.
Variable insetSupported : NodePtr -> bool.
Variable setRow : NodeStore -> NodePtr -> list MatrixEntry.
Variable constraintFromCoarser : NodeStore -> NodePtr -> Qc.
Variable s : SortedTreeNodes.

Local Abbreviation designated := (Notions.designated s).

Lemma laplacian_row_keeps_index getNode acc i p :
  nodeIndex (snd (laplacian_row insetSupported setRow constraintFromCoarser getNode acc i) p)
  = nodeIndex (snd acc p).
Proof.
  unfold laplacian_row. destruct acc as [matrix store].
  destruct (getNode i) as [node|]; [|reflexivity].
  destruct (insetSupported node); [|reflexivity]. cbn [snd].
  destruct (decide (node = p)) as [->|Hne].
  - rewrite fn_lookup_insert. reflexivity.
  - rewrite fn_lookup_insert_ne by exact Hne. reflexivity.
Qed.

Lemma generic_keeps_index range getNode store p :
  nodeIndex (snd (GetFixedDepthLaplacianGeneric insetSupported setRow
                    constraintFromCoarser range getNode store) p)
  = nodeIndex (store p).
Proof.
  unfold GetFixedDepthLaplacianGeneric.
  change (store p) with (snd (([] : SparseSymmetricMatrix), store) p).
  generalize (([] : SparseSymmetricMatrix), store). generalize (seq 0 range).
  intros l. induction l as [|i l IH]; intros acc; simpl; [reflexivity|].
  rewrite IH. apply laplacian_row_keeps_index.
Qed.


Lemma remap_other value entries : forall i store p,
  ~ designated entries p -> remap_indices s value i entries store p = store p.
Proof.
  induction entries as [|e rest IH]; intros i store p Hp; simpl; [reflexivity|].
  rewrite IH by (intros H; apply Hp; now apply Exists_cons_tl).
  destruct (treeNode s e) as [node|] eqn:E; [|reflexivity].
  apply fn_lookup_insert_ne. intros ->. apply Hp. now apply Exists_cons_hd.
Qed.

Lemma remap_designated value entries : forall i store p,
  designated entries p ->
  exists k e, entries !! k = Some e /\ treeNode s e = Some p /\
              nodeIndex (remap_indices s value i entries store p) = value (i + k)%nat e.
Proof.
  induction entries as [|e rest IH]; intros i store p Hp; [inversion Hp|].
  simpl. destruct (decide (designated rest p)) as [Hrest|Hrest].
  - destruct (IH (S i) (match treeNode s e with
                        | Some node => <[node := with_nodeIndex (value i e) (store node)]> store
                        | None => store
                        end) p Hrest) as (k & e' & Hk & He' & Hv).
    exists (S k), e'. repeat split; [exact Hk|exact He'|].
    rewrite Hv. f_equal. lia.
  - rewrite remap_other by exact Hrest.
    apply Exists_cons in Hp as [Hp|Hp]; [|contradiction].
    exists 0%nat, e. rewrite Hp, fn_lookup_insert, Nat.add_0_r.
    repeat split.
Qed.

Lemma restricted_laplacian_restores (entries : list Z) (store : NodeStore) :
  (forall k p, treeNodes s !! k = Some p -> nodeIndex (store p) = Z.of_nat k) ->
  forall p,
    nodeIndex (snd (GetRestrictedFixedDepthLaplacian insetSupported setRow
                      constraintFromCoarser s entries store) p)
    = nodeIndex (store p).
Proof.
  intros Hinv p. unfold GetRestrictedFixedDepthLaplacian.
  destruct (GetFixedDepthLaplacianGeneric _ _ _ _ _ _) as [matrix store2] eqn:E.
  cbn [snd]. destruct (decide (designated entries p)) as [Hp|Hp].
  - destruct (remap_designated (fun _ e => e) entries 0 store2 p Hp)
      as (k & e & _ & He & ->).
    unfold treeNode in He. destruct (e <? 0)%Z eqn:Ee; [discriminate|].
    apply Z.ltb_ge in Ee. rewrite (Hinv _ _ He). lia.
  - rewrite remap_other by exact Hp.
    change store2 with (snd (matrix, store2)). rewrite <- E, generic_keeps_index.
    now rewrite remap_other by exact Hp.
Qed.
End Restore.

(** ** C1 *)

(** C1.  After [set(root)]: (a) every position [i] below
    [nodeCount[maxDepth]] holds a node of the tree whose [nodeIndex] is
    [i]; (b) the eight children of a stored node of depth [d] that has
    children are stored at eight consecutive positions inside
    [nodeCount[d+1] .. nodeCount[d+2]); (c) in any later state [st] in
    which the indices are still those positions,
    [GetRestrictedFixedDepthLaplacian], which remaps the [nodeIndex] of the
    nodes its entries designate, leaves every node with the [nodeIndex] it
    had, so that the indices are the positions again when it returns. *)
Theorem set_sorted_index_consistent (root : OctNode) (store st : NodeStore)
    (insetSupported : NodePtr -> bool) (setRow : NodeStore -> NodePtr -> list MatrixEntry)
    (constraintFromCoarser : NodeStore -> NodePtr -> Qc) (entries : list Z) :
  let sNodes := fst (set root store) in
  let store' := snd (set root store) in
  let count := nodeCount_at sNodes (sMaxDepth sNodes) in
  let st' := snd (GetRestrictedFixedDepthLaplacian insetSupported setRow
                    constraintFromCoarser sNodes entries st) in
  (forall i, (i < count)%nat ->
     exists p, treeNodes sNodes !! i = Some p /\ is_node root p = true /\
               nodeIndex (store' p) = Z.of_nat i) /\
  (forall i p, treeNodes sNodes !! i = Some p -> hasChildren root p = true ->
     exists first,
       (nodeCount_at sNodes (S (depth p)) <= first)%nat /\
       (first + 8 <= nodeCount_at sNodes (S (S (depth p))))%nat /\
       forall c, (c < 8)%nat -> treeNodes sNodes !! (first + c)%nat = Some (child p c)) /\
  ((forall i p, treeNodes sNodes !! i = Some p -> nodeIndex (st p) = Z.of_nat i) ->
   Forall (fun e => (0 <= e < Z.of_nat count)%Z) entries ->
   (forall p, nodeIndex (st' p) = nodeIndex (st p)) /\
   (forall i p, treeNodes sNodes !! i = Some p -> nodeIndex (st' p) = Z.of_nat i)).
Proof.
  intros sNodes store' count st'. split; [|split].
  - intros i Hi. unfold count, sNodes in Hi. rewrite <- sorted_length in Hi.
    destruct (lookup_lt_is_Some_2 _ _ Hi) as [p Hp]. exists p.
    destruct (sorted_lookup root store i p Hp) as (Hn & Hst & _).
    repeat split; [exact Hp|exact Hn|]. unfold store'. rewrite Hst. reflexivity.
  - apply sorted_children.
  - intros Hinv _.
    assert (Hc : forall p, nodeIndex (st' p) = nodeIndex (st p)).
    { intros p. apply restricted_laplacian_restores. exact Hinv. }
    split; [exact Hc|]. intros i p Hp. rewrite Hc. exact (Hinv i p Hp).
Qed.

(** The seventeen-node tree; the entries designate a grandchild, a child
    and another grandchild; node 3, the one with children, has them at
    positions 9 to 16. *)
Lemma set_sorted_index_consistent_witness :
  let entries := [9; 3; 12]%Z in
  let st' := snd (GetRestrictedFixedDepthLaplacian (fun _ => true) (fun _ _ => [])
                    (fun _ _ => 1%Qc) Samples.sorted2 entries Samples.store2) in
  (forall i p, treeNodes Samples.sorted2 !! i = Some p ->
               nodeIndex (Samples.store2 p) = Z.of_nat i) /\
  Forall (fun e => (0 <= e < 17)%Z) entries /\
  (forall p, nodeIndex (st' p) = nodeIndex (Samples.store2 p)) /\
  (exists first, (9 <= first)%nat /\ (first + 8 <= 17)%nat /\
     forall c, (c < 8)%nat -> treeNodes Samples.sorted2 !! (first + c)%nat = Some [3; c]%nat).
Proof.
  intros entries st'.
  assert (He : Forall (fun e => (0 <= e < 17)%Z) entries)
    by (repeat constructor; lia).
  assert (Hinv : forall i p, treeNodes Samples.sorted2 !! i = Some p ->
                             nodeIndex (Samples.store2 p) = Z.of_nat i).
  { intros i p Hp.
    destruct (sorted_lookup Samples.tree2 Samples.fresh_store i p Hp) as (_ & Hst & _).
    unfold Samples.store2. rewrite Hst. reflexivity. }
  destruct (set_sorted_index_consistent Samples.tree2 Samples.fresh_store Samples.store2
              (fun _ => true) (fun _ _ => []) (fun _ _ => 1%Qc) entries)
    as (_ & Hb & Hc).
  split; [exact Hinv|]. split; [exact He|]. split.
  - apply Hc; [exact Hinv|exact He].
  - exact (Hb 4%nat [3%nat] eq_refl eq_refl).
Defined.

End SortedTreeNodesProperties.

(* ===================================================================== *)
(** * Properties of the sub-domain write-back of SolveFixedDepthMatrix *)
(* ===================================================================== *)

Module WriteBackProperties.
Import SparseMatrixInl MultiGridOctreeDataInl Notions SortedTreeNodesProperties.

(** ** Walking up *)

Lemma removelast_take (p : NodePtr) : removelast p = take (length p - 1) p.
Proof.
  destruct (decide (p = [])) as [->|Hne]; [reflexivity|].
  destruct (exists_last Hne) as (q & c & ->).
  rewrite removelast_last, length_app. simpl.
  replace (length q + 1 - 1)%nat with (length q) by lia.
  now rewrite take_app_length.
Qed.

Lemma climb_take (n : nat) : forall p, climb n p = take (length p - n) p.
Proof.
  induction n as [|n IH]; intros p; simpl.
  - rewrite Nat.sub_0_r. symmetry. apply firstn_all.
  - destruct p as [|c p]; [reflexivity|]. cbn [parent].
    rewrite IH, removelast_take, take_take, length_take.
    f_equal. simpl length. lia.
Qed.

Lemma ancestor_at_take (p : NodePtr) (d : nat) :
  ancestor_at p d = take (Nat.min d (length p)) p.
Proof. unfold ancestor_at, depth. rewrite climb_take. f_equal. lia. Qed.

Lemma is_node_take (p : NodePtr) : forall root n,
  is_node root p = true -> is_node root (take n p) = true.
Proof.
  unfold is_node. induction p as [|c p IH]; intros root n H.
  - now rewrite take_nil.
  - destruct n as [|n]; [reflexivity|]. simpl in *.
    destruct (child_node root c) as [m|]; [|discriminate]. now apply IH.
Qed.

(** ** One pass of the loop *)

Section Pass.
Variable s : SortedTreeNodes.
Variable i : nat.
Variable _X : Vector.


Lemma write_back_entry_frame store ja p :
  nodeIndex (write_back_entry s i _X store ja p) = nodeIndex (store p) /\
  constraint (write_back_entry s i _X store ja p) = constraint (store p).
Proof.
  unfold write_back_entry. destruct ja as [j a].
  destruct (treeNode s a) as [node|]; [|split; reflexivity].
  destruct (treeNodes s !! i) as [coarse|]; [|split; reflexivity].
  destruct (_ >=? _)%Z; [|split; reflexivity].
  destruct (decide (node = p)) as [->|Hne].
  - rewrite fn_lookup_insert. split; reflexivity.
  - rewrite fn_lookup_insert_ne by exact Hne. split; reflexivity.
Qed.

Lemma write_back_entry_cases store j a p :
  write_back_entry s i _X store (j, a) p = store p \/
  (treeNode s a = Some p /\
   exists coarse, treeNodes s !! i = Some coarse /\ passes store coarse p).
Proof.
  unfold write_back_entry. destruct (treeNode s a) as [node|]; [|now left].
  destruct (treeNodes s !! i) as [coarse|]; [|now left].
  destruct (_ >=? _)%Z eqn:E; [|now left].
  destruct (decide (node = p)) as [->|Hne].
  - right. split; [reflexivity|]. exists coarse. split; [reflexivity|].
    unfold passes. rewrite Z.geb_leb in E. now apply Z.leb_le.
  - left. now apply fn_lookup_insert_ne.
Qed.

Lemma write_back_fold_frame (l : list (nat * Z)) : forall store p,
  nodeIndex (fold_left (write_back_entry s i _X) l store p) = nodeIndex (store p) /\
  constraint (fold_left (write_back_entry s i _X) l store p) = constraint (store p).
Proof.
  induction l as [|ja l IH]; intros store p; cbn [fold_left]; [split; reflexivity|].
  destruct (IH (write_back_entry s i _X store ja) p) as [H1 H2].
  destruct (write_back_entry_frame store ja p) as [H3 H4]. split; congruence.
Qed.

Lemma write_back_fold_cases (st : NodeStore) (l : list (nat * Z)) : forall store p,
  (forall q, nodeIndex (store q) = nodeIndex (st q)) ->
  fold_left (write_back_entry s i _X) l store p = store p \/
  exists j a coarse, (j, a) ∈ l /\ treeNode s a = Some p /\
                     treeNodes s !! i = Some coarse /\ passes st coarse p.
Proof.
  induction l as [|[j a] l IH]; intros store p Hidx; cbn [fold_left]; [now left|].
  destruct (IH (write_back_entry s i _X store (j, a)) p) as [Heq|Hw].
  - intros q. rewrite <- Hidx. apply write_back_entry_frame.
  - rewrite Heq. destruct (write_back_entry_cases store j a p)
      as [H|(Ha & coarse & Hc & Hp)]; [now left|].
    right. exists j, a, coarse. repeat split; [left|exact Ha|exact Hc|].
    unfold passes in *. now rewrite <- !Hidx.
  - right. destruct Hw as (j' & a' & coarse & Hin & Ha & Hc & Hp).
    exists j', a', coarse. repeat split; [now right|exact Ha|exact Hc|exact Hp].
Qed.
End Pass.

(** ** C5 *)

(** C5.  With the sorted index as [set] leaves it, the write-back of the
    sub-domain rooted at the coarse node [treeNodes[i]] changes a node only
    when it is in the adjacency set and its sorted index is at least the
    index of the coarse node; a node of the adjacency set whose index is
    below the coarse node's keeps its solution; no [nodeIndex] and no
    constraint is touched. *)
Theorem write_back_respects_coarse_index (root : OctNode) (store0 st : NodeStore)
    (i : nat) (coarse : NodePtr) (adjacencies : list Z) (_X : Vector) :
  let sNodes := fst (set root store0) in
  let st' := write_back sNodes i adjacencies _X st in
  (forall k p, treeNodes sNodes !! k = Some p -> nodeIndex (st p) = Z.of_nat k) ->
  treeNodes sNodes !! i = Some coarse ->
  (forall p, st' p = st p \/
             (Exists (fun a => treeNode sNodes a = Some p) adjacencies /\
              (nodeIndex (st coarse) <= nodeIndex (st p))%Z)) /\
  (forall a p, a ∈ adjacencies -> treeNode sNodes a = Some p ->
               (nodeIndex (st p) < nodeIndex (st coarse))%Z ->
               solution (st' p) = solution (st p)) /\
  (forall p, nodeIndex (st' p) = nodeIndex (st p) /\ constraint (st' p) = constraint (st p)).
Proof.
  intros sNodes st' Hinv Hcoarse.
  assert (Hmain : forall p, st' p = st p \/
             (Exists (fun a => treeNode sNodes a = Some p) adjacencies /\
              (nodeIndex (st coarse) <= nodeIndex (st p))%Z)).
  { intros p. unfold st', write_back.
    destruct (write_back_fold_cases sNodes i _X st (imap pair adjacencies) st p)
      as [H|(j & a & coarse' & Hin & Ha & Hc & Hpass)]; [reflexivity|now left|].
    right. rewrite Hcoarse in Hc. injection Hc as <-.
    apply list_elem_of_lookup_1 in Hin as [j' Hin].
    rewrite list_lookup_imap in Hin.
    destruct (adjacencies !! j') as [a'|] eqn:Ea; [|discriminate].
    injection Hin as <- <-. split.
    { apply Exists_exists. exists a'. split; [|exact Ha].
      eapply list_elem_of_In, list_elem_of_lookup_2, Ea. }
    (* the node and its ancestor are stored; compare their positions *)
    unfold treeNode in Ha. destruct (a' <? 0)%Z; [discriminate|].
    set (kp := Z.to_nat a') in *.
    destruct (sorted_lookup root store0 kp p Ha) as (Hn & _ & Hrp).
    destruct (sorted_lookup root store0 i coarse Hcoarse) as (_ & _ & Hrc).
    unfold passes in Hpass. rewrite ancestor_at_take in Hpass.
    set (anc := take (Nat.min (depth coarse) (length p)) p) in *.
    assert (Hna : is_node root anc = true) by (apply is_node_take; exact Hn).
    destruct (sorted_complete root store0 anc Hna) as [ka Hka].
    destruct (sorted_lookup root store0 ka anc Hka) as (_ & _ & Hra).
    rewrite (Hinv _ _ Hka), (Hinv _ _ Hcoarse) in Hpass.
    rewrite (Hinv _ _ Ha), (Hinv _ _ Hcoarse).
    assert (Hda : depth anc = Nat.min (depth coarse) (length p)).
    { unfold anc, depth. rewrite length_take. unfold depth. lia. }
    destruct (le_lt_dec (length p) (depth coarse)) as [Hle|Hlt].
    - (* the node is not deeper than the coarse node: it is its own ancestor *)
      assert (Hself : anc = p) by (unfold anc; apply take_ge; lia).
      rewrite Hself in Hka.
      assert (ka = kp).
      { pose proof (Hinv _ _ Hka). pose proof (Hinv _ _ Ha). lia. }
      lia.
    - (* deeper: it is stored after the whole level of its ancestor *)
      assert (Hmono : (nodeCount_at sNodes (S (depth anc))
                       <= nodeCount_at sNodes (depth p))%nat).
      { apply nodeCount_at_mono. apply is_node_depth in Hn. unfold depth in *. lia. }
      unfold anc, sNodes in *. lia. }
  split; [exact Hmain|]. split.
  - intros a p _ Ha Hlt. destruct (Hmain p) as [->|[_ Hge]]; [reflexivity|lia].
  - intros p. apply write_back_fold_frame.
Qed.

(** The seventeen-node tree, coarse node at position 4 (child 3 of the
    root).  The adjacency set holds its grandchildren 9 and 10 and node 2,
    which precedes the coarse node: 9 and 10 receive their values, node 2
    keeps its solution. *)
Lemma write_back_respects_coarse_index_witness :
  let st' := write_back Samples.sorted2 4 [9; 2; 10]%Z
               [Q2Qc (5 # 1); Q2Qc (6 # 1); Q2Qc (7 # 1)] Samples.store2 in
  solution (st' [3; 0]%nat) = Q2Qc (5 # 1) /\
  solution (st' [3; 1]%nat) = Q2Qc (7 # 1) /\
  solution (st' [1%nat]) = solution (Samples.store2 [1%nat]) /\
  nodeIndex (st' [3; 0]%nat) = 9%Z.
Proof.
  intros st'.
  assert (Hinv : forall k p, treeNodes Samples.sorted2 !! k = Some p ->
                             nodeIndex (Samples.store2 p) = Z.of_nat k).
  { intros k p Hk.
    destruct (sorted_lookup Samples.tree2 Samples.fresh_store k p Hk) as (_ & Hst & _).
    unfold Samples.store2. rewrite Hst. reflexivity. }
  destruct (write_back_respects_coarse_index Samples.tree2 Samples.fresh_store
              Samples.store2 4 [3%nat] [9; 2; 10]%Z
              [Q2Qc (5 # 1); Q2Qc (6 # 1); Q2Qc (7 # 1)] Hinv eq_refl)
    as (_ & Hkeep & Hframe).
  split; [reflexivity|]. split; [reflexivity|]. split.
  - apply (Hkeep 2%Z [1%nat]); [|reflexivity|vm_compute; reflexivity].
    apply list_elem_of_In. simpl. tauto.
  - destruct (Hframe [3; 0]%nat) as [Hf _]. exact Hf.
Defined.

End WriteBackProperties.

(* ===================================================================== *)
(** * Properties of UpSampleGeneric, DownSample and UpSample *)
(* ===================================================================== *)

Module UpDownSampleProperties.
Import SparseMatrixInl MultiGridOctreeDataInl SpecMd Notions.
Import MultiplyProperties SortedTreeNodesProperties.
Local Open Scope Qc_scope.

(** ** Finite sums *)


Lemma fold_left_total {T : Type} (l : list T) (f : T -> Qc) : forall a,
  fold_left (fun s k => s + f k) l a = a + total l f.
Proof.
  induction l as [|b l IH]; intros a; simpl; [ring|]. rewrite IH. ring.
Qed.

Lemma total_ext {T : Type} (l : list T) (f g : T -> Qc) :
  (forall a, a ∈ l -> f a = g a) -> total l f = total l g.
Proof.
  induction l as [|b l IH]; intros H; simpl; [reflexivity|].
  rewrite (H b) by left. rewrite IH; [reflexivity|]. intros a Ha. apply H. now right.
Qed.

Lemma total_plus {T : Type} (l : list T) (f g : T -> Qc) :
  total l (fun a => f a + g a) = total l f + total l g.
Proof. induction l as [|b l IH]; simpl; [ring|]. rewrite IH. ring. Qed.

Lemma total_zero {T : Type} (l : list T) : total l (fun _ => 0) = 0.
Proof. induction l as [|b l IH]; simpl; [reflexivity|]. rewrite IH. ring. Qed.

Lemma total_scale {T : Type} (l : list T) (f : T -> Qc) (q : Qc) :
  total l f * q = total l (fun a => f a * q).
Proof. induction l as [|b l IH]; simpl; [ring|]. rewrite <- IH. ring. Qed.

Lemma total_swap {T U : Type} (l : list T) (m : list U) (f : T -> U -> Qc) :
  total l (fun a => total m (fun b => f a b)) = total m (fun b => total l (fun a => f a b)).
Proof.
  induction l as [|a l IH]; simpl; [now rewrite total_zero|].
  rewrite IH, <- total_plus. reflexivity.
Qed.


Lemma elem_of_range lo hi k :
  k ∈ range lo hi <-> (Z.of_nat lo <= k < Z.of_nat hi)%Z.
Proof.
  unfold range. rewrite list_elem_of_fmap. split.
  - intros (n & -> & Hn). apply elem_of_seq in Hn. lia.
  - intros Hk. exists (Z.to_nat k). split; [lia|]. apply elem_of_seq. lia.
Qed.

Lemma total_delta (l : list Z) (j : Z) (g : Z -> Qc) :
  NoDup l -> j ∈ l -> total l (fun k => if (k =? j)%Z then g k else 0) = g j.
Proof.
  induction l as [|a l IH]; intros Hnd Hj; [inversion Hj|].
  apply list.NoDup_cons in Hnd as [Ha Hnd]. simpl.
  destruct (a =? j)%Z eqn:E.
  - apply Z.eqb_eq in E. subst a.
    rewrite (total_ext l _ (fun _ => 0)), total_zero; [ring|].
    intros k Hk. destruct (k =? j)%Z eqn:E; [|reflexivity].
    apply Z.eqb_eq in E. subst k. contradiction.
  - apply Z.eqb_neq in E. apply elem_of_cons in Hj as [->|Hj]; [contradiction|].
    rewrite IH by assumption. ring.
Qed.

Lemma NoDup_range lo hi : NoDup (range lo hi).
Proof.
  unfold range. apply (NoDup_fmap_2 Z.of_nat). apply NoDup_seq.
Qed.

Lemma inner_total lo hi u w :
  inner lo hi u w = total (range lo hi) (fun k => at_ u k * at_ w k).
Proof.
  unfold inner. fold (range lo hi).
  rewrite (fold_left_total (range lo hi) (fun k => at_ u k * at_ w k)). ring.
Qed.

Lemma at_on_range lo hi u k :
  at_ (on_range lo hi u) k
  = if ((Z.of_nat lo <=? k) && (k <? Z.of_nat hi))%Z then at_ u k else 0.
Proof.
  unfold at_, on_range. destruct (k <? 0)%Z eqn:Ek.
  { destruct (_ && _); reflexivity. }
  apply Z.ltb_ge in Ek. rewrite !nth_lookup, list_lookup_imap.
  destruct (u !! Z.to_nat k) as [q|]; simpl.
  - replace (Z.of_nat lo <=? k)%Z with (lo <=? Z.to_nat k)%nat.
    2:{ destruct (Nat.leb_spec lo (Z.to_nat k)), (Z.leb_spec (Z.of_nat lo) k);
          try reflexivity; lia. }
    replace (k <? Z.of_nat hi)%Z with (Z.to_nat k <? hi)%nat.
    2:{ destruct (Nat.ltb_spec (Z.to_nat k) hi), (Z.ltb_spec k (Z.of_nat hi));
          try reflexivity; lia. }
    reflexivity.
  - destruct (_ && _); reflexivity.
Qed.

Lemma length_on_range lo hi u : length (on_range lo hi u) = length u.
Proof. unfold on_range. apply length_imap. Qed.

(** ** The two folds over the calls of [func] *)

Section Folds.
Variable store : NodeStore.
(** The fine range [flo, fhi) holds the [i] of every call, the coarse range
    [clo, chi) below it the index of every [node]. *)
Variables flo fhi clo chi : Z.
Variable len : nat.
Hypothesis ranges : (0 <= clo)%Z /\ (chi <= flo)%Z /\ (fhi <= Z.of_nat len)%Z.

Local Abbreviation call_j := (Notions.call_j store).
Local Abbreviation transfers := (Notions.transfers store flo fhi clo chi).


Lemma DownSample_fold (calls : list UpSampleCall) : forall C,
  length C = len -> Forall transfers calls ->
  forall k,
    at_ (fold_left (DownSample_func store) calls C) k
    = at_ C k
      + total calls (fun c => if (k =? call_j c)%Z then at_ C (call_i c) * call_w c else 0).
Proof.
  induction calls as [|c calls IH]; intros C Hlen Hall k; simpl; [ring|].
  apply list.Forall_cons in Hall as [[Hi Hj] Hall].
  assert (Hadd : forall k', at_ (DownSample_func store C c) k'
                   = at_ C k' + (if (k' =? call_j c)%Z then at_ C (call_i c) * call_w c
                                 else 0)).
  { intros k'. unfold DownSample_func. fold (call_j c). fold (call_i c).
    rewrite at_add_at by lia. unfold call_w. destruct (k' =? call_j c)%Z; ring. }
  rewrite IH; [|unfold DownSample_func; now rewrite length_add_at|exact Hall].
  rewrite Hadd.
  rewrite (total_ext calls _
             (fun c' => if (k =? call_j c')%Z then at_ C (call_i c') * call_w c' else 0)).
  - ring.
  - intros c' Hc'. destruct (k =? call_j c')%Z; [|reflexivity].
    rewrite Hadd. destruct (call_i c' =? call_j c)%Z eqn:E; [|ring].
    apply Z.eqb_eq in E. apply (proj1 (list.Forall_forall _ _) Hall) in Hc' as [Hi' _]. lia.
Qed.

Lemma UpSample_fold (calls : list UpSampleCall) : forall X,
  length X = len -> Forall transfers calls ->
  forall k,
    at_ (fold_left (UpSample_func store) calls X) k
    = at_ X k
      + total calls (fun c => if (k =? call_i c)%Z then at_ X (call_j c) * call_w c else 0).
Proof.
  induction calls as [|c calls IH]; intros X Hlen Hall k; simpl; [ring|].
  apply list.Forall_cons in Hall as [[Hi Hj] Hall].
  assert (Hadd : forall k', at_ (UpSample_func store X c) k'
                   = at_ X k' + (if (k' =? call_i c)%Z then at_ X (call_j c) * call_w c
                                 else 0)).
  { intros k'. unfold UpSample_func. fold (call_j c). fold (call_i c).
    rewrite at_add_at by lia. unfold call_w. destruct (k' =? call_i c)%Z; ring. }
  rewrite IH; [|unfold UpSample_func; now rewrite length_add_at|exact Hall].
  rewrite Hadd.
  rewrite (total_ext calls _
             (fun c' => if (k =? call_i c')%Z then at_ X (call_j c') * call_w c' else 0)).
  - ring.
  - intros c' Hc'. destruct (k =? call_i c')%Z; [|reflexivity].
    rewrite Hadd. destruct (call_j c' =? call_i c)%Z eqn:E; [|ring].
    apply Z.eqb_eq in E. apply (proj1 (list.Forall_forall _ _) Hall) in Hc' as [_ Hj']. lia.
Qed.

(** Both inner products are the same sum over the calls. *)
Lemma folds_adjoint (calls : list UpSampleCall) (C X : Vector) (nclo nflo nfhi : nat) :
  clo = Z.of_nat nclo -> chi = Z.of_nat nflo -> flo = Z.of_nat nflo -> fhi = Z.of_nat nfhi ->
  length C = len -> length X = len -> Forall transfers calls ->
  let c := on_range nflo nfhi C in
  let x := on_range nclo nflo X in
  inner nclo nflo (fold_left (DownSample_func store) calls c) x
  = inner nflo nfhi c (fold_left (UpSample_func store) calls x).
Proof.
  intros Eclo Echi Eflo Efhi HC HX Hall c x.
  assert (Hc : length c = len) by (unfold c; now rewrite length_on_range).
  assert (Hx : length x = len) by (unfold x; now rewrite length_on_range).
  transitivity (total calls (fun cl => at_ c (call_i cl) * call_w cl * at_ x (call_j cl))).
  - rewrite inner_total.
    rewrite (total_ext _ _ (fun k => total calls (fun cl =>
               if (k =? call_j cl)%Z
               then at_ c (call_i cl) * call_w cl * at_ x k else 0))).
    + rewrite total_swap. apply total_ext. intros cl Hcl.
      apply (proj1 (list.Forall_forall _ _) Hall) in Hcl as [_ Hj].
      rewrite (total_delta (range nclo nflo) (call_j cl)
                 (fun k => at_ c (call_i cl) * call_w cl * at_ x k)).
      * reflexivity.
      * apply NoDup_range.
      * apply elem_of_range. lia.
    + intros k Hk. apply elem_of_range in Hk.
      rewrite (DownSample_fold calls c Hc Hall k). unfold c at 1. rewrite at_on_range.
      replace ((Z.of_nat nflo <=? k) && (k <? Z.of_nat nfhi))%Z with false.
      2:{ symmetry. apply andb_false_iff. left. apply Z.leb_gt. lia. }
      rewrite Qcplus_0_l, total_scale. apply total_ext. intros cl _.
      destruct (k =? call_j cl)%Z; ring.
  - rewrite inner_total.
    rewrite (total_ext _ _ (fun k => total calls (fun cl =>
               if (k =? call_i cl)%Z
               then at_ c k * call_w cl * at_ x (call_j cl) else 0))).
    + rewrite total_swap. apply total_ext. intros cl Hcl.
      apply (proj1 (list.Forall_forall _ _) Hall) in Hcl as [Hi _].
      rewrite (total_delta (range nflo nfhi) (call_i cl)
                 (fun k => at_ c k * call_w cl * at_ x (call_j cl))).
      * reflexivity.
      * apply NoDup_range.
      * apply elem_of_range. lia.
    + intros k Hk. apply elem_of_range in Hk.
      rewrite (UpSample_fold calls x Hx Hall k). unfold x at 1. rewrite at_on_range.
      replace ((Z.of_nat nclo <=? k) && (k <? Z.of_nat nflo))%Z with false.
      2:{ symmetry. apply andb_false_iff. right. apply Z.ltb_ge. lia. }
      rewrite Qcplus_0_l, Qcmult_comm, total_scale. apply total_ext. intros cl _.
      destruct (k =? call_i cl)%Z; ring.
Qed.
End Folds.

(** ** The calls made on a sorted tree *)

Lemma length_path_of (d : nat) : forall ox oy oz, length (path_of d ox oy oz) = d.
Proof.
  induction d as [|d IH]; intros ox oy oz; simpl; [reflexivity|].
  rewrite length_app, IH. simpl. lia.
Qed.

Lemma getNeighbors3_Some root p i j k q :
  getNeighbors3 root p i j k = Some q -> is_node root q = true /\ length q = length p.
Proof.
  unfold getNeighbors3, node_at, depth. destruct (offset p) as [[ox oy] oz].
  destruct (_ && _); [|discriminate].
  destruct (is_node root (path_of _ _ _ _)) eqn:E; [|discriminate].
  intros [= <-]. split; [exact E|apply length_path_of].
Qed.

Lemma parent_length (p pp : NodePtr) : parent p = Some pp -> length p = S (length pp).
Proof.
  destruct p as [|c p]; [discriminate|]. intros H.
  assert (Hpp : pp = removelast (c :: p)) by (unfold parent in H; congruence).
  rewrite Hpp, WriteBackProperties.removelast_take, length_take. simpl length. lia.
Qed.

Lemma elem_of_UpSampleGeneric_node root store sNodes boundaryType_ depth i c :
  In c (UpSampleGeneric_node root store sNodes boundaryType_ depth i) ->
  us_i c = i /\
  exists p pp a b e, treeNodes sNodes !! i = Some p /\ parent p = Some pp /\
                     getNeighbors3 root pp a b e = Some (us_node c).
Proof.
  unfold UpSampleGeneric_node.
  destruct (treeNodes sNodes !! i) as [p|] eqn:Ep; [|intros []].
  destruct (snd (depthAndOffset p)) as [[ox oy] oz].
  destruct (parent p) as [pp|] eqn:Epp; [|intros []].
  intros Hc. apply in_flat_map in Hc as (ii & _ & Hc).
  apply in_flat_map in Hc as (jj & _ & Hc). apply in_flat_map in Hc as (kk & _ & Hc).
  destruct (getNeighbors3 root pp _ _ _) as [node|] eqn:E; [|destruct Hc].
  destruct (_ =? _)%Z; [destruct Hc|]. destruct Hc as [<-|[]].
  split; [reflexivity|]. exists p, pp. do 3 eexists.
  split; [reflexivity|]. split; [exact Epp|exact E].
Qed.

Section SortedCalls.
Variable root : OctNode.
Variables store0 st : NodeStore.
Variable boundaryType_ : BoundaryType.
Variable depth : nat.

Local Abbreviation sNodes := (fst (set root store0)).

Hypothesis index_consistent :
  forall k p, treeNodes sNodes !! k = Some p -> nodeIndex (st p) = Z.of_nat k.
Hypothesis depth_in_tree : (1 <= depth <= maxDepth root)%nat.

Lemma calls_transfer :
  Forall (transfers st (Z.of_nat (nodeCount_at sNodes depth))
            (Z.of_nat (nodeCount_at sNodes (S depth)))
            (Z.of_nat (nodeCount_at sNodes (depth - 1)))
            (Z.of_nat (nodeCount_at sNodes depth)))
    (UpSampleGeneric_calls root st sNodes boundaryType_ depth).
Proof.
  apply list.Forall_forall. intros c Hc. apply list_elem_of_In in Hc.
  unfold UpSampleGeneric_calls in Hc. apply in_flat_map in Hc as (i & Hi & Hc).
  apply elem_of_UpSampleGeneric_node in Hc as (Hci & p & pp & a & b & e & Hp & Hpp & Hq).
  unfold depth_range in Hi. apply in_seq in Hi.
  destruct (sorted_lookup root store0 i p Hp) as (Hn & _ & Hrange).
  pose proof (is_node_depth p root Hn) as Hdp.
  (* the node of the call has the depth of the loop *)
  assert (Hdepth : MultiGridOctreeDataInl.depth p = depth).
  { unfold MultiGridOctreeDataInl.depth in *.
    destruct (lt_eq_lt_dec (length p) depth) as [[Hlt|Heq]|Hgt]; [|exact Heq|].
    - pose proof (nodeCount_at_mono root store0 (S (length p)) depth ltac:(lia)). lia.
    - pose proof (nodeCount_at_mono root store0 (S depth) (length p) ltac:(lia)). lia. }
  apply getNeighbors3_Some in Hq as [Hnq Hlq].
  apply parent_length in Hpp. unfold MultiGridOctreeDataInl.depth in Hdepth.
  destruct (sorted_complete root store0 (us_node c) Hnq) as [kq Hkq].
  destruct (sorted_lookup root store0 kq (us_node c) Hkq) as (_ & _ & Hrq).
  unfold transfers, call_i, call_j. rewrite (index_consistent _ _ Hkq), Hci.
  unfold MultiGridOctreeDataInl.depth in Hrq. rewrite Hlq in Hrq.
  replace (length pp) with (depth - 1)%nat in Hrq by lia.
  replace (S (depth - 1)) with depth in Hrq by lia.
  lia.
Qed.
End SortedCalls.

(** ** C4 *)

(** The sentence as written fails at a depth that [UpSample] skips: on the
    seventeen-node tree with the free boundary type and [depth = 2],
    [DownSample] carries the constraints of the eight nodes of depth 2 to
    depth 1 and [UpSample] does nothing; with ones everywhere the two inner
    products are [343/64] and [0]. *)
Lemma updown_adjoint_as_written_fails :
  ~ updown_adjoint_as_written Samples.tree2 Samples.store2 Samples.sorted2
      BoundaryTypeNone 2 (repeat 1 17) (repeat 1 17).
Proof.
  unfold updown_adjoint_as_written. cbv zeta. intros H.
  apply (f_equal this) in H. vm_compute in H. discriminate H.
Qed.

(** C4, amended.  On a sorted tree, for every depth step that [UpSample]
    does not skip (it skips depth 0, and with the free boundary type the
    depths up to 2, at which [DownSample] still runs), the two operators
    are transposes: for [c] on the nodes of depth [depth] and [x] on the
    nodes of depth [depth - 1],
    [<DownSample(c), x> = <c, UpSample(x)>]. *)
Theorem updown_adjoint_where_UpSample_runs (root : OctNode) (store0 st : NodeStore)
    (boundaryType_ : BoundaryType) (depth : nat) (C X : Vector) :
  let sNodes := fst (set root store0) in
  let coarse_lo := nodeCount_at sNodes (depth - 1) in
  let fine_lo := nodeCount_at sNodes depth in
  let fine_hi := nodeCount_at sNodes (S depth) in
  let c := on_range fine_lo fine_hi C in
  let x := on_range coarse_lo fine_lo X in
  (forall k p, treeNodes sNodes !! k = Some p -> nodeIndex (st p) = Z.of_nat k) ->
  (1 <= depth <= maxDepth root)%nat ->
  UpSample_skips boundaryType_ depth = false ->
  length C = length (treeNodes sNodes) ->
  length X = length (treeNodes sNodes) ->
  inner coarse_lo fine_lo (DownSample root st sNodes boundaryType_ depth c) x
  = inner fine_lo fine_hi c (UpSample root st sNodes boundaryType_ depth x).
Proof.
  intros sNodes coarse_lo fine_lo fine_hi c x Hinv Hdepth Hruns HC HX.
  unfold DownSample, UpSample. rewrite Hruns.
  destruct (depth =? 0)%nat eqn:E0; [apply Nat.eqb_eq in E0; lia|].
  unfold UpSampleGeneric.
  apply (folds_adjoint st (Z.of_nat fine_lo) (Z.of_nat fine_hi) (Z.of_nat coarse_lo)
           (Z.of_nat fine_lo) (length (treeNodes sNodes))); try reflexivity;
    try assumption.
  - unfold fine_hi, sNodes. rewrite sorted_length.
    assert (Hmax : sMaxDepth (fst (set root store0)) = S (maxDepth root))
      by (rewrite set_sorted; reflexivity).
    rewrite Hmax.
    pose proof (nodeCount_at_mono root store0 (S depth) (S (maxDepth root)) ltac:(lia)).
    lia.
  - now apply calls_transfer.
Qed.

(** The seventeen-node tree under Neumann, step from depth 1 to depth 2:
    both inner products are 8. *)
Lemma updown_adjoint_where_UpSample_runs_witness :
  inner 1 9 (DownSample Samples.tree2 Samples.store2 Samples.sorted2 BoundaryTypeNeumann 2
               (on_range 9 17 (repeat 1 17))) (on_range 1 9 (repeat 1 17))
  = inner 9 17 (on_range 9 17 (repeat 1 17))
      (UpSample Samples.tree2 Samples.store2 Samples.sorted2 BoundaryTypeNeumann 2
         (on_range 1 9 (repeat 1 17))).
Proof.
  apply (updown_adjoint_where_UpSample_runs Samples.tree2 Samples.fresh_store
           Samples.store2 BoundaryTypeNeumann 2 (repeat 1 17) (repeat 1 17)).
  - intros k p Hk.
    destruct (sorted_lookup Samples.tree2 Samples.fresh_store k p Hk) as (_ & Hst & _).
    unfold Samples.store2. rewrite Hst. reflexivity.
  - simpl. lia.
  - reflexivity.
  - reflexivity.
  - reflexivity.
Defined.

End UpDownSampleProperties.

(* ===================================================================== *)
(** * Linear arithmetic over the canonical rationals *)
(* ===================================================================== *)

Module QcArith.
Local Open Scope Qc_scope.

Lemma Qc_eq_Qeq (x y : Qc) : x = y <-> (this x == this y)%Q.
Proof. split; [intros ->; reflexivity|apply Qc_is_canon]. Qed.

Lemma Qcinv_const (n d : positive) : / Q2Qc (Zpos n # d) = Q2Qc (Zpos d # n).
Proof.
  apply Qc_is_canon. unfold Qcinv, Q2Qc. cbn [this]. rewrite !Qred_correct. reflexivity.
Qed.

(** Statements over [Qc] are turned into statements over [Q], on which
    [lra] decides linear arithmetic. *)
Ltac qc_to_q :=
  unfold Qcdiv in *; rewrite ?Qcinv_const in *;
  repeat match goal with
  | H : @eq Qc _ _ |- _ => apply Qc_eq_Qeq in H
  | H : ~ @eq Qc _ _ |- _ => rewrite Qc_eq_Qeq in H
  | |- @eq Qc _ _ => apply Qc_is_canon
  | |- ~ @eq Qc _ _ => rewrite Qc_eq_Qeq
  end;
  unfold Qcle, Qclt, Qcminus, Qcopp, Qcplus, Qcmult, Q2Qc in *;
  cbn [this] in *;
  repeat (setoid_rewrite Qred_correct);
  repeat match goal with
  | H : _ |- _ => progress (setoid_rewrite Qred_correct in H)
  end.

Ltac qc_lra := qc_to_q; lra.
Ltac qc_ring := qc_to_q; ring.

Lemma Qcle_total (x y : Qc) : x <= y \/ y < x.
Proof.
  destruct (Qclt_le_dec y x) as [H|H]; [right|left]; exact H.
Qed.

(** [lo <= x / s <= hi] from the bounds on [x] multiplied out. *)
Lemma div_between (x s lo hi : Qc) :
  0 < s -> lo * s <= x -> x <= hi * s -> lo <= x / s /\ x / s <= hi.
Proof.
  intros Hs Hlo Hhi.
  assert (Hne : s <> 0) by (apply Qclt_not_eq in Hs; congruence).
  assert (Hx : x = x / s * s) by (field; exact Hne).
  split.
  - apply (Qcmult_lt_0_le_reg_r _ _ s Hs). now rewrite <- Hx.
  - apply (Qcmult_lt_0_le_reg_r _ _ s Hs). now rewrite <- Hx.
Qed.

End QcArith.

(* ===================================================================== *)
(** * Properties of Src/Array.inl: release, pointer arithmetic and the
      guarded memory functions *)
(* ===================================================================== *)

Module ArrayMemProperties.
Import ArrayInl ArrayMemInl.

Lemma limit_below (m s : Z) :
  0 < m -> m <= LLONG_MAX -> 0 < s -> size_mul (to_size_t m) s <= m * s.
Proof.
  intros Hm Hmax Hs. unfold size_mul, to_size_t, LLONG_MAX in *.
  rewrite (Z.mod_small m) by lia.
  apply Z.mod_le; [nia|lia].
Qed.

Lemma address_of_first_Done (a : Array) (addr : Z) :
  address_of_first a = Done addr -> addr = data a /\ min a <= 0 < max a.
Proof.
  unfold address_of_first, index, _assertBounds.
  destruct (0 <? min a) eqn:E1; [discriminate|].
  destruct (0 >=? max a) eqn:E2; [discriminate|].
  simpl. intros [= <-]. apply Z.ltb_ge in E1.
  rewrite Z.geb_leb in E2. apply Z.leb_gt in E2. lia.
Qed.

Lemma address_of_first_outside (a : Array) :
  ~ (min a <= 0 < max a) ->
  address_of_first a = Terminated (Index (IndexOutOfBounds (min a) 0 (max a))).
Proof.
  intros H. unfold address_of_first.
  rewrite ArrayProperties.index_outside by exact H. reflexivity.
Qed.

(** The shape shared by the guarded functions: a size test against
    [maximum() * sizeof(C)], then [&a[0]]. *)
Lemma guarded_Done (a : Array) (sizeofC size : Z) (mk : Z -> Z -> mem_diagnostic)
    (t : transfer) (n : Z) :
  0 < sizeofC -> fits_long_long (max a) = true ->
  (let limit := size_mul (to_size_t (maximum a)) sizeofC in
   if size >? limit then Terminated (mk size limit)
   else match address_of_first a with
        | Terminated d => Terminated d
        | Done addr => Done (mkTransfer addr n)
        end) = Done t ->
  t = mkTransfer (data a) n /\ min a <= 0 < max a /\ size <= max a * sizeofC.
Proof.
  intros Hs Hfit. cbv zeta. unfold maximum.
  destruct (size >? size_mul (to_size_t (max a)) sizeofC) eqn:E; [discriminate|].
  destruct (address_of_first a) as [addr|d] eqn:Ea; [|discriminate].
  intros [= <-]. apply address_of_first_Done in Ea as [-> Hwin].
  split; [reflexivity|]. split; [exact Hwin|].
  unfold fits_long_long in Hfit. apply andb_true_iff in Hfit as [_ Hmax].
  apply Z.leb_le in Hmax.
  pose proof (limit_below (max a) sizeofC ltac:(lia) Hmax Hs).
  rewrite Z.gtb_ltb in E. apply Z.ltb_ge in E. lia.
Qed.

(** ** The guarded memory functions *)

(** Whenever one of [memcpy] (from raw memory, to raw memory), [memset],
    [fread] and [fwrite] reaches the C library, index 0 is inside the
    window of the array and the bytes handed over start at [data] and end
    at or before the end of element [maximum() - 1]: nothing outside the
    recorded bounds is read or written.  For [fread] and [fwrite] the
    product [count * eSize] is assumed not to wrap. *)
Theorem guarded_transfers_stay_in_window (a : Array) (sizeofC size eSize count : Z)
    (t : transfer) :
  0 < sizeofC ->
  fits_long_long (max a) = true ->
  0 <= count * eSize <= SIZE_MAX ->
  (memcpy_from_raw a sizeofC size = Done t \/
   memcpy_to_raw a sizeofC size = Done t \/
   memset a sizeofC size = Done t \/
   (fread a sizeofC eSize count = Done t /\ size = count * eSize) \/
   (fwrite a sizeofC eSize count = Done t /\ size = count * eSize)) ->
  t = mkTransfer (data a) size /\
  minimum a <= 0 < maximum a /\
  first_address a * sizeofC <= t_start t * sizeofC /\
  t_start t * sizeofC + t_bytes t <= end_address a * sizeofC.
Proof.
  intros Hs Hfit Hprod H.
  assert (Hmain : t = mkTransfer (data a) size /\ min a <= 0 < max a /\
                  size <= max a * sizeofC).
  { assert (Hsmall : size_mul count eSize = count * eSize).
    { unfold size_mul, SIZE_MAX in *. apply Z.mod_small. lia. }
    destruct H as [H|[H|[H|[[H ->]|[H ->]]]]].
    - exact (guarded_Done a sizeofC size CopyExceedsDestination t size Hs Hfit H).
    - exact (guarded_Done a sizeofC size CopyExceedsSource t size Hs Hfit H).
    - exact (guarded_Done a sizeofC size SetExceedsDestination t size Hs Hfit H).
    - unfold fread in H. rewrite Hsmall in H.
      exact (guarded_Done a sizeofC _ ReadExceedsDestination t _ Hs Hfit H).
    - unfold fwrite in H. rewrite Hsmall in H.
      exact (guarded_Done a sizeofC _ WriteExceedsSource t _ Hs Hfit H). }
  destruct Hmain as (-> & Hwin & Hsize).
  unfold minimum, maximum, first_address, end_address. simpl.
  split; [reflexivity|]. split; [exact Hwin|]. split; nia.
Qed.

(** Ten [int]s at address 1000, advanced by three: [memset] of 28 bytes is
    let through and ends with the last element. *)
Lemma guarded_transfers_stay_in_window_witness :
  let a := mkArray 1003 (-3) 7 in
  memset a 4 28 = Done (mkTransfer 1003 28) /\
  first_address a * 4 <= 1003 * 4 /\ 1003 * 4 + 28 <= end_address a * 4.
Proof.
  intros a.
  assert (Hrun : memset a 4 28 = Done (mkTransfer 1003 28)) by reflexivity.
  split; [exact Hrun|].
  destruct (guarded_transfers_stay_in_window a 4 28 0 0 (mkTransfer 1003 28))
    as (_ & _ & Hlo & Hhi).
  - lia.
  - reflexivity.
  - unfold SIZE_MAX. simpl. lia.
  - right. right. left. exact Hrun.
  - split; [exact Hlo|exact Hhi].
Defined.

(** The copy from one [Array] to another passes both guards: it reaches
    the library only if the size fits the source and the destination and
    index 0 is inside both windows. *)
Theorem memcpy_arrays_checks_both (destination source : Array)
    (sizeofC sizeofD size from : Z) (t : transfer) :
  0 < sizeofC -> 0 < sizeofD ->
  fits_long_long (max destination) = true ->
  fits_long_long (max source) = true ->
  memcpy_arrays destination source sizeofC sizeofD size = Done (from, t) ->
  from = data source /\ t = mkTransfer (data destination) size /\
  minimum source <= 0 < maximum source /\
  minimum destination <= 0 < maximum destination /\
  size <= maximum source * sizeofD /\
  size <= maximum destination * sizeofC.
Proof.
  intros HC HD Hfd Hfs. unfold memcpy_arrays.
  destruct (size >? size_mul (to_size_t (maximum source)) sizeofD) eqn:E; [discriminate|].
  destruct (address_of_first source) as [addr|d] eqn:Ea; [|discriminate].
  destruct (memcpy_from_raw destination sizeofC size) as [t'|d] eqn:Em; [|discriminate].
  intros [= <- <-].
  destruct (guarded_Done destination sizeofC size CopyExceedsDestination t' size HC Hfd Em)
    as (-> & Hwd & Hsd).
  destruct (guarded_Done source sizeofD size CopyExceedsSource
              (mkTransfer addr size) size HD Hfs) as (Ht & Hws & Hss).
  { cbv zeta. rewrite E, Ea. reflexivity. }
  injection Ht as ->. unfold minimum, maximum. repeat split; lia.
Qed.

(** Eight [char]s copied from an array of ten [char]s into two [int]s. *)
Lemma memcpy_arrays_checks_both_witness :
  memcpy_arrays (mkArray 500 0 2) (mkArray 1000 0 10) 4 1 8
  = Done (1000, mkTransfer 500 8) /\
  8 <= 10 * 1 /\ 8 <= 2 * 4.
Proof.
  assert (Hrun : memcpy_arrays (mkArray 500 0 2) (mkArray 1000 0 10) 4 1 8
                 = Done (1000, mkTransfer 500 8)) by reflexivity.
  split; [exact Hrun|].
  destruct (memcpy_arrays_checks_both (mkArray 500 0 2) (mkArray 1000 0 10) 4 1 8
              1000 (mkTransfer 500 8)) as (_ & _ & _ & _ & Hs & Hd);
    [lia|lia|reflexivity|reflexivity|exact Hrun|].
  split; [exact Hs|exact Hd].
Defined.

(** ** Released and empty arrays *)

Lemma guarded_outside (a : Array) (sizeofC size n : Z) (mk : Z -> Z -> mem_diagnostic) :
  ~ (min a <= 0 < max a) ->
  forall t,
    (let limit := size_mul (to_size_t (maximum a)) sizeofC in
     if size >? limit then Terminated (mk size limit)
     else match address_of_first a with
          | Terminated d => Terminated d
          | Done addr => Done (mkTransfer addr n)
          end) <> Done t.
Proof.
  intros Hout t. cbv zeta. destruct (size >? _); [discriminate|].
  rewrite address_of_first_outside by exact Hout. discriminate.
Qed.

(** An array whose window does not hold index 0 is refused by every
    guarded memory function, whatever the size, a size of zero bytes
    included: the size test may pass, [&a[0]] then terminates the process.
    This is the state of a default-constructed array and of any array
    after [Free()] or [Delete()], for which every access [a[idx]] is
    refused as well. *)
Theorem no_transfer_without_index_zero (a : Array) (sizeofC size eSize count : Z) :
  ~ (minimum a <= 0 < maximum a) ->
  (forall t, memcpy_from_raw a sizeofC size <> Done t) /\
  (forall t, memcpy_to_raw a sizeofC size <> Done t) /\
  (forall t, memset a sizeofC size <> Done t) /\
  (forall t, fread a sizeofC eSize count <> Done t) /\
  (forall t, fwrite a sizeofC eSize count <> Done t) /\
  memset a sizeofC 0 = Terminated (Index (IndexOutOfBounds (minimum a) 0 (maximum a))) /\
  (forall a0 idx,
     ~ (minimum (Free a0) <= 0 < maximum (Free a0)) /\
     ~ (minimum (Delete a0) <= 0 < maximum (Delete a0)) /\
     index (Free a0) idx = Exits (IndexOutOfBounds 0 idx 0)).
Proof.
  unfold minimum, maximum. intros Hout.
  split; [apply (guarded_outside a sizeofC size size CopyExceedsDestination Hout)|].
  split; [apply (guarded_outside a sizeofC size size CopyExceedsSource Hout)|].
  split; [apply (guarded_outside a sizeofC size size SetExceedsDestination Hout)|].
  split; [apply (guarded_outside a sizeofC _ _ ReadExceedsDestination Hout)|].
  split; [apply (guarded_outside a sizeofC _ _ WriteExceedsSource Hout)|].
  split.
  - unfold memset. cbv zeta.
    assert (Hlim : 0 <= size_mul (to_size_t (maximum a)) sizeofC).
    { unfold size_mul. apply Z.mod_pos_bound. lia. }
    destruct (0 >? size_mul (to_size_t (maximum a)) sizeofC) eqn:E.
    { rewrite Z.gtb_ltb in E. apply Z.ltb_lt in E. lia. }
    now rewrite address_of_first_outside by exact Hout.
  - intros a0 idx. simpl. split; [lia|]. split; [lia|].
    apply ArrayProperties.index_outside. simpl. lia.
Qed.

(** Ten elements, released: a [memset] of no bytes is refused. *)
Lemma no_transfer_without_index_zero_witness :
  memset (Free (New 1000 10)) 4 0 = Terminated (Index (IndexOutOfBounds 0 0 0)).
Proof.
  apply (no_transfer_without_index_zero (Free (New 1000 10)) 4 0 0 0).
  simpl. lia.
Defined.

(** ** [qsort] *)

(** [qsort] reaches the library only for the element size of the array and
    a window that starts at or below index 0.  When [maximum()] is not
    negative the elements sorted then lie inside the recorded bounds.
    When [maximum()] is negative (the array has been advanced past its
    end), the conversion to [size_t] makes the test
    [maximum() < numElements] fail for every [numElements] up to
    [2^64 + maximum()]: the sort is let through although no index is
    inside the window. *)
Theorem qsort_guard (base : Array) (sizeofC numElements elementSize : Z) :
  is_size_t numElements = true ->
  fits_long_long (max base) = true ->
  (forall t, qsort base sizeofC numElements elementSize = Done t ->
     t = mkTransfer (data base) (numElements * elementSize) /\
     sizeofC = elementSize /\ minimum base <= 0 /\
     (0 <= maximum base ->
        first_address base <= t_start t /\
        t_start t + numElements <= end_address base)) /\
  (sizeofC = elementSize -> minimum base <= 0 -> maximum base < 0 ->
   numElements <= 2 ^ 64 + maximum base ->
   qsort base sizeofC numElements elementSize
   = Done (mkTransfer (data base) (numElements * elementSize))).
Proof.
  intros Hn Hfit. unfold is_size_t, SIZE_MAX in Hn.
  apply andb_true_iff in Hn as [Hn0 Hn1]. apply Z.leb_le in Hn0, Hn1.
  unfold fits_long_long, LLONG_MIN, LLONG_MAX in Hfit.
  apply andb_true_iff in Hfit as [Hm0 Hm1]. apply Z.leb_le in Hm0, Hm1.
  unfold qsort, minimum, maximum, pointer, to_size_t, first_address, end_address.
  split.
  - intros t. destruct (sizeofC =? elementSize) eqn:Es; [|discriminate]. simpl.
    destruct (min base >? 0) eqn:E1; [discriminate|]. simpl.
    destruct (max base mod 2 ^ 64 <? numElements) eqn:E2; [discriminate|].
    intros [= <-]. apply Z.eqb_eq in Es. rewrite Z.gtb_ltb in E1.
    apply Z.ltb_ge in E1, E2. simpl.
    split; [reflexivity|]. split; [exact Es|]. split; [exact E1|].
    intros Hmax. rewrite Z.mod_small in E2 by lia. lia.
  - intros Hs Hmin Hmax Hle.
    rewrite (proj2 (Z.eqb_eq _ _) Hs). simpl.
    destruct (min base >? 0) eqn:E1.
    { rewrite Z.gtb_ltb in E1. apply Z.ltb_lt in E1. lia. }
    simpl.
    replace (max base mod 2 ^ 64) with (2 ^ 64 + max base).
    2:{ symmetry. rewrite <- (Z.mod_small (2 ^ 64 + max base) (2 ^ 64)) by lia.
        rewrite <- (Z.mod_add (max base) 1 (2 ^ 64)) by lia. f_equal. lia. }
    destruct (2 ^ 64 + max base <? numElements) eqn:E2; [|reflexivity].
    apply Z.ltb_lt in E2. lia.
Qed.

(** Ten elements at address 1000.  As allocated, a sort of ten elements is
    let through and one of eleven refused; advanced by twenty, the window
    is [-20, -10) and a sort of five elements at address 1020 is let
    through. *)
Lemma qsort_guard_witness :
  qsort (New 1000 10) 4 10 4 = Done (mkTransfer 1000 40) /\
  qsort (New 1000 10) 4 11 4 = Terminated (AccessOutOfBounds 0 10 11) /\
  plus (New 1000 10) 20 = Some (mkArray 1020 (-20) (-10)) /\
  qsort (mkArray 1020 (-20) (-10)) 4 5 4 = Done (mkTransfer 1020 20).
Proof.
  split; [reflexivity|]. split; [reflexivity|]. split; [reflexivity|].
  apply (qsort_guard (mkArray 1020 (-20) (-10)) 4 5 4); simpl; try reflexivity; lia.
Defined.

(** ** Pointer arithmetic *)

(** Moving the window forth and back: for an array whose bounds are
    [long long] values, [(a + n) - n] is [a] again, the pointer difference
    [(a + n) - a] is [n], and [--(++a)] is [a]. *)
Theorem shift_round_trip (a a1 : Array) (n : Z) :
  fits_long_long (min a) = true -> fits_long_long (max a) = true ->
  fits_long_long (- n) = true ->
  plus a n = Some a1 ->
  minus a1 n = Some a /\ minus_assign a1 n = Some a /\ difference a1 a = n /\
  (n = 1 -> incr a = Some a1 /\ decr a1 = Some a).
Proof.
  intros Hmin Hmax Hn Hplus. unfold plus in Hplus.
  destruct (fits_long_long (min a - n) && fits_long_long (max a - n)) eqn:E;
    [|discriminate].
  injection Hplus as <-.
  assert (Hback : plus (mkArray (data a + n) (min a - n) (max a - n)) (- n) = Some a).
  { unfold plus. simpl.
    replace (min a - n - - n) with (min a) by lia.
    replace (max a - n - - n) with (max a) by lia.
    replace (data a + n + - n) with (data a) by lia.
    rewrite Hmin, Hmax. simpl. destruct a; reflexivity. }
  split; [|split; [|split]].
  - unfold minus. rewrite Hn. exact Hback.
  - unfold minus_assign, plus_assign. rewrite Hn. exact Hback.
  - unfold difference. simpl. lia.
  - intros ->. split.
    + unfold incr, plus_assign, plus. rewrite E. reflexivity.
    + unfold decr, minus_assign, plus_assign. rewrite Hn. exact Hback.
Qed.

Lemma shift_round_trip_witness :
  minus (mkArray 1003 (-3) 7) 3 = Some (New 1000 10) /\
  difference (mkArray 1003 (-3) 7) (New 1000 10) = 3.
Proof.
  destruct (shift_round_trip (New 1000 10) (mkArray 1003 (-3) 7) 3)
    as (Hm & _ & Hd & _); try reflexivity.
  split; [exact Hm|exact Hd].
Defined.

End ArrayMemProperties.

(* ===================================================================== *)
(** * Further properties of Src/Vector.inl and Src/SparseMatrix.inl *)
(* ===================================================================== *)

Module SparseMoreProperties.
Import SparseMatrixInl VectorInl Notions MoreNotions.
Import MultiplyProperties UpDownSampleProperties.
Local Open Scope Qc_scope.

Lemma Qc_of_Z_nonzero (z : Z) : z <> 0%Z -> Q2Qc (inject_Z z) <> 0.
Proof.
  intros Hz H. apply Q2Qc_eq_iff in H. unfold Qeq in H. simpl in H. lia.
Qed.

(** ** Sums over the indices *)

Lemma indices_range (n : nat) : indices n = range 0 n.
Proof. unfold indices, range. now rewrite Nat.sub_0_r. Qed.

Lemma elem_of_indices (n : nat) (k : Z) : k ∈ indices n <-> (0 <= k < Z.of_nat n)%Z.
Proof. rewrite indices_range, elem_of_range. simpl. lia. Qed.

Lemma NoDup_indices (n : nat) : NoDup (indices n).
Proof. rewrite indices_range. apply NoDup_range. Qed.

Lemma dot_total (dim : nat) (u w : Vector) :
  dot dim u w = total (indices dim) (fun k => at_ u k * at_ w k).
Proof.
  unfold dot. rewrite (fold_left_total (indices dim) (fun k => at_ u k * at_ w k)). ring.
Qed.

Lemma dot_comm (dim : nat) (u w : Vector) : dot dim u w = dot dim w u.
Proof.
  rewrite !dot_total. apply total_ext. intros k _. ring.
Qed.

Lemma length_pointwise (dim : nat) (f : Z -> Qc) : length (pointwise dim f) = dim.
Proof. unfold pointwise, indices. now rewrite !length_map, length_seq. Qed.

Lemma at_pointwise (dim : nat) (f : Z -> Qc) (k : Z) :
  (0 <= k < Z.of_nat dim)%Z -> at_ (pointwise dim f) k = f k.
Proof. apply at_map_indices. Qed.

(** ** The product as a sum over the stored entries *)

Lemma row_form_spec (dim : nat) (u w : Vector) (i : Z) (row : list MatrixEntry) :
  (0 <= i < Z.of_nat dim)%Z -> columns_below dim row ->
  total (indices dim) (fun k => row_term u i row k * at_ w k)
  = total row (entry_form u w i).
Proof.
  intros Hi. induction row as [|e row IH]; intros Hrow; simpl.
  - rewrite (total_ext _ _ (fun _ => 0)), total_zero; [reflexivity|]. intros; ring.
  - apply list.Forall_cons in Hrow as [He Hrow]. rewrite <- IH by exact Hrow.
    rewrite (total_ext _ _
               (fun k => ((if (k =? i)%Z then Value e * at_ u (N e) * at_ w k else 0)
                          + (if (k =? N e)%Z then Value e * at_ u i * at_ w k else 0))
                         + row_term u i row k * at_ w k)).
    2:{ intros k _. unfold entry_term. destruct (k =? i)%Z, (k =? N e)%Z; ring. }
    rewrite total_plus, total_plus.
    rewrite (total_delta _ i (fun k => Value e * at_ u (N e) * at_ w k))
      by (apply NoDup_indices || now apply elem_of_indices).
    rewrite (total_delta _ (N e) (fun k => Value e * at_ u i * at_ w k))
      by (apply NoDup_indices || now apply elem_of_indices).
    unfold entry_form. ring.
Qed.

Lemma rows_form_spec (dim : nat) (u w : Vector) (rows : list (list MatrixEntry)) :
  forall i, (0 <= i)%Z -> (i + Z.of_nat (length rows) <= Z.of_nat dim)%Z ->
  well_formed dim rows ->
  total (indices dim) (fun k => rows_term u i rows k * at_ w k) = rows_form u w i rows.
Proof.
  induction rows as [|row rows IH]; intros i Hi Hlen Hwf; simpl.
  - rewrite (total_ext _ _ (fun _ => 0)), total_zero; [reflexivity|]. intros; ring.
  - apply list.Forall_cons in Hwf as [Hrow Hwf].
    cbn [length] in Hlen. rewrite Nat2Z.inj_succ in Hlen.
    rewrite <- IH by (lia || exact Hwf).
    rewrite <- (row_form_spec dim u w i row) by (lia || exact Hrow).
    rewrite <- total_plus. apply total_ext. intros k _. ring.
Qed.

Lemma rows_form_comm (u w : Vector) (rows : list (list MatrixEntry)) :
  forall i, rows_form u w i rows = rows_form w u i rows.
Proof.
  induction rows as [|row rows IH]; intros i; simpl; [reflexivity|].
  rewrite IH. f_equal. apply total_ext. intros e _. unfold entry_form. ring.
Qed.

Lemma dot_times (A : SparseSymmetricMatrix) (u w : Vector) :
  well_formed (Rows A) A -> dot (Rows A) (times A u) w = rows_form u w 0 A.
Proof.
  intros Hwf. destruct (times_spec A u Hwf) as [_ Ha].
  rewrite dot_total, <- (rows_form_spec (Rows A)) by (unfold Rows; lia || exact Hwf).
  apply total_ext. intros k _. now rewrite Ha.
Qed.

(** ** [operator*] is symmetric *)

(** The operator applied by [operator*] is symmetric, whatever entries are
    stored: for a matrix whose column indices are in range,
    [<A u, w> = <u, A w>] for all vectors [u] and [w]. *)
Theorem times_is_symmetric (A : SparseSymmetricMatrix) (u w : Vector) :
  well_formed (Rows A) A ->
  dot (Rows A) (times A u) w = dot (Rows A) u (times A w).
Proof.
  intros Hwf. rewrite (dot_comm _ u), !dot_times by exact Hwf.
  apply rows_form_comm.
Qed.

(** A matrix with an entry off the diagonal stored in one row only:
    [<A u, w> = <u, A w> = 36] for [u = (1, 2, 3)] and [w = (3, 2, 1)]. *)
Lemma times_is_symmetric_witness :
  dot 3 (times Samples.tridiag3 Samples.v123) [Q2Qc (3 # 1); Q2Qc (2 # 1); 1]
  = dot 3 Samples.v123 (times Samples.tridiag3 [Q2Qc (3 # 1); Q2Qc (2 # 1); 1]).
Proof.
  apply (times_is_symmetric Samples.tridiag3).
  unfold well_formed, columns_below, Samples.tridiag3.
  repeat first [apply Forall_nil_2 | apply Forall_cons_2]; simpl; lia.
Defined.

(** ** [Multiply] *)

Section MultiplySpec.
Variable A : SparseSymmetricMatrix.
Variable threads : Z.
Variable thread_num : Z -> nat.
Hypothesis wf : well_formed (Rows A) A.
Hypothesis threads_pos : (1 <= threads)%Z.
Hypothesis scheduled :
  forall i, (0 <= i < Z.of_nat (Rows A))%Z -> (thread_num i < Z.to_nat threads)%nat.

Lemma length_Multiply (v out : Vector) (addDCTerm : bool) :
  length (Multiply A v out addDCTerm threads thread_num) = Dimensions out.
Proof. unfold Multiply, Dimensions, indices. now rewrite !length_map, length_seq. Qed.

Lemma Multiply_spec (v out : Vector) (addDCTerm : bool) (k : Z) :
  Dimensions v = Rows A -> Dimensions out = Rows A ->
  (0 <= k < Z.of_nat (Rows A))%Z ->
  at_ (Multiply A v out addDCTerm threads thread_num) k
  = (if addDCTerm
     then sum_of (Rows A) v / Q2Qc (inject_Z (Z.of_nat (Rows A)))
     else 0)
    + rows_term v 0 A k.
Proof.
  intros Hv Hout Hk. unfold Multiply, Dimensions in *. rewrite Hout.
  rewrite at_map_indices by exact Hk. rewrite combine_spec.
  rewrite (scratch_rows_spec addDCTerm v thread_num (Rows A)).
  - rewrite scratch_total_zeros. unfold sum_of.
    rewrite (fold_left_total (indices (Rows A)) (at_ v)).
    destruct addDCTerm; unfold Qcdiv; ring.
  - lia.
  - unfold Rows. lia.
  - exact wf.
  - assert (Hz : length (zeros (length v)) = Rows A)
      by (unfold zeros; rewrite repeat_length; exact Hv).
    apply Forall_repeat, Hz.
  - intros j Hj. rewrite repeat_length. apply scheduled. unfold Rows. lia.
Qed.

(** A product does not depend on what [out] held. *)
Lemma Multiply_out (v out out' : Vector) (addDCTerm : bool) :
  Dimensions out = Dimensions out' ->
  Multiply A v out addDCTerm threads thread_num
  = Multiply A v out' addDCTerm threads thread_num.
Proof. intros H. unfold Multiply. now rewrite H. Qed.

Lemma rows_term_linear (u v w : Vector) (c : Qc) (dim : nat) (k : Z)
    (rows : list (list MatrixEntry)) :
  (forall j, (0 <= j < Z.of_nat dim)%Z -> at_ u j = at_ v j + c * at_ w j) ->
  forall i, (0 <= i)%Z -> (i + Z.of_nat (length rows) <= Z.of_nat dim)%Z ->
  well_formed dim rows ->
  rows_term u i rows k = rows_term v i rows k + c * rows_term w i rows k.
Proof.
  intros Hu. induction rows as [|row rows IH]; intros i Hi Hlen Hwf; simpl; [ring|].
  apply list.Forall_cons in Hwf as [Hrow Hwf].
  cbn [length] in Hlen. rewrite Nat2Z.inj_succ in Hlen.
  rewrite IH by (lia || exact Hwf).
  assert (Hr : row_term u i row k = row_term v i row k + c * row_term w i row k).
  { clear IH. induction row as [|e row IHr]; simpl; [ring|].
    apply list.Forall_cons in Hrow as [He Hrow]. rewrite IHr by exact Hrow.
    unfold entry_term. rewrite (Hu (N e)) by exact He. rewrite (Hu i) by lia.
    destruct (k =? i)%Z, (k =? N e)%Z; ring. }
  rewrite Hr. ring.
Qed.

Lemma Multiply_linear (u v w out : Vector) (c : Qc) (addDCTerm : bool) (k : Z) :
  Dimensions u = Rows A -> Dimensions v = Rows A -> Dimensions w = Rows A ->
  Dimensions out = Rows A ->
  (forall j, (0 <= j < Z.of_nat (Rows A))%Z -> at_ u j = at_ v j + c * at_ w j) ->
  (0 <= k < Z.of_nat (Rows A))%Z ->
  at_ (Multiply A u out addDCTerm threads thread_num) k
  = at_ (Multiply A v out addDCTerm threads thread_num) k
    + c * at_ (Multiply A w out addDCTerm threads thread_num) k.
Proof.
  intros Hu Hv Hw Hout Hlin Hk. rewrite !Multiply_spec by assumption.
  rewrite (rows_term_linear u v w c (Rows A) k A Hlin) by (unfold Rows; lia || exact wf).
  destruct addDCTerm; [|ring].
  assert (Hs : sum_of (Rows A) u = sum_of (Rows A) v + c * sum_of (Rows A) w).
  { unfold sum_of. rewrite Qcmult_comm, total_scale, <- total_plus.
    apply total_ext. intros j Hj. apply elem_of_indices in Hj.
    rewrite (Hlin j Hj). ring. }
  rewrite Hs. field. apply Qc_of_Z_nonzero. lia.
Qed.

End MultiplySpec.

(** With [addDCTerm] set, [Multiply] adds to every component of the
    product the mean of the input vector: [out[k] = (A v)[k] + sum(v) / n],
    for every thread count and every assignment of the rows to the
    threads. *)
Theorem Multiply_adds_mean_of_input
    (A : SparseSymmetricMatrix) (v out : Vector) (threads : Z) (thread_num : Z -> nat)
    (k : Z) :
  well_formed (Rows A) A ->
  Dimensions v = Rows A ->
  Dimensions out = Rows A ->
  (1 <= threads)%Z ->
  (forall i, (0 <= i < Z.of_nat (Rows A))%Z -> (thread_num i < Z.to_nat threads)%nat) ->
  (0 <= k < Z.of_nat (Rows A))%Z ->
  Dimensions (Multiply A v out true threads thread_num) = Rows A /\
  at_ (Multiply A v out true threads thread_num) k
  = at_ (times A v) k + sum_of (Rows A) v / Q2Qc (inject_Z (Z.of_nat (Rows A))).
Proof.
  intros Hwf Hv Hout Ht Hs Hk. split.
  - unfold Dimensions. rewrite length_Multiply. exact Hout.
  - rewrite (Multiply_spec A threads thread_num Hwf Hs v out true k Hv Hout Hk).
    destruct (times_spec A v Hwf) as [_ Ha]. rewrite Ha. ring.
Qed.

(** The tridiagonal sample applied to [(1, 2, 3)] on two threads:
    [(4, 8, 8)] plus the mean 2. *)
Lemma Multiply_adds_mean_of_input_witness :
  Multiply Samples.tridiag3 Samples.v123 (zeros 3) true 2 (static_schedule 3 2)
  = [Q2Qc (6 # 1); Q2Qc (10 # 1); Q2Qc (10 # 1)] /\
  at_ (Multiply Samples.tridiag3 Samples.v123 (zeros 3) true 2 (static_schedule 3 2)) 1
  = at_ (times Samples.tridiag3 Samples.v123) 1 + sum_of 3 Samples.v123 / Q2Qc (3 # 1).
Proof.
  split.
  - vm_compute. repeat f_equal; apply Qc_is_canon; reflexivity.
  - apply (Multiply_adds_mean_of_input Samples.tridiag3 Samples.v123 (zeros 3) 2
             (static_schedule 3 2) 1).
    + unfold well_formed, columns_below, Samples.tridiag3.
      repeat first [apply Forall_nil_2 | apply Forall_cons_2]; simpl; lia.
    + reflexivity.
    + reflexivity.
    + lia.
    + intros i Hi. apply static_schedule_below; [lia|exact Hi].
    + simpl. lia.
Defined.

(** ** The residual kept by the conjugate-gradient loop *)

Section Residual.
Variable A : SparseSymmetricMatrix.
Variable b : Vector.
Variable threads : Z.
Variable addDCTerm : bool.
Variable thread_num : Z -> nat.
Variable x : Vector.
Hypothesis wf : well_formed (Rows A) A.
Hypothesis dim_b : Dimensions b = Rows A.
Hypothesis dim_x : Dimensions x = Rows A.
Hypothesis threads_pos : (1 <= threads)%Z.
Hypothesis scheduled :
  forall i, (0 <= i < Z.of_nat (Rows A))%Z -> (thread_num i < Z.to_nat threads)%nat.

Local Abbreviation after := (cg_after A b threads addDCTerm thread_num x).
Local Abbreviation res := (residual A b threads addDCTerm thread_num).
Local Abbreviation mult := (fun v out => Multiply A v out addDCTerm threads thread_num).

Lemma length_residual (y : Vector) : length (res y) = Rows A.
Proof. unfold residual. rewrite length_pointwise. exact dim_b. Qed.

(** The residual of [y + c d] is the residual of [y] less [c (A d)]. *)
Lemma residual_step (y d : Vector) (c : Qc) :
  length y = Rows A -> length d = Rows A ->
  res (pointwise (Dimensions b) (fun i => at_ y i + at_ d i * c))
  = pointwise (Dimensions b)
      (fun i => at_ (res y) i - at_ (mult d (zeros (Dimensions b))) i * c).
Proof.
  intros Hy Hd. unfold residual at 1. unfold pointwise at 1 3.
  apply map_ext_in. intros i Hi.
  apply list_elem_of_In, elem_of_indices in Hi. rewrite dim_b in Hi.
  unfold residual. rewrite at_pointwise by (rewrite dim_b; exact Hi).
  rewrite (Multiply_linear A threads thread_num wf scheduled
             (pointwise (Dimensions b) (fun i => at_ y i + at_ d i * c)) y d
             (zeros (Dimensions b)) c addDCTerm i).
  - ring.
  - unfold Dimensions. rewrite length_pointwise. exact dim_b.
  - exact Hy.
  - exact Hd.
  - unfold Dimensions, zeros. rewrite repeat_length. exact dim_b.
  - intros j Hj. rewrite at_pointwise by (rewrite dim_b; exact Hj). ring.
  - exact Hi.
Qed.

Lemma cg_invariant (k : nat) :
  (k <= 49)%nat ->
  let s := after k in
  length (cg_x s) = Rows A /\ length (cg_r s) = Rows A /\ length (cg_d s) = Rows A /\
  cg_r s = res (cg_x s) /\ cg_delta_new s = dot (Dimensions b) (cg_r s) (cg_r s).
Proof.
  induction k as [|k IH]; intros Hk; cbv zeta.
  - cbn [cg_after]. unfold cg_init. cbn [cg_x cg_r cg_d cg_delta_new].
    rewrite length_residual. repeat split; try reflexivity. exact dim_x.
  - destruct (IH ltac:(lia)) as (Hx & Hr & Hd & Hres & _).
    cbn [cg_after]. unfold cg_body.
    assert (Hmod : (Z.of_nat k mod 50 =? 49)%Z = false).
    { apply Z.eqb_neq. rewrite Z.mod_small by lia. lia. }
    rewrite Hmod. cbn [fst snd cg_x cg_r cg_d cg_delta_new].
    rewrite !length_pointwise. repeat split; try exact dim_b.
    rewrite residual_step by assumption. rewrite <- Hres. reflexivity.
Qed.

Lemma cg_restart :
  let s := after 49 in
  let alpha := cg_delta_new s / cg_dDotQ A b threads addDCTerm thread_num x 49 in
  let x1 := pointwise (Dimensions b) (fun i => at_ (cg_x s) i + at_ (cg_d s) i * alpha) in
  cg_r (after 50) = res x1 /\
  cg_x (after 50) = pointwise (Dimensions b) (fun i => at_ x1 i + at_ (cg_d s) i * alpha).
Proof.
  cbv zeta. destruct (cg_invariant 49 ltac:(lia)) as (_ & Hr & _).
  change (after 50) with (cg_body A b threads addDCTerm thread_num 49 (after 49)).
  unfold cg_body. change ((49 mod 50 =? 49)%Z) with true.
  cbn [fst snd cg_x cg_r]. unfold cg_dDotQ. split; [|reflexivity].
  unfold residual. f_equal.
  rewrite (Multiply_out A threads thread_num _ (cg_r (after 49)) (zeros (Dimensions b)));
    [reflexivity|].
  unfold Dimensions in *. unfold zeros. rewrite repeat_length, Hr. now symmetry.
Qed.

End Residual.

(** In exact arithmetic the vector [r] of the loop is the residual of the
    iterate during the first 49 passes: after [k <= 49] passes with finite
    step lengths, [r = b - A x] and [delta_new = r . r].  The pass with
    [ii % 50 == 49] adds [alpha d] to [x], recomputes [r] from that
    iterate and then adds [alpha d] to [x] once more: after 50 passes [r]
    is the residual of the iterate that is one step behind [x]. *)
Theorem cg_tracks_residual (A : SparseSymmetricMatrix) (b x : Vector) (threads : Z)
    (addDCTerm : bool) (thread_num : Z -> nat) (k : nat) :
  let after := cg_after A b threads addDCTerm thread_num x in
  let res := residual A b threads addDCTerm thread_num in
  let alpha := cg_delta_new (after 49%nat)
               / cg_dDotQ A b threads addDCTerm thread_num x 49 in
  let x1 := pointwise (Dimensions b)
              (fun i => at_ (cg_x (after 49%nat)) i + at_ (cg_d (after 49%nat)) i * alpha) in
  well_formed (Rows A) A ->
  Dimensions b = Rows A ->
  Dimensions x = Rows A ->
  (1 <= threads)%Z ->
  (forall i, (0 <= i < Z.of_nat (Rows A))%Z -> (thread_num i < Z.to_nat threads)%nat) ->
  ((k <= 49)%nat -> cg_finite A b threads addDCTerm thread_num x k ->
   cg_r (after k) = res (cg_x (after k)) /\
   cg_delta_new (after k) = dot (Dimensions b) (cg_r (after k)) (cg_r (after k))) /\
  (cg_finite A b threads addDCTerm thread_num x 50 ->
   cg_r (after 50%nat) = res x1 /\
   cg_x (after 50%nat)
   = pointwise (Dimensions b) (fun i => at_ x1 i + at_ (cg_d (after 49%nat)) i * alpha)).
Proof.
  intros after res alpha x1 Hwf Hb Hx Ht Hs. split.
  - intros Hk _.
    destruct (cg_invariant A b threads addDCTerm thread_num x Hwf Hb Hx Hs k Hk)
      as (_ & _ & _ & Hr & Hd).
    split; [exact Hr|exact Hd].
  - intros _. exact (cg_restart A b threads addDCTerm thread_num x Hwf Hb Hx Hs).
Qed.

(** The system [diag(1, 2) x = (1, 1)] from [x = 0]: after one pass
    [x = (2/3, 2/3)] and [r = (1/3, -1/3)]. *)
Lemma cg_tracks_residual_witness :
  let after := cg_after Samples.diag12 Samples.ones2 1 false Samples.one_thread
                 Samples.zeros2 in
  cg_finite Samples.diag12 Samples.ones2 1 false Samples.one_thread Samples.zeros2 1 /\
  cg_x (after 1%nat) = [Q2Qc (2 # 3); Q2Qc (2 # 3)] /\
  cg_r (after 1%nat)
  = residual Samples.diag12 Samples.ones2 1 false Samples.one_thread (cg_x (after 1%nat)).
Proof.
  intros after.
  assert (Hfin : cg_finite Samples.diag12 Samples.ones2 1 false Samples.one_thread
                   Samples.zeros2 1).
  { intros j Hj. assert (j = 0%nat) as -> by lia.
    split; intros H; apply (f_equal this) in H; vm_compute in H; discriminate H. }
  split; [exact Hfin|]. split.
  - vm_compute. repeat f_equal; apply Qc_is_canon; reflexivity.
  - apply (cg_tracks_residual Samples.diag12 Samples.ones2 Samples.zeros2 1 false
             Samples.one_thread 1).
    + unfold well_formed, columns_below, Samples.diag12.
      repeat first [apply Forall_nil_2 | apply Forall_cons_2]; simpl; lia.
    + reflexivity.
    + reflexivity.
    + lia.
    + intros i Hi. unfold Samples.one_thread. change (Z.to_nat 1) with 1%nat. lia.
    + lia.
    + exact Hfin.
Defined.

(** ** The in-place operators of [Vector] *)

Lemma times_assign_length (u : Vector) (a : Qc) : length (times_assign u a) = length u.
Proof. unfold times_assign. apply length_map. Qed.

(** [u += v] adds componentwise over the dimension of [u]: a longer [v]
    is accepted and its tail ignored, a shorter [v] is read past its end.
    Scaling distributes over the sum, and [/= a] undoes [*= a] for a
    non-zero [a]; for [a = 0] the division leaves no finite value in a
    vector that has an entry. *)
Theorem vector_operators_compose (u w : Vector) (a : Qc) :
  ((length u <= length w)%nat ->
   exists s, VectorInl.plus_assign u w = Some s /\ length s = length u /\
             (forall i, (i < length u)%nat -> nth i s 0 = nth i u 0 + nth i w 0) /\
             VectorInl.plus_assign (times_assign u a) (times_assign w a)
             = Some (times_assign s a)) /\
  ((length w < length u)%nat -> VectorInl.plus_assign u w = None) /\
  (a <> 0 -> divide_assign (times_assign u a) a = Some u) /\
  (u <> [] -> divide_assign u 0 = None).
Proof.
  split; [|split; [|split]].
  - intros Hlen. unfold VectorInl.plus_assign.
    destruct (length w <? length u)%nat eqn:E; [apply Nat.ltb_lt in E; lia|].
    eexists. split; [reflexivity|]. split; [apply length_imap|]. split.
    + intros i Hi. destruct (lookup_lt_is_Some_2 u i Hi) as [q Hq].
      rewrite (nth_lookup_Some _ _ 0 _ Hq).
      apply nth_lookup_Some. rewrite list_lookup_imap, Hq. reflexivity.
    + rewrite !times_assign_length, E. f_equal. unfold times_assign.
      apply list_eq. intros i.
      rewrite list_lookup_imap, !list_lookup_fmap, list_lookup_imap.
      destruct (u !! i) as [q|] eqn:Hq; simpl; [|reflexivity].
      f_equal. assert (Hi : (i < length w)%nat).
      { apply lookup_lt_Some in Hq. lia. }
      destruct (lookup_lt_is_Some_2 w i Hi) as [q' Hq'].
      rewrite (nth_lookup_Some _ _ 0 _ Hq').
      rewrite (nth_lookup_Some (map (fun x => x * a) w) i 0 (q' * a)).
      * ring.
      * rewrite list_lookup_fmap, Hq'. reflexivity.
  - intros Hlen. unfold VectorInl.plus_assign.
    apply Nat.ltb_lt in Hlen. now rewrite Hlen.
  - intros Ha. unfold divide_assign, times_assign.
    destruct u as [|q u]; [reflexivity|]. cbn [map].
    rewrite bool_decide_eq_false_2 by exact Ha. f_equal.
    change (map (fun x => x / a) (map (fun x => x * a) (q :: u)) = q :: u).
    rewrite map_map. rewrite <- (map_id (q :: u)) at 2.
    apply map_ext. intros y. field. exact Ha.
  - intros Hu. unfold divide_assign. destruct u as [|q u]; [contradiction|].
    rewrite bool_decide_eq_true_2 by reflexivity. reflexivity.
Qed.

Lemma vector_operators_compose_witness :
  VectorInl.plus_assign Samples.ones2 Samples.v123 = Some [Q2Qc (2 # 1); Q2Qc (3 # 1)] /\
  VectorInl.plus_assign Samples.v123 Samples.ones2 = None /\
  divide_assign (times_assign Samples.v123 (Q2Qc (1 # 2))) (Q2Qc (1 # 2)) = Some Samples.v123.
Proof.
  destruct (vector_operators_compose Samples.v123 Samples.ones2 (Q2Qc (1 # 2)))
    as (_ & Hshort & Hdiv & _).
  split.
  - vm_compute. repeat f_equal; apply Qc_is_canon; reflexivity.
  - split; [apply Hshort; simpl; lia|apply Hdiv; discriminate].
Defined.

End SparseMoreProperties.

(* ===================================================================== *)
(** * Properties of IsInset, the first pass of setTree, SplatOrientedPoint
      and GetSampleWeight *)
(* ===================================================================== *)

Module InsetProperties.
Import SparseMatrixInl MultiGridOctreeDataInl.

Lemma offset_child (p : NodePtr) (c : nat) :
  offset (child p c) = child_offset (offset p) c.
Proof. unfold offset, child. now rewrite fold_left_app. Qed.

Lemma depth_child (p : NodePtr) (c : nat) : depth (child p c) = S (depth p).
Proof. unfold depth, child. rewrite length_app. simpl. lia. Qed.

Lemma corner_bit (n : Z) : (0 <= n mod 2 <= 1)%Z.
Proof. pose proof (Z.mod_pos_bound n 2). lia. Qed.

Lemma geb_double (o' o b : Z) :
  (0 <= b <= 1)%Z -> (2 * o' + b >=? 2 * o)%Z = (o' >=? o)%Z.
Proof.
  intros Hb. rewrite !Z.geb_leb.
  destruct (Z.leb_spec (2 * o) (2 * o' + b)), (Z.leb_spec o o'); try reflexivity; lia.
Qed.

Lemma ltb_double (o' m b : Z) :
  (0 <= b <= 1)%Z -> (2 * o' + b <? 2 * m)%Z = (o' <? m)%Z.
Proof.
  intros Hb.
  destruct (Z.ltb_spec (2 * o' + b) (2 * m)), (Z.ltb_spec o' m); try reflexivity; lia.
Qed.

Lemma pow2_step (d : nat) :
  (2 <= d)%nat ->
  (2 ^ Z.of_nat (S d) = 2 * 2 ^ Z.of_nat d)%Z /\
  (2 ^ (Z.of_nat (S d) - 2) = 2 * 2 ^ (Z.of_nat d - 2))%Z.
Proof.
  intros Hd. split.
  - rewrite Nat2Z.inj_succ, Z.pow_succ_r by lia. reflexivity.
  - replace (Z.of_nat (S d) - 2)%Z with (Z.succ (Z.of_nat d - 2)) by lia.
    rewrite Z.pow_succ_r by lia. reflexivity.
Qed.

(** From depth 2 on, the inset region is the same at every depth: a child
    is inset exactly when its parent is.  An inset node is inset-supported,
    and a node is inset-supported whenever one of its children is. *)
Theorem inset_is_inherited (p : NodePtr) (c : nat) :
  (2 <= depth p)%nat ->
  IsInset (child p c) = IsInset p /\
  (IsInset p = Some true -> IsInsetSupported p = Some true) /\
  (IsInsetSupported (child p c) = Some true -> IsInsetSupported p = Some true).
Proof.
  intros Hd. unfold IsInset, IsInsetSupported, depthAndOffset.
  rewrite offset_child, depth_child.
  destruct (offset p) as [[ox oy] oz]. unfold child_offset, FactorCornerIndex.
  destruct (pow2_step (depth p) Hd) as [Hres Ho]. rewrite Hres, Ho.
  set (res := (2 ^ Z.of_nat (depth p))%Z). set (o := (2 ^ (Z.of_nat (depth p) - 2))%Z).
  destruct (S (depth p) <? 2)%nat eqn:E1; [apply Nat.ltb_lt in E1; lia|].
  destruct (depth p <? 2)%nat eqn:E2; [apply Nat.ltb_lt in E2; lia|].
  pose proof (corner_bit (Z.of_nat c)) as Hx.
  pose proof (corner_bit (Z.of_nat c / 2)) as Hy.
  pose proof (corner_bit (Z.of_nat c / 4)) as Hz.
  split; [|split].
  - f_equal. replace (2 * res - 2 * o)%Z with (2 * (res - o))%Z by lia.
    rewrite !geb_double, !ltb_double by assumption. reflexivity.
  - intros [= H]. f_equal.
    repeat (apply andb_true_iff in H as [H ?]).
    repeat (apply andb_true_iff; split); try assumption;
      apply Z.leb_le; match goal with
                      | Hlt : (_ <? _)%Z = true |- _ => apply Z.ltb_lt in Hlt; lia
                      end.
  - intros [= H]. f_equal.
    repeat (apply andb_true_iff in H as [H ?]).
    repeat match goal with
           | Hc : (_ >=? _)%Z = true |- _ => rewrite Z.geb_leb in Hc; apply Z.leb_le in Hc
           | Hc : (_ <=? _)%Z = true |- _ => apply Z.leb_le in Hc
           end.
    repeat (apply andb_true_iff; split);
      rewrite ?Z.geb_leb; apply Z.leb_le; lia.
Qed.

(** At depth 2 the node at offset (2, 2, 2) is inset, and so is its child
    at (5, 5, 5). *)
Lemma inset_is_inherited_witness :
  IsInset [7; 0]%nat = Some true /\ IsInset [7; 0; 7]%nat = Some true.
Proof.
  split; [reflexivity|].
  destruct (inset_is_inherited [7; 0]%nat 7) as [H _]; [simpl; lia|].
  exact H.
Defined.

End InsetProperties.

Module SplatMoreProperties.
Import SparseMatrixInl MultiGridOctreeDataInl Notions MoreNotions.
Import UpDownSampleProperties QcArith.
Local Open Scope Qc_scope.

(** ** The kernel *)

Lemma splat_kernel_sum (c p w : Qc) :
  let '(dx0, dx1, dx2) := splat_kernel c p w in dx0 + dx1 + dx2 = 1.
Proof. unfold splat_kernel. ring. Qed.

Lemma triple_sum (t : Qc * Qc * Qc) :
  triple_at t 0 + triple_at t 1 + triple_at t 2 = fst (fst t) + snd (fst t) + snd t.
Proof. reflexivity. Qed.

Lemma kernel_weight_total (c p : Point3D) (w : Qc) :
  total cube3 (fun ijk => let '(i, j, k) := ijk in kernel_weight c p w i j k) = 1.
Proof.
  destruct c as [[cx cy] cz], p as [[px py] pz]. unfold kernel_weight.
  pose proof (splat_kernel_sum cx px w) as Hx.
  pose proof (splat_kernel_sum cy py w) as Hy.
  pose proof (splat_kernel_sum cz pz w) as Hz.
  destruct (splat_kernel cx px w) as [[a0 a1] a2].
  destruct (splat_kernel cy py w) as [[b0 b1] b2].
  destruct (splat_kernel cz pz w) as [[c0 c1] c2].
  unfold cube3, total. simpl.
  transitivity ((a0 + a1 + a2) * (b0 + b1 + b2) * (c0 + c1 + c2)); [ring|].
  rewrite Hx, Hy, Hz. ring.
Qed.

Lemma elem_of_cube3 (i j k : nat) : (i, j, k) ∈ cube3 -> (i < 3 /\ j < 3 /\ k < 3)%nat.
Proof.
  intros H. apply list_elem_of_In in H. cbv [cube3 flat_map map app In] in H.
  repeat (destruct H as [H|H]; [injection H as <- <- <-; lia|]). contradiction.
Qed.

(** ** Sums of normals *)

#[local] Arguments point_plus : simpl never.
#[local] Arguments point_times : simpl never.

Lemma point_plus_zero (p : Point3D) : point_plus p Point3D_ = p.
Proof. destruct p as [[a b] c]. unfold point_plus, Point3D_. f_equal; [f_equal|]; ring. Qed.

Lemma point_plus_assoc (p q r : Point3D) :
  point_plus (point_plus p q) r = point_plus p (point_plus q r).
Proof.
  destruct p as [[a b] c], q as [[a' b'] c'], r as [[a'' b''] c''].
  unfold point_plus. f_equal; [f_equal|]; ring.
Qed.

Lemma point_plus_comm (p q : Point3D) : point_plus p q = point_plus q p.
Proof.
  destruct p as [[a b] c], q as [[a' b'] c']. unfold point_plus. f_equal; [f_equal|]; ring.
Qed.

Lemma point_times_plus (n : Point3D) (s t : Qc) :
  point_plus (point_times n s) (point_times n t) = point_times n (s + t).
Proof.
  destruct n as [[a b] c]. unfold point_plus, point_times. f_equal; [f_equal|]; ring.
Qed.

Lemma point_times_zero (n : Point3D) : point_times n 0 = Point3D_.
Proof. destruct n as [[a b] c]. unfold point_times, Point3D_. f_equal; [f_equal|]; ring. Qed.

Lemma point_times_one (n : Point3D) : point_times n 1 = n.
Proof. destruct n as [[a b] c]. unfold point_times. f_equal; [f_equal|]; ring. Qed.

Lemma sum_normals_app (l l' : list Point3D) :
  sum_normals (l ++ l') = point_plus (sum_normals l) (sum_normals l').
Proof.
  induction l as [|p l IH]; simpl.
  - rewrite point_plus_comm. symmetry. apply point_plus_zero.
  - rewrite IH. symmetry. apply point_plus_assoc.
Qed.

Lemma sum_normals_alter (l : list Point3D) (v : Point3D) : forall idx,
  (idx < length l)%nat ->
  sum_normals (alter (fun n => point_plus n v) idx l) = point_plus (sum_normals l) v.
Proof.
  induction l as [|p l IH]; intros idx Hidx; [simpl in Hidx; lia|].
  destruct idx as [|idx]; simpl.
  - rewrite !point_plus_assoc. f_equal. apply point_plus_comm.
  - specialize (IH idx ltac:(simpl in Hidx; lia)). unfold alter in IH. rewrite IH.
    symmetry. apply point_plus_assoc.
Qed.

(** ** One neighbour *)

Section Splat.
Variable node : NodePtr.
Variables position normal : Point3D.
Variable neighbors : nat -> nat -> nat -> option NodePtr.

Local Abbreviation step := (splat_neighbor node position normal neighbors).
Local Abbreviation share := (present_weight node position neighbors).

Lemma splat_neighbor_spec (st : Normals) (ijk : nat * nat * nat) :
  normals_indexed st ->
  let st' := step st ijk in
  normals_indexed st' /\
  sum_normals (normals_ st')
  = point_plus (sum_normals (normals_ st)) (point_times normal (share ijk)) /\
  (length (normals_ st) <= length (normals_ st'))%nat /\
  (forall n, (0 <= normalIndex (n_store st n))%Z ->
             normalIndex (n_store st' n) = normalIndex (n_store st n)) /\
  (forall n, (forall i j k, neighbors i j k <> Some n) -> n_store st' n = n_store st n).
Proof.
  intros [Hlt Hinj]. destruct ijk as [[i j] k]. cbv zeta.
  unfold splat_neighbor, present_weight.
  destruct (neighbors i j k) as [nnode|] eqn:En.
  2:{ split; [split; assumption|]. split.
      - rewrite point_times_zero. symmetry. apply point_plus_zero.
      - split; [lia|]. split; reflexivity. }
  set (w := kernel_weight (center node) position (width node) i j k).
  destruct (normalIndex (n_store st nnode) <? 0)%Z eqn:Eneg.
  - (* a new slot is appended for the neighbour *)
    apply Z.ltb_lt in Eneg. cbn [n_store normals_].
    rewrite fn_lookup_insert. cbn [normalIndex with_normalIndex].
    rewrite Nat2Z.id.
    assert (Hlen : length (normals_ st ++ [Point3D_]) = S (length (normals_ st))).
    { rewrite length_app. simpl. lia. }
    unfold normals_indexed. cbn [n_store normals_].
    split; [split|].
    + intros n. rewrite length_alter, Hlen.
      destruct (decide (n = nnode)) as [->|Hn].
      * rewrite fn_lookup_insert. cbn [normalIndex with_normalIndex]. lia.
      * rewrite fn_lookup_insert_ne by congruence. specialize (Hlt n). lia.
    + intros n m Hn0 Heq.
      destruct (decide (n = nnode)) as [->|Hn], (decide (m = nnode)) as [->|Hm];
        try reflexivity.
      * rewrite fn_lookup_insert, fn_lookup_insert_ne in Heq by congruence.
        cbn [normalIndex with_normalIndex] in Heq. specialize (Hlt m). lia.
      * rewrite fn_lookup_insert, fn_lookup_insert_ne in Heq by congruence.
        cbn [normalIndex with_normalIndex] in Heq. specialize (Hlt n). lia.
      * rewrite fn_lookup_insert_ne in Hn0 by congruence.
        rewrite !fn_lookup_insert_ne in Heq by congruence. now apply Hinj.
    + split.
      * rewrite sum_normals_alter by (rewrite Hlen; lia).
        rewrite sum_normals_app. simpl. rewrite !point_plus_zero. reflexivity.
      * split; [rewrite length_alter, Hlen; lia|]. split.
        -- intros n Hn0. destruct (decide (n = nnode)) as [->|Hn]; [lia|].
           now rewrite fn_lookup_insert_ne by congruence.
        -- intros n Hn. rewrite fn_lookup_insert_ne; [reflexivity|].
           intros <-. exact (Hn i j k En).
  - (* the neighbour has a slot *)
    apply Z.ltb_ge in Eneg. unfold normals_indexed. cbn [n_store normals_].
    split; [split|].
    + intros n. rewrite length_alter. apply Hlt.
    + exact Hinj.
    + split.
      * apply sum_normals_alter. specialize (Hlt nnode). lia.
      * split; [rewrite length_alter; lia|]. split; reflexivity.
Qed.

Lemma splat_fold_spec (cells : list (nat * nat * nat)) : forall st,
  normals_indexed st ->
  let st' := fold_left step cells st in
  normals_indexed st' /\
  sum_normals (normals_ st')
  = point_plus (sum_normals (normals_ st)) (point_times normal (total cells share)) /\
  (length (normals_ st) <= length (normals_ st'))%nat /\
  (forall n, (0 <= normalIndex (n_store st n))%Z ->
             normalIndex (n_store st' n) = normalIndex (n_store st n)) /\
  (forall n, (forall i j k, neighbors i j k <> Some n) -> n_store st' n = n_store st n).
Proof.
  induction cells as [|ijk cells IH]; intros st Hst; cbv zeta.
  - simpl. split; [exact Hst|]. split.
    + rewrite point_times_zero. symmetry. apply point_plus_zero.
    + split; [lia|]. split; reflexivity.
  - cbn [fold_left total fold_right].
    destruct (splat_neighbor_spec st ijk Hst) as (H1 & Hs1 & Hl1 & Hi1 & Hf1).
    destruct (IH _ H1) as (H2 & Hs2 & Hl2 & Hi2 & Hf2).
    split; [exact H2|]. split.
    + rewrite Hs2, Hs1, point_plus_assoc, point_times_plus. reflexivity.
    + split; [lia|]. split.
      * intros n Hn. rewrite Hi2; rewrite Hi1; try reflexivity; try assumption.
      * intros n Hn. rewrite Hf2, Hf1; try reflexivity; assumption.
Qed.

End Splat.

(** ** [SplatOrientedPoint] *)

(** Splatting a normal at a node distributes it among the neighbours that
    exist: the sum of all vectors of [normals_] grows by the normal times
    the kernel weights of the neighbours present, and by the normal itself
    when all 27 neighbours exist, wherever the position lies. *)
Theorem SplatOrientedPoint_distributes_normal (node : NodePtr)
    (position normal : Point3D) (neighbors : nat -> nat -> nat -> option NodePtr)
    (st : Normals) :
  let st' := SplatOrientedPoint node position normal neighbors st in
  normals_indexed st ->
  sum_normals (normals_ st')
  = point_plus (sum_normals (normals_ st))
      (point_times normal (total cube3 (present_weight node position neighbors))) /\
  (table_full neighbors ->
   sum_normals (normals_ st') = point_plus (sum_normals (normals_ st)) normal).
Proof.
  intros st' Hst.
  destruct (splat_fold_spec node position normal neighbors cube3 st Hst)
    as (_ & Hsum & _).
  split; [exact Hsum|]. intros Hfull. unfold st', SplatOrientedPoint. rewrite Hsum.
  rewrite (total_ext cube3 _
             (fun ijk => let '(i, j, k) := ijk in
                         kernel_weight (center node) position (width node) i j k)).
  - rewrite kernel_weight_total, point_times_one. reflexivity.
  - intros [[i j] k] Hin. apply elem_of_cube3 in Hin as (Hi & Hj & Hk).
    unfold present_weight. specialize (Hfull i j k Hi Hj Hk).
    destruct (neighbors i j k); [reflexivity|contradiction].
Qed.

Lemma no_normals_indexed : normals_indexed MoreSamples.no_normals.
Proof.
  split.
  - intros n. simpl. lia.
  - intros n m H. simpl in H. lia.
Qed.

Lemma inner_table_full :
  table_full (getNeighbors3 MoreSamples.full2 MoreSamples.inner_node).
Proof.
  intros i j k Hi Hj Hk.
  destruct i as [|[|[|i]]]; try lia; destruct j as [|[|[|j]]]; try lia;
    destruct k as [|[|[|k]]]; try lia; vm_compute; discriminate.
Qed.

(** The normal (1, 2, 3) splatted at the node of depth 2 at offset
    (1, 1, 1) of the complete tree, at the point (5/16, 3/8, 7/16) of the
    node: the 27 vectors appended to [normals_] add up to (1, 2, 3). *)
Lemma SplatOrientedPoint_distributes_normal_witness :
  let normal := (1, Q2Qc (2 # 1), Q2Qc (3 # 1)) in
  let st' := SplatOrientedPoint MoreSamples.inner_node
               (Q2Qc (5 # 16), Q2Qc (3 # 8), Q2Qc (7 # 16)) normal
               (getNeighbors3 MoreSamples.full2 MoreSamples.inner_node)
               MoreSamples.no_normals in
  length (normals_ st') = 27%nat /\
  sum_normals (normals_ st') = point_plus Point3D_ normal.
Proof.
  intros normal st'. split; [vm_compute; reflexivity|].
  apply (SplatOrientedPoint_distributes_normal MoreSamples.inner_node
           (Q2Qc (5 # 16), Q2Qc (3 # 8), Q2Qc (7 # 16)) normal
           (getNeighbors3 MoreSamples.full2 MoreSamples.inner_node)
           MoreSamples.no_normals no_normals_indexed).
  exact inner_table_full.
Defined.

(** The bookkeeping of [normals_] is kept: if every [normalIndex] is below
    the size of [normals_] and no index is shared, this is so after the
    splat; [normals_] does not shrink, an index once given stays, and the
    payload of a node that is not in the table is untouched. *)
Theorem SplatOrientedPoint_keeps_normal_indices (node : NodePtr)
    (position normal : Point3D) (neighbors : nat -> nat -> nat -> option NodePtr)
    (st : Normals) :
  let st' := SplatOrientedPoint node position normal neighbors st in
  normals_indexed st ->
  normals_indexed st' /\
  (length (normals_ st) <= length (normals_ st'))%nat /\
  (forall n, (0 <= normalIndex (n_store st n))%Z ->
             normalIndex (n_store st' n) = normalIndex (n_store st n)) /\
  (forall n, (forall i j k, neighbors i j k <> Some n) -> n_store st' n = n_store st n).
Proof.
  intros st' Hst.
  destruct (splat_fold_spec node position normal neighbors cube3 st Hst)
    as (H & _ & Hl & Hi & Hf).
  repeat split; try assumption; apply H.
Qed.

(** After the splat of the sample above every index is below 27. *)
Lemma SplatOrientedPoint_keeps_normal_indices_witness :
  let st' := SplatOrientedPoint MoreSamples.inner_node
               (Q2Qc (5 # 16), Q2Qc (3 # 8), Q2Qc (7 # 16)) (1, 0, 0)
               (getNeighbors3 MoreSamples.full2 MoreSamples.inner_node)
               MoreSamples.no_normals in
  normalIndex (n_store st' MoreSamples.inner_node) = 13%Z /\
  forall n, (normalIndex (n_store st' n) < Z.of_nat (length (normals_ st')))%Z.
Proof.
  intros st'. split; [vm_compute; reflexivity|].
  apply (SplatOrientedPoint_keeps_normal_indices MoreSamples.inner_node
           (Q2Qc (5 # 16), Q2Qc (3 # 8), Q2Qc (7 # 16)) (1, 0, 0)
           (getNeighbors3 MoreSamples.full2 MoreSamples.inner_node)
           MoreSamples.no_normals no_normals_indexed).
Defined.

(** ** [GetSampleWeight] *)

Lemma sample_fold (node : NodePtr) (position : Point3D)
    (neighbors : nat -> nat -> nat -> option NodePtr) (store : NodeStore)
    (cells : list (nat * nat * nat)) : forall a : Qc,
  fold_left (fun weight ijk =>
               let '(i, j, k) := ijk in
               match neighbors i j k with
               | Some n =>
                   weight + kernel_weight (center node) position (width node) i j k
                            * fst (centerWeightContribution (store n))
               | None => weight
               end) cells a
  = a + total cells (fun ijk =>
                       let '(i, j, k) := ijk in
                       match neighbors i j k with
                       | Some n => kernel_weight (center node) position (width node) i j k
                                   * fst (centerWeightContribution (store n))
                       | None => 0
                       end).
Proof.
  induction cells as [|[[i j] k] l IH]; intros a; simpl; [ring|].
  rewrite IH. destruct (neighbors i j k); ring.
Qed.

Lemma sample_sum_total (node : NodePtr) (position : Point3D)
    (neighbors : nat -> nat -> nat -> option NodePtr) (store : NodeStore) :
  sample_sum node position neighbors store
  = total cube3 (fun ijk =>
                   let '(i, j, k) := ijk in
                   match neighbors i j k with
                   | Some n => kernel_weight (center node) position (width node) i j k
                               * fst (centerWeightContribution (store n))
                   | None => 0
                   end).
Proof. unfold sample_sum. rewrite sample_fold. ring. Qed.

(** Where the density is uniform the sample weight does not depend on the
    position: if all 27 neighbours exist and carry the same
    [centerWeightContribution[0] = c], the sum of [GetSampleWeight] is [c]
    and the value returned is [1 / c]; for [c = 0] the division has no
    finite value. *)
Theorem GetSampleWeight_of_uniform_density (node : NodePtr) (position : Point3D)
    (neighbors : nat -> nat -> nat -> option NodePtr) (store : NodeStore) (c : Qc) :
  table_full neighbors ->
  (forall i j k n, neighbors i j k = Some n ->
                   fst (centerWeightContribution (store n)) = c) ->
  sample_sum node position neighbors store = c /\
  GetSampleWeight node position neighbors store
  = if bool_decide (c = 0) then None else Some (1 / c).
Proof.
  intros Hfull Hc.
  assert (Hsum : sample_sum node position neighbors store = c).
  { rewrite sample_sum_total.
    rewrite (total_ext cube3 _
               (fun ijk => (let '(i, j, k) := ijk in
                            kernel_weight (center node) position (width node) i j k) * c)).
    - rewrite <- total_scale, kernel_weight_total. ring.
    - intros [[i j] k] Hin. apply elem_of_cube3 in Hin as (Hi & Hj & Hk).
      specialize (Hfull i j k Hi Hj Hk).
      destruct (neighbors i j k) as [n|] eqn:En; [|contradiction].
      now rewrite (Hc i j k n En). }
  split; [exact Hsum|]. unfold GetSampleWeight, fdiv. rewrite Hsum. reflexivity.
Qed.

(** The density 2 everywhere: the sample weight is 1/2. *)
Lemma GetSampleWeight_of_uniform_density_witness :
  GetSampleWeight MoreSamples.inner_node (Q2Qc (5 # 16), Q2Qc (3 # 8), Q2Qc (7 # 16))
    (getNeighbors3 MoreSamples.full2 MoreSamples.inner_node) MoreSamples.dense_store
  = Some (Q2Qc (1 # 2)).
Proof.
  destruct (GetSampleWeight_of_uniform_density MoreSamples.inner_node
              (Q2Qc (5 # 16), Q2Qc (3 # 8), Q2Qc (7 # 16))
              (getNeighbors3 MoreSamples.full2 MoreSamples.inner_node)
              MoreSamples.dense_store (Q2Qc (2 # 1)) inner_table_full)
    as [_ H]; [reflexivity|].
  rewrite H. rewrite bool_decide_eq_false_2 by discriminate.
  f_equal; try (apply Qc_is_canon; reflexivity).
Defined.

End SplatMoreProperties.

(* ===================================================================== *)
(** * Properties of the first pass of setTree and of inBounds *)
(* ===================================================================== *)

Module SetTreeProperties.
Import SparseMatrixInl MultiGridOctreeDataInl Notions MoreNotions QcArith.
Local Open Scope Qc_scope.

Lemma lower_spec (u : bool) (pi mi : Qc) :
  lower u pi mi <= pi /\ (u = false -> lower u pi mi <= mi).
Proof.
  unfold lower. destruct u; simpl.
  - split; [apply Qcle_refl|discriminate].
  - destruct (bool_decide (pi < mi)) eqn:E.
    + apply bool_decide_eq_true in E. split; [apply Qcle_refl|].
      intros _. now apply Qclt_le_weak.
    + apply bool_decide_eq_false in E. split; [|intros _; apply Qcle_refl].
      now apply Qcnot_lt_le.
Qed.

Lemma upper_spec (u : bool) (pi Mi : Qc) :
  pi <= upper u pi Mi /\ (u = false -> Mi <= upper u pi Mi).
Proof.
  unfold upper. destruct u; simpl.
  - split; [apply Qcle_refl|discriminate].
  - destruct (bool_decide (Mi < pi)) eqn:E.
    + apply bool_decide_eq_true in E. split; [apply Qcle_refl|].
      intros _. now apply Qclt_le_weak.
    + apply bool_decide_eq_false in E. split; [|intros _; apply Qcle_refl].
      now apply Qcnot_lt_le.
Qed.

Lemma std_max_spec (a b : Qc) : a <= std_max a b /\ b <= std_max a b.
Proof.
  unfold std_max. destruct (bool_decide (a < b)) eqn:E.
  - apply bool_decide_eq_true in E. split; [now apply Qclt_le_weak|apply Qcle_refl].
  - apply bool_decide_eq_false in E. split; [apply Qcle_refl|now apply Qcnot_lt_le].
Qed.

Section Extent.
Variable xForm : Point3D -> Point3D.

Local Abbreviation step := (extent_point xForm).

Lemma extent_point_spec (e : Extent) (p : Point3D) :
  unassigned (step e p) = false /\
  covers (step e p) (xForm p) /\
  (forall q, unassigned e = false -> covers e q -> covers (step e p) q).
Proof.
  unfold extent_point, covers.
  destruct (xForm p) as [[p0 p1] p2], (e_min e) as [[m0 m1] m2],
    (e_max e) as [[M0 M1] M2].
  cbn [unassigned e_min e_max].
  pose proof (lower_spec (unassigned e) p0 m0) as [L0 L0'].
  pose proof (lower_spec (unassigned e) p1 m1) as [L1 L1'].
  pose proof (lower_spec (unassigned e) p2 m2) as [L2 L2'].
  pose proof (upper_spec (unassigned e) p0 M0) as [U0 U0'].
  pose proof (upper_spec (unassigned e) p1 M1) as [U1 U1'].
  pose proof (upper_spec (unassigned e) p2 M2) as [U2 U2'].
  split; [reflexivity|]. split; [repeat split; assumption|].
  intros [[q0 q1] q2] Hu.
  intros [[A0 B0] [[A1 B1] [A2 B2]]].
  specialize (L0' Hu). specialize (L1' Hu). specialize (L2' Hu).
  specialize (U0' Hu). specialize (U1' Hu). specialize (U2' Hu).
  repeat split; eapply Qcle_trans; eassumption.
Qed.

Lemma extent_fold_spec (points : list Point3D) : forall e,
  (forall q, unassigned e = false -> covers e q ->
             covers (fold_left step points e) q) /\
  (forall q, q ∈ points -> covers (fold_left step points e) (xForm q)) /\
  (points <> [] -> unassigned (fold_left step points e) = false).
Proof.
  induction points as [|p points IH]; intros e; cbn [fold_left].
  - split; [intros q _ H; exact H|]. split; [intros q Hq; inversion Hq|congruence].
  - destruct (extent_point_spec e p) as (Hu & Hp & Hkeep).
    destruct (IH (step e p)) as (IH1 & IH2 & IH3).
    split; [|split].
    + intros q Hue Hq. apply IH1; [exact Hu|]. now apply Hkeep.
    + intros q Hq. apply elem_of_cons in Hq as [->|Hq].
      * apply IH1; assumption.
      * now apply IH2.
    + intros _. destruct points as [|p' points']; [exact Hu|].
      apply IH3. discriminate.
Qed.

Lemma extent_covers (points : list Point3D) (q : Point3D) :
  q ∈ points -> covers (extent xForm points) (xForm q).
Proof. intros Hq. unfold extent. now apply extent_fold_spec. Qed.

End Extent.

Lemma std_max_same (a : Qc) : std_max a a = a.
Proof. unfold std_max. now destruct (bool_decide (a < a)). Qed.

Lemma lower_same (u : bool) (a : Qc) : lower u a a = a.
Proof. unfold lower. now destruct (u || bool_decide (a < a)). Qed.

Lemma upper_same (u : bool) (a : Qc) : upper u a a = a.
Proof. unfold upper. now destruct (u || bool_decide (a < a)). Qed.

Section Coincident.
Variable xForm : Point3D -> Point3D.
Variable c : Point3D.

Local Abbreviation step := (extent_point xForm).

(** Both corners are [c] once a sample has been read. *)
Local Abbreviation at_c e :=
  (e_min e = e_max e /\ (unassigned e = false -> e_min e = c)).

Lemma extent_point_coincident (e : Extent) (p : Point3D) :
  xForm p = c -> at_c e -> at_c (step e p).
Proof.
  intros Hp [Hmm Hc]. unfold extent_point. rewrite Hp.
  destruct c as [[c0 c1] c2].
  destruct (e_min e) as [[m0 m1] m2] eqn:Em, (e_max e) as [[M0 M1] M2] eqn:EM.
  cbn [e_min e_max unassigned].
  destruct (unassigned e).
  - split; [reflexivity|]. intros _. reflexivity.
  - specialize (Hc eq_refl). injection Hmm as <- <- <-. injection Hc as -> -> ->.
    rewrite !lower_same, !upper_same. split; [reflexivity|]. intros _. reflexivity.
Qed.

Lemma extent_fold_coincident (points : list Point3D) : forall e,
  (forall q, q ∈ points -> xForm q = c) -> at_c e -> at_c (fold_left step points e).
Proof.
  induction points as [|p points IH]; intros e Hall He; cbn [fold_left]; [exact He|].
  apply IH.
  - intros q Hq. apply Hall. now apply elem_of_cons; right.
  - apply extent_point_coincident; [|exact He]. apply Hall. now apply elem_of_cons; left.
Qed.

Lemma extent_coincident (points : list Point3D) :
  (forall q, q ∈ points -> xForm q = c) ->
  e_min (extent xForm points) = e_max (extent xForm points).
Proof.
  intros Hall. unfold extent.
  apply (extent_fold_coincident points (mkExtent Point3D_ Point3D_ true) Hall).
  split; [reflexivity|discriminate].
Qed.

End Coincident.

(** The first pass of [setTree] finds the bounding box of the transformed
    samples: every sample lies between [min] and [max] on every axis.  If
    all samples are transformed to the same point, [scale_] is zero
    whatever [scaleFactor] and the boundary type are; the normalisation
    [(xForm * p - center_) / scale_] then has no finite value for any
    point, [inBounds] fails, and no sample is used. *)
Theorem setTree_drops_coincident_samples (xForm : Point3D -> Point3D)
    (boundaryType_ : BoundaryType) (scaleFactor : Qc) (points : list Point3D) :
  (forall q, q ∈ points -> covers (extent xForm points) (xForm q)) /\
  (forall c, (forall q, q ∈ points -> xForm q = c) ->
     setTree_scale xForm boundaryType_ scaleFactor points = 0 /\
     forall p,
       setTree_normalize xForm boundaryType_ scaleFactor points p = None /\
       setTree_keeps xForm boundaryType_ scaleFactor points p = false).
Proof.
  split; [intros q Hq; now apply extent_covers|].
  intros c Hall.
  assert (H0 : setTree_scale xForm boundaryType_ scaleFactor points = 0).
  { unfold setTree_scale. rewrite <- (extent_coincident xForm c points Hall).
    destruct (e_min (extent xForm points)) as [[m0 m1] m2].
    replace (m0 - m0) with (0 : Qc) by ring.
    replace (m1 - m1) with (0 : Qc) by ring.
    replace (m2 - m2) with (0 : Qc) by ring.
    rewrite !std_max_same. ring. }
  split; [exact H0|]. intros p.
  assert (Hn : setTree_normalize xForm boundaryType_ scaleFactor points p = None).
  { unfold setTree_normalize. rewrite H0.
    destruct (point_minus _ _) as [[a b] d]. unfold point_div, fdiv.
    rewrite bool_decide_eq_true_2 by reflexivity. reflexivity. }
  split; [exact Hn|]. unfold setTree_keeps. rewrite Hn. reflexivity.
Qed.

End SetTreeProperties.

(* ===================================================================== *)
(** * Properties of SetMatrixRowBounds, GetMatrixRowSize and SetMatrixRow *)
(* ===================================================================== *)

Module MatrixRowProperties.
Import SparseMatrixInl MultiGridOctreeDataInl.

(** ** [SetMatrixRowBounds] *)

Lemma row_bounds_spec (off_i width x : Z) :
  (0 <= x < 5)%Z ->
  ((fst (row_bounds off_i width) <= x < snd (row_bounds off_i width))%Z
   <-> (-2 <= off_i + (x - 2) < width + 2)%Z) /\
  (0 <= fst (row_bounds off_i width))%Z /\ (snd (row_bounds off_i width) <= 5)%Z.
Proof.
  intros Hx. unfold row_bounds. cbn [fst snd].
  destruct (Z.ltb_spec off_i 0); rewrite Z.geb_leb;
    destruct (Z.leb_spec width off_i); lia.
Qed.

(** The range that [SetMatrixRowBounds] computes for a node of the solve
    depth keeps, on every axis, exactly the columns of the 5x5x5 table
    that lie within two cells of the block of [2^(depth - rDepth)] cells
    under the coarse node; it never reaches outside the table. *)
Theorem SetMatrixRowBounds_keeps_two_ring (node : NodePtr) (rDepth : nat)
    (rOff : Z * Z * Z) (range : Range3D) :
  let width := (2 ^ Z.of_nat (depth node - rDepth))%Z in
  let rel (o r : Z) := (o - r * width)%Z in
  SetMatrixRowBounds node rDepth rOff = Some range ->
  (rDepth <= depth node)%nat /\
  (0 <= xStart range /\ xEnd range <= 5 /\ 0 <= yStart range /\ yEnd range <= 5 /\
   0 <= zStart range /\ zEnd range <= 5)%Z /\
  forall x, (0 <= x < 5)%Z ->
    ((xStart range <= x < xEnd range)%Z
     <-> (-2 <= rel (fst (fst (offset node))) (fst (fst rOff)) + (x - 2) < width + 2)%Z) /\
    ((yStart range <= x < yEnd range)%Z
     <-> (-2 <= rel (snd (fst (offset node))) (snd (fst rOff)) + (x - 2) < width + 2)%Z) /\
    ((zStart range <= x < zEnd range)%Z
     <-> (-2 <= rel (snd (offset node)) (snd rOff) + (x - 2) < width + 2)%Z).
Proof.
  intros width rel. unfold SetMatrixRowBounds, depthAndOffset.
  destruct (offset node) as [[o0 o1] o2], rOff as [[r0 r1] r2].
  destruct (depth node <? rDepth)%nat eqn:E; [discriminate|].
  apply Nat.ltb_ge in E. intros [= <-]. cbn [xStart xEnd yStart yEnd zStart zEnd].
  unfold relative_offset. rewrite !Z.shiftl_mul_pow2 by lia. rewrite Z.mul_1_l.
  fold width. split; [exact E|]. split.
  - pose proof (row_bounds_spec (o0 - r0 * width) width 0 ltac:(lia)) as (_ & ? & ?).
    pose proof (row_bounds_spec (o1 - r1 * width) width 0 ltac:(lia)) as (_ & ? & ?).
    pose proof (row_bounds_spec (o2 - r2 * width) width 0 ltac:(lia)) as (_ & ? & ?).
    unfold row_bounds in *. cbn [fst snd] in *. repeat split; assumption.
  - intros x Hx. unfold rel.
    pose proof (row_bounds_spec (o0 - r0 * width) width x Hx) as (H0 & _).
    pose proof (row_bounds_spec (o1 - r1 * width) width x Hx) as (H1 & _).
    pose proof (row_bounds_spec (o2 - r2 * width) width x Hx) as (H2 & _).
    unfold row_bounds in *. cbn [fst snd] in *. split; [exact H0|]. split; [exact H1|exact H2].
Qed.

(** The coarse node is the child 7 of the root, with the block of
    [4 x 4 x 4] cells of depth 3 at (4, 4, 4); the node of depth 3 at
    offset (3, 4, 4) lies one cell before the block along [x]: column 0 of
    the table, three cells before the block, is left out. *)
Lemma SetMatrixRowBounds_keeps_two_ring_witness :
  SetMatrixRowBounds [6; 1; 1]%nat 1 (1, 1, 1)%Z = Some (mkRange3D 1 5 0 5 0 5) /\
  ((1 <= 0 < 5)%Z <-> (-2 <= (3 - 1 * 4) + (0 - 2) < 4 + 2)%Z).
Proof.
  assert (H : SetMatrixRowBounds [6; 1; 1]%nat 1 (1, 1, 1)%Z = Some (mkRange3D 1 5 0 5 0 5))
    by reflexivity.
  split; [exact H|].
  destruct (SetMatrixRowBounds_keeps_two_ring _ _ _ _ H) as (_ & _ & Hx).
  destruct (Hx 0%Z ltac:(lia)) as (Hx0 & _). exact Hx0.
Defined.

(** ** [GetMatrixRowSize] bounds [SetMatrixRow] *)

Lemma length_flat_map_le {T U V : Type} (f : T -> list U) (g : T -> list V) (l : list T) :
  (forall a, a ∈ l -> (length (f a) <= length (g a))%nat) ->
  (length (flat_map f l) <= length (flat_map g l))%nat.
Proof.
  induction l as [|a l IH]; intros H; simpl; [lia|].
  rewrite !length_app. pose proof (H a ltac:(left)).
  assert (length (flat_map f l) <= length (flat_map g l))%nat.
  { apply IH. intros b Hb. apply H. now right. }
  lia.
Qed.

Lemma length_until_break_le {T U V : Type} (stop : T -> bool) (f : T -> list U)
    (g : T -> list V) (l : list T) :
  (forall a, a ∈ l -> stop a = false -> (length (f a) <= length (g a))%nat) ->
  (length (flat_map f (until_break stop l)) <= length (flat_map g l))%nat.
Proof.
  induction l as [|a l IH]; intros H; simpl; [lia|].
  destruct (stop a) eqn:E; simpl; [lia|].
  rewrite !length_app. pose proof (H a ltac:(left) E).
  assert (length (flat_map f (until_break stop l)) <= length (flat_map g l))%nat.
  { apply IH. intros b Hb. apply H. now right. }
  lia.
Qed.

Lemma elem_of_until_break {T : Type} (stop : T -> bool) (l : list T) (a : T) :
  a ∈ until_break stop l -> a ∈ l /\ stop a = false.
Proof.
  induction l as [|b l IH]; simpl; [intros H; inversion H|].
  destruct (stop b) eqn:E; [intros H; inversion H|].
  intros H. apply elem_of_cons in H as [->|H].
  - split; [left|exact E].
  - destruct (IH H). split; [now right|assumption].
Qed.

Lemma flat_map_map {T U V : Type} (f : T -> U) (g : U -> list V) (l : list T) :
  flat_map g (map f l) = flat_map (fun a => g (f a)) l.
Proof. induction l as [|a l IH]; simpl; [reflexivity|]. now rewrite IH. Qed.

Lemma flat_map_flat_map {T U V : Type} (f : T -> list U) (g : U -> list V) (l : list T) :
  flat_map g (flat_map f l) = flat_map (fun a => flat_map g (f a)) l.
Proof.
  induction l as [|a l IH]; simpl; [reflexivity|]. now rewrite flat_map_app, IH.
Qed.

Lemma loop_ne_Some (a b : Z) (l : list Z) : loop_ne a b = Some l -> l = loop_lt a b.
Proof. unfold loop_ne, loop_lt. destruct (a <=? b)%Z; [now intros [= <-]|discriminate]. Qed.

Lemma nonempty_case {T U : Type} (xs : list T) (k : option U) (e r : U) :
  match xs with [] => Some e | _ :: _ => k end = Some r ->
  (xs = [] /\ r = e) \/ k = Some r.
Proof. destruct xs; [intros [= <-]; now left|now right]. Qed.

Section Rows.
Variable neighbors5 : Z -> Z -> Z -> option NodePtr.
Variable store : NodeStore.
Variable value : Z -> Z -> Z -> Qc.
Variable offset : Z.

Local Abbreviation cell := (SetMatrixRow_cell neighbors5 store value offset).
Local Abbreviation counted := (counted neighbors5 store).

Lemma cell_le_counted (symmetric : bool) (x y z : Z) :
  (length (cell symmetric (x, y, z))
   <= length (if counted x y z then [(x, y, z)] else []))%nat.
Proof.
  unfold SetMatrixRow_cell, MultiGridOctreeDataInl.counted.
  destruct (neighbors5 x y z) as [n|]; [|simpl; lia].
  destruct (0 <=? nodeIndex (store n))%Z; [|simpl; lia].
  destruct (bool_decide _); simpl; lia.
Qed.

Lemma SetMatrixRow_nested (range : Range3D) (symmetric : bool) :
  SetMatrixRow neighbors5 store value offset range symmetric
  = flat_map (fun x =>
      flat_map (fun y =>
        flat_map (fun z => cell symmetric (x, y, z))
          (until_break (fun z => (x =? 2)%Z && (y =? 2)%Z && (2 <? z)%Z && symmetric)
             (loop_lt (zStart range) (zEnd range))))
        (until_break (fun y => (x =? 2)%Z && (2 <? y)%Z && symmetric)
           (loop_lt (yStart range) (yEnd range))))
      (loop_lt (xStart range) (if symmetric then 3 else xEnd range)).
Proof.
  unfold SetMatrixRow, SetMatrixRow_cells. rewrite flat_map_flat_map.
  apply flat_map_ext. intros x. rewrite flat_map_flat_map.
  apply flat_map_ext. intros y. apply flat_map_map.
Qed.

Lemma row_fits (range : Range3D) (symmetric : bool) (cells : list (Z * Z * Z)) :
  GetMatrixRowSize_cells neighbors5 store range symmetric = Some cells ->
  (length (SetMatrixRow neighbors5 store value offset range symmetric)
   <= length cells)%nat.
Proof.
  rewrite SetMatrixRow_nested. unfold GetMatrixRowSize_cells. destruct symmetric.
  - destruct (loop_ne (xStart range) 3) as [xs|] eqn:Ex; [|discriminate].
    apply loop_ne_Some in Ex. rewrite <- Ex. intros H.
    apply nonempty_case in H as [[-> ->]|H]; [simpl; lia|].
    destruct (loop_ne (yStart range) (yEnd range)) as [ys|] eqn:Ey; [|discriminate].
    apply loop_ne_Some in Ey. rewrite <- Ey. injection H as <-.
    apply length_flat_map_le. intros x _.
    apply length_until_break_le. intros y _ Hy.
    rewrite andb_true_r in Hy. rewrite Hy.
    apply length_until_break_le. intros z _ Hz.
    rewrite andb_true_r in Hz. rewrite Hz. apply cell_le_counted.
  - destruct (loop_ne (xStart range) (xEnd range)) as [xs|] eqn:Ex; [|discriminate].
    apply loop_ne_Some in Ex. rewrite <- Ex. intros H.
    apply nonempty_case in H as [[-> ->]|H]; [simpl; lia|].
    destruct (loop_ne (yStart range) (yEnd range)) as [ys|] eqn:Ey; [|discriminate].
    apply loop_ne_Some in Ey. rewrite <- Ey.
    apply nonempty_case in H as [[-> ->]|H].
    { simpl. clear Ex. induction xs as [|a l IH]; simpl; [lia|exact IH]. }
    destruct (loop_ne (zStart range) (zEnd range)) as [zs|] eqn:Ez; [|discriminate].
    apply loop_ne_Some in Ez. rewrite <- Ez. injection H as <-.
    apply length_flat_map_le. intros x _.
    apply length_until_break_le. intros y _ _.
    apply length_until_break_le. intros z _ _. apply cell_le_counted.
Qed.

Lemma row_entries (range : Range3D) (symmetric : bool) (e : MatrixEntry) :
  e ∈ SetMatrixRow neighbors5 store value offset range symmetric ->
  exists x y z _node,
    neighbors5 x y z = Some _node /\ (0 <= nodeIndex (store _node))%Z /\
    N e = (nodeIndex (store _node) - offset)%Z /\ Value e <> 0%Qc /\
    (symmetric = true ->
     (x <= 2)%Z /\ (x = 2%Z -> (y <= 2)%Z) /\ (x = 2%Z -> y = 2%Z -> (z <= 2)%Z)).
Proof.
  unfold SetMatrixRow. intros He. apply list_elem_of_In, in_flat_map in He.
  destruct He as ([[x y] z] & Hcell & He). exists x, y, z.
  unfold SetMatrixRow_cell in He.
  destruct (neighbors5 x y z) as [n|]; [|inversion He].
  destruct (0 <=? nodeIndex (store n))%Z eqn:E0; [|inversion He].
  apply Z.leb_le in E0.
  destruct (bool_decide _) eqn:Ev; [inversion He|].
  apply bool_decide_eq_false in Ev. destruct He as [<-|[]].
  exists n. repeat split; try assumption.
  - unfold SetMatrixRow_cells in Hcell. apply in_flat_map in Hcell as (x' & Hx & Hcell).
    apply in_flat_map in Hcell as (y' & Hy & Hcell).
    apply in_map_iff in Hcell as (z' & [= <- <- <-] & Hz).
    subst symmetric. unfold loop_lt in Hx.
    apply list_elem_of_In, elem_of_seqZ in Hx. lia.
  - intros Hx2. unfold SetMatrixRow_cells in Hcell.
    apply in_flat_map in Hcell as (x' & Hx & Hcell).
    apply in_flat_map in Hcell as (y' & Hy & Hcell).
    apply in_map_iff in Hcell as (z' & [= <- <- <-] & Hz).
    apply list_elem_of_In, elem_of_until_break in Hy as [_ Hy].
    rewrite H, Hx2 in Hy. rewrite andb_true_r in Hy. simpl in Hy.
    apply Z.ltb_ge in Hy. exact Hy.
  - intros Hx2 Hy2. unfold SetMatrixRow_cells in Hcell.
    apply in_flat_map in Hcell as (x' & Hx & Hcell).
    apply in_flat_map in Hcell as (y' & Hy & Hcell).
    apply in_map_iff in Hcell as (z' & [= <- <- <-] & Hz).
    apply list_elem_of_In, elem_of_until_break in Hz as [_ Hz].
    rewrite H, Hx2, Hy2 in Hz. rewrite andb_true_r in Hz. simpl in Hz.
    apply Z.ltb_ge in Hz. exact Hz.
Qed.

End Rows.

(** The row that [SetMatrixRow] writes never has more entries than
    [GetMatrixRowSize] has counted for the same range and symmetry flag,
    so the row allocated from that count is large enough.  Every entry
    written belongs to a neighbour that exists and has a non-negative
    [nodeIndex], carries that index less [offset] as its column and a
    non-zero value; in symmetric mode only cells of the table up to the
    central one (in the order of the loops) are written. *)
Theorem SetMatrixRow_fits_counted_size (neighbors5 : Z -> Z -> Z -> option NodePtr)
    (store : NodeStore) (value : Z -> Z -> Z -> Qc) (offset : Z) (range : Range3D)
    (symmetric : bool) (count : nat) :
  GetMatrixRowSize neighbors5 store range symmetric = Some count ->
  (length (SetMatrixRow neighbors5 store value offset range symmetric) <= count)%nat /\
  forall e, e ∈ SetMatrixRow neighbors5 store value offset range symmetric ->
    exists x y z _node,
      neighbors5 x y z = Some _node /\ (0 <= nodeIndex (store _node))%Z /\
      N e = (nodeIndex (store _node) - offset)%Z /\ Value e <> 0%Qc /\
      (symmetric = true ->
       (x <= 2)%Z /\ (x = 2%Z -> (y <= 2)%Z) /\ (x = 2%Z -> y = 2%Z -> (z <= 2)%Z)).
Proof.
  unfold GetMatrixRowSize.
  destruct (GetMatrixRowSize_cells neighbors5 store range symmetric) as [cells|] eqn:E;
    [|discriminate].
  intros [= <-]. split; [now apply row_fits|apply row_entries].
Qed.

(** The node of depth 2 at offset (1, 1, 1) of the complete tree, all
    stencil values 1, symmetric mode: 22 cells are counted and 22 entries
    written. *)
Lemma SetMatrixRow_fits_counted_size_witness :
  GetMatrixRowSize MoreSamples.inner_table5 MoreSamples.store_full2 FullRange true
  = Some 22%nat /\
  (length (SetMatrixRow MoreSamples.inner_table5 MoreSamples.store_full2
             (fun _ _ _ => 1%Qc) 9 FullRange true) <= 22)%nat.
Proof.
  assert (H : GetMatrixRowSize MoreSamples.inner_table5 MoreSamples.store_full2
                FullRange true = Some 22%nat) by (vm_compute; reflexivity).
  split; [exact H|].
  apply (SetMatrixRow_fits_counted_size MoreSamples.inner_table5 MoreSamples.store_full2
           (fun _ _ _ => 1%Qc) 9 FullRange true 22 H).
Defined.

End MatrixRowProperties.

(* ===================================================================== *)
(** * Properties of HasNormals and ClipTree *)
(* ===================================================================== *)

Module ClipProperties.
Import SparseMatrixInl MultiGridOctreeDataInl.
Import SortedTreeNodesProperties.

(** ** Trees *)

Lemma OctNode_children_ind (P : OctNode -> Prop) :
  (forall n, (forall c m, child_node n c = Some m -> P m) -> P n) ->
  forall n, P n.
Proof.
  intros H. induction n as [|c0 IH0 c1 IH1 c2 IH2 c3 IH3 c4 IH4 c5 IH5 c6 IH6 c7 IH7].
  - apply H. intros c m Hc. destruct c; discriminate.
  - apply H. intros c m Hc. unfold child_node, children in Hc.
    do 8 (destruct c as [|c]; [injection Hc as <-; assumption|]). destruct c; discriminate.
Qed.

Lemma subtree_app (q : NodePtr) : forall root p,
  subtree root (p ++ q)
  = match subtree root p with Some n => subtree n q | None => None end.
Proof.
  intros root p. revert root. induction p as [|c p IH]; intros root; simpl; [reflexivity|].
  destruct (child_node root c); [apply IH|reflexivity].
Qed.

Lemma child_node_set_child (n m : OctNode) (c d : nat) :
  child_node (set_child n c m) d
  = if hasChildren_node n && (c <? 8)%nat && (d =? c)%nat then Some m else child_node n d.
Proof.
  destruct n as [|c0 c1 c2 c3 c4 c5 c6 c7]; [destruct d; reflexivity|].
  do 8 (destruct c as [|c];
        [do 8 (destruct d as [|d]; [reflexivity|]); destruct d; reflexivity|]).
  cbn [set_child hasChildren_node andb].
  replace (S (S (S (S (S (S (S (S c))))))) <? 8)%nat with false
    by (symmetry; apply Nat.ltb_ge; lia).
  reflexivity.
Qed.

Lemma child_node_lt (n m : OctNode) (c : nat) :
  child_node n c = Some m -> hasChildren_node n = true /\ (c < 8)%nat.
Proof. intros H. apply child_node_Some. now exists m. Qed.

(** The nodes of the tree after [nullChildren]: those that are not proper
    descendants of [temp]. *)
Lemma is_node_nullChildren (temp : NodePtr) : forall root x,
  is_node (nullChildren root temp) x = true
  <-> is_node root x = true /\ ~ (exists c q, x = temp ++ c :: q).
Proof.
  induction temp as [|c temp IH]; intros root x.
  - simpl. unfold is_node. destruct x as [|d x]; simpl.
    + split; [intros _; split; [reflexivity|intros (c & q & H); discriminate]|reflexivity].
    + split; [discriminate|]. intros [_ H]. exfalso. apply H. now exists d, x.
  - cbn [nullChildren]. destruct (child_node root c) as [m|] eqn:Ec.
    + destruct x as [|d x].
      * unfold is_node. simpl.
        split; [intros _; split; [reflexivity|intros (? & ? & H); discriminate]|reflexivity].
      * unfold is_node. cbn [subtree]. rewrite child_node_set_child.
        destruct (child_node_lt _ _ _ Ec) as [Hh Hc]. rewrite Hh.
        apply Nat.ltb_lt in Hc. rewrite Hc. simpl.
        destruct (Nat.eqb_spec d c) as [->|Hne].
        -- rewrite Ec. specialize (IH m x). unfold is_node in IH. rewrite IH.
           split; intros [H1 H2]; (split; [exact H1|]).
           ++ intros (c' & q & [= ->]). apply H2. now exists c', q.
           ++ intros (c' & q & ->). apply H2. now exists c', q.
        -- split; [intros H; split; [exact H|]|intros [H _]; exact H].
           intros (c' & q & [= -> _]). contradiction.
    + split; [intros H; split; [exact H|]|intros [H _]; exact H].
      intros (c' & q & ->). unfold is_node in H. cbn [app subtree] in H.
      rewrite Ec in H. discriminate.
Qed.

Lemma hasChildren_is_node (root : OctNode) (p : NodePtr) :
  hasChildren root p = true <-> is_node root (child p 0) = true.
Proof. rewrite is_node_child. split; [intros H; split; [exact H|lia]|now intros [H _]]. Qed.

Lemma is_node_prefix (root : OctNode) (p q : NodePtr) :
  is_node root (p ++ q) = true -> is_node root p = true.
Proof.
  unfold is_node. rewrite subtree_app. destruct (subtree root p); [reflexivity|discriminate].
Qed.

(** ** [HasNormals] *)

Section Normals.
Variable store : NodeStore.
Variable normals : list Point3D.

Local Abbreviation own := (has_own_normal store normals).
Local Abbreviation HasNormals_node := (HasNormals_node store normals).
Local Abbreviation HasNormals := (HasNormals store normals).

Lemma HasNormals_node_unfold (n : OctNode) (p : NodePtr) :
  HasNormals_node n p
  = own p || existsb (fun c => match child_node n c with
                                | Some m => HasNormals_node m (child p c)
                                | None => false
                                end) (seq 0 8).
Proof.
  destruct n as [|c0 c1 c2 c3 c4 c5 c6 c7]; simpl; [reflexivity|].
  rewrite orb_false_r, !orb_assoc. reflexivity.
Qed.

Lemma HasNormals_node_spec (n : OctNode) : forall p,
  HasNormals_node n p = true
  <-> exists q, is_node n q = true /\ own (p ++ q) = true.
Proof.
  induction n as [n IH] using OctNode_children_ind. intros p.
  rewrite HasNormals_node_unfold, orb_true_iff, existsb_exists. split.
  - intros [H|(c & Hc & H)].
    + exists []. rewrite app_nil_r. split; [reflexivity|exact H].
    + destruct (child_node n c) as [m|] eqn:Ec; [|discriminate].
      apply (IH c m Ec) in H as (q & Hq & Ho). exists (c :: q).
      unfold is_node in *. cbn [subtree]. rewrite Ec. split; [exact Hq|].
      unfold child in Ho. now rewrite <- app_assoc in Ho.
  - intros (q & Hq & Ho). destruct q as [|c q].
    + left. now rewrite app_nil_r in Ho.
    + right. unfold is_node in Hq. cbn [subtree] in Hq.
      destruct (child_node n c) as [m|] eqn:Ec; [|discriminate].
      exists c. split.
      * apply in_seq. destruct (child_node_lt _ _ _ Ec). lia.
      * rewrite Ec. apply (IH c m Ec). exists q. split; [exact Hq|].
        unfold child. now rewrite <- app_assoc.
Qed.

Lemma HasNormals_spec (root : OctNode) (p : NodePtr) :
  HasNormals root p = true
  <-> exists q, is_node root (p ++ q) = true /\ own (p ++ q) = true.
Proof.
  unfold MultiGridOctreeDataInl.HasNormals.
  destruct (subtree root p) as [n|] eqn:Ep.
  - rewrite HasNormals_node_spec. split; intros (q & Hq & Ho); exists q; (split; [|exact Ho]).
    + unfold is_node in *. now rewrite subtree_app, Ep.
    + unfold is_node in *. now rewrite subtree_app, Ep in Hq.
  - split; [discriminate|]. intros (q & Hq & _).
    apply is_node_prefix in Hq. unfold is_node in Hq. now rewrite Ep in Hq.
Qed.

(** ** One visit of [ClipTree] *)

Variable minDepth_ : nat.

Local Abbreviation visit := (ClipTree_visit store normals minDepth_).

Lemma visit_cases (root : OctNode) (temp : NodePtr) :
  (visit root temp = root /\
   (hasChildren root temp = false \/ (depth temp < minDepth_)%nat)) \/
  (visit root temp = root /\
   exists c, (c < 8)%nat /\ HasNormals root (child temp c) = true) \/
  (visit root temp = nullChildren root temp /\ hasChildren root temp = true /\
   (minDepth_ <= depth temp)%nat /\
   forall c, (c < 8)%nat -> HasNormals root (child temp c) = false).
Proof.
  unfold ClipTree_visit.
  destruct (hasChildren root temp) eqn:Eh; [|left; split; [reflexivity|now left]].
  cbn [negb orb].
  destruct (Nat.ltb_spec (depth temp) minDepth_) as [Hd|Hd];
    [left; split; [reflexivity|now right]|].
  destruct (existsb (fun i => HasNormals root (child temp i)) (seq 0 8)) eqn:Ee.
  - right; left. split; [reflexivity|].
    apply existsb_exists in Ee as (c & Hin & Hc). apply in_seq in Hin.
    exists c. split; [lia|exact Hc].
  - right; right. repeat split; try assumption.
    intros c Hc. destruct (HasNormals root (child temp c)) eqn:E; [|reflexivity].
    assert (Ht : existsb (fun i => HasNormals root (child temp i)) (seq 0 8) = true).
    { apply existsb_exists. exists c. split; [apply in_seq; lia|exact E]. }
    congruence.
Qed.

(** A node with a normal at or below it is no proper descendant of a node
    none of whose children has normals. *)
Lemma normal_not_below (root : OctNode) (temp x : NodePtr) :
  (forall c, (c < 8)%nat -> HasNormals root (child temp c) = false) ->
  is_node root x = true -> own x = true ->
  ~ (exists c q, x = temp ++ c :: q).
Proof.
  intros Hnone Hx Ho (c & q & ->).
  assert (Hc : is_node root (child temp c) = true).
  { apply (is_node_prefix root (child temp c) q). unfold child.
    now rewrite <- app_assoc. }
  apply is_node_child in Hc as [_ Hc].
  assert (Hn : HasNormals root (child temp c) = true).
  { apply HasNormals_spec. exists q. unfold child. rewrite <- app_assoc. now split. }
  rewrite (Hnone c Hc) in Hn. discriminate.
Qed.

Lemma depth_below (temp : NodePtr) (c : nat) (q : NodePtr) :
  (depth temp < depth (temp ++ c :: q))%nat.
Proof. unfold depth. rewrite length_app. simpl. lia. Qed.

Lemma visit_spec (root : OctNode) (temp : NodePtr) :
  (forall x, is_node (visit root temp) x = true -> is_node root x = true) /\
  (forall x, is_node root x = true ->
             own x = true \/ (depth x <= minDepth_)%nat ->
             is_node (visit root temp) x = true) /\
  (forall x, HasNormals (visit root temp) x = HasNormals root x) /\
  (hasChildren (visit root temp) temp = true -> (minDepth_ <= depth temp)%nat ->
   exists c, (c < 8)%nat /\ HasNormals (visit root temp) (child temp c) = true).
Proof.
  destruct (visit_cases root temp)
    as [[-> Hskip]|[[-> Hsome]|(-> & Hh & Hd & Hnone)]].
  - repeat split; auto. intros Hc Hm. destruct Hskip as [H|H]; [congruence|lia].
  - repeat split; auto.
  - split; [|split; [|split]].
    + intros x Hx. now apply is_node_nullChildren in Hx.
    + intros x Hx Hkeep. apply is_node_nullChildren. split; [exact Hx|].
      destruct Hkeep as [Ho|Hdx]; [now apply (normal_not_below root)|].
      intros (c & q & ->). pose proof (depth_below temp c q). lia.
    + intros x. apply eq_true_iff_eq. rewrite !HasNormals_spec.
      split; intros (q & Hq & Ho); exists q; (split; [|exact Ho]).
      * now apply is_node_nullChildren in Hq.
      * apply is_node_nullChildren. split; [exact Hq|].
        now apply (normal_not_below root).
    + intros Hc _. apply hasChildren_is_node, is_node_nullChildren in Hc as [_ Hc].
      exfalso. apply Hc. exists 0%nat, []. reflexivity.
Qed.

(** ** The loop *)

Local Abbreviation ClipTree := (ClipTree store normals minDepth_).

Lemma ClipTree_spec (order : list NodePtr) : forall root,
  (forall x, is_node (ClipTree order root) x = true -> is_node root x = true) /\
  (forall x, is_node root x = true ->
             own x = true \/ (depth x <= minDepth_)%nat ->
             is_node (ClipTree order root) x = true) /\
  (forall x, HasNormals (ClipTree order root) x = HasNormals root x) /\
  (forall temp, In temp order ->
     hasChildren (ClipTree order root) temp = true -> (minDepth_ <= depth temp)%nat ->
     exists c, (c < 8)%nat /\ HasNormals (ClipTree order root) (child temp c) = true).
Proof.
  induction order as [|t order IH]; intros root.
  - repeat split; auto. intros temp [].
  - unfold MultiGridOctreeDataInl.ClipTree. cbn [fold_left].
    change (fold_left visit order (visit root t)) with (ClipTree order (visit root t)).
    destruct (IH (visit root t)) as (I1 & I2 & I3 & I4).
    destruct (visit_spec root t) as (V1 & V2 & V3 & V4).
    split; [|split; [|split]].
    + intros x Hx. apply V1, I1, Hx.
    + intros x Hx Hk. apply I2; [apply V2; assumption|exact Hk].
    + intros x. now rewrite I3, V3.
    + intros temp [<-|Hin] Hc Hd; [|now apply I4].
      destruct V4 as (c & Hc8 & Hn); [|exact Hd|].
      * apply hasChildren_is_node. apply I1. now apply hasChildren_is_node.
      * exists c. split; [exact Hc8|]. now rewrite I3.
Qed.

(** [ClipTree] only removes nodes, and it keeps what carries the normal
    field: a node that has a non-zero normal of its own, and every node of
    depth at most [minDepth_], is still in the tree afterwards, and
    [HasNormals] gives for every node the answer it gave before.  This holds
    for every order of the visits. *)
Theorem ClipTree_keeps_normals (order : list NodePtr) (root : OctNode) :
  (forall x, is_node (ClipTree order root) x = true -> is_node root x = true) /\
  (forall x, is_node root x = true ->
             own x = true \/ (depth x <= minDepth_)%nat ->
             is_node (ClipTree order root) x = true) /\
  (forall x, HasNormals (ClipTree order root) x = HasNormals root x).
Proof.
  destruct (ClipTree_spec order root) as (H1 & H2 & H3 & _). auto.
Qed.

(** After [ClipTree], a visited node of depth at least [minDepth_] that
    still has children has a child with a non-zero normal in its subtree. *)
Theorem ClipTree_leaves_no_empty_children
    (order : list NodePtr) (root : OctNode) (temp : NodePtr) :
  In temp order ->
  (minDepth_ <= depth temp)%nat ->
  hasChildren (ClipTree order root) temp = true ->
  exists c, (c < 8)%nat /\ HasNormals (ClipTree order root) (child temp c) = true.
Proof.
  intros Hin Hd Hc. destruct (ClipTree_spec order root) as (_ & _ & _ & H4). eauto.
Qed.

End Normals.

(** The complete tree of depth 2 with one normal, at the node [[0; 7]]:
    visited in the order root, [[0]], [[1]], the node [[0]] keeps its
    children and its child 7 has the normal; the node [[1]] loses its
    children. *)
Lemma ClipTree_leaves_no_empty_children_witness :
  let final := ClipTree MoreSamples.one_normal_store MoreSamples.one_normal 0
                 [[]; [0]; [1]]%nat MoreSamples.full2 in
  hasChildren final [1]%nat = false /\
  exists c, (c < 8)%nat /\
    HasNormals MoreSamples.one_normal_store MoreSamples.one_normal final
      (child [0]%nat c) = true.
Proof.
  intros final. split; [vm_compute; reflexivity|].
  apply (ClipTree_leaves_no_empty_children MoreSamples.one_normal_store
           MoreSamples.one_normal 0 [[]; [0]; [1]]%nat MoreSamples.full2 [0]%nat).
  - right; left; reflexivity.
  - unfold depth. simpl. lia.
  - vm_compute. reflexivity.
Defined.

(** The same tree: the node [[0; 7]] with the normal stays under
    [minDepth_ = 0], and so does the node [[1]] of depth 1 under
    [minDepth_ = 1]. *)
Lemma ClipTree_keeps_normals_witness :
  is_node (ClipTree MoreSamples.one_normal_store MoreSamples.one_normal 0
             [[]; [0]; [1]]%nat MoreSamples.full2) [0; 7]%nat = true /\
  is_node (ClipTree MoreSamples.one_normal_store MoreSamples.one_normal 1
             [[]; [0]; [1]]%nat MoreSamples.full2) [1]%nat = true.
Proof.
  split.
  - apply (ClipTree_keeps_normals MoreSamples.one_normal_store MoreSamples.one_normal 0
             [[]; [0]; [1]]%nat MoreSamples.full2); [reflexivity|left; vm_compute; reflexivity].
  - apply (ClipTree_keeps_normals MoreSamples.one_normal_store MoreSamples.one_normal 1
             [[]; [0]; [1]]%nat MoreSamples.full2); [reflexivity|right; unfold depth; simpl; lia].
Defined.

End ClipProperties.

(* ===================================================================== *)
(** * More on SortedTreeNodes::set *)
(* ===================================================================== *)

Module SetMoreProperties.
Import SparseMatrixInl MultiGridOctreeDataInl Notions MoreNotions.
Import SortedTreeNodesProperties.

Lemma length_all_paths (n : OctNode) : length (all_paths n) = nodes n.
Proof.
  induction n as [|c0 IH0 c1 IH1 c2 IH2 c3 IH3 c4 IH4 c5 IH5 c6 IH6 c7 IH7];
    [reflexivity|].
  cbn [all_paths nodes length]. rewrite !length_app, !length_map. lia.
Qed.

Lemma elem_of_all_paths (n : OctNode) : forall p,
  p ∈ all_paths n <-> is_node n p = true.
Proof.
  induction n as [|c0 IH0 c1 IH1 c2 IH2 c3 IH3 c4 IH4 c5 IH5 c6 IH6 c7 IH7]; intros p.
  - cbn [all_paths]. rewrite list_elem_of_singleton. unfold is_node.
    destruct p as [|c p]; [tauto|]. cbn [subtree]. destruct c; simpl; split; discriminate.
  - cbn [all_paths]. rewrite elem_of_cons, !elem_of_app, !list_elem_of_fmap.
    unfold is_node in *. destruct p as [|c p].
    + split; [reflexivity|now left].
    + cbn [subtree]. split.
      * intros [H|H]; [discriminate|].
        repeat (destruct H as [H|H]); destruct H as (q & [= -> ->] & Hq);
          cbn; first [now apply IH0 | now apply IH1 | now apply IH2 | now apply IH3
                     | now apply IH4 | now apply IH5 | now apply IH6 | now apply IH7].
      * intros H. right.
        do 8 (destruct c as [|c];
              [cbn in H;
               first [apply IH0 in H | apply IH1 in H | apply IH2 in H | apply IH3 in H
                     | apply IH4 in H | apply IH5 in H | apply IH6 in H | apply IH7 in H];
               eauto 12|]).
        destruct c; discriminate.
Qed.

Lemma NoDup_cons_paths (c : nat) (l : list NodePtr) : NoDup l -> NoDup (map (cons c) l).
Proof.
  intros H. assert (Hinj : Inj eq eq (@cons nat c)) by (intros x y [= ->]; reflexivity).
  now apply (NoDup_fmap_2 (cons c)).
Qed.

Lemma paths_disjoint (c d : nat) (l1 l2 : list NodePtr) (p : NodePtr) :
  c <> d -> p ∈ map (cons c) l1 -> p ∈ map (cons d) l2 -> False.
Proof.
  intros Hne H1 H2. apply list_elem_of_fmap in H1 as (q1 & -> & _).
  apply list_elem_of_fmap in H2 as (q2 & [= ->] & _). contradiction.
Qed.

Lemma NoDup_all_paths (n : OctNode) : NoDup (all_paths n).
Proof.
  induction n as [|c0 IH0 c1 IH1 c2 IH2 c3 IH3 c4 IH4 c5 IH5 c6 IH6 c7 IH7].
  - apply NoDup_singleton.
  - cbn [all_paths]. apply NoDup_cons_2.
    + rewrite !elem_of_app, !list_elem_of_fmap.
      intros H. repeat (destruct H as [H|H]); destruct H as (q & [=] & _).
    + repeat (apply list.NoDup_app; split;
              [now apply NoDup_cons_paths|split; [|]]);
        try now apply NoDup_cons_paths.
      all: intros p Hp; rewrite ?elem_of_app; intros Hq; decompose [or] Hq;
        (eapply paths_disjoint; [|exact Hp|eassumption]; lia).
Qed.

Section AfterSet.
Variable root : OctNode.
Variable store : NodeStore.

Local Abbreviation sNodes := (fst (set root store)).
Local Abbreviation store' := (snd (set root store)).

Lemma elem_of_sorted (p : NodePtr) :
  p ∈ treeNodes sNodes <-> is_node root p = true.
Proof.
  split.
  - intros H. apply list_elem_of_lookup in H as [k Hk].
    now destruct (sorted_lookup root store k p Hk).
  - intros H. destruct (sorted_complete root store p H) as [k Hk].
    apply list_elem_of_lookup. now exists k.
Qed.

Lemma NoDup_sorted : NoDup (treeNodes sNodes).
Proof. rewrite set_sorted. cbn [treeNodes]. apply NoDup_levels_upto. Qed.

End AfterSet.

(** [set(root)] lists every node of the tree exactly once: [treeNodes] has
    no repetition, holds exactly the nodes of the tree and so as many
    entries as [root.nodes()] counts; it is ordered by depth, the root
    first; and the pass changes no field but [nodeIndex], which it sets for
    every node of the tree and leaves alone elsewhere. *)
Theorem set_lists_every_node_once (root : OctNode) (store : NodeStore) :
  let sNodes := fst (set root store) in
  let store' := snd (set root store) in
  NoDup (treeNodes sNodes) /\
  (forall p, p ∈ treeNodes sNodes <-> is_node root p = true) /\
  length (treeNodes sNodes) = nodes root /\
  treeNodes sNodes !! 0%nat = Some [] /\
  (forall i j p q, (i <= j)%nat -> treeNodes sNodes !! i = Some p ->
                   treeNodes sNodes !! j = Some q -> (depth p <= depth q)%nat) /\
  (forall p, is_node root p = false -> store' p = store p) /\
  (forall p, is_node root p = true ->
     exists i, treeNodes sNodes !! i = Some p /\
               store' p = with_nodeIndex (Z.of_nat i) (store p)).
Proof.
  intros sNodes store'.
  assert (Hnd := NoDup_sorted root store).
  assert (Hel := elem_of_sorted root store).
  split; [exact Hnd|]. split; [exact Hel|]. split; [|split; [|split; [|split]]].
  - rewrite <- length_all_paths. apply Permutation_length.
    apply NoDup_Permutation; [exact Hnd|apply NoDup_all_paths|].
    intros p. rewrite elem_of_all_paths. apply Hel.
  - unfold sNodes. rewrite set_sorted. cbn [treeNodes].
    destruct (levels_upto_prefix root 1 (S (maxDepth root)) ltac:(lia)) as [rest ->].
    reflexivity.
  - intros i j p q Hij Hp Hq.
    destruct (sorted_lookup root store i p Hp) as (Hnp & _ & Hip).
    destruct (sorted_lookup root store j q Hq) as (Hnq & _ & Hjq).
    destruct (Nat.le_gt_cases (depth p) (depth q)) as [H|H]; [exact H|exfalso].
    pose proof (is_node_depth p root Hnp) as Hdp.
    pose proof (nodeCount_at_mono root store (S (depth q)) (depth p)
                  ltac:(unfold depth in *; lia)). lia.
  - intros p Hp. unfold store'. rewrite set_store.
    rewrite assign_indices_other.
    + unfold clear_indices. destruct p; [reflexivity|]. now rewrite Hp.
    + intros Hin. apply elem_of_levels_upto in Hin as [Hn _]. congruence.
  - intros p Hp. destruct (sorted_complete root store p Hp) as [i Hi].
    exists i. split; [exact Hi|].
    destruct (sorted_lookup root store i p Hi) as (_ & Hs & _).
    unfold store'. rewrite Hs. unfold clear_indices, with_nodeIndex.
    destruct p; [reflexivity|]. rewrite Hp. reflexivity.
Qed.

End SetMoreProperties.

(* ===================================================================== *)
(** * More on GetRoot *)
(* ===================================================================== *)

Module RootMoreProperties.
Import SparseMatrixInl MultiGridOctreeDataInl SpecMd MoreNotions QcArith.
Local Open Scope Qc_scope.

Lemma fdiv_Some (a b : Qc) : b <> 0 -> fdiv a b = Some (a / b).
Proof. intros H. unfold fdiv. now rewrite bool_decide_eq_false_2. Qed.

Lemma fdiv_None (a b : Qc) : fdiv a b = None <-> b = 0.
Proof.
  unfold fdiv. destruct (bool_decide (b = 0)) eqn:E.
  - apply bool_decide_eq_true in E. tauto.
  - apply bool_decide_eq_false in E. split; [discriminate|contradiction].
Qed.


Lemma GetRoot_vertex_averageRoot (roots : list Qc) (nonLinearFit : bool)
    (x0 x1 isoValue : Qc) (c : Qc * Qc * Qc) (w : Qc) (o : nat) (i1 i2 : Z) :
  vertex_averageRoot (GetRoot_vertex roots nonLinearFit x0 x1 isoValue c w o i1 i2)
  = fst (GetRoot_averageRoot roots nonLinearFit x0 x1 isoValue).
Proof.
  unfold GetRoot_vertex. destruct c as [[cx cy] cz].
  destruct (GetRoot_averageRoot roots nonLinearFit x0 x1 isoValue). reflexivity.
Qed.

(** ** The vertex is on the edge, but for [0 / 0] *)

(** The parameter that [GetRoot] uses is [NaN] exactly when the Hermite
    roots are not used and both corner values equal the iso-value.  In
    every other case it is a number of [0, 1] (an infinite quotient is
    clamped as well as a number outside), and the vertex is the point of
    the cell's edge [(o, i1, i2)] at that parameter. *)
Theorem GetRoot_vertex_on_edge_or_nan (roots : list Qc) (nonLinearFit : bool)
    (x0 x1 isoValue : Qc) (c : Qc * Qc * Qc) (w : Qc) (o : nat) (i1 i2 : Z) :
  let v := GetRoot_vertex roots nonLinearFit x0 x1 isoValue c w o i1 i2 in
  (vertex_averageRoot v = NaN <->
   (nonLinearFit = false \/ snd (roots_in_unit roots) = 0%nat) /\
   x0 = x1 /\ x0 = isoValue) /\
  (vertex_averageRoot v <> NaN ->
   exists r,
     GetRoot_position roots nonLinearFit x0 x1 isoValue c w o i1 i2 = Some r /\
     vertex_averageRoot v = Finite (averageRoot r) /\
     root_cerr r = vertex_cerr v /\
     0 <= averageRoot r /\ averageRoot r <= 1 /\
     between (edge_end c w o i1 i2 0) (edge_end c w o i1 i2 1) (averageRoot r)
       (position r) /\
     on_edge c w o i1 i2 (position r)).
Proof.
  intros v.
  assert (Hv : vertex_cerr v = snd (GetRoot_averageRoot roots nonLinearFit x0 x1 isoValue)).
  { unfold v, GetRoot_vertex. destruct c as [[cx cy] cz].
    destruct (GetRoot_averageRoot roots nonLinearFit x0 x1 isoValue). reflexivity. }
  unfold v at 1 2 3. rewrite GetRoot_vertex_averageRoot, Hv. clear v Hv.
  destruct (RootProperties.GetRoot_averageRoot_cases roots nonLinearFit x0 x1 isoValue)
    as [(Hf & H01 & H0i & Hnan)|(Hnot & q & cerr & Hq & Hq0 & Hq1)].
  - rewrite Hnan. cbn [fst]. split.
    + split; [intros _; repeat split; assumption|reflexivity].
    + intros H. now contradiction H.
  - rewrite Hq. cbn [fst snd]. split.
    + split; [discriminate|intros H; now contradiction Hnot].
    + intros _.
      destruct (RootProperties.GetRoot_position_finite roots nonLinearFit x0 x1 isoValue
                  c w o i1 i2 q cerr Hq) as (p & Hp & _ & Hb).
      eexists. split; [exact Hp|]. cbn [averageRoot position root_cerr].
      repeat split; try assumption.
      exists q. repeat split; assumption.
Qed.

(** ** The linear fit *)



(** ** The Hermite spline *)

(** The scaling of the slopes by [scl] turns the cubic Hermite spline of
    the corner values and slopes into a quadratic: the polynomial that
    [GetRoot] solves takes the values [x0] at 0 and [x1] at 1 and has there
    the scaled slopes, and the cubic coefficient
    [2 (x0 - x1) + dx0 + dx1] of the Hermite spline vanishes.  The
    coefficients have no finite value exactly when the slopes cancel
    ([dx0 + dx1 = 0]). *)
Theorem GetRoot_hermite_is_quadratic (x0 x1 dx0 dx1 : Qc) :
  (GetRoot_coefficients x0 x1 dx0 dx1 = None <-> dx0 + dx1 = 0) /\
  forall s0 s1 P, GetRoot_coefficients x0 x1 dx0 dx1 = Some (s0, s1, P) ->
    poly2_at P 0 = x0 /\ poly2_at P 1 = x1 /\
    poly2_slope_at P 0 = s0 /\ poly2_slope_at P 1 = s1 /\
    Q2Qc (2 # 1) * (x0 - x1) + s0 + s1 = 0 /\
    s0 * (dx0 + dx1) = Q2Qc (2 # 1) * (x1 - x0) * dx0 /\
    s1 * (dx0 + dx1) = Q2Qc (2 # 1) * (x1 - x0) * dx1.
Proof.
  unfold GetRoot_coefficients.
  assert (Hhalf : (dx1 + dx0) / Q2Qc (2 # 1) = 0 <-> dx0 + dx1 = 0).
  { split; intros H; qc_to_q; lra. }
  split.
  - destruct (fdiv (x1 - x0) ((dx1 + dx0) / Q2Qc (2 # 1))) eqn:E.
    + split; [discriminate|]. intros H. apply Hhalf in H.
      apply (fdiv_None (x1 - x0)) in H. congruence.
    + apply fdiv_None in E. tauto.
  - intros s0 s1 P. unfold fdiv.
    destruct (bool_decide ((dx1 + dx0) / Q2Qc (2 # 1) = 0)) eqn:E; [discriminate|].
    apply bool_decide_eq_false in E.
    assert (Hs : dx0 + dx1 <> 0) by tauto.
    intros [= <- <- <-]. cbn [poly2_at poly2_slope_at].
    assert (H2 : Q2Qc (2 # 1) <> 0) by discriminate.
    assert (Hs' : dx1 + dx0 <> 0) by (rewrite Qcplus_comm; exact Hs).
    set (scl := (x1 - x0) / ((dx1 + dx0) / Q2Qc (2 # 1))).
    assert (Hscl : scl * (dx0 + dx1) = Q2Qc (2 # 1) * (x1 - x0)).
    { unfold scl. field. split; assumption. }
    clearbody scl. clear - Hscl.
    repeat split; qc_to_q; nra.
Qed.

(** Corner values [-1] and [3] with the slopes [1] and [3]: the
    coefficients exist and the polynomial takes the value [3] at 1. *)
Lemma GetRoot_hermite_is_quadratic_witness :
  exists s0 s1 P,
    GetRoot_coefficients (- (1)) (Q2Qc (3 # 1)) 1 (Q2Qc (3 # 1)) = Some (s0, s1, P) /\
    poly2_at P 1 = Q2Qc (3 # 1).
Proof.
  destruct (GetRoot_hermite_is_quadratic (- (1)) (Q2Qc (3 # 1)) 1 (Q2Qc (3 # 1)))
    as [Hnone Hsome].
  destruct (GetRoot_coefficients (- (1)) (Q2Qc (3 # 1)) 1 (Q2Qc (3 # 1)))
    as [[[s0 s1] P]|].
  - exists s0, s1, P. split; [reflexivity|]. now destruct (Hsome s0 s1 P eq_refl) as (_ & H & _).
  - exfalso. pose proof (proj1 Hnone eq_refl) as H. apply Qc_eq_Qeq in H. discriminate H.
Defined.

End RootMoreProperties.

(* ===================================================================== *)
(** * More on GetIsoValue: the iso-value as a weighted mean *)
(* ===================================================================== *)

Module IsoMoreProperties.
Import SparseMatrixInl MultiGridOctreeDataInl Notions MoreNotions QcArith.
Import SortedTreeNodesProperties.
Local Open Scope Qc_scope.

Lemma at_insert (cv : Vector) (k j : nat) (q : Qc) :
  (k < length cv)%nat ->
  at_ (assign_at cv k q) (Z.of_nat j) = if decide (k = j) then q else at_ cv (Z.of_nat j).
Proof.
  intros Hk. unfold at_, assign_at.
  destruct (Z.ltb_spec (Z.of_nat j) 0) as [H|_]; [lia|].
  rewrite Nat2Z.id, !nth_lookup, list_lookup_insert.
  destruct (decide (k = j)) as [->|Hne].
  - rewrite decide_True by (split; [reflexivity|exact Hk]). reflexivity.
  - rewrite decide_False by (intros [? _]; contradiction). reflexivity.
Qed.

Lemma fold_add_map {A} (f : A -> Qc) (l : list A) : forall acc,
  fold_left (fun value c => value + f c) l acc = fold_left Qcplus (map f l) acc.
Proof. induction l as [|x l IH]; intros acc; simpl; [reflexivity|apply IH]. Qed.

Section Invariant.
Variable root : OctNode.
Variables store0 store : NodeStore.
Variable OutputDensity : bool.
Variable minDepth_ : nat.
Variable getCenterValue : NodePtr -> Qc.

Local Abbreviation sNodes := (fst (set root store0)).
Local Abbreviation count := (nodeCount_at sNodes).
Local Abbreviation total := (nodeCount_at sNodes (S (maxDepth root))).
Local Abbreviation step := (iso_node root store sNodes OutputDensity getCenterValue).

Hypothesis indexed : forall i p,
  treeNodes sNodes !! i = Some p -> nodeIndex (store p) = Z.of_nat i.

(** The values a node may take, the weights, and what is kept of the two
    sums. *)
Variable V : Qc -> Prop.
Variable W : Qc -> Prop.
Variable S_ : Qc -> Qc -> Prop.

Hypothesis V_leaf : forall p,
  is_node root p = true -> hasChildren root p = false -> V (getCenterValue p).
Hypothesis V_mean : forall l,
  length l = 8%nat -> Forall V l -> V (fold_left Qcplus l 0 / Q2Qc (8 # 1)).
Hypothesis W_all : forall p,
  is_node root p = true -> W (centerWeight OutputDensity (store p)).
Hypothesis S_zero : S_ 0 0.
Hypothesis S_step : forall iso ws v w,
  V v -> W w -> S_ iso ws -> S_ (iso + v * w) (ws + w).

Local Abbreviation during := (iso_during sNodes total V S_).
Local Abbreviation before := (iso_before sNodes total V S_).

Lemma depth_of_position (d k : nat) (p : NodePtr) :
  (d <= maxDepth root)%nat -> (count d <= k < count (S d))%nat ->
  treeNodes sNodes !! k = Some p -> depth p = d.
Proof.
  intros Hd Hk Hp. destruct (sorted_lookup root store0 k p Hp) as (Hn & _ & Hr).
  pose proof (is_node_depth p root Hn) as Hdp. unfold depth in *.
  destruct (Nat.lt_trichotomy (length p) d) as [H|[H|H]]; [exfalso| exact H |exfalso].
  - pose proof (nodeCount_at_mono root store0 (S (length p)) d ltac:(lia)). lia.
  - pose proof (nodeCount_at_mono root store0 (S d) (length p) ltac:(lia)). lia.
Qed.

Lemma step_during (d k : nat) (st : iso_state) :
  (d <= maxDepth root)%nat -> (count d <= k < count (S d))%nat ->
  during d k st -> during d (S k) (step st k).
Proof.
  intros Hd Hk (Hlen & Hcv & Hs).
  pose proof (nodeCount_at_mono root store0 (S d) (S (maxDepth root)) ltac:(lia)) as Htot.
  assert (Hkt : (k < length (treeNodes sNodes))%nat).
  { rewrite sorted_length. rewrite set_sorted at 2. cbn [sMaxDepth]. lia. }
  destruct (lookup_lt_is_Some_2 _ _ Hkt) as [node Hnode].
  unfold iso_node. rewrite Hnode.
  destruct (sorted_lookup root store0 k node Hnode) as (Hn & _ & _).
  pose proof (depth_of_position d k node Hd Hk Hnode) as Hdepth.
  set (value := if hasChildren root node then _ else _).
  assert (Hv : V value).
  { unfold value. destruct (hasChildren root node) eqn:Eh; [|now apply V_leaf].
    rewrite fold_add_map. apply V_mean; [now rewrite length_map, length_seq|].
    apply Forall_forall. intros q Hq. apply in_map_iff in Hq as (c & <- & Hc).
    apply in_seq in Hc.
    destruct (sorted_children root store0 k node Hnode Eh) as (first & Hlo & Hhi & Hch).
    rewrite (indexed _ _ (Hch c ltac:(lia))). apply Hcv. left.
    rewrite Hdepth in Hlo, Hhi.
    pose proof (hasChildren_depth root node Eh) as Hdn. unfold depth in Hdepth.
    pose proof (nodeCount_at_mono root store0 (S (S d)) (S (maxDepth root)) ltac:(lia)).
    lia. }
  assert (Hcv' : forall j, (count (S d) <= j < total)%nat \/ (count d <= j < S k)%nat ->
                           V (at_ (assign_at (centerValues st) k value) (Z.of_nat j))).
  { intros j Hj. rewrite at_insert by lia.
    destruct (decide (k = j)) as [_|Hne]; [exact Hv|]. apply Hcv. lia. }
  assert (Hlen' : length (assign_at (centerValues st) k value) = total).
  { unfold assign_at. now rewrite length_insert. }
  destruct (bool_decide (centerWeight OutputDensity (store node) = 0)).
  - repeat split; assumption.
  - repeat split; try assumption. cbn [isoValue weightSum].
    apply S_step; [exact Hv|now apply W_all|exact Hs].
Qed.

Lemma positions_during (d : nat) (n : nat) : forall k st,
  (d <= maxDepth root)%nat -> (count d <= k)%nat -> (k + n <= count (S d))%nat ->
  during d k st -> during d (k + n) (fold_left step (seq k n) st).
Proof.
  induction n as [|n IH]; intros k st Hd Hlo Hhi Hst.
  - now rewrite Nat.add_0_r.
  - cbn [seq fold_left]. replace (k + S n)%nat with (S k + n)%nat by lia.
    apply IH; [exact Hd|lia|lia|]. apply step_during; [exact Hd|lia|exact Hst].
Qed.

Lemma depth_pass (d : nat) (st : iso_state) :
  (d <= maxDepth root)%nat ->
  before (S d) st -> before d (fold_left step (depth_range sNodes d) st).
Proof.
  intros Hd (Hlen & Hcv & Hs). unfold depth_range.
  pose proof (nodeCount_at_mono root store0 d (S d) ltac:(lia)) as Hmono.
  destruct (positions_during d (count (S d) - count d) (count d) st Hd ltac:(lia) ltac:(lia))
    as (Hlen' & Hcv' & Hs').
  { repeat split; [exact Hlen| |exact Hs]. intros j [Hj|Hj]; [now apply Hcv|lia]. }
  repeat split; [exact Hlen'| |exact Hs'].
  intros j Hj. apply Hcv'.
  pose proof (nodeCount_at_mono root store0 (S d) (S (maxDepth root)) ltac:(lia)). lia.
Qed.

Lemma depth_passes (n : nat) : forall m st,
  (m + n <= S (maxDepth root))%nat ->
  before (m + n) st ->
  before m (fold_left (fun st d => fold_left step (depth_range sNodes d) st)
              (rev (seq m n)) st).
Proof.
  induction n as [|n IH]; intros m st Hle Hst.
  - now rewrite Nat.add_0_r in Hst.
  - rewrite seq_S, rev_app_distr. cbn [rev app fold_left].
    apply IH; [lia|]. apply depth_pass; [lia|].
    now replace (S (m + n)) with (m + S n)%nat by lia.
Qed.

Lemma iso_sums_kept :
  S_ (isoValue (iso_sums root store sNodes OutputDensity minDepth_ getCenterValue))
     (weightSum (iso_sums root store sNodes OutputDensity minDepth_ getCenterValue)).
Proof.
  unfold iso_sums, iso_depths.
  destruct (Nat.le_gt_cases minDepth_ (S (maxDepth root))) as [Hle|Hgt].
  - apply (depth_passes (S (maxDepth root) - minDepth_) minDepth_); [lia|].
    replace (minDepth_ + (S (maxDepth root) - minDepth_))%nat
      with (S (maxDepth root)) by lia.
    repeat split; [apply repeat_length| |exact S_zero]. intros j Hj. lia.
  - replace (S (maxDepth root) - minDepth_)%nat with 0%nat by lia. exact S_zero.
Qed.

End Invariant.

Ltac eight_values l H :=
  do 8 (destruct l as [|? l]; [discriminate|]); destruct l; [|discriminate];
  repeat match goal with
  | F : Forall _ (_ :: _) |- _ => inversion F; subst; clear F
  | F : Forall _ [] |- _ => clear F
  end; clear H; cbn [fold_left].

Lemma mean_of_equal (a : Qc) (l : list Qc) :
  length l = 8%nat -> Forall (fun v => v = a) l ->
  fold_left Qcplus l 0 / Q2Qc (8 # 1) = a.
Proof. intros H F. eight_values l H. qc_to_q. field. Qed.

Lemma mean_between (a b : Qc) (l : list Qc) :
  length l = 8%nat -> Forall (fun v => a <= v /\ v <= b) l ->
  a <= fold_left Qcplus l 0 / Q2Qc (8 # 1) /\ fold_left Qcplus l 0 / Q2Qc (8 # 1) <= b.
Proof.
  intros H F. eight_values l H.
  repeat match goal with H : _ /\ _ |- _ => destruct H end.
  split; qc_to_q; lra.
Qed.

Lemma weighted_step (a b iso ws v w : Qc) :
  a <= v /\ v <= b -> 0 <= w ->
  a * ws <= iso /\ iso <= b * ws /\ 0 <= ws ->
  a * (ws + w) <= iso + v * w /\ iso + v * w <= b * (ws + w) /\ 0 <= ws + w.
Proof.
  intros [Hv1 Hv2] Hw (H1 & H2 & H3). repeat split; qc_to_q; nra.
Qed.

(** The iso-value is a weighted mean of the center values of the leaves.
    After [set(root)], in any state in which the [nodeIndex] of a node is
    its position: if the center value of every leaf lies in [a, b] and no
    center weight is negative, and the weight sum is not zero, the value
    that [GetIsoValue] returns is [v - r] for some [v] in [a, b] ([r] the
    Dirichlet offset).  A constant field [a = b] is reproduced whatever the
    signs of the weights. *)
Theorem GetIsoValue_is_weighted_mean (root : OctNode) (store0 store : NodeStore)
    (boundaryType_ : BoundaryType) (OutputDensity : bool) (minDepth_ : nat)
    (getCenterValue : NodePtr -> Qc) (a b : Qc) :
  let sNodes := fst (set root store0) in
  let sums := iso_sums root store sNodes OutputDensity minDepth_ getCenterValue in
  let r := match boundaryType_ with
           | BoundaryTypeDirichlet => Q2Qc (1 # 2)
           | _ => 0
           end in
  (forall i p, treeNodes sNodes !! i = Some p -> nodeIndex (store p) = Z.of_nat i) ->
  (forall p, is_node root p = true -> hasChildren root p = false ->
             a <= getCenterValue p /\ getCenterValue p <= b) ->
  a = b \/ (forall p, is_node root p = true -> 0 <= centerWeight OutputDensity (store p)) ->
  weightSum sums <> 0 ->
  exists v,
    GetIsoValue root store sNodes boundaryType_ OutputDensity minDepth_ getCenterValue
    = Some (v - r) /\ a <= v /\ v <= b.
Proof.
  intros sNodes sums r Hidx Hleaf Hcase Hws.
  exists (isoValue sums / weightSum sums). split.
  { unfold GetIsoValue, fdiv. fold sNodes. fold sums.
    rewrite bool_decide_eq_false_2 by exact Hws. reflexivity. }
  destruct Hcase as [<-|Hpos].
  - assert (Hs : isoValue sums = a * weightSum sums).
    { apply (iso_sums_kept root store0 store OutputDensity minDepth_ getCenterValue Hidx
               (fun v => v = a) (fun _ => True) (fun iso ws => iso = a * ws)).
      - intros p Hn Hc. destruct (Hleaf p Hn Hc). now apply Qcle_antisym.
      - apply mean_of_equal.
      - trivial.
      - ring.
      - intros iso ws v w -> _ ->. ring. }
    rewrite Hs.
    replace (a * weightSum sums / weightSum sums) with a by (field; exact Hws).
    split; apply Qcle_refl.
  - assert (Hs : a * weightSum sums <= isoValue sums /\
                 isoValue sums <= b * weightSum sums /\ 0 <= weightSum sums).
    { apply (iso_sums_kept root store0 store OutputDensity minDepth_ getCenterValue Hidx
               (fun v => a <= v /\ v <= b) (fun w => 0 <= w)
               (fun iso ws => a * ws <= iso /\ iso <= b * ws /\ 0 <= ws)).
      - exact Hleaf.
      - apply mean_between.
      - exact Hpos.
      - repeat split; qc_to_q; lra.
      - intros iso ws v w. apply weighted_step. }
    destruct Hs as (H1 & H2 & H3).
    apply div_between; [|exact H1|exact H2].
    apply Qcle_lt_or_eq in H3 as [H3|H3]; [exact H3|congruence].
Qed.

(** The root with its eight children, every node with the center weight 2
    and every leaf with the center value 1, under Dirichlet: the value
    returned is [1 - 1/2]. *)
Lemma GetIsoValue_is_weighted_mean_witness :
  GetIsoValue Samples.tree1 (fun p => with_centerWeight0 (Q2Qc (2 # 1)) (Samples.store1 p))
    Samples.sorted1 BoundaryTypeDirichlet false 0 (fun _ => 1)
  = Some (Q2Qc (1 # 2)).
Proof.
  destruct (GetIsoValue_is_weighted_mean Samples.tree1 Samples.fresh_store
              (fun p => with_centerWeight0 (Q2Qc (2 # 1)) (Samples.store1 p))
              BoundaryTypeDirichlet false 0 (fun _ => 1) 1 1)
    as (v & Hv & Hlo & Hhi).
  - intros i p Hp.
    destruct (sorted_lookup Samples.tree1 Samples.fresh_store i p Hp) as (_ & Hst & _).
    unfold Samples.store1. rewrite Hst. reflexivity.
  - intros p _ _. split; apply Qcle_refl.
  - now left.
  - vm_compute. discriminate.
  - change (fst (set Samples.tree1 Samples.fresh_store)) with Samples.sorted1 in Hv.
    rewrite Hv. f_equal. rewrite (Qcle_antisym _ _ Hhi Hlo). apply Qc_is_canon. reflexivity.
Defined.

End IsoMoreProperties.

(* ===================================================================== *)
(** * Properties of GetEdgeLoops *)
(* ===================================================================== *)

Module EdgeLoopProperties.
Import MultiGridOctreeDataInl MoreNotions.

(** ** Edges up to order and orientation *)

Section Flipped.
Context {A : Type}.
Implicit Types e : A * A.
Implicit Types l : list (A * A).

Lemma flipped_refl e : flipped e e.
Proof. now left. Qed.

Lemma flipped_trans e1 e2 e3 : flipped e1 e2 -> flipped e2 e3 -> flipped e1 e3.
Proof.
  destruct e1 as [a b]. unfold flipped. intros [->| ->] [->| ->]; simpl; auto.
Qed.

Lemma Forall2_flipped_refl l : Forall2 flipped l l.
Proof. induction l; constructor; [apply flipped_refl|assumption]. Qed.

Lemma Forall2_flipped_trans l1 : forall l2 l3,
  Forall2 flipped l1 l2 -> Forall2 flipped l2 l3 -> Forall2 flipped l1 l3.
Proof.
  induction l1 as [|x l1 IH]; intros l2 l3 H12 H23.
  - inversion H12; subst. inversion H23; subst. constructor.
  - inversion H12; subst. inversion H23; subst. constructor.
    + eapply flipped_trans; eassumption.
    + eapply IH; eassumption.
Qed.

Lemma Forall2_across_Permutation (m l l' : list (A * A)) :
  Forall2 flipped m l -> Permutation l l' ->
  exists m', Permutation m m' /\ Forall2 flipped m' l'.
Proof.
  intros H Hp. revert m H. induction Hp as [|x l l' Hp IH|x y l|l l' l'' Hp1 IH1 Hp2 IH2];
    intros m H.
  - inversion H; subst. exists []. split; constructor.
  - inversion H as [|x0 ? m0 ? Hx Hm]; subst. destruct (IH _ Hm) as (m' & Hpm & Hf).
    exists (x0 :: m'). split; [now constructor|now constructor].
  - inversion H as [|y0 ? m0 ? Hy Hm]; subst.
    inversion Hm as [|x0 ? m1 ? Hx Hm1]; subst.
    exists (x0 :: y0 :: m1). split; [apply perm_swap|].
    constructor; [exact Hx|constructor; [exact Hy|exact Hm1]].
  - destruct (IH1 _ H) as (m1 & Hp1' & Hf1). destruct (IH2 _ Hf1) as (m2 & Hp2' & Hf2).
    exists m2. split; [now transitivity m1|exact Hf2].
Qed.

Lemma same_edges_perm l l' : Permutation l l' -> same_edges l l'.
Proof. intros H. exists l'. split; [exact H|apply Forall2_flipped_refl]. Qed.

Lemma same_edges_refl l : same_edges l l.
Proof. now apply same_edges_perm. Qed.

Lemma same_edges_trans l1 l2 l3 : same_edges l1 l2 -> same_edges l2 l3 -> same_edges l1 l3.
Proof.
  intros (m1 & Hp1 & Hf1) (m2 & Hp2 & Hf2).
  destruct (Forall2_across_Permutation m1 l2 m2 Hf1 Hp2) as (m & Hpm & Hfm).
  exists m. split; [now transitivity m1|].
  eapply Forall2_flipped_trans; eassumption.
Qed.

Lemma same_edges_app l1 l1' l2 l2' :
  same_edges l1 l1' -> same_edges l2 l2' -> same_edges (l1 ++ l2) (l1' ++ l2').
Proof.
  intros (m1 & Hp1 & Hf1) (m2 & Hp2 & Hf2). exists (m1 ++ m2). split.
  - now apply Permutation_app.
  - now apply Forall2_app.
Qed.

Lemma same_edges_flip l l' : Forall2 flipped l l' -> same_edges l l'.
Proof. intros H. exists l. split; [reflexivity|exact H]. Qed.

Lemma same_edges_replace l l' rest e e' :
  flipped e e' -> Permutation l (e :: rest) -> Permutation (e' :: rest) l' ->
  same_edges l l'.
Proof.
  intros Hf Hp Hp'.
  apply (same_edges_trans _ (e :: rest)); [now apply same_edges_perm|].
  apply (same_edges_trans _ (e' :: rest)); [|now apply same_edges_perm].
  apply same_edges_flip. constructor; [exact Hf|apply Forall2_flipped_refl].
Qed.

Lemma same_edges_length l l' : same_edges l l' -> length l = length l'.
Proof.
  intros (m & Hp & Hf). rewrite (Permutation_length Hp). eapply Forall2_length; exact Hf.
Qed.

Lemma same_edges_elem l l' e' :
  same_edges l l' -> e' ∈ l' -> exists e, e ∈ l /\ flipped e e'.
Proof.
  intros (m & Hp & Hf) Hin.
  apply list_elem_of_lookup in Hin as [i Hi].
  destruct (Forall2_lookup_r _ _ _ _ _ Hf Hi) as (e & He & Hfl).
  exists e. split; [|exact Hfl]. rewrite Hp. apply list_elem_of_lookup. now exists i.
Qed.

Variable key : A -> Z.

Lemma touches_flipped k e e' : flipped e e' -> touches key k e' -> touches key k e.
Proof. unfold touches. intros [->| ->]; simpl; tauto. Qed.

(** ** Chains *)

Lemma last_cons_default (a d : A * A) l : List.last (a :: l) d = List.last l a.
Proof.
  revert a d. induction l as [|b l IH]; intros a d; [reflexivity|].
  change (List.last (a :: b :: l) d) with (List.last (b :: l) d).
  now rewrite (IH b d), (IH b a).
Qed.

Lemma last_app_cons l1 l2 (e0 d : A * A) : List.last (l1 ++ e0 :: l2) d = List.last l2 e0.
Proof.
  induction l1 as [|a l1 IH]; [apply last_cons_default|].
  simpl. destruct (l1 ++ e0 :: l2) eqn:E; [destruct l1; discriminate|exact IH].
Qed.

Lemma hd_rev_app l1 : forall l2 (e0 d : A * A),
  hd d (rev l1 ++ e0 :: l2) = List.last l1 e0.
Proof.
  induction l1 as [|a l1 IH]; intros l2 e0 d; [reflexivity|].
  cbn [rev]. rewrite <- app_assoc. cbn [app]. rewrite IH. symmetry. apply last_cons_default.
Qed.

Lemma chain_snoc l (t d : A * A) :
  l <> [] -> chain key l -> key (snd (List.last l d)) = key (fst t) -> chain key (l ++ [t]).
Proof.
  induction l as [|a l IH]; [contradiction|]. intros _ Hc Hl.
  destruct l as [|b l]; [split; [exact Hl|exact I]|].
  destruct Hc as [Hab Hc]. cbn [app chain]. split; [exact Hab|].
  apply IH; [discriminate|exact Hc|exact Hl].
Qed.

Lemma chain_cons l (t d : A * A) :
  l <> [] -> chain key l -> key (snd t) = key (fst (hd d l)) -> chain key (t :: l).
Proof. destruct l as [|a l]; [contradiction|]. intros _ Hc Hl. split; assumption. Qed.

End Flipped.

(** ** The scan and the removal *)

Section Loops.
Variable RootInfo : Type.
Variable key : RootInfo -> Z.

Local Abbreviation edge := (RootInfo * RootInfo)%type.
Local Abbreviation first_match := (first_match RootInfo key).
Local Abbreviation grow := (grow RootInfo key).
Local Abbreviation next_loop := (next_loop RootInfo key).
Local Abbreviation GetEdgeLoops_from := (GetEdgeLoops_from RootInfo key).

Lemma swap_remove_perm (j : nat) (edges : list edge) (e : edge) :
  edges !! j = Some e -> Permutation edges (e :: swap_remove j edges).
Proof.
  destruct edges as [|a edges] using rev_ind; [discriminate|]. clear IHedges.
  intros Hj. unfold swap_remove.
  replace (length (edges ++ [a]) - 1)%nat with (length edges + 0)%nat
    by (rewrite length_app; simpl; lia).
  rewrite lookup_app_r, Nat.add_0_r, Nat.sub_diag by lia. cbn [lookup list_lookup].
  destruct (Nat.lt_trichotomy j (length edges)) as [Hlt|[->|Hgt]].
  - rewrite insert_app_l by exact Hlt. rewrite removelast_last.
    rewrite lookup_app_l in Hj by exact Hlt.
    rewrite insert_take_drop by exact Hlt.
    rewrite <- (take_drop_middle edges j e Hj) at 1.
    rewrite <- !app_assoc. cbn [app].
    rewrite <- !Permutation_middle. now rewrite app_nil_r.
  - rewrite lookup_app_r, Nat.sub_diag in Hj by lia. injection Hj as <-.
    rewrite insert_app_r_alt, Nat.sub_diag by lia. cbn [insert list_insert].
    rewrite removelast_last. symmetry. apply Permutation_cons_append.
  - apply lookup_lt_Some in Hj. rewrite length_app in Hj. simpl in Hj. lia.
Qed.

Lemma length_swap_remove (j : nat) (edges : list edge) (e : edge) :
  edges !! j = Some e -> S (length (swap_remove j edges)) = length edges.
Proof. intros H. now rewrite (Permutation_length (swap_remove_perm j edges e H)). Qed.

Lemma first_match_Some (edges : list edge) (f b : Z) (n : nat) :
  forall j s e, first_match edges f b n = Some (j, s, e) ->
    edges !! j = Some e /\
    match s with Front => touches key f e | Back => touches key b e end.
Proof.
  induction n as [|n IH]; intros j s e H; [discriminate|]. cbn [MultiGridOctreeDataInl.first_match] in H.
  destruct (edges !! n) as [ej|] eqn:En; [|now apply IH].
  destruct ((key (fst ej) =? f)%Z || (key (snd ej) =? f)%Z) eqn:Ef.
  - injection H as <- <- <-. split; [exact En|].
    apply orb_true_iff in Ef. unfold touches. rewrite !Z.eqb_eq in Ef. exact Ef.
  - destruct ((key (fst ej) =? b)%Z || (key (snd ej) =? b)%Z) eqn:Eb; [|now apply IH].
    injection H as <- <- <-. split; [exact En|].
    apply orb_true_iff in Eb. unfold touches. rewrite !Z.eqb_eq in Eb. exact Eb.
Qed.

Lemma first_match_None (edges : list edge) (f b : Z) (n : nat) :
  first_match edges f b n = None ->
  forall j e, (j < n)%nat -> edges !! j = Some e ->
    ~ touches key f e /\ ~ touches key b e.
Proof.
  induction n as [|n IH]; intros H j e Hj He; [lia|]. cbn [MultiGridOctreeDataInl.first_match] in H.
  destruct (edges !! n) as [ej|] eqn:En.
  - destruct ((key (fst ej) =? f)%Z || (key (snd ej) =? f)%Z) eqn:Ef; [discriminate|].
    destruct ((key (fst ej) =? b)%Z || (key (snd ej) =? b)%Z) eqn:Eb; [discriminate|].
    destruct (Nat.eq_dec j n) as [->|Hne]; [|apply (IH H j e); [lia|exact He]].
    rewrite En in He. injection He as <-.
    apply orb_false_iff in Ef as [Ef1 Ef2]. apply orb_false_iff in Eb as [Eb1 Eb2].
    apply Z.eqb_neq in Ef1, Ef2, Eb1, Eb2. unfold touches. tauto.
  - destruct (Nat.eq_dec j n) as [->|Hne]; [congruence|]. apply (IH H j e); [lia|exact He].
Qed.

(** ** One loop *)

(** What the loop over [j] keeps, for the edges [E] it started with and
    the first edge [e0] of the loop. *)
Local Abbreviation kept := (loop_kept key).

Lemma grow_kept (E : list edge) (e0 : edge) (fuel : nat) : forall st,
  kept E e0 st -> kept E e0 (grow fuel st).
Proof.
  induction fuel as [|fuel IH]; intros st Hst; [exact Hst|].
  cbn [MultiGridOctreeDataInl.grow].
  destruct (first_match (ls_edges st) (frontIdx st) (backIdx st) (length (ls_edges st)))
    as [[[j s] ej]|] eqn:Em; [|exact Hst].
  destruct (first_match_Some _ _ _ _ _ _ _ Em) as [Hj Ht].
  destruct Hst as (Hsame & Hchain & Hf & Hb).
  pose proof (swap_remove_perm j _ _ Hj) as Hperm.
  destruct s; apply IH.
  - set (temp := if (key (fst ej) =? frontIdx st)%Z then ej else (snd ej, fst ej)).
    assert (Hflip : flipped ej temp).
    { unfold temp. destruct (key (fst ej) =? frontIdx st)%Z; [now left|now right]. }
    assert (Hstart : key (fst temp) = frontIdx st).
    { unfold temp. destruct (Z.eqb_spec (key (fst ej)) (frontIdx st)) as [H|H]; [exact H|].
      destruct Ht as [Ht|Ht]; [contradiction|exact Ht]. }
    repeat split; cbn [ls_edges front back frontIdx backIdx].
    + apply (same_edges_trans _ _ _ Hsame).
      apply (same_edges_replace _ _ (swap_remove j (ls_edges st) ++ back st ++ front st)
               ej temp Hflip).
      * now rewrite Hperm at 1.
      * rewrite !app_assoc. apply Permutation_cons_append.
    + replace (rev (back st) ++ e0 :: front st ++ [temp])
        with ((rev (back st) ++ e0 :: front st) ++ [temp])
        by (now rewrite <- app_assoc).
      apply (chain_snoc key _ temp e0); [now destruct (rev (back st))|exact Hchain|].
      rewrite last_app_cons, Hstart. now rewrite Hf.
    + now rewrite last_last.
    + exact Hb.
  - set (temp := if (key (snd ej) =? backIdx st)%Z then ej else (snd ej, fst ej)).
    assert (Hflip : flipped ej temp).
    { unfold temp. destruct (key (snd ej) =? backIdx st)%Z; [now left|now right]. }
    assert (Hend : key (snd temp) = backIdx st).
    { unfold temp. destruct (Z.eqb_spec (key (snd ej)) (backIdx st)) as [H|H]; [exact H|].
      destruct Ht as [Ht|Ht]; [exact Ht|contradiction]. }
    repeat split; cbn [ls_edges front back frontIdx backIdx].
    + apply (same_edges_trans _ _ _ Hsame).
      apply (same_edges_replace _ _ (swap_remove j (ls_edges st) ++ back st ++ front st)
               ej temp Hflip).
      * now rewrite Hperm at 1.
      * rewrite (Permutation_app_comm (back st) [temp]). cbn [app].
        rewrite <- Permutation_middle. reflexivity.
    + rewrite rev_app_distr. cbn [rev app].
      apply (chain_cons key _ temp e0); [now destruct (rev (back st))|exact Hchain|].
      rewrite hd_rev_app, Hend. now rewrite Hb.
    + exact Hf.
    + now rewrite last_last.
Qed.

Lemma grow_done (fuel : nat) : forall st,
  (length (ls_edges st) <= fuel)%nat ->
  let st' := grow fuel st in
  first_match (ls_edges st') (frontIdx st') (backIdx st') (length (ls_edges st')) = None.
Proof.
  induction fuel as [|fuel IH]; intros st Hlen.
  - cbn. replace (length (ls_edges st)) with 0%nat by lia. reflexivity.
  - cbn [MultiGridOctreeDataInl.grow].
    destruct (first_match (ls_edges st) (frontIdx st) (backIdx st) (length (ls_edges st)))
      as [[[j s] ej]|] eqn:Em; [|exact Em].
    destruct (first_match_Some _ _ _ _ _ _ _ Em) as [Hj _].
    pose proof (length_swap_remove j _ _ Hj) as Hl.
    destruct s; apply IH; cbn [ls_edges]; lia.
Qed.

Lemma grow_fuel (fuel1 : nat) : forall fuel2 st,
  (length (ls_edges st) <= fuel1)%nat -> (length (ls_edges st) <= fuel2)%nat ->
  grow fuel1 st = grow fuel2 st.
Proof.
  induction fuel1 as [|fuel1 IH]; intros fuel2 st H1 H2.
  - destruct fuel2 as [|fuel2]; [reflexivity|]. cbn.
    replace (length (ls_edges st)) with 0%nat by lia. reflexivity.
  - destruct fuel2 as [|fuel2].
    + cbn. replace (length (ls_edges st)) with 0%nat by lia. reflexivity.
    + cbn [MultiGridOctreeDataInl.grow].
      destruct (first_match (ls_edges st) (frontIdx st) (backIdx st) (length (ls_edges st)))
        as [[[j s] ej]|] eqn:Em; [|reflexivity].
      destruct (first_match_Some _ _ _ _ _ _ _ Em) as [Hj _].
      pose proof (length_swap_remove j _ _ Hj) as Hl.
      destruct s; apply IH; cbn [ls_edges]; lia.
Qed.

Lemma next_loop_spec (edges loop rest : list edge) (d : edge) :
  next_loop edges = Some (loop, rest) ->
  same_edges edges (loop ++ rest) /\ chain key loop /\ loop <> [] /\
  (length rest < length edges)%nat /\
  forall e, e ∈ rest ->
    ~ touches key (key (fst (hd d loop))) e /\
    ~ touches key (key (snd (List.last loop d))) e.
Proof.
  unfold MultiGridOctreeDataInl.next_loop. destruct edges as [|e0 t]; [discriminate|].
  set (edges := e0 :: t). set (edges' := swap_remove 0 edges).
  set (st0 := mkLoopState edges' (key (snd e0)) (key (fst e0)) [] []).
  intros [= <- <-].
  assert (Hperm : Permutation edges (e0 :: edges')) by (now apply swap_remove_perm).
  assert (H0 : kept edges' e0 st0).
  { split; [|split; [exact I|split; reflexivity]].
    cbn [st0 ls_edges back front app]. rewrite app_nil_r. apply same_edges_refl. }
  pose proof (grow_kept edges' e0 (length edges') st0 H0) as (Hsame & Hchain & Hf & Hb).
  pose proof (grow_done (length edges') st0 (Nat.le_refl _)) as Hdone. cbv zeta in Hdone.
  set (st := grow (length edges') st0) in *.
  assert (Hall : same_edges edges ((rev (back st) ++ [e0] ++ front st) ++ ls_edges st)).
  { apply (same_edges_trans _ (e0 :: edges')); [now apply same_edges_perm|].
    apply (same_edges_trans _ ([e0] ++ ls_edges st ++ back st ++ front st)).
    - apply (same_edges_app [e0] [e0]); [apply same_edges_refl|exact Hsame].
    - apply same_edges_perm. rewrite <- (Permutation_rev (back st)). cbn [app].
      rewrite <- app_assoc. cbn [app]. rewrite <- Permutation_middle. apply perm_skip.
      rewrite (Permutation_app_comm (ls_edges st)). now rewrite <- app_assoc. }
  split; [exact Hall|]. split; [exact Hchain|].
  split; [now destruct (rev (back st))|]. split.
  - apply same_edges_length in Hall. rewrite !length_app in Hall. cbn [length] in Hall.
    rewrite Hall. lia.
  - intros e He. apply list_elem_of_lookup in He as [j Hj].
    destruct (first_match_None _ _ _ _ Hdone j e (lookup_lt_Some _ _ _ Hj) Hj) as [Hnf Hnb].
    cbn [app]. rewrite hd_rev_app, last_app_cons. rewrite <- Hf, <- Hb. now split.
Qed.

(** ** All loops *)

Lemma loops_fuel (fuel1 : nat) : forall fuel2 edges,
  (length edges <= fuel1)%nat -> (length edges <= fuel2)%nat ->
  GetEdgeLoops_from fuel1 edges = GetEdgeLoops_from fuel2 edges.
Proof.
  induction fuel1 as [|fuel1 IH]; intros fuel2 edges H1 H2.
  - destruct edges; [|simpl in H1; lia]. destruct fuel2; reflexivity.
  - destruct fuel2 as [|fuel2].
    + destruct edges; [reflexivity|simpl in H2; lia].
    + cbn [MultiGridOctreeDataInl.GetEdgeLoops_from].
      destruct (next_loop edges) as [[loop rest]|] eqn:En; [|reflexivity].
      destruct edges as [|e0 t]; [discriminate|].
      destruct (next_loop_spec _ _ _ e0 En) as (_ & _ & _ & Hlen & _).
      f_equal. apply IH; lia.
Qed.

Lemma loops_spec (fuel : nat) : forall edges,
  (length edges <= fuel)%nat ->
  let loops := GetEdgeLoops_from fuel edges in
  same_edges edges (concat loops) /\
  Forall (fun loop => loop <> [] /\ chain key loop) loops /\
  forall i j li lj e d, (i < j)%nat -> loops !! i = Some li -> loops !! j = Some lj ->
    e ∈ lj ->
    ~ touches key (key (fst (hd d li))) e /\
    ~ touches key (key (snd (List.last li d))) e.
Proof.
  induction fuel as [|fuel IH]; intros edges Hlen.
  - destruct edges; [|simpl in Hlen; lia]. cbn.
    split; [apply same_edges_refl|]. split; [constructor|]. intros i j li lj e d _ H. discriminate.
  - cbn [MultiGridOctreeDataInl.GetEdgeLoops_from].
    destruct (next_loop edges) as [[loop rest]|] eqn:En.
    + destruct edges as [|e0 t]; [discriminate|].
      pose proof (fun d => next_loop_spec _ _ _ d En) as Hn.
      destruct (Hn e0) as (Hsame & Hchain & Hne & Hlt & _).
      destruct (IH rest ltac:(lia)) as (Hs' & Hf' & Hm').
      cbv zeta. cbn [concat]. split; [|split].
      * apply (same_edges_trans _ _ _ Hsame).
        apply same_edges_app; [apply same_edges_refl|exact Hs'].
      * constructor; [now split|exact Hf'].
      * intros i j li lj e d Hij Hi Hj He.
        destruct j as [|j]; [lia|]. cbn in Hj.
        destruct i as [|i].
        -- cbn in Hi. injection Hi as <-.
           assert (Hin : e ∈ concat (GetEdgeLoops_from fuel rest)).
           { apply list_elem_of_In, in_concat. exists lj.
             split; apply list_elem_of_In; [|exact He].
             apply list_elem_of_lookup. now exists j. }
           destruct (same_edges_elem _ _ _ Hs' Hin) as (x & Hx & Hfl).
           destruct (Hn d) as (_ & _ & _ & _ & Hmax).
           destruct (Hmax x Hx) as [H1 H2].
           split; intros Ht; [apply H1|apply H2]; now apply (touches_flipped key _ x e).
        -- cbn in Hi. apply (Hm' i j li lj e d); [lia|assumption..].
    + destruct edges; [|discriminate]. cbn.
      split; [apply same_edges_refl|]. split; [constructor|].
      intros i j li lj e d _ H. discriminate.
Qed.

End Loops.

(** [GetEdgeLoops] sorts the edges into chains and loses none: the loops
    together hold the edges handed in, each once, in some order and some
    with their two ends exchanged; no loop is empty, and in every loop each
    edge ends at the key at which the next one starts.  A loop is closed
    off only when it cannot grow: no edge of a later loop has an end at
    the first or the last key of an earlier loop.  The function returns
    for every input: each pass takes at least one edge, and more passes
    than there are edges change nothing. *)
Theorem GetEdgeLoops_partitions_edges (RootInfo : Type) (key : RootInfo -> Z)
    (edges : list (RootInfo * RootInfo)) :
  let loops := GetEdgeLoops RootInfo key edges in
  same_edges edges (concat loops) /\
  Forall (fun loop => loop <> [] /\ chain key loop) loops /\
  (forall i j li lj e d, (i < j)%nat -> loops !! i = Some li -> loops !! j = Some lj ->
     e ∈ lj ->
     ~ touches key (key (fst (hd d li))) e /\
     ~ touches key (key (snd (List.last li d))) e) /\
  (forall fuel, (length edges <= fuel)%nat ->
     GetEdgeLoops_from RootInfo key fuel edges = loops).
Proof.
  intros loops.
  destruct (loops_spec RootInfo key (length edges) edges (Nat.le_refl _)) as (H1 & H2 & H3).
  split; [exact H1|]. split; [exact H2|]. split; [exact H3|].
  intros fuel Hfuel. apply loops_fuel; [exact Hfuel|apply Nat.le_refl].
Qed.

(** Five edges: the chain from key 0 to key 4, in which the edge [(4, 3)]
    is turned round, and the single edge [(5, 6)]. *)
Lemma GetEdgeLoops_partitions_edges_witness :
  GetEdgeLoops Z (fun k => k) MoreSamples.five_edges
  = [[(0, 1); (1, 2); (2, 3); (3, 4)]; [(5, 6)]]%Z /\
  same_edges MoreSamples.five_edges
    (concat (GetEdgeLoops Z (fun k => k) MoreSamples.five_edges)).
Proof.
  split; [vm_compute; reflexivity|].
  apply (GetEdgeLoops_partitions_edges Z (fun k => k) MoreSamples.five_edges).
Defined.

End EdgeLoopProperties.

(* ===================================================================== *)
(** * Properties of IsBoundaryFace, IsBoundaryEdge and refineBoundary *)
(* ===================================================================== *)

Module BoundaryProperties.
Import MultiGridOctreeDataInl MoreNotions.
Local Open Scope Z_scope.

Lemma rem_zero_divide (a m : Z) : 0 < m -> (Z.rem a m =? 0) = true <-> (m | a).
Proof. intros Hm. rewrite Z.eqb_eq. apply Z.rem_divide. lia. Qed.

Lemma divide_double (a m : Z) : 0 < m -> (2 * m | 2 * a) <-> (m | a).
Proof.
  intros Hm. split.
  - intros [q Hq]. exists q. lia.
  - intros [q Hq]. exists q. lia.
Qed.

Lemma face_test (k c s : Z) :
  0 < k ->
  (Z.rem (Z.shiftl c 1 + Z.shiftl s 1) (Z.shiftl 2 k) =? 0) = true <-> (2 ^ k | c + s).
Proof.
  intros Hk. rewrite !Z.shiftl_mul_pow2 by lia.
  assert (Hp : 0 < 2 ^ k) by (apply Z.pow_pos_nonneg; lia).
  rewrite rem_zero_divide by lia.
  replace (c * 2 ^ 1 + s * 2 ^ 1) with (2 * (c + s)) by lia.
  apply divide_double. exact Hp.
Qed.

Lemma edge_test (k v : Z) :
  0 < k -> (Z.rem v (Z.shiftl 1 k) =? 0) = true <-> (2 ^ k | v).
Proof.
  intros Hk. rewrite Z.shiftl_mul_pow2 by lia. rewrite Z.mul_1_l.
  apply rem_zero_divide. apply Z.pow_pos_nonneg; lia.
Qed.

Lemma bool_eq_iff (a b : bool) : (a = true <-> b = true) -> a = b.
Proof. destruct a, b; intuition congruence. Qed.

Lemma low_bits (k v : Z) :
  0 < k ->
  ((Z.land v (Z.shiftl 1 k - 1) =? 0) = true <-> (2 ^ k | v)) /\
  ((Z.land v (Z.shiftl 1 k - 1) =? Z.shiftl 1 k - 1) = true <-> (2 ^ k | v + 1)).
Proof.
  intros Hk. rewrite Z.shiftl_mul_pow2 by lia. rewrite Z.mul_1_l.
  assert (Hp : 0 < 2 ^ k) by (apply Z.pow_pos_nonneg; lia).
  replace (2 ^ k - 1) with (Z.ones k) by (rewrite Z.ones_equiv; lia).
  rewrite Z.land_ones by lia. rewrite Z.ones_equiv, !Z.eqb_eq.
  rewrite <- !Z.mod_divide by lia.
  split; [reflexivity|].
  pose proof (Z.mod_pos_bound v (2 ^ k) Hp) as Hb.
  split; intros H.
  - rewrite <- Zplus_mod_idemp_l, H.
    replace (Z.pred (2 ^ k) + 1) with (2 ^ k) by lia. apply Z_mod_same_full.
  - rewrite <- Zplus_mod_idemp_l in H.
    destruct (Z.eq_dec (v mod 2 ^ k) (Z.pred (2 ^ k))) as [E|E]; [exact E|exfalso].
    rewrite Z.mod_small in H by lia. lia.
Qed.

(** Below the subdivision depth ([0 <= sDepth < depth]) a face of a cell is
    a boundary face exactly when its plane is one of the planes of the grid
    of depth [sDepth], that is when [o[dir] + offset] is a multiple of
    [2^(depth - sDepth)].  [IsBoundaryEdge] agrees with [IsBoundaryFace]:
    an edge is a boundary edge exactly when one of the two faces across it
    is a boundary face.  So does [refineBoundary]: its table [boundary]
    marks the faces that [IsBoundaryFace] reports, except those on the
    border of the whole grid. *)
Theorem boundary_tests_agree (FactorFaceIndex : Z -> nat * Z) (node : NodePtr)
    (sDepth : Z) :
  0 <= sDepth < Z.of_nat (depth node) ->
  let k := Z.of_nat (depth node) - sDepth in
  let face f := IsBoundaryFace FactorFaceIndex node f sDepth in
  (forall f dir side, FactorFaceIndex f = (dir, side) ->
     face f = true <-> (2 ^ k | coordinate (offset node) dir + side)) /\
  (forall dir x y f1 f2, (dir < 3)%nat ->
     FactorFaceIndex f1 = (fst (other_axes dir), x) ->
     FactorFaceIndex f2 = (snd (other_axes dir), y) ->
     IsBoundaryEdge node dir x y sDepth = Some (face f1 || face f2)) /\
  (forall dir f0 f1,
     FactorFaceIndex f0 = (dir, 0) -> FactorFaceIndex f1 = (dir, 1) ->
     let o := coordinate (offset node) dir in
     refine_boundary (depth node) sDepth o
     = (negb (o =? 0) && face f0, negb (o =? 2 ^ Z.of_nat (depth node) - 1) && face f1)).
Proof.
  intros Hs k face.
  assert (Hk : 0 < k) by (unfold k; lia).
  assert (Hface : forall f dir side, FactorFaceIndex f = (dir, side) ->
            face f = true <-> (2 ^ k | coordinate (offset node) dir + side)).
  { intros f dir side Hf. unfold face, IsBoundaryFace, depthAndOffset. rewrite Hf.
    destruct (Z.ltb_spec sDepth 0) as [H|_]; [lia|].
    destruct (Z.leb_spec (Z.of_nat (depth node)) sDepth) as [H|_]; [lia|].
    apply face_test. exact Hk. }
  split; [exact Hface|]. split.
  - intros dir x y f1 f2 Hdir Hf1 Hf2.
    unfold IsBoundaryEdge, depthAndOffset.
    destruct (Z.ltb_spec sDepth 0) as [H|_]; [lia|].
    destruct (Z.leb_spec (Z.of_nat (depth node)) sDepth) as [H|_]; [lia|].
    pose proof (Hface f1 _ _ Hf1) as H1. pose proof (Hface f2 _ _ Hf2) as H2.
    fold k.
    destruct dir as [|[|[|dir]]]; [| | |lia]; cbn [other_axes fst snd] in H1, H2;
      f_equal; f_equal; apply bool_eq_iff; rewrite edge_test by exact Hk;
      symmetry; assumption.
  - intros dir f0 f1 Hf0 Hf1 o. unfold refine_boundary. fold k.
    pose proof (Hface f0 _ _ Hf0) as H0. pose proof (Hface f1 _ _ Hf1) as H1.
    fold o in H0, H1. rewrite Z.add_0_r in H0.
    destruct (low_bits k o Hk) as [Hlo Hhi].
    rewrite (Z.shiftl_mul_pow2 1 (Z.of_nat (depth node))) by lia. rewrite Z.mul_1_l.
    f_equal; f_equal; apply bool_eq_iff.
    + now rewrite Hlo, H0.
    + now rewrite Hhi, H1.
Qed.

(** The node of depth 3 at offset (3, 4, 4) with [sDepth = 1]: its low
    face across the second axis lies on a plane of the grid of depth 1,
    and the edges along the first axis through that face are boundary
    edges. *)
Lemma boundary_tests_agree_witness :
  let FactorFaceIndex := fun f : Z => (Z.to_nat (f / 2), f mod 2) in
  IsBoundaryFace FactorFaceIndex [6; 1; 1]%nat 2 1 = true /\
  IsBoundaryEdge [6; 1; 1]%nat 0 0 0 1 = Some true.
Proof.
  intros FactorFaceIndex.
  destruct (boundary_tests_agree FactorFaceIndex [6; 1; 1]%nat 1) as (Hf & He & _);
    [unfold depth; simpl; lia|].
  assert (H2 : IsBoundaryFace FactorFaceIndex [6; 1; 1]%nat 2 1 = true).
  { apply (Hf 2 1%nat 0); [reflexivity|]. exists 1. reflexivity. }
  split; [exact H2|].
  rewrite (He 0%nat 0 0 2 4); [|lia|reflexivity|reflexivity].
  now rewrite H2.
Defined.

(** ** [refineBoundary] *)

(** The depth [sDepth] that [refineBoundary] returns, for a tree of depth
    [maxDepth].  With a Dirichlet or Neumann boundary it is [maxDepth] less
    the subdivision depth clamped to [0 .. maxDepth], so between 0 and
    [maxDepth], and it is 0 (the case in which nothing is refined)
    exactly when [max(subdivideDepth, 0) >= maxDepth].  With [BoundaryTypeNone] it
    is never below 2, so that case is never taken, and for a tree of depth
    below 2 the value is 2, above [maxDepth]. *)
Theorem refineBoundary_sDepth_range (boundaryType_ : BoundaryType)
    (maxDepth subdivideDepth : Z) :
  0 <= maxDepth ->
  let sDepth := refineBoundary_sDepth boundaryType_ maxDepth subdivideDepth in
  (boundaryType_ <> BoundaryTypeNone ->
     sDepth = maxDepth - Z.min (Z.max subdivideDepth 0) maxDepth /\
     0 <= sDepth <= maxDepth /\ (sDepth = 0 <-> maxDepth <= Z.max subdivideDepth 0)) /\
  (boundaryType_ = BoundaryTypeNone ->
     sDepth = Z.max 2 (maxDepth - 2 - Z.max subdivideDepth 0) /\
     2 <= sDepth /\ (sDepth <= maxDepth <-> 2 <= maxDepth)).
Proof.
  intros Hm sDepth. unfold sDepth, refineBoundary_sDepth. split.
  - intros Hbt. destruct boundaryType_; [contradiction| |]; cbn [is_BoundaryTypeNone]; lia.
  - intros ->. cbn [is_BoundaryTypeNone]. lia.
Qed.

(** A tree of depth 1 without boundary conditions: the depth returned
    is 2. *)
Lemma refineBoundary_sDepth_range_witness :
  refineBoundary_sDepth BoundaryTypeNone 1 0 = 2 /\
  ~ refineBoundary_sDepth BoundaryTypeNone 1 0 <= 1.
Proof.
  destruct (refineBoundary_sDepth_range BoundaryTypeNone 1 0) as [_ H]; [lia|].
  destruct (H eq_refl) as (Heq & _ & Hle). split; [exact Heq|]. lia.
Defined.

Lemma refine_direction_range (boundary : bool * bool) (lo hi : bool) :
  let v := refine_direction boundary lo hi in v = -1 \/ v = 0 \/ v = 1.
Proof.
  unfold refine_direction.
  destruct (fst boundary && negb lo); [now left|].
  destruct (snd boundary && negb hi); [now right; right|now right; left].
Qed.

Lemma refine_flags_spec (x y z i j k : Z) :
  x = -1 \/ x = 0 \/ x = 1 -> y = -1 \/ y = 0 \/ y = 1 -> z = -1 \/ z = 0 \/ z = 1 ->
  refine_flags x y z i j k = true <->
  (~ (i = 1 /\ j = 1 /\ k = 1) /\ (i = 1 \/ i = 1 + x) /\ (j = 1 \/ j = 1 + y) /\
   (k = 1 \/ k = 1 + z) /\ ~ (i = 1 /\ j <> 1 /\ k = 0))
  \/ (i = 1 /\ j = 1 + y /\ y <> 0 /\ z = -1 /\ k = 2).
Proof.
  intros Hx Hy Hz. split.
  - unfold refine_flags. cbv beta zeta. intros H.
    repeat match goal with
    | H : _ \/ _ |- _ => destruct H
    | H : _ || _ = true |- _ => apply orb_true_iff in H
    | H : _ && _ = true |- _ => apply andb_true_iff in H; destruct H
    | H : (_ =? _) = true |- _ => apply Z.eqb_eq in H
    | H : negb _ = true |- _ => apply negb_true_iff in H; apply Z.eqb_neq in H
    end; subst; try lia.
  - intros [(Hc & Hi & Hj & Hk & Hm)|(-> & -> & Hy0 & -> & ->)].
    + destruct Hx as [->|[->| ->]], Hy as [->|[->| ->]], Hz as [->|[->| ->]],
        Hi as [->| ->], Hj as [->| ->], Hk as [->| ->];
        first [reflexivity | exfalso; lia].
    + destruct Hx as [->|[->| ->]], Hy as [->|[->| ->]];
        first [reflexivity | exfalso; lia].
Qed.

(** The neighbours that [refineBoundary] asks [setNeighbors] to create
    for a leaf, [(x, y, z)] being the directions in which the leaf lies at
    a subdivision boundary and lacks its face neighbour.  The cell
    [(1, 1, 1)] of the leaf itself is never flagged, and a flagged cell
    lies at [1] or [1 + x], [1] or [1 + y], [1] or [1 + z] on the three
    axes, with one exception: for the edge across [y] and [z] the cell
    [(1, 1 + y, 2)] is flagged whatever the sign of [z], so that for
    [z = -1] the edge neighbour [(1, 1 + y, 0)] is not flagged and
    [(1, 1 + y, 2)] is. *)
Theorem refineBoundary_flags (bx b_y bz : bool * bool) (x0 x1 y0 y1 z0 z1 : bool)
    (i j k : Z) :
  let x := refine_direction bx x0 x1 in
  let y := refine_direction b_y y0 y1 in
  let z := refine_direction bz z0 z1 in
  refine_flags x y z i j k = true <->
  (~ (i = 1 /\ j = 1 /\ k = 1) /\ (i = 1 \/ i = 1 + x) /\ (j = 1 \/ j = 1 + y) /\
   (k = 1 \/ k = 1 + z) /\ ~ (i = 1 /\ j <> 1 /\ k = 0))
  \/ (i = 1 /\ j = 1 + y /\ y <> 0 /\ z = -1 /\ k = 2).
Proof.
  intros x y z. apply refine_flags_spec; apply refine_direction_range.
Qed.

(** A leaf at the low subdivision boundary across [y] and across [z],
    without those two face neighbours: [y = z = -1]; the cell [(1, 0, 2)]
    is flagged and the edge neighbour [(1, 0, 0)] is not. *)
Lemma refineBoundary_flags_witness :
  let x := refine_direction (false, false) false false in
  let y := refine_direction (true, false) false false in
  let z := refine_direction (true, false) false false in
  refine_flags x y z 1 0 2 = true /\ refine_flags x y z 1 0 0 = false.
Proof.
  intros x y z. split.
  - apply (refineBoundary_flags (false, false) (true, false) (true, false)
             false false false false false false 1 0 2).
    right. cbn. lia.
  - destruct (refine_flags x y z 1 0 0) eqn:E; [exfalso|reflexivity].
    apply (refineBoundary_flags (false, false) (true, false) (true, false)
             false false false false false false 1 0 0) in E.
    cbn in E. lia.
Defined.

End BoundaryProperties.

(* ===================================================================== *)
(** * More on UpSample: the weights of a fine node sum to one *)
(* ===================================================================== *)

Module UpSampleMoreProperties.
Import SparseMatrixInl MultiGridOctreeDataInl Notions MoreNotions QcArith.
Import MultiplyProperties SortedTreeNodesProperties UpDownSampleProperties.
Local Open Scope Qc_scope.

Lemma total_cons {T : Type} (a : T) (l : list T) (f : T -> Qc) :
  total (a :: l) f = f a + total l f.
Proof. reflexivity. Qed.

Lemma total_app {T : Type} (l1 l2 : list T) (f : T -> Qc) :
  total (l1 ++ l2) f = total l1 f + total l2 f.
Proof.
  induction l1 as [|a l1 IH]; [cbn [app]; change (total [] f) with (0 : Qc); ring|].
  cbn [app]. rewrite !total_cons, IH. ring.
Qed.

Lemma total_flat_map {T U : Type} (g : T -> list U) (l : list T) (f : U -> Qc) :
  total (flat_map g l) f = total l (fun a => total (g a) f).
Proof.
  induction l as [|a l IH]; [reflexivity|]. cbn [flat_map]. rewrite total_app, IH. reflexivity.
Qed.

Lemma total_only {T : Type} (l : list T) (i : T) (f : T -> Qc) :
  NoDup l -> i ∈ l -> (forall a, a ∈ l -> a <> i -> f a = 0) -> total l f = f i.
Proof.
  induction l as [|a l IH]; intros Hnd Hin Hz; [inversion Hin|].
  apply list.NoDup_cons in Hnd as [Hna Hnd]. rewrite total_cons.
  apply elem_of_cons in Hin as [->|Hin].
  - rewrite (total_ext l f (fun _ => 0)); [rewrite total_zero; ring|].
    intros b Hb. apply Hz; [now right|]. intros ->. contradiction.
  - rewrite IH; [|exact Hnd|exact Hin|intros b Hb Hne; apply Hz; [now right|exact Hne]].
    rewrite (Hz a); [ring|now left|]. intros ->. contradiction.
Qed.

(** The two weights of an axis sum to one away from the border of the
    grid, and at the border under the Neumann boundary. *)
Lemma usData_sum (boundaryType_ : BoundaryType) (depth : nat) (o : Z) :
  (0 < o /\ o + 1 < 2 ^ Z.of_nat depth)%Z \/ boundaryType_ = BoundaryTypeNeumann ->
  v (usData_of boundaryType_ depth o) 0 + v (usData_of boundaryType_ depth o) 1 = 1.
Proof.
  intros H. unfold usData_of.
  destruct (Z.eqb_spec o 0) as [E0|E0].
  - destruct H as [H| ->]; [lia|]. cbn. ring.
  - destruct (Z.eqb_spec (o + 1) (2 ^ Z.of_nat depth)) as [E1|E1].
    + destruct H as [H| ->]; [lia|]. cbn. ring.
    + destruct (negb (o mod 2 =? 0)%Z); cbn; apply Qc_is_canon; reflexivity.
Qed.

Section FineNode.
Variable root : OctNode.
Variables store0 st : NodeStore.
Variable boundaryType_ : BoundaryType.
Variable d : nat.
Variable i : nat.
Variable p : NodePtr.
Variables ox oy oz : Z.

Local Abbreviation sNodes := (fst (set root store0)).
Local Abbreviation usx := (usData_of boundaryType_ d ox).
Local Abbreviation usy := (usData_of boundaryType_ d oy).
Local Abbreviation usz := (usData_of boundaryType_ d oz).

Hypothesis index_consistent :
  forall k q, treeNodes sNodes !! k = Some q -> nodeIndex (st q) = Z.of_nat k.
Hypothesis at_i : treeNodes sNodes !! i = Some p.
Hypothesis offset_p : offset p = (ox, oy, oz).
Hypothesis weights : forall o, o ∈ [ox; oy; oz] ->
  (0 < o /\ o + 1 < 2 ^ Z.of_nat d)%Z \/ boundaryType_ = BoundaryTypeNeumann.
Hypothesis neighbours : forall pp ii jj kk,
  parent p = Some pp -> (ii < 2)%nat -> (jj < 2)%nat -> (kk < 2)%nat ->
  getNeighbors3 root pp (ii + start usx) (jj + start usy) (kk + start usz) = None ->
  v usx ii * v usy jj * v usz kk = 0.

(** The calls for one place of the table of the parent. *)
Lemma cell_weight (pp : NodePtr) (ii jj kk : nat) :
  parent p = Some pp -> (ii < 2)%nat -> (jj < 2)%nat -> (kk < 2)%nat ->
  total match getNeighbors3 root pp (ii + start usx) (jj + start usy) (kk + start usz) with
        | Some node =>
            if (nodeIndex (st node) =? -1)%Z then []
            else [mkUpSampleCall i node (usx, usy, usz) (ii, jj, kk)]
        | None => []
        end call_w
  = v usx ii * v usy jj * v usz kk.
Proof.
  intros Hpp Hii Hjj Hkk.
  destruct (getNeighbors3 root pp (ii + start usx) (jj + start usy) (kk + start usz))
    as [node|] eqn:En.
  - apply getNeighbors3_Some in En as [Hn _].
    destruct (sorted_complete root store0 node Hn) as [k Hk].
    rewrite (index_consistent k node Hk).
    destruct (Z.eqb_spec (Z.of_nat k) (-1)) as [E|_]; [lia|].
    rewrite total_cons. change (total [] call_w) with (0 : Qc).
    unfold call_w, us_vx, us_vy, us_vz. cbn. ring.
  - change (total [] call_w) with (0 : Qc). symmetry. now apply (neighbours pp).
Qed.

Lemma node_weights (pp : NodePtr) :
  parent p = Some pp ->
  total (UpSampleGeneric_node root st sNodes boundaryType_ d i) call_w = 1.
Proof.
  intros Hpp.
  unfold UpSampleGeneric_node. rewrite at_i. unfold depthAndOffset. cbn [snd].
  rewrite offset_p, Hpp.
  cbn [flat_map app]. rewrite !app_nil_r, !total_app.
  rewrite !(cell_weight pp) by (exact Hpp || lia).
  assert (Hx := usData_sum boundaryType_ d ox (weights ox ltac:(repeat constructor))).
  assert (Hy := usData_sum boundaryType_ d oy (weights oy ltac:(repeat constructor))).
  assert (Hz := usData_sum boundaryType_ d oz (weights oz ltac:(repeat constructor))).
  transitivity ((v usx 0 + v usx 1) * (v usy 0 + v usy 1) * (v usz 0 + v usz 1)); [ring|].
  rewrite Hx, Hy, Hz. ring.
Qed.

End FineNode.

(** Where [UpSample] runs, the weights with which a fine node takes the
    coefficients of the neighbours of its parent sum to one: on every axis
    away from the border of the grid, and at the border under the Neumann
    boundary, provided that the neighbours missing from the tree are those
    of weight zero.  So if the coefficients of depth [d - 1] all are [c],
    [UpSample] adds exactly [c] to the coefficient of the fine node. *)
Theorem UpSample_weights_sum_to_one (root : OctNode) (store0 st : NodeStore)
    (boundaryType_ : BoundaryType) (d : nat) (X : Vector) (i : nat) (p : NodePtr)
    (ox oy oz : Z) (c : Qc) :
  let sNodes := fst (set root store0) in
  let usx := usData_of boundaryType_ d ox in
  let usy := usData_of boundaryType_ d oy in
  let usz := usData_of boundaryType_ d oz in
  (forall k q, treeNodes sNodes !! k = Some q -> nodeIndex (st q) = Z.of_nat k) ->
  (1 <= d <= maxDepth root)%nat ->
  UpSample_skips boundaryType_ d = false ->
  length X = length (treeNodes sNodes) ->
  treeNodes sNodes !! i = Some p -> depth p = d -> offset p = (ox, oy, oz) ->
  (forall o, o ∈ [ox; oy; oz] ->
     (0 < o /\ o + 1 < 2 ^ Z.of_nat d)%Z \/ boundaryType_ = BoundaryTypeNeumann) ->
  (forall pp ii jj kk,
     parent p = Some pp -> (ii < 2)%nat -> (jj < 2)%nat -> (kk < 2)%nat ->
     getNeighbors3 root pp (ii + start usx) (jj + start usy) (kk + start usz) = None ->
     v usx ii * v usy jj * v usz kk = 0) ->
  (forall k, (nodeCount_at sNodes (d - 1) <= k < nodeCount_at sNodes d)%nat ->
             at_ X (Z.of_nat k) = c) ->
  at_ (UpSample root st sNodes boundaryType_ d X) (Z.of_nat i) = at_ X (Z.of_nat i) + c.
Proof.
  intros sNodes usx usy usz. subst sNodes usx usy usz.
  intros Hidx Hd Hskip Hlen Hp Hdp Hoff Hw Hn Hc.
  unfold UpSample. rewrite Hskip. unfold UpSampleGeneric.
  destruct (sorted_lookup root store0 i p Hp) as (Hnode & _ & Hrange). rewrite Hdp in Hrange.
  assert (Htop : (nodeCount_at (fst (set root store0)) (S d)
                  <= length (treeNodes (fst (set root store0))))%nat).
  { rewrite sorted_length.
    replace (sMaxDepth (fst (set root store0))) with (S (maxDepth root))
      by (rewrite set_sorted; reflexivity).
    apply nodeCount_at_mono. lia. }
  pose proof (calls_transfer root store0 st boundaryType_ d Hidx Hd) as Hcalls.
  rewrite (UpSample_fold st (Z.of_nat (nodeCount_at (fst (set root store0)) d))
             (Z.of_nat (nodeCount_at (fst (set root store0)) (S d)))
             (Z.of_nat (nodeCount_at (fst (set root store0)) (d - 1)))
             (Z.of_nat (nodeCount_at (fst (set root store0)) d)) (length X));
    [|lia|reflexivity|exact Hcalls].
  f_equal.
  (* only the calls for the place [i] count, each with the coefficient [c] *)
  rewrite (total_ext _ _ (fun call => if (Z.of_nat i =? call_i call)%Z
                                      then c * call_w call else 0)).
  2:{ intros call Hin. destruct (Z.of_nat i =? call_i call)%Z; [|reflexivity].
      f_equal. apply (proj1 (list.Forall_forall _ _) Hcalls) in Hin as [_ Hj].
      unfold Notions.call_j in Hj |- *.
      replace (nodeIndex (st (us_node call)))
        with (Z.of_nat (Z.to_nat (nodeIndex (st (us_node call))))) by lia.
      apply Hc. lia. }
  unfold UpSampleGeneric_calls. rewrite total_flat_map.
  assert (Hpp : parent p = Some (removelast p)).
  { unfold parent. destruct p; [unfold depth in Hdp; simpl in Hdp; lia|reflexivity]. }
  rewrite (total_only _ i).
  - rewrite (total_ext _ _ (fun call => c * call_w call)).
    + transitivity (total (UpSampleGeneric_node root st (fst (set root store0))
                             boundaryType_ d i) call_w * c).
      * rewrite total_scale. apply total_ext. intros; ring.
      * rewrite (node_weights root store0 st boundaryType_ d i p ox oy oz Hidx Hp Hoff Hw Hn
                   (removelast p) Hpp). ring.
    + intros call Hin. apply list_elem_of_In in Hin.
      apply elem_of_UpSampleGeneric_node in Hin as [Hi _].
      unfold call_i. rewrite Hi, Z.eqb_refl. reflexivity.
  - apply NoDup_ListNoDup, seq_NoDup.
  - apply list_elem_of_In, in_seq. lia.
  - intros a _ Hne. rewrite (total_ext _ _ (fun _ => 0)); [apply total_zero|].
    intros call Hin. apply list_elem_of_In in Hin.
    apply elem_of_UpSampleGeneric_node in Hin as [Hi _].
    unfold call_i. rewrite Hi.
    destruct (Z.eqb_spec (Z.of_nat i) (Z.of_nat a)) as [E|_]; [lia|reflexivity].
Qed.

(** The root with its eight children under the Neumann boundary, the
    coefficient 5 at the root: the child 3, at the border of the grid on
    all three axes, receives 5. *)
Lemma UpSample_weights_sum_to_one_witness :
  let X := Q2Qc (5 # 1) :: repeat 0 8 in
  at_ (UpSample Samples.tree1 Samples.store1 Samples.sorted1 BoundaryTypeNeumann 1 X) 4
  = at_ X 4 + Q2Qc (5 # 1).
Proof.
  intros X.
  apply (UpSample_weights_sum_to_one Samples.tree1 Samples.fresh_store Samples.store1
           BoundaryTypeNeumann 1 X 4 [3]%nat 1 1 0 (Q2Qc (5 # 1))).
  - intros k q Hq.
    destruct (sorted_lookup Samples.tree1 Samples.fresh_store k q Hq) as (_ & Hst & _).
    unfold Samples.store1. rewrite Hst. reflexivity.
  - cbn. lia.
  - reflexivity.
  - reflexivity.
  - reflexivity.
  - reflexivity.
  - reflexivity.
  - intros o _. now right.
  - intros pp ii jj kk [= <-] Hii Hjj Hkk.
    destruct ii as [|[|ii]]; [| |lia]; (destruct jj as [|[|jj]]; [| |lia]);
      (destruct kk as [|[|kk]]; [| |lia]);
      first [ intros _; apply Qc_is_canon; reflexivity
            | intros H; vm_compute in H; discriminate H ].
  - intros k Hk. change (nodeCount_at (fst (set Samples.tree1 Samples.fresh_store)) (1 - 1))
      with 0%nat in Hk.
    change (nodeCount_at (fst (set Samples.tree1 Samples.fresh_store)) 1) with 1%nat in Hk.
    replace k with 0%nat by lia. reflexivity.
Defined.

End UpSampleMoreProperties.

